(** * Edge-matching puzzle solver: lookup keys, tile stores, boards, backtracker

    A shallow embedding of the solver sources (env.h, lookup.h, tile.h,
    bitwisemask.h, piece.h, piecevector.{h,cpp}, tilearraylookup*.h,
    placement.h, board.h, boardv.h, solver.h, main.cpp) together with the
    properties established about them.

    Conventions.
    - [env_word_type] is the 64-bit word of the [_ENV_BITS = 64] build; a word
      is a [Z] in [0, 2^64) and wrap-around is written out with [wrap].
    - Bit-field structs are modelled by their fields; the aliasing of a struct
      with its machine word ([value()], [lookup()]) is the packing function of
      the layout.
    - Pointers into a board are [pptr] values carrying the identity of the
      board that owns the cell; pointers to tiles are indices into the
      [tiles_] list of the tile store (a [std::list], whose nodes never move). *)

From Stdlib Require Import ZArith List Bool Lia Btauto Sorting.Sorted Permutation String.
From stdpp Require Import base option list gmap.

Local Open Scope Z_scope.

(** ** env.h *)

Definition ENV_BITS : Z := 64.

(** [env_word_type] arithmetic wraps modulo [2^ENV_BITS]. *)
Definition wrap (z : Z) : Z := z mod 2 ^ ENV_BITS.

Definition is_word (z : Z) : Prop := 0 <= z < 2 ^ ENV_BITS.

(** ** lookup.h *)

(** [_generateMask( size )]: a mask of [size] low bits. *)
Fixpoint _generateMask (size : nat) : Z :=
  match size with
  | O => 0
  | S n => Z.lor (Z.shiftl (_generateMask n) 1) 1
  end.

(** [_numBits( value )]: number of least significant bits set.  The recursion
    of the source ends at the first clear bit; a word has at most [ENV_BITS]
    bits, which bounds it here. *)
Fixpoint _numBits_aux (fuel : nat) (value : Z) : Z :=
  match fuel with
  | O => 0
  | S f => if Z.testbit value 0 then 1 + _numBits_aux f (Z.shiftr value 1) else 0
  end.

Definition _numBits (value : Z) : Z := _numBits_aux 64 value.

(** The template parameters [_LR] and [_TB] of [lookup<VALUE, _LR, _TB>]. *)
Record layout : Type := Layout { _LR : nat; _TB : nat }.

Section LookupLayout.
Variable L : layout.

Definition LEFT_EDGE : Z := _generateMask (_LR L).
Definition LEFT_EDGE_BITS : Z := _numBits LEFT_EDGE.
Definition TOP_EDGE : Z := _generateMask (_TB L).
Definition TOP_EDGE_BITS : Z := _numBits TOP_EDGE.
Definition MASK_LEFT_EDGE : Z := LEFT_EDGE.
Definition MASK_LEFT_EDGE_INV : Z := wrap (Z.lnot MASK_LEFT_EDGE).
Definition MASK_TOP_EDGE : Z := Z.shiftl TOP_EDGE LEFT_EDGE_BITS.
Definition MASK_TOP_EDGE_INV : Z := wrap (Z.lnot MASK_TOP_EDGE).
Definition MAX_INDICES : Z := Z.shiftl (Z.lor MASK_LEFT_EDGE MASK_TOP_EDGE + 1) 2.

(** Bit positions of the [right] and [bottom] one-bit fields of the
    [lookup_*_val] structs: they follow [left : _LR] and [top : _TB]. *)
Definition RIGHT_POS : Z := Z.of_nat (_LR L) + Z.of_nat (_TB L).
Definition BOTTOM_POS : Z := RIGHT_POS + 1.

(** Reading the bit-fields of a lookup word. *)
Definition lk_left (k : Z) : Z := Z.land k LEFT_EDGE.
Definition lk_top (k : Z) : Z := Z.land (Z.shiftr k (Z.of_nat (_LR L))) TOP_EDGE.
Definition lk_right (k : Z) : Z := Z.land (Z.shiftr k RIGHT_POS) 1.
Definition lk_bottom (k : Z) : Z := Z.land (Z.shiftr k BOTTOM_POS) 1.

(** Assigning a bit-field: the value is truncated to the field's width and
    the other bits of the word are kept. *)
Definition set_field (pos width : Z) (k v : Z) : Z :=
  Z.lor (Z.ldiff k (Z.shiftl (Z.ones width) pos))
        (Z.shiftl (Z.land v (Z.ones width)) pos).

Definition lk_set_left (k v : Z) : Z := set_field 0 (Z.of_nat (_LR L)) k v.
Definition lk_set_top (k v : Z) : Z := set_field (Z.of_nat (_LR L)) (Z.of_nat (_TB L)) k v.
Definition lk_set_right (k v : Z) : Z := set_field RIGHT_POS 1 k v.
Definition lk_set_bottom (k v : Z) : Z := set_field BOTTOM_POS 1 k v.

(** The word of a lookup whose four fields are given (padding bits zero). *)
Definition pack (l t r b : Z) : Z :=
  Z.lor (Z.lor l (Z.shiftl t (Z.of_nat (_LR L))))
        (Z.lor (Z.shiftl r RIGHT_POS) (Z.shiftl b BOTTOM_POS)).

(** The values the four bit-fields of a lookup can hold. *)
Definition fields_ok (l t r b : Z) : Prop :=
  0 <= l < 2 ^ Z.of_nat (_LR L) /\ 0 <= t < 2 ^ Z.of_nat (_TB L) /\
  0 <= r < 2 ^ 1 /\ 0 <= b < 2 ^ 1.
End LookupLayout.

(** The layouts of the three edge classes (namespaces [e8], [e16], [e32]). *)
Module e32.
Definition lookup_1x1 := Layout 5 5.
Definition lookup_1x2 := Layout 10 5.
Definition lookup_2x1 := Layout 5 10.
Definition lookup_2x2 := Layout 10 10.
Definition lookup_2x4 := Layout 20 10.
Definition lookup_4x2 := Layout 10 20.
Definition lookup_4x4 := Layout 20 20.
Definition lookup_4x8 := Layout 40 20.
Definition lookup_8x4 := Layout 20 40.
End e32.

Module e16.
Definition lookup_1x1 := Layout 4 4.
Definition lookup_1x2 := Layout 8 4.
Definition lookup_2x1 := Layout 4 8.
Definition lookup_2x2 := Layout 8 8.
Definition lookup_2x4 := Layout 16 8.
Definition lookup_4x2 := Layout 8 16.
Definition lookup_4x4 := Layout 16 16.
Definition lookup_4x8 := Layout 32 16.
Definition lookup_8x4 := Layout 16 32.
End e16.

Module e8.
Definition lookup_1x1 := Layout 3 3.
Definition lookup_1x2 := Layout 6 3.
Definition lookup_2x1 := Layout 3 6.
Definition lookup_2x2 := Layout 6 6.
Definition lookup_2x4 := Layout 12 6.
Definition lookup_4x2 := Layout 6 12.
Definition lookup_4x4 := Layout 12 12.
Definition lookup_4x8 := Layout 24 12.
Definition lookup_8x4 := Layout 12 24.
End e8.

(** A layout fits in a word together with its two flag bits. *)
Definition layout_ok (L : layout) : Prop :=
  (0 < _LR L)%nat /\ (0 < _TB L)%nat /\ (_LR L + _TB L + 2 <= 64)%nat.

(** ** bitwisemask.h

    A [bitwiseMask<_N>] is [_N] words; it is modelled by the non-negative
    integer whose binary digits are the concatenation of the words
    ([bits[0]] the least significant). *)

Definition mask_type := Z.

(** [setBit( bit )]: word [bit / ENV_BITS], bit [bit mod ENV_BITS]. *)
Definition setBit (m : mask_type) (bit : Z) : mask_type := Z.lor m (Z.shiftl 1 bit).

(** [copyCombine( other1, other2 )] and [add( other )]: word-wise OR. *)
Definition copyCombine (m1 m2 : mask_type) : mask_type := Z.lor m1 m2.

(** [subtract( other )]: word-wise AND-NOT. *)
Definition subtract (m1 m2 : mask_type) : mask_type := Z.ldiff m1 m2.

(** [operator &]: [true] when the masks share a bit. *)
Definition mask_and (m1 m2 : mask_type) : bool := negb (Z.land m1 m2 =? 0).

(** ** tile.h *)

(** The fields of [tile<VALUE, L, M>]: the four edge patterns of [val], the
    piece mask, and the random tie-breaker. *)
Record tile : Type := Tile {
  val_right : Z;
  val_bottom : Z;
  val_left : Z;
  val_top : Z;
  mask : mask_type;
  random : Z
}.

#[global] Instance tile_eq_dec : EqDecision tile.
Proof. solve_decision. Defined.

(** [zero()]. *)
Definition tile_zero : tile := Tile 0 0 0 0 0 0.

Section TileLayout.
Variable L : layout.

(** Bit-field widths truncate what is stored in them. *)
Definition trunc_lr (v : Z) : Z := Z.land v (LEFT_EDGE L).
Definition trunc_tb (v : Z) : Z := Z.land v (TOP_EDGE L).

(** A tile value of this layout: every pattern fits its bit-field. *)
Definition tile_wf (t : tile) : Prop :=
  0 <= val_right t < 2 ^ Z.of_nat (_LR L) /\
  0 <= val_bottom t < 2 ^ Z.of_nat (_TB L) /\
  0 <= val_left t < 2 ^ Z.of_nat (_LR L) /\
  0 <= val_top t < 2 ^ Z.of_nat (_TB L).

(** The first word of the tile struct ([right], [bottom], reserved):
    what [tile::lookup()] returns. *)
Definition tile_lookup (t : tile) : Z :=
  Z.lor (val_right t) (Z.shiftl (val_bottom t) (Z.of_nat (_LR L))).

(** The second word of the tile struct ([left], [top], reserved). *)
Definition tile_word1 (t : tile) : Z :=
  Z.lor (val_left t) (Z.shiftl (val_top t) (Z.of_nat (_LR L))).

(** [sortTilesByEdge]: compares word 1, then word 0. *)
Definition sortTilesByEdge (lhs rhs : tile) : bool :=
  if tile_word1 lhs =? tile_word1 rhs
  then tile_lookup lhs <? tile_lookup rhs
  else tile_word1 lhs <? tile_word1 rhs.
End TileLayout.

(** [sortTilesByRandom]. *)
Definition sortTilesByRandom (lhs rhs : tile) : bool := random lhs <? random rhs.

(** ** std::sort

    [std::sort( first, last, comp )] leaves the order of equivalent elements
    unspecified; it is modelled by insertion sort, and the properties below
    use only that the result is an ordered permutation of the input. *)

Section Sort.
Context {A : Type} (comp : A -> A -> bool).

Fixpoint sort_insert (x : A) (l : list A) : list A :=
  match l with
  | [] => [x]
  | y :: l' => if comp y x then y :: sort_insert x l' else x :: l
  end.

Definition std_sort (l : list A) : list A := foldr sort_insert [] l.
End Sort.

(** ** tilearraylookup.h, tilearraylookuparray.h, tilearraylookupmap.h *)

(** A tile store: the list [tiles_] and the arrays of tile pointers indexed by
    lookup value.  A tile pointer is the position of the tile in [tiles_].
    The array backend holds one (initially empty) vector per index below
    [MAX_INDICES]; the map backend holds the non-empty vectors and answers
    [at] with an empty vector for a lookup it does not hold.  Both are the
    finite map from lookup values to vectors, an absent entry being empty. *)
Record tileArrayLookup : Type := TileArrayLookup {
  tiles_ : list tile;
  arrays : gmap Z (list nat)
}.

Definition lookups_empty : tileArrayLookup := TileArrayLookup [] ∅.

(** [tiles()]. *)
Definition tiles (s : tileArrayLookup) : Z := Z.of_nat (length (tiles_ s)).

(** [at( value )]. *)
Definition lookups_at (s : tileArrayLookup) (value : Z) : list nat :=
  match arrays s !! value with
  | Some a => a
  | None => []
  end.

(** [insert_or_assign( lookup, tile )]: append to the vector at [lookup],
    creating it when the map has none. *)
Definition insert_or_assign (lookup : Z) (tile : nat) (s : tileArrayLookup) : tileArrayLookup :=
  match arrays s !! lookup with
  | Some a => TileArrayLookup (tiles_ s) (<[lookup := a ++ [tile]]> (arrays s))
  | None => TileArrayLookup (tiles_ s) (<[lookup := [tile]]> (arrays s))
  end.

Section Store.
Variable L : layout.

(** The lookup value [insert] computes for a tile: word 1 of the tile with
    the [right] and [bottom] bits set from the tile's right and bottom. *)
Definition tile_index (t : tile) : Z :=
  lk_set_bottom L
    (lk_set_right L (tile_word1 L t) (if val_right t =? 0 then 0 else 1))
    (if val_bottom t =? 0 then 0 else 1).

(** [insert( tile )]. *)
Definition insert (t : tile) (s : tileArrayLookup) : tileArrayLookup :=
  let MASK_UL_CORNER := Z.lor (MASK_LEFT_EDGE L) (MASK_TOP_EDGE L) in
  (* add tile to list *)
  let s := TileArrayLookup (tiles_ s ++ [t]) (arrays s) in
  let back := Nat.pred (length (tiles_ s)) in
  (* compute lookup value *)
  let index := tile_index t in
  let s := insert_or_assign index back s in
  (* check left edge *)
  let left := negb (Z.land (MASK_LEFT_EDGE L) index =? 0) in
  let s := if left then insert_or_assign (Z.lor (MASK_LEFT_EDGE L) index) back s else s in
  (* check top edge *)
  let top := negb (Z.land (MASK_TOP_EDGE L) index =? 0) in
  let s := if top then insert_or_assign (Z.lor (MASK_TOP_EDGE L) index) back s else s in
  (* check corner *)
  if left && top then insert_or_assign (Z.lor MASK_UL_CORNER index) back s else s.

(** [insert( first, last )]. *)
Definition insert_range (ts : list tile) (s : tileArrayLookup) : tileArrayLookup :=
  fold_left (fun s t => insert t s) ts s.

(** The lookup values a tile may be found under: its own, which packs its
    left pattern, its top pattern and the flags telling that its right and
    its bottom are not zero, and the three that replace the left pattern,
    the top pattern or both by the pattern with all bits set. *)
Definition flag (v : Z) : Z := if v =? 0 then 0 else 1.

Definition literal_key (t : tile) : Z :=
  pack L (val_left t) (val_top t) (flag (val_right t)) (flag (val_bottom t)).

Definition left_wildcard_key (t : tile) : Z :=
  pack L (LEFT_EDGE L) (val_top t) (flag (val_right t)) (flag (val_bottom t)).

Definition top_wildcard_key (t : tile) : Z :=
  pack L (val_left t) (TOP_EDGE L) (flag (val_right t)) (flag (val_bottom t)).

Definition both_wildcard_key (t : tile) : Z :=
  pack L (LEFT_EDGE L) (TOP_EDGE L) (flag (val_right t)) (flag (val_bottom t)).

Definition under_key (t : tile) (k : Z) : Prop :=
  k = literal_key t \/
  (val_left t <> 0 /\ k = left_wildcard_key t) \/
  (val_top t <> 0 /\ k = top_wildcard_key t) \/
  (val_left t <> 0 /\ val_top t <> 0 /\ k = both_wildcard_key t).

(** What [insert] appends to the array at [k] for the tile [t] it stored at
    [p], in the order of its four steps. *)
Definition new_entries (t : tile) (p : nat) (k : Z) : list nat :=
  (if bool_decide (k = literal_key t) then [p] else []) ++
  (if bool_decide (val_left t <> 0 /\ k = left_wildcard_key t) then [p] else []) ++
  (if bool_decide (val_top t <> 0 /\ k = top_wildcard_key t) then [p] else []) ++
  (if bool_decide (val_left t <> 0 /\ val_top t <> 0 /\ k = both_wildcard_key t)
   then [p] else []).

(** Every pointer of every array points to a tile of [tiles_] that may be
    found under the array's lookup value. *)
Definition store_inv (s : tileArrayLookup) : Prop :=
  forall k q, q ∈ lookups_at s k ->
    exists u, tiles_ s !! q = Some u /\ tile_wf L u /\ under_key u k.
End Store.

(** [randomize()]: every tile of [tiles_] takes the next value drawn from the
    generator (the list [draws]; a tile for which the list has no value keeps
    its own), then every array is sorted by the random values of the tiles it
    points to. *)
Fixpoint assign_random (draws : list Z) (ts : list tile) : list tile :=
  match ts, draws with
  | t :: ts', r :: draws' =>
      Tile (val_right t) (val_bottom t) (val_left t) (val_top t) (mask t) r
      :: assign_random draws' ts'
  | _, _ => ts
  end.

Definition tile_at (ts : list tile) (p : nat) : tile :=
  match ts !! p with Some t => t | None => tile_zero end.

Definition randomize_arrays (s : tileArrayLookup) : tileArrayLookup :=
  TileArrayLookup (tiles_ s)
    (std_sort (fun p q => sortTilesByRandom (tile_at (tiles_ s) p) (tile_at (tiles_ s) q))
       <$> arrays s).

Definition randomize (draws : list Z) (s : tileArrayLookup) : tileArrayLookup :=
  randomize_arrays (TileArrayLookup (assign_random draws (tiles_ s)) (arrays s)).

(** ** piece.h, piecevector.h, piecevector.cpp *)

Record piece : Type := Piece {
  piece_left : Z;
  piece_top : Z;
  piece_right : Z;
  piece_bottom : Z
}.

Definition pieceVector := list piece.

(** The four edge values of a piece. *)
Definition piece_edges (p : piece) : list Z :=
  [piece_left p; piece_top p; piece_right p; piece_bottom p].

(** The highest edge value found by the loop of [edges_count()]. *)
Definition highest_edge (pieces : pieceVector) : Z :=
  fold_left
    (fun edge p =>
       let edge := if edge <? piece_left p then piece_left p else edge in
       let edge := if edge <? piece_top p then piece_top p else edge in
       let edge := if edge <? piece_right p then piece_right p else edge in
       if edge <? piece_bottom p then piece_bottom p else edge)
    pieces 0.

(** [edges_count()]: [edge + 1] in [size_type]. *)
Definition edges_count (pieces : pieceVector) : Z := wrap (highest_edge pieces + 1).

Section GenerateLookups.
Variable L : layout.

(** The four rotations written by the chained bit-field assignments of
    [generateLookups]; each chain is evaluated from its right end, every
    assignment yielding the value its bit-field holds. *)
Definition chain (v : Z) : Z * Z * Z * Z :=
  let b := trunc_tb L v in
  let r := trunc_lr L b in
  let t := trunc_tb L r in
  let l := trunc_lr L t in
  (l, t, r, b).

Definition rotations (pieceNum : Z) (p : piece) : list tile :=
  let m := setBit 0 pieceNum in
  (* t[0].left = t[1].top = t[2].right = t[3].bottom = p.left, and so on *)
  let '(l0, t1, r2, b3) := chain (piece_left p) in
  let '(l1, t2, r3, b0) := chain (piece_top p) in
  let '(l2, t3, r0, b1) := chain (piece_right p) in
  let '(l3, t0, r1, b2) := chain (piece_bottom p) in
  [ Tile r0 b0 l0 t0 m 0; Tile r1 b1 l1 t1 m 0;
    Tile r2 b2 l2 t2 m 0; Tile r3 b3 l3 t3 m 0 ].

(** The tiles one piece contributes, given the number of corner pieces met
    before it: the slice of the sorted rotations that is inserted, and
    whether the corner counter is incremented. *)
Definition piece_tiles (corners pieceNum : Z) (p : piece) : list tile * bool :=
  let t := std_sort (sortTilesByEdge L) (rotations pieceNum p) in
  let t0 := nth 0 t tile_zero in
  (* corner piece *)
  if (0 =? val_left t0) && (0 =? val_top t0) then
    (* only want one rotation of first corner *)
    if 0 =? corners then (firstn 1 t, true) else (skipn 1 t, true)
  (* opposite edges same *)
  else if (val_left t0 =? val_right t0) && (val_top t0 =? val_bottom t0) then
    (* all edges same *)
    if val_left t0 =? val_top t0 then (firstn 1 t, false) else (firstn 2 t, false)
  (* need all rotations *)
  else (t, false).

Definition generateLookups_step
    (st : Z * Z * tileArrayLookup) (p : piece) : Z * Z * tileArrayLookup :=
  let '(corners, pieceNum, lookup) := st in
  let '(ts, corner) := piece_tiles corners pieceNum p in
  (if corner then wrap (corners + 1) else corners,
   wrap (pieceNum + 1),
   insert_range L ts lookup).

(** [generateLookups( lookup )]. *)
Definition generateLookups (pieces : pieceVector) (lookup : tileArrayLookup) : tileArrayLookup :=
  snd (fold_left generateLookups_step pieces (0, 0, lookup)).
End GenerateLookups.

(** The de-duplication policy in the words of its description: a corner piece
    has two neighbouring edges of value zero; the first corner piece met
    contributes the first of its sorted rotations and every later one the
    other three; a piece that is no corner contributes one rotation when its
    four edges are equal, two when its opposite edges are equal, and all four
    otherwise. *)
Definition is_corner (p : piece) : Prop :=
  (piece_left p = 0 /\ piece_bottom p = 0) \/ (piece_top p = 0 /\ piece_left p = 0) \/
  (piece_right p = 0 /\ piece_top p = 0) \/ (piece_bottom p = 0 /\ piece_right p = 0).

Definition all_equal (p : piece) : Prop :=
  piece_left p = piece_top p /\ piece_top p = piece_right p /\ piece_right p = piece_bottom p.

Definition opposite_equal (p : piece) : Prop :=
  piece_left p = piece_right p /\ piece_top p = piece_bottom p.

#[global] Instance is_corner_dec (p : piece) : Decision (is_corner p).
Proof. unfold is_corner. apply _. Defined.

#[global] Instance all_equal_dec (p : piece) : Decision (all_equal p).
Proof. unfold all_equal. apply _. Defined.

#[global] Instance opposite_equal_dec (p : piece) : Decision (opposite_equal p).
Proof. unfold opposite_equal. apply _. Defined.

Section GenerateLookupsSpec.
Variable L : layout.

Definition sorted_rotations (pieceNum : Z) (p : piece) : list tile :=
  std_sort (sortTilesByEdge L) (rotations L pieceNum p).

Definition policy_tiles (first_corner : bool) (pieceNum : Z) (p : piece) : list tile :=
  let t := sorted_rotations pieceNum p in
  if bool_decide (is_corner p) then (if first_corner then firstn 1 t else skipn 1 t)
  else if bool_decide (all_equal p) then firstn 1 t
  else if bool_decide (opposite_equal p) then firstn 2 t
  else t.

Fixpoint policy_store (seen_corner : bool) (pieceNum : Z) (pieces : pieceVector) : list tile :=
  match pieces with
  | [] => []
  | p :: ps =>
      policy_tiles (negb seen_corner) pieceNum p ++
      policy_store (seen_corner || bool_decide (is_corner p)) (pieceNum + 1) ps
  end.

(** The edge values of a piece fit the bit-fields of the tile type. *)
Definition piece_fits (p : piece) : Prop :=
  Forall (fun c => 0 <= c < 2 ^ Z.of_nat (_LR L) /\ 0 <= c < 2 ^ Z.of_nat (_TB L))
         (piece_edges p).
End GenerateLookupsSpec.

(** The 16 piece puzzle of [test_board]. *)
Definition test_pieces : pieceVector :=
  [ Piece 0 0 1 2; Piece 1 0 2 3; Piece 2 0 1 3; Piece 1 0 0 1;
    Piece 0 2 3 2; Piece 3 3 4 4; Piece 4 3 3 3; Piece 3 1 0 1;
    Piece 0 2 4 2; Piece 4 4 3 4; Piece 3 3 4 4; Piece 4 1 0 2;
    Piece 0 2 1 0; Piece 1 4 1 0; Piece 1 4 2 0; Piece 2 2 0 0 ].

(** ** placement.h *)

(** A pointer to a placement: null, the [junk_] placement of the board at
    address [owner], or the element [idx] of that board's [placements_]. *)
Inductive pptr : Type :=
  | PNull
  | PJunk (owner : nat)
  | PCell (owner : nat) (idx : nat).

#[global] Instance pptr_eq_dec : EqDecision pptr.
Proof. solve_decision. Defined.

Record placement : Type := Placement {
  pl_lookup : Z;
  pl_tile : option nat;
  pl_left : pptr;
  pl_top : pptr;
  pl_right : pptr;
  pl_bottom : pptr;
  pl_prev : pptr;
  pl_next : pptr
}.

(** [zero()]. *)
Definition placement_zero : placement :=
  Placement 0 None PNull PNull PNull PNull PNull PNull.

Definition with_lookup (v : Z) (p : placement) : placement :=
  Placement v (pl_tile p) (pl_left p) (pl_top p) (pl_right p) (pl_bottom p) (pl_prev p) (pl_next p).

Definition with_tile (t : option nat) (p : placement) : placement :=
  Placement (pl_lookup p) t (pl_left p) (pl_top p) (pl_right p) (pl_bottom p) (pl_prev p) (pl_next p).

(** ** board.h *)

(** [abstractBoard::type]. *)
Inductive type : Type :=
  | typeNormal | typeTopLeftCorner | typeTopEdge | typeTopRightCorner
  | typeLeftEdge | typeMiddle | typeRightEdge
  | typeBottomLeftCorner | typeBottomEdge | typeBottomRightCorner.

Definition _NO_BORDERS : Z := 0.
Definition _LEFT_BORDER : Z := 1.
Definition _TOP_BORDER : Z := 2.
Definition _RIGHT_BORDER : Z := 4.
Definition _BOTTOM_BORDER : Z := 8.

Definition type_value (ty : type) : Z :=
  match ty with
  | typeNormal => Z.lor (Z.lor (Z.lor _LEFT_BORDER _TOP_BORDER) _RIGHT_BORDER) _BOTTOM_BORDER
  | typeTopLeftCorner => Z.lor _TOP_BORDER _LEFT_BORDER
  | typeTopEdge => _TOP_BORDER
  | typeTopRightCorner => Z.lor _TOP_BORDER _RIGHT_BORDER
  | typeLeftEdge => _LEFT_BORDER
  | typeMiddle => _NO_BORDERS
  | typeRightEdge => _RIGHT_BORDER
  | typeBottomLeftCorner => Z.lor _BOTTOM_BORDER _LEFT_BORDER
  | typeBottomEdge => _BOTTOM_BORDER
  | typeBottomRightCorner => Z.lor _BOTTOM_BORDER _RIGHT_BORDER
  end.

(** [const bool left( _LEFT_BORDER & value )] and the like: whether the board
    type has the border of the given bit. *)
Definition has_border (bit : Z) (value : type) : bool :=
  negb (Z.land bit (type_value value) =? 0).

(** A board object.  [self] is the address of the object: the pointers of its
    placements name it.  The dimensions are machine words in the source; no
    board has [2^64] cells, and they are natural numbers here. *)
Record board : Type := Board {
  self : nat;
  width_ : nat;
  height_ : nat;
  solutions_ : Z;
  print_ : bool;
  quit_ : bool;
  threaded_ : bool;
  placements_ : list placement;
  junk_ : placement
}.

Definition with_placements (ps : list placement) (b : board) : board :=
  Board (self b) (width_ b) (height_ b) (solutions_ b) (print_ b) (quit_ b) (threaded_ b)
        ps (junk_ b).

Definition with_junk (j : placement) (b : board) : board :=
  Board (self b) (width_ b) (height_ b) (solutions_ b) (print_ b) (quit_ b) (threaded_ b)
        (placements_ b) j.

Definition with_solutions (n : Z) (b : board) : board :=
  Board (self b) (width_ b) (height_ b) n (print_ b) (quit_ b) (threaded_ b)
        (placements_ b) (junk_ b).

Definition setPrint (v : bool) (b : board) : board :=
  Board (self b) (width_ b) (height_ b) (solutions_ b) v (quit_ b) (threaded_ b)
        (placements_ b) (junk_ b).

Definition setQuit (v : bool) (b : board) : board :=
  Board (self b) (width_ b) (height_ b) (solutions_ b) (print_ b) v (threaded_ b)
        (placements_ b) (junk_ b).

Definition setThreaded (v : bool) (b : board) : board :=
  Board (self b) (width_ b) (height_ b) (solutions_ b) (print_ b) (quit_ b) v
        (placements_ b) (junk_ b).

(** Reading and writing through a placement pointer.  A pointer into another
    object, a null pointer and an index past the vector are outside what the
    board owns: [None]. *)
Definition deref (b : board) (p : pptr) : option placement :=
  match p with
  | PNull => None
  | PJunk o => if Nat.eqb o (self b) then Some (junk_ b) else None
  | PCell o i => if Nat.eqb o (self b) then placements_ b !! i else None
  end.

Definition assign (b : board) (p : pptr) (v : placement) : option board :=
  match p with
  | PNull => None
  | PJunk o => if Nat.eqb o (self b) then Some (with_junk v b) else None
  | PCell o i =>
      if Nat.eqb o (self b) && (i <? length (placements_ b))%nat
      then Some (with_placements (<[i := v]> (placements_ b)) b)
      else None
  end.

(** The nested loops [for x < width_] [for y < height_] of the board code. *)
Definition for_xy {S : Type} (w h : nat) (body : nat -> nat -> S -> S) (s : S) : S :=
  fold_left (fun s x => fold_left (fun s y => body x y s) (seq 0 h) s) (seq 0 w) s.

(** [at( x, y )] as an index and as a pointer; inside the loops the index is
    below [width_ * height_], the size of [placements_]. *)
Definition at_index (h x y : nat) : nat := (x * h + y)%nat.
Definition at_ptr (b : board) (x y : nat) : pptr := PCell (self b) (at_index (height_ b) x y).

Section Board.
Variable L : layout.

(** The four bit-field assignments [setType] makes to the lookup of the
    placement at [(x, y)] of a [w] by [h] board. *)
Definition set_type_fields (w h : nat) (value : type) (x y : nat) (k : Z) : Z :=
  let k := lk_set_left L k
             (if Nat.eqb 0 x && has_border _LEFT_BORDER value then 0 else LEFT_EDGE L) in
  let k := lk_set_top L k
             (if Nat.eqb 0 y && has_border _TOP_BORDER value then 0 else TOP_EDGE L) in
  let k := lk_set_right L k
             (if Nat.eqb x (w - 1) && has_border _RIGHT_BORDER value then 0 else 1) in
  lk_set_bottom L k
    (if Nat.eqb y (h - 1) && has_border _BOTTOM_BORDER value then 0 else 1).

(** [setType( value )]. *)
Definition setType (value : type) (b : board) : board :=
  let w := width_ b in
  let h := height_ b in
  with_placements
    (for_xy w h
       (fun x y ps =>
          alter (fun p => with_lookup (set_type_fields w h value x y (pl_lookup p)) p)
                (at_index h x y) ps)
       (placements_ b))
    b.

(** [initialize()]. *)
Definition initialize (b : board) : board :=
  let w := width_ b in
  let h := height_ b in
  let b := with_placements (replicate (w * h) placement_zero) b in
  let b :=
    with_placements
      (for_xy w h
         (fun x y ps =>
            alter
              (fun p =>
                 Placement (pl_lookup p) (pl_tile p)
                   (if (0 <? x)%nat then at_ptr b (x - 1) y else PJunk (self b))
                   (if (0 <? y)%nat then at_ptr b x (y - 1) else PJunk (self b))
                   (if (x <? w - 1)%nat then at_ptr b (x + 1) y else PJunk (self b))
                   (if (y <? h - 1)%nat then at_ptr b x (y + 1) else PJunk (self b))
                   (pl_prev p) (pl_next p))
              (at_index h x y) ps)
         (placements_ b))
      b in
  setType typeNormal b.

(** [generateTilePattern()]: [for ( i = width_ * height_; i--; )]. *)
Definition generateTilePattern (b : board) : board :=
  let n := (width_ b * height_ b)%nat in
  with_placements
    (fold_left
       (fun ps i =>
          alter
            (fun p =>
               Placement (pl_lookup p) (pl_tile p)
                 (pl_left p) (pl_top p) (pl_right p) (pl_bottom p)
                 (if (0 <? i)%nat then PCell (self b) (i - 1) else PNull)
                 (if (i <? n - 1)%nat then PCell (self b) (i + 1) else PNull))
            i ps)
       (rev (seq 0 n)) (placements_ b))
    b.

(** [board( w, h, lookups )], constructed at address [addr]. *)
Definition board_new (addr w h : nat) : board :=
  generateTilePattern
    (initialize (Board addr w h 0 false false false [] placement_zero)).

(** [board( const _Myt &other )], constructed at address [addr].  The base
    part is [abstractBoard( other )]; the cells are built anew and take the
    lookup and the tile of the cell of [other] at the same coordinates. *)
Definition board_copy (addr : nat) (other : board) : board :=
  let b :=
    generateTilePattern
      (initialize
         (Board addr (width_ other) (height_ other) 0 (print_ other) (quit_ other) false
                [] placement_zero)) in
  with_placements
    (for_xy (width_ b) (height_ b)
       (fun x y ps =>
          match placements_ other !! at_index (height_ other) x y with
          | Some p0 =>
              alter (fun p => with_tile (pl_tile p0) (with_lookup (pl_lookup p0) p))
                    (at_index (height_ b) x y) ps
          | None => ps
          end)
       (placements_ b))
    b.

(** [placement::place( t )] on the placement [p] of board [b]; [t] points
    to the tile [tl].  The result is the [next] pointer and the board. *)
Definition place (t : nat) (tl : tile) (p : pptr) (b : board) : option (pptr * board) :=
  this ← deref b p;
  (* set placement *)
  b ← assign b p (with_tile (Some t) this);
  (* update lookups of adjacent placements *)
  this ← deref b p;
  r ← deref b (pl_right this);
  b ← assign b (pl_right this)
        (with_lookup
           (Z.lor (Z.land (pl_lookup r) (MASK_LEFT_EDGE_INV L))
                  (Z.land (MASK_LEFT_EDGE L) (tile_lookup L tl))) r);
  this ← deref b p;
  bt ← deref b (pl_bottom this);
  b ← assign b (pl_bottom this)
        (with_lookup
           (Z.lor (Z.land (pl_lookup bt) (MASK_TOP_EDGE_INV L))
                  (Z.land (MASK_TOP_EDGE L) (tile_lookup L tl))) bt);
  this ← deref b p;
  Some (pl_next this, b).
End Board.

(** ** The backtracker: [board::solve_for], [board::solve] *)

(** What the statements below observe of a run, next to the program state:
    which tile the loop of [solve_for] looked at in which placement, and the
    tiles the board held each time a solution was reached (by [complete()] or
    by the printing branch). *)
Inductive event : Type :=
  | Visit (p : pptr) (t : nat)
  | Completed (held : list (option nat))
  | Printed (held : list (option nat)).

(** The state a run works on: the board, the output tile store of a
    composition board, the solutions written to standard output (the masks
    printed for the placements, one list per solution), and the events; the
    last two are kept newest first. *)
Record world : Type := World {
  w_board : board;
  w_output : tileArrayLookup;
  w_stdout : list (list mask_type);
  w_events : list event
}.

Definition with_board (b : board) (w : world) : world :=
  World b (w_output w) (w_stdout w) (w_events w).

Definition with_output (s : tileArrayLookup) (w : world) : world :=
  World (w_board w) s (w_stdout w) (w_events w).

Definition log (e : event) (w : world) : world :=
  World (w_board w) (w_output w) (w_stdout w) (e :: w_events w).

(** How a call ends: it returns, the process exits ([exit( EXIT_SUCCESS )]),
    a pointer or index outside the board or the store is used, or the
    recursion is deeper than the bound it was given. *)
Inductive outcome : Type :=
  | Done (w : world)
  | Exited (w : world)
  | Fault
  | OutOfFuel.

Definition and_then (o : outcome) (k : world -> outcome) : outcome :=
  match o with
  | Done w => k w
  | _ => o
  end.

(** [abstractBoard::complete()]. *)
Definition complete (w : world) : outcome :=
  Done (with_board (with_solutions (wrap (solutions_ (w_board w) + 1)) (w_board w)) w).

Definition held_tiles (b : board) : list (option nat) := pl_tile <$> placements_ b.

(** The printing branch of [solve_for]: print the tile of every placement,
    exit when quitting, otherwise count the solution. *)
Definition print_solution (lookups : tileArrayLookup) (w : world) : outcome :=
  let b := w_board w in
  match mapM (fun p => t ← pl_tile p; tl ← tiles_ lookups !! t; Some (mask tl)) (placements_ b) with
  | None => Fault
  | Some printed =>
      let w := World b (w_output w) (printed :: w_stdout w) (w_events w) in
      if quit_ b then Exited w
      else Done (with_board (with_solutions (wrap (solutions_ b + 1)) b) w)
  end.

Section Solver.
Variable L : layout.
(** The tile store [lookups_] points to; it is not written during a solve. *)
Variable lookups : tileArrayLookup.
(** The virtual [complete()] of the board being solved. *)
Variable on_complete : world -> outcome.

(** The body of the loop of [solve_for] for the tile pointer [t]; [rec] is the
    recursive call of [solve_for].  [Done] without a placement is the
    [continue] of the source. *)
Definition try_tile (rec : pptr -> mask_type -> world -> outcome)
    (p : pptr) (m : mask_type) (t : nat) (w : world) : outcome :=
  match tiles_ lookups !! t with
  | None => Fault
  | Some tl =>
      let w := log (Visit p t) w in
      (* check if this tile can be placed (i.e. all pieces unused) *)
      if mask_and m (mask tl) then Done w
      else
        (* place it! *)
        match place L t tl p (w_board w) with
        | None => Fault
        | Some (next, b) =>
            let w := with_board b w in
            match next with
            | PNull =>
                (* otherwise we are complete! *)
                if print_ b
                then print_solution lookups (log (Printed (held_tiles b)) w)
                else on_complete (log (Completed (held_tiles b)) w)
            | _ =>
                (* update our mask and solve next placement *)
                rec next (copyCombine m (mask tl)) w
            end
        end
  end.

(** The loop [for ( i = tiles->size(); i--; )] over the vector [tiles]. *)
Fixpoint iterate (rec : pptr -> mask_type -> world -> outcome)
    (p : pptr) (m : mask_type) (tiles : list nat) (i : nat) (w : world) : outcome :=
  match i with
  | O => Done w
  | S i' =>
      match tiles !! i' with
      | None => Fault
      | Some t => and_then (try_tile rec p m t w) (iterate rec p m tiles i')
      end
  end.

(** [solve_for( p, mask )].  [fuel] bounds the depth of the recursion. *)
Fixpoint solve_for (fuel : nat) (p : pptr) (m : mask_type) (w : world) : outcome :=
  match fuel with
  | O => OutOfFuel
  | S fuel' =>
      match deref (w_board w) p with
      | None => Fault
      | Some this =>
          let tiles := lookups_at lookups (pl_lookup this) in
          iterate (solve_for fuel') p m tiles (length tiles) w
      end
  end.
End Solver.

(** The address of the [n]-th node of a list of boards a board at [addr]
    builds while solving: any address that is neither the board's nor another
    node's. *)
Definition node_addr (addr n : nat) : nat := (addr + 1 + n)%nat.

Section Solve.
Variable L : layout.
Variable lookups : tileArrayLookup.

(** The bound on the recursion depth given to [solve_for]: one call per
    placement. *)
Definition depth (b : board) : nat := length (placements_ b).

(** The workers of the threaded [solve()]: for each tile at the first
    placement, from the last to the first, a copy of the board takes the
    tile at (0, 0) and is solved from the next placement on.  Each worker
    writes only its own board; the workers are run one after the other, in
    the order they are launched.  The result is the list of the workers'
    boards and the shared state. *)
Fixpoint solve_workers (this : board) (tiles : list nat) (i : nat)
    (boards : list board) (w : world) : option (list board) * outcome :=
  match i with
  | O => (Some boards, Done w)
  | S i' =>
      match tiles !! i' with
      | None => (None, Fault)
      | Some t =>
          match tiles_ lookups !! t with
          | None => (None, Fault)
          | Some tl =>
              (* generate board *)
              let b := board_copy L (node_addr (self this) (length boards)) this in
              (* schedule work *)
              match place L t tl (at_ptr b 0 0) b with
              | None => (None, Fault)
              | Some (next, b) =>
                  match solve_for L lookups complete (depth b) next (mask tl) (with_board b w) with
                  | Done w' =>
                      solve_workers this tiles i' (boards ++ [w_board w']) (with_board this w')
                  | o => (None, o)
                  end
              end
          end
      end
  end.

(** [board::solve()]. *)
Definition solve (w : world) : outcome :=
  let this := w_board w in
  match placements_ this !! 0%nat with
  | None => Fault
  | Some p =>
      (* non-threaded implementation *)
      if negb (threaded_ this) then
        solve_for L lookups complete (depth this) (PCell (self this) 0) 0 w
      (* solve using thread on each placement *)
      else
        let tiles := lookups_at lookups (pl_lookup p) in
        match solve_workers this tiles (length tiles) [] w with
        | (Some boards, Done w') =>
            (* sum solutions *)
            Done (with_board
                    (with_solutions
                       (fold_left (fun s b => wrap (s + solutions_ b)) boards (solutions_ this))
                       this) w')
        | (_, o) => o
        end
  end.
End Solve.



(** The boards' tiles of the solutions reached, in the order they were reached. *)
Definition solutions_reached (events : list event) : list (list (option nat)) :=
  rev (omap (fun e =>
               match e with
               | Completed held => Some held
               | Printed held => Some held
               | Visit _ _ => None
               end) events).

(** The solution counter after [n] solutions counted from [s]. *)
Definition count_up (n : nat) (s : Z) : Z := Nat.iter n (fun s => wrap (s + 1)) s.

(** From the world [wd] to the world [wd'] events were logged, and the
    solution counter of the board was incremented once for each solution
    among them. *)
Definition counted (wd wd' : world) : Prop :=
  exists new, w_events wd' = new ++ w_events wd /\
              solutions_ (w_board wd') =
              count_up (length (solutions_reached new)) (solutions_ (w_board wd)).

(** How a run ended: whether the process exited, the solution counter of the
    board, and the number of solutions written to standard output. *)
Definition outcome_summary (o : outcome) : option (bool * Z * nat) :=
  match o with
  | Done w => Some (false, solutions_ (w_board w), length (w_stdout w))
  | Exited w => Some (true, solutions_ (w_board w), length (w_stdout w))
  | _ => None
  end.

Definition outcome_events (o : outcome) : list event :=
  match o with
  | Done w => w_events w
  | Exited w => w_events w
  | _ => []
  end.

(** A world holding just a board. *)
Definition world_of (b : board) : world := World b lookups_empty [] [].

(** The solution count [solve()] leaves in a fresh [w] by [h] board. *)
Definition count_solutions (L : layout) (lookups : tileArrayLookup)
    (threaded : bool) (ty : type) (w h : nat) : option Z :=
  match solve L lookups (world_of (setType L ty (setThreaded threaded (board_new L 0 w h)))) with
  | Done w' => Some (solutions_ (w_board w'))
  | _ => None
  end.

(** ** Arithmetic on bit-fields

    An expression that reads a bit-field of [width] bits undergoes integral
    promotion: its type is [int] when [int] holds every value of the field
    ([width <= 31]), [unsigned int] when the field has 32 bits, and the
    declared type of the field, [env_word_type], beyond.  A left shift is
    computed in the promoted type of its left operand.  For [int] the value
    taken is the two's-complement one, the product modulo [2^32] read as a
    signed number: the language defines it so from C++20 on (before, a
    product that [unsigned int] cannot hold is left undefined).  A shift of
    an [unsigned int] by 32 is undefined as well; no bit-field of 32 bits is
    shifted by the program. *)
Definition to_int (z : Z) : Z := (z + 2 ^ 31) mod 2 ^ 32 - 2 ^ 31.

Definition to_unsigned_int (z : Z) : Z := z mod 2 ^ 32.

Definition bitfield_shl (width : nat) (v count : Z) : Z :=
  if (width <=? 31)%nat then to_int (Z.shiftl v count)
  else if (width =? 32)%nat then to_unsigned_int (Z.shiftl v count)
  else wrap (Z.shiftl v count).

(** ** boardv.h: the vertical composition board *)

(** The board types a composition board solves, in the order of [solve()]. *)
Definition composition_types : list type :=
  [ typeTopLeftCorner; typeTopEdge; typeTopRightCorner;
    typeLeftEdge; typeMiddle; typeRightEdge;
    typeBottomLeftCorner; typeBottomEdge; typeBottomRightCorner ].

Section Composition.
(** [Lin] is the layout of the tiles placed, [Lout] of the tiles made. *)
Variables Lin Lout : layout.
Variable lookups : tileArrayLookup.

(** The tiles [p0_] and [p1_] hold, [p1_] being the placement at [(x1, y1)]. *)
Definition held_pair (x1 y1 : nat) (b : board) : option (tile * tile) :=
  p0 ← deref b (at_ptr b 0 0);
  p1 ← deref b (at_ptr b x1 y1);
  t0 ← pl_tile p0;
  t1 ← pl_tile p1;
  tl0 ← tiles_ lookups !! t0;
  tl1 ← tiles_ lookups !! t1;
  Some (tl0, tl1).

(** [verticalBoard::complete()]: the tile made of [p0_] above [p1_].  The
    left and right patterns of [p1_] are bit-fields of [_LR Lin] bits, shifted
    in their promoted type; the result is stored in a bit-field of [_LR Lout]
    bits. *)
Definition vertical_tile (t0 t1 : tile) : tile :=
  Tile (trunc_lr Lout
          (Z.lor (bitfield_shl (_LR Lin) (val_right t1) (LEFT_EDGE_BITS Lin)) (val_right t0)))
       (trunc_tb Lout (val_bottom t1))
       (trunc_lr Lout
          (Z.lor (bitfield_shl (_LR Lin) (val_left t1) (LEFT_EDGE_BITS Lin)) (val_left t0)))
       (trunc_tb Lout (val_top t0))
       (copyCombine (mask t0) (mask t1))
       0.

Definition vertical_complete (w : world) : outcome :=
  match held_pair 0 1 (w_board w) with
  | None => Fault
  | Some (t0, t1) => Done (with_output (insert Lout (vertical_tile t0 t1) (w_output w)) w)
  end.

(** Modelled from the spec: [horizontalBoard::complete()] of boardh.h, which
    is not among the sources.  A horizontal board is a 2 by 1 grid; when it
    is filled the two tiles are fused into one whose edge patterns are the
    concatenation of the component tiles' outer edges and whose mask is the
    union of the two.  The left tile takes the low bits, as the upper tile
    does in [verticalBoard::complete()]. *)
Definition horizontal_tile (t0 t1 : tile) : tile :=
  Tile (trunc_lr Lout (val_right t1))
       (trunc_tb Lout (Z.lor (Z.shiftl (val_bottom t1) (TOP_EDGE_BITS Lin)) (val_bottom t0)))
       (trunc_lr Lout (val_left t0))
       (trunc_tb Lout (Z.lor (Z.shiftl (val_top t1) (TOP_EDGE_BITS Lin)) (val_top t0)))
       (copyCombine (mask t0) (mask t1))
       0.

(** Modelled from the spec: the [complete()] of the horizontal board. *)
Definition horizontal_complete (w : world) : outcome :=
  match held_pair 1 0 (w_board w) with
  | None => Fault
  | Some (t0, t1) => Done (with_output (insert Lout (horizontal_tile t0 t1) (w_output w)) w)
  end.

(** [verticalBoard::solve()]: a copy of the board for each of the nine board
    types, each solved from [p0_] with the empty mask.  The threaded branch
    launches the same calls; they are run here in launch order, every
    insertion into the output store being serialized by its lock. *)
Definition composition_solve (on_complete : world -> outcome) (w : world) : outcome :=
  let '(this, boards) :=
    fold_left
      (fun '(this, boards) ty =>
         let this := setType Lin ty this in
         (this, boards ++ [board_copy Lin (node_addr (self this) (length boards)) this]))
      composition_types (w_board w, []) in
  and_then
    (fold_left
       (fun o b =>
          and_then o (fun w =>
            solve_for Lin lookups on_complete (depth b) (at_ptr b 0 0) 0 (with_board b w)))
       boards (Done (with_board this w)))
    (fun w => Done (with_board this w)).

(** The output store a vertical board fills, starting from an empty one. *)
Definition verticalBoard_output (threaded : bool) : option tileArrayLookup :=
  match composition_solve vertical_complete
          (world_of (setThreaded threaded (board_new Lin 0 1 2))) with
  | Done w => Some (w_output w)
  | _ => None
  end.

(** Modelled from the spec: the output store a horizontal board (a 2 by 1
    grid solved like the vertical board) fills, starting from an empty one. *)
Definition horizontalBoard_output (threaded : bool) : option tileArrayLookup :=
  match composition_solve horizontal_complete
          (world_of (setThreaded threaded (board_new Lin 0 2 1))) with
  | Done w => Some (w_output w)
  | _ => None
  end.
End Composition.

(** ** solver.h: the tile store types of each edge class *)

Inductive edge_class : Type := edges_8 | edges_16 | edges_32.

(** The number of edge values of a class (the highest one is reserved). *)
Definition class_edges (E : edge_class) : Z :=
  match E with edges_8 => 8 | edges_16 => 16 | edges_32 => 32 end.

Inductive tile_size : Type :=
  | size_1x1 | size_1x2 | size_2x1 | size_2x2 | size_2x4 | size_4x2
  | size_4x4 | size_4x8 | size_8x4.

Inductive backend : Type :=
  | tileArrayLookupArray | tileArrayLookupVector | tileArrayLookupMap.

(** The typedefs [lookup_1x1_type] ... [lookup_8x4_type] of
    [e32::tileArrayLookups], [e16::tileArrayLookups], [e8::tileArrayLookups]. *)
Definition tileArrayLookups (E : edge_class) (sz : tile_size) : backend :=
  match E, sz with
  | edges_32, size_1x1 => tileArrayLookupArray
  | edges_32, size_1x2 => tileArrayLookupVector
  | edges_32, size_2x1 => tileArrayLookupVector
  | edges_32, size_2x2 => tileArrayLookupVector
  | edges_32, size_2x4 => tileArrayLookupMap
  | edges_32, size_4x2 => tileArrayLookupMap
  | edges_32, size_4x4 => tileArrayLookupMap
  | edges_32, size_4x8 => tileArrayLookupMap
  | edges_32, size_8x4 => tileArrayLookupMap
  | edges_16, size_1x1 => tileArrayLookupArray
  | edges_16, size_1x2 => tileArrayLookupVector
  | edges_16, size_2x1 => tileArrayLookupVector
  | edges_16, size_2x2 => tileArrayLookupVector
  | edges_16, size_2x4 => tileArrayLookupMap
  | edges_16, size_4x2 => tileArrayLookupMap
  | edges_16, size_4x4 => tileArrayLookupMap
  | edges_16, size_4x8 => tileArrayLookupMap
  | edges_16, size_8x4 => tileArrayLookupMap
  | edges_8, size_1x1 => tileArrayLookupArray
  | edges_8, size_1x2 => tileArrayLookupArray
  | edges_8, size_2x1 => tileArrayLookupArray
  | edges_8, size_2x2 => tileArrayLookupVector
  | edges_8, size_2x4 => tileArrayLookupVector
  | edges_8, size_4x2 => tileArrayLookupVector
  | edges_8, size_4x4 => tileArrayLookupMap
  | edges_8, size_4x8 => tileArrayLookupMap
  | edges_8, size_8x4 => tileArrayLookupMap
  end.

(** ** main.cpp: the choice of mask and edge class *)

Inductive mask_class : Type := mask_32 | mask_64 | mask_128 | mask_256 | mask_512.

(** What the driver does with the loaded pieces: it solves with the tile store
    types of an edge class and the mask of a width, or prints a line and
    solves nothing. *)
Inductive dispatch : Type :=
  | Solves (M : mask_class) (E : edge_class)
  | Prints (line : string).

(** [solve_for_mask<M>( w, h, pieces )]. *)
Definition solve_for_mask (M : mask_class) (pieces : pieceVector) : dispatch :=
  let edgesCount := edges_count pieces in
  (* the 8th (or 16th or 32nd) edge is reserved to mean "any non-zero edge" *)
  if edgesCount <? 8 then Solves M edges_8
  else if edgesCount <? 16 then Solves M edges_16
  else if edgesCount <? 32 then Solves M edges_32
  else Prints "too many edges!".

(** The end of [main]: determine mask size (based on piece count). *)
Definition main_dispatch (pieces : pieceVector) : dispatch :=
  let size := Z.of_nat (length pieces) in
  if size <=? 32 then solve_for_mask mask_32 pieces
  else if size <=? 64 then solve_for_mask mask_64 pieces
  else if size <=? 128 then solve_for_mask mask_128 pieces
  else if size <=? 256 then solve_for_mask mask_256 pieces
  else if size <=? 512 then solve_for_mask mask_512 pieces
  else Prints "too many pieces!".

(** The edge values of the loaded pieces, and what it means for [e] to be the
    highest of them. *)
Definition all_edges (pieces : pieceVector) : list Z := flat_map piece_edges pieces.

Definition is_max_edge (pieces : pieceVector) (e : Z) : Prop :=
  e ∈ all_edges pieces /\ Forall (fun c => c <= e) (all_edges pieces).

(** Every edge value was read into an [env_word_type]. *)
Definition pieces_wf (pieces : pieceVector) : Prop := Forall is_word (all_edges pieces).


(** ** What the board code establishes: the shape of a board *)

Section BoardShape.
Variable L : layout.
Variables (addr w h : nat).

(** The lookup [setType] gives the placement at [(x, y)]. *)
Definition type_lookup (value : type) (x y : nat) : Z :=
  pack L
    (if Nat.eqb 0 x && has_border _LEFT_BORDER value then 0 else LEFT_EDGE L)
    (if Nat.eqb 0 y && has_border _TOP_BORDER value then 0 else TOP_EDGE L)
    (if Nat.eqb x (w - 1) && has_border _RIGHT_BORDER value then 0 else 1)
    (if Nat.eqb y (h - 1) && has_border _BOTTOM_BORDER value then 0 else 1).

(** The six pointers of the placement at [(x, y)] of the board at [addr], as
    [initialize] and [generateTilePattern] set them. *)
Definition cell_links (x y : nat) (c : placement) : Prop :=
  pl_left c = (if (0 <? x)%nat then PCell addr (at_index h (x - 1) y) else PJunk addr) /\
  pl_top c = (if (0 <? y)%nat then PCell addr (at_index h x (y - 1)) else PJunk addr) /\
  pl_right c = (if (x <? w - 1)%nat then PCell addr (at_index h (x + 1) y) else PJunk addr) /\
  pl_bottom c = (if (y <? h - 1)%nat then PCell addr (at_index h x (y + 1)) else PJunk addr) /\
  pl_prev c = (if (0 <? at_index h x y)%nat then PCell addr (at_index h x y - 1) else PNull) /\
  pl_next c = (if (at_index h x y <? w * h - 1)%nat
               then PCell addr (at_index h x y + 1) else PNull).

(** The placement [initialize] and [generateTilePattern] build at [(x, y)]. *)
Definition fresh_cell (x y : nat) : placement :=
  Placement (type_lookup typeNormal x y) None
    (if (0 <? x)%nat then PCell addr (at_index h (x - 1) y) else PJunk addr)
    (if (0 <? y)%nat then PCell addr (at_index h x (y - 1)) else PJunk addr)
    (if (x <? w - 1)%nat then PCell addr (at_index h (x + 1) y) else PJunk addr)
    (if (y <? h - 1)%nat then PCell addr (at_index h x (y + 1)) else PJunk addr)
    (if (0 <? at_index h x y)%nat then PCell addr (at_index h x y - 1) else PNull)
    (if (at_index h x y <? w * h - 1)%nat then PCell addr (at_index h x y + 1) else PNull).

End BoardShape.

Section Search.
Variable L : layout.
Variable lookups : tileArrayLookup.
Variables (addr w h : nat).
Variable value : type.
(** The [print_] and [quit_] options of the board. *)
Variables (pr qt : bool).

(** The tile a tile pointer points to. *)
Definition tile_of (q : nat) : tile := tile_at (tiles_ lookups) q.

(** The state of a board in the middle of a solve, its first placements
    holding the tiles [a]: every placement has the pointers of the board; its
    lookup has the two border flags of its position, the left pattern its
    left neighbour dictates when that neighbour is one of the first [kl]
    placements (or the one [setType] gave it in the first column), and
    likewise the top pattern for the first [ku]; each of the first [kt]
    placements points to its tile. *)
Definition board_state (a : list nat) (kt kl ku : nat) (b : board) : Prop :=
  self b = addr /\ width_ b = w /\ height_ b = h /\ print_ b = pr /\ quit_ b = qt /\
  length (placements_ b) = (w * h)%nat /\
  forall x y, (x < w)%nat -> (y < h)%nat ->
    exists c, placements_ b !! at_index h x y = Some c /\
      cell_links addr w h x y c /\
      (exists l t,
         pl_lookup c =
           pack L l t
             (if Nat.eqb x (w - 1) && has_border _RIGHT_BORDER value then 0 else 1)
             (if Nat.eqb y (h - 1) && has_border _BOTTOM_BORDER value then 0 else 1) /\
         0 <= l < 2 ^ Z.of_nat (_LR L) /\ 0 <= t < 2 ^ Z.of_nat (_TB L) /\
         (x = 0%nat -> l = if has_border _LEFT_BORDER value then 0 else LEFT_EDGE L) /\
         ((0 < x)%nat -> (at_index h (x - 1) y < kl)%nat ->
            l = val_right (tile_of (nth (at_index h (x - 1) y) a 0%nat))) /\
         (y = 0%nat -> t = if has_border _TOP_BORDER value then 0 else TOP_EDGE L) /\
         ((0 < y)%nat -> (at_index h x (y - 1) < ku)%nat ->
            t = val_bottom (tile_of (nth (at_index h x (y - 1)) a 0%nat)))) /\
      ((at_index h x y < kt)%nat -> pl_tile c = a !! at_index h x y).

(** The state at the entry of [solve_for] for the placement that follows
    those holding [a]. *)
Definition board_inv (a : list nat) (b : board) : Prop :=
  board_state a (length a) (length a) (length a) b.

(** Every tile pointer of [a] points into the store. *)
Definition valid_ptrs (a : list nat) : Prop :=
  Forall (fun q => is_Some (tiles_ lookups !! q)) a.

(** The lookup of the placement that follows those holding [a]. *)
Definition cell_key (a : list nat) : Z :=
  let i := length a in
  let x := (i / h)%nat in
  let y := (i mod h)%nat in
  pack L
    (if Nat.eqb 0 x then (if has_border _LEFT_BORDER value then 0 else LEFT_EDGE L)
     else val_right (tile_of (nth (i - h) a 0%nat)))
    (if Nat.eqb 0 y then (if has_border _TOP_BORDER value then 0 else TOP_EDGE L)
     else val_bottom (tile_of (nth (i - 1) a 0%nat)))
    (if Nat.eqb x (w - 1) && has_border _RIGHT_BORDER value then 0 else 1)
    (if Nat.eqb y (h - 1) && has_border _BOTTOM_BORDER value then 0 else 1).

(** The backtracking search as a function of the tiles placed so far: the
    events of [solve_for] from the placement that follows those holding [a],
    in the order they happen, and whether the process exits. *)
Definition search_tile (rec : list nat -> mask_type -> list event * bool)
    (a : list nat) (m : mask_type) (q : nat) : list event * bool :=
  let p := PCell addr (length a) in
  if mask_and m (mask (tile_of q)) then ([Visit p q], false)
  else if (S (length a) =? w * h)%nat then
    if pr then ([Visit p q; Printed (Some <$> a ++ [q])], qt)
    else ([Visit p q; Completed (Some <$> a ++ [q])], false)
  else
    let '(evs, ex) := rec (a ++ [q]) (copyCombine m (mask (tile_of q))) in
    (Visit p q :: evs, ex).

Fixpoint search_iterate (rec : list nat -> mask_type -> list event * bool)
    (a : list nat) (m : mask_type) (tiles : list nat) (i : nat) : list event * bool :=
  match i with
  | O => ([], false)
  | S i' =>
      match tiles !! i' with
      | None => ([], false)
      | Some q =>
          let '(evs, ex) := search_tile rec a m q in
          if ex then (evs, true)
          else let '(evs', ex') := search_iterate rec a m tiles i' in (evs ++ evs', ex')
      end
  end.

Fixpoint search (rem : nat) (a : list nat) (m : mask_type) : list event * bool :=
  match rem with
  | O => ([], false)
  | S rem' =>
      let tiles := lookups_at lookups (cell_key a) in
      search_iterate (search rem') a m tiles (length tiles)
  end.

(** The tiles [a] fit the first [length a] placements: each is a tile of the
    store whose left pattern is the right pattern of its left neighbour and
    whose top pattern is the bottom pattern of its upper neighbour, with
    pattern zero on every side that is a border of the board type. *)
Definition fits (a : list nat) : Prop :=
  forall x y, (x < w)%nat -> (y < h)%nat -> (at_index h x y < length a)%nat ->
    let t := tile_of (nth (at_index h x y) a 0%nat) in
    is_Some (tiles_ lookups !! nth (at_index h x y) a 0%nat) /\
    ((0 < x)%nat -> val_left t = val_right (tile_of (nth (at_index h (x - 1) y) a 0%nat))) /\
    ((0 < y)%nat -> val_top t = val_bottom (tile_of (nth (at_index h x (y - 1)) a 0%nat))) /\
    (x = 0%nat -> has_border _LEFT_BORDER value = true -> val_left t = 0) /\
    (y = 0%nat -> has_border _TOP_BORDER value = true -> val_top t = 0) /\
    (x = (w - 1)%nat -> has_border _RIGHT_BORDER value = true -> val_right t = 0) /\
    (y = (h - 1)%nat -> has_border _BOTTOM_BORDER value = true -> val_bottom t = 0).

(** The mask [solve_for] has built when the tiles [a] are placed, starting
    from [m0], and the test it made before placing each of them. *)
Definition path_mask (m0 : mask_type) (a : list nat) : mask_type :=
  fold_left (fun m q => copyCombine m (mask (tile_of q))) a m0.

Definition masks_ok (m0 : mask_type) (a : list nat) : Prop :=
  forall k q, a !! k = Some q -> Z.land (path_mask m0 (take k a)) (mask (tile_of q)) = 0.

(** No piece is used twice: the masks of the tiles [a] share no bit with each
    other nor with the mask the solve started from. *)
Definition pieces_distinct (m0 : mask_type) (a : list nat) : Prop :=
  (forall k q, a !! k = Some q -> Z.land m0 (mask (tile_of q)) = 0) /\
  (forall j k q q', (j < k)%nat -> a !! j = Some q -> a !! k = Some q' ->
     Z.land (mask (tile_of q)) (mask (tile_of q')) = 0).

(** What holds of the tiles [held] a board shows at a solution. *)
Definition solution_ok (m0 : mask_type) (held : list (option nat)) : Prop :=
  exists a, held = Some <$> a /\ length a = (w * h)%nat /\ fits a /\ pieces_distinct m0 a.

(** What holds of an event: nothing of a visit, [solution_ok] of the tiles
    shown at a solution. *)
Definition event_ok (m0 : mask_type) (e : event) : Prop :=
  match e with
  | Visit _ _ => True
  | Completed held => solution_ok m0 held
  | Printed held => solution_ok m0 held
  end.

(** What the backtracker needs of the [complete()] of its board: called on a
    board whose placements all hold tiles, it returns and leaves the
    placements and the events as they are. *)
Definition complete_ok (on_complete : world -> outcome) : Prop :=
  forall a wd, length a = (w * h)%nat -> valid_ptrs a -> board_inv a (w_board wd) ->
    exists wd', on_complete wd = Done wd' /\ board_inv a (w_board wd') /\
                w_events wd' = w_events wd.

(** The call with outcome [o], started in the world [wd], behaves as the
    search result [r] says: it returns, or exits when [r] says so, having
    logged the events of [r], and leaves the board in the state of [a]. *)
Definition run_as (o : outcome) (r : list event * bool) (wd : world) (a : list nat) : Prop :=
  exists wd', o = (if snd r then Exited wd' else Done wd') /\
              w_events wd' = rev (fst r) ++ w_events wd /\
              board_inv a (w_board wd').
End Search.




(** The patterns with all bits set are no patterns of tiles. *)
Definition no_wildcard (L : layout) (t : tile) : Prop :=
  val_right t <> LEFT_EDGE L /\ val_bottom t <> TOP_EDGE L.

(** ** board.cpp: [test_board_impl]

    The numbers the test compares with its expected values, in the order of
    its assertions: the tile count of each store it builds and the solution
    count of each board it solves ([None] if a run does not return).  [L1],
    [L2V], [L2H] and [L4] are the layouts of the 1x1, 1x2, 2x1 and 2x2 tile
    types. *)
Definition test_board_impl (L1 L2V L2H L4 : layout) (w h : nat) (pieces : pieceVector)
    : option (list Z) :=
  (* 1x1 *)
  let lookups_1x1 := generateLookups L1 pieces lookups_empty in
  n1 ← count_solutions L1 lookups_1x1 false typeNormal w h;
  n1t ← count_solutions L1 lookups_1x1 true typeNormal w h;
  (* 1x2 *)
  lookups_1x2 ← verticalBoard_output L1 L2V lookups_1x1 false;
  n2v ← count_solutions L2V lookups_1x2 false typeNormal w (h / 2);
  lookups_1x2_t ← verticalBoard_output L1 L2V lookups_1x1 true;
  n2vt ← count_solutions L2V lookups_1x2_t true typeNormal w (h / 2);
  (* 2x1 *)
  lookups_2x1 ← horizontalBoard_output L1 L2H lookups_1x1 false;
  n2h ← count_solutions L2H lookups_2x1 false typeNormal (w / 2) h;
  lookups_2x1_t ← horizontalBoard_output L1 L2H lookups_1x1 true;
  n2ht ← count_solutions L2H lookups_2x1_t true typeNormal (w / 2) h;
  (* 2x2 *)
  lookups_2x2 ← verticalBoard_output L2H L4 lookups_2x1 false;
  n4 ← count_solutions L4 lookups_2x2 false typeNormal (w / 2) (h / 2);
  lookups_2x2_t ← horizontalBoard_output L2V L4 lookups_1x2_t true;
  n4t ← count_solutions L4 lookups_2x2_t true typeNormal (w / 2) (h / 2);
  Some [ tiles lookups_1x1; n1; n1t;
         tiles lookups_1x2; n2v; tiles lookups_1x2_t; n2vt;
         tiles lookups_2x1; n2h; tiles lookups_2x1_t; n2ht;
         tiles lookups_2x2; n4; tiles lookups_2x2_t; n4t ].

(** * Further parts of the sources *)

(** ** lookup.cpp, tile.cpp: the self-tests of the layouts *)

Section LayoutTests.
Variable L : layout.

(** [test_lookup_impl<L>()]: the two [static_assert]s that depend on the
    layout and the assertions, in order; an [ASSERT] that fails returns
    [false]. *)
Definition test_lookup_impl : bool :=
  (0 =? Z.land (MASK_LEFT_EDGE L) (MASK_TOP_EDGE L)) &&
  let index := 1 in
  let zero := 0 in
  let allbits := wrap (Z.lnot zero) in
  let lookup := 0 in
  (0 =? lookup) &&
  let lookup := lk_set_left L lookup 1 in
  (index =? lookup) &&
  let lookup_x := index in
  (index =? lookup_x) &&
  let lookup_y := lookup_x in
  (index =? lookup_y) &&
  let lookup_test := lk_set_top L (lk_set_left L 0 (LEFT_EDGE L)) (TOP_EDGE L) in
  (lookup_test =? Z.lor (MASK_LEFT_EDGE L) (MASK_TOP_EDGE L)) &&
  let lookup_r := lk_set_right L 0 1 in
  let lookup_test := wrap (lookup_test + 1) in
  (lookup_test =? lookup_r) &&
  let lookup_b := lk_set_bottom L 0 1 in
  let lookup_test := wrap (Z.shiftl lookup_test 1) in
  (lookup_test =? lookup_b) &&
  let lookup_ind :=
    lk_set_bottom L (lk_set_right L (lk_set_top L (lk_set_left L 0 (LEFT_EDGE L)) (TOP_EDGE L)) 1) 1 in
  (lookup_ind =? MAX_INDICES L - 1) &&
  let lookup_l_xor := lk_set_left L 0 (LEFT_EDGE L) in
  (MASK_LEFT_EDGE_INV L =? Z.lxor lookup_l_xor allbits) &&
  let lookup_t_xor := lk_set_top L 0 (TOP_EDGE L) in
  (MASK_TOP_EDGE_INV L =? Z.lxor lookup_t_xor allbits).

(** Assignments to the bit-fields of a tile. *)
Definition tile_set_left (t : tile) (v : Z) : tile :=
  Tile (val_right t) (val_bottom t) (trunc_lr L v) (val_top t) (mask t) (random t).
Definition tile_set_top (t : tile) (v : Z) : tile :=
  Tile (val_right t) (val_bottom t) (val_left t) (trunc_tb L v) (mask t) (random t).
Definition tile_set_right (t : tile) (v : Z) : tile :=
  Tile (trunc_lr L v) (val_bottom t) (val_left t) (val_top t) (mask t) (random t).
Definition tile_set_bottom (t : tile) (v : Z) : tile :=
  Tile (val_right t) (trunc_tb L v) (val_left t) (val_top t) (mask t) (random t).

(** The three assertions made after each step of [test_tile_impl]. *)
Definition tile_words_are (t : tile) (lookup edges0 edges1 : Z) : bool :=
  (lookup =? tile_lookup L t) && (edges0 =? tile_lookup L t) && (edges1 =? tile_word1 L t).

(** [test_tile_impl<T>()]. *)
Definition test_tile_impl : bool :=
  let lookup_l := MASK_LEFT_EDGE L in
  let lookup_t := MASK_TOP_EDGE L in
  let lookup := Z.lor lookup_l lookup_t in
  let tile := tile_zero in
  let tile := tile_set_left tile (LEFT_EDGE L) in
  tile_words_are tile 0 0 lookup_l &&
  let tile := tile_set_left tile 0 in
  let tile := tile_set_right tile (LEFT_EDGE L) in
  tile_words_are tile lookup_l lookup_l 0 &&
  (* tile.val.left = tile.val.right = LEFT_EDGE *)
  let tile := tile_set_right tile (LEFT_EDGE L) in
  let tile := tile_set_left tile (val_right tile) in
  tile_words_are tile lookup_l lookup_l lookup_l &&
  (* tile.val.right = tile.val.left = LEFT_EDGE *)
  let tile := tile_set_left tile (LEFT_EDGE L) in
  let tile := tile_set_right tile (val_left tile) in
  tile_words_are tile lookup_l lookup_l lookup_l &&
  let tile := tile_set_right tile 0 in
  let tile := tile_set_left tile (val_right tile) in
  let tile := tile_set_top tile (TOP_EDGE L) in
  tile_words_are tile 0 0 lookup_t &&
  let tile := tile_set_top tile 0 in
  let tile := tile_set_bottom tile (TOP_EDGE L) in
  tile_words_are tile lookup_t lookup_t 0 &&
  let tile := tile_set_bottom tile (TOP_EDGE L) in
  let tile := tile_set_top tile (val_bottom tile) in
  tile_words_are tile lookup_t lookup_t lookup_t &&
  let tile := tile_set_top tile (TOP_EDGE L) in
  let tile := tile_set_bottom tile (val_top tile) in
  tile_words_are tile lookup_t lookup_t lookup_t &&
  let tile := tile_set_right tile (LEFT_EDGE L) in
  let tile := tile_set_left tile (val_right tile) in
  tile_words_are tile lookup lookup lookup.
End LayoutTests.

(** ** bitwisemask.h: the words of a mask

    [bitwiseMask<_N>] holds the array [bits] of [_N] words.  The functions
    below work on that array; [bm_value] is the integer the solver's masks
    are modelled by. *)

Module bitwiseMask.

(** The member [bits]. *)
Abbreviation t := (list Z) (only parsing).

(** The integer whose binary digits are the words, [bits[0]] lowest. *)
Fixpoint bm_value (bits : t) : Z :=
  match bits with
  | [] => 0
  | w :: rest => Z.lor w (Z.shiftl (bm_value rest) ENV_BITS)
  end.

(** [zero()] on a mask of [n] words. *)
Definition zero (n : nat) : t := replicate n 0.

(** The loop [while ( ENV_BITS <= bit ) { bit -= ENV_BITS; ++n; }] of
    [setBit]; it runs at most [bit / ENV_BITS] times, which bounds [fuel]. *)
Fixpoint setBit_loop (fuel : nat) (bit n : Z) : Z * Z :=
  match fuel with
  | O => (bit, n)
  | S f => if ENV_BITS <=? bit then setBit_loop f (bit - ENV_BITS) (wrap (n + 1)) else (bit, n)
  end.

(** [setBit( bit )].  The array is not bounds checked: a word index past its
    end is outside the object, [None]. *)
Definition setBit (bits : t) (bit : Z) : option t :=
  let '(bit, n) := setBit_loop (Z.to_nat bit) bit 0 in
  let value := wrap (Z.shiftl 1 bit) in
  w ← bits !! Z.to_nat n;
  Some (<[Z.to_nat n := Z.lor w value]> bits).

(** [add( other )] and [operator |=]: the unrolled loops of the four
    specialisations, over the words of both masks. *)
Definition add (bits other : t) : t := zip_with Z.lor bits other.

(** [copyCombine( other1, other2 )]. *)
Definition copyCombine (other1 other2 : t) : t := zip_with Z.lor other1 other2.

(** [subtract( other )]: [bits[i] &= ~other.bits[i]]. *)
Definition subtract (bits other : t) : t :=
  zip_with (fun w o => Z.land w (wrap (Z.lnot o))) bits other.

(** [operator &]: whether some word of [lhs] shares a bit with the same word
    of [rhs]. *)
Definition and (lhs rhs : t) : bool :=
  existsb (fun '(l, r) => negb (Z.land l r =? 0)) (zip lhs rhs).

(** The [do ... while ( value <<= 1 )] loop of [print] over one word: [value]
    runs through the bits of a word and is zero after the last one, which
    bounds [fuel] by the width of a word.  The result is what was printed and
    the counter [bit]. *)
Fixpoint print_word (fuel : nat) (w value bit : Z) (out : list Z) : list Z * Z :=
  match fuel with
  | O => (out, bit)
  | S f =>
      let out := if negb (Z.land w value =? 0) then out ++ [bit] else out in
      let bit := wrap (bit + 1) in
      let value := wrap (Z.shiftl value 1) in
      if value =? 0 then (out, bit) else print_word f w value bit out
  end.

(** One round of the outer loop of [print()], over the word [w]: from the
    numbers written so far and the counter [bit] to the same after the word. *)
Definition print_step (st : list Z * Z) (w : Z) : list Z * Z :=
  print_word 64 w 1 (snd st) (fst st).

(** [print()]: the numbers written, in order. *)
Definition print (bits : t) : list Z := fst (fold_left print_step bits ([], 1)).

End bitwiseMask.

(** ** tilearraylookup.h: what a sequence of inserts files under a value *)

Section Filed.
Variable L : layout.

(** The entries that inserting the tiles [ts] one after the other, the first
    of them being stored at [p], appends to the array at [k]. *)
Fixpoint filed_entries (ts : list tile) (p : nat) (k : Z) : list nat :=
  match ts with
  | [] => []
  | t :: ts' => new_entries L t p k ++ filed_entries ts' (S p) k
  end.

(** No pattern of the tile is the pattern with all bits set, which the
    lookups reserve for "any pattern but zero". *)
Definition no_reserved_pattern (t : tile) : Prop :=
  val_left t <> LEFT_EDGE L /\ val_top t <> TOP_EDGE L.
End Filed.

(** ** solver.h: the types of an edge class and of a mask *)

(** The layout of the 1x1 tiles, [lookup_1x1] of the namespaces [e8], [e16]
    and [e32]. *)
Definition lookup_1x1_of (E : edge_class) : layout :=
  match E with
  | edges_8 => e8.lookup_1x1
  | edges_16 => e16.lookup_1x1
  | edges_32 => e32.lookup_1x1
  end.

(** The number of words of the masks ([64 == _ENV_BITS]): [mask_32] and
    [mask_64] are [bitwiseMask<1>], [mask_128] is [bitwiseMask<2>],
    [mask_256] is [bitwiseMask<4>] and [mask_512] is [bitwiseMask<8>]. *)
Definition mask_words (M : mask_class) : nat :=
  match M with
  | mask_32 => 1
  | mask_64 => 1
  | mask_128 => 2
  | mask_256 => 4
  | mask_512 => 8
  end.

(** ** main.cpp: [solve_for_tile_array_lookups]

    The part of the function that decides which tile stores are filled and
    which boards are solved.  [w] and [h] are the board width and height,
    [useTileSize] the global set by the options [--u2] ... [--u32] (1 when
    none is given); all are machine words. *)

Section TilePlan.
Variables (w h useTileSize : Z).

Definition len_max : Z := Z.max w h.
Definition len_min : Z := Z.min w h.
Definition square : bool := len_max =? len_min.

Definition need_2 : bool := (4 <=? len_max) && (0 =? len_max mod 2) && (2 <=? useTileSize).
Definition need_4 : bool := need_2 && (4 <=? len_min) && (0 =? len_min mod 2) && (4 <=? useTileSize).
Definition need_8 : bool := need_4 && (8 <=? len_max) && (0 =? len_max mod 4) && (8 <=? useTileSize).
Definition need_16 : bool :=
  need_8 && (8 <=? len_min) && (0 =? len_min mod 4) && (16 <=? useTileSize).
Definition need_32 : bool :=
  need_16 && (16 <=? len_max) && (0 =? len_max mod 8) && (32 <=? useTileSize).
Definition need_64 : bool := false.

(** Whether the store of tiles of a size is filled: the 1x1 store by
    [generateLookups], the others by the vertical or horizontal board guarded
    by the [if] of the size. *)
Definition store_filled (sz : tile_size) : bool :=
  match sz with
  | size_1x1 => true
  | size_1x2 => need_2
  | size_2x1 => need_2 && negb need_4 && negb square
  | size_2x2 => need_4
  | size_2x4 => need_8
  | size_4x2 => need_8 && negb need_16 && negb square
  | size_4x4 => need_16
  | size_4x8 => need_32
  | size_8x4 => need_32 && negb need_64 && negb square
  end.

(** The boards pushed for the solver, each with the size of the tiles of its
    store, its width and its height; [tiles sz] is what [tiles()] of the
    store of the size returns. *)
Definition prep_boards (tiles : tile_size -> Z) : list (tile_size * Z * Z) :=
  if negb (tiles size_4x8 =? 0) then
    (size_4x8, len_min / 4, len_max / 8)
    :: (if negb square then [(size_8x4, len_max / 8, len_min / 4)] else [])
  else if negb (tiles size_4x4 =? 0) then
    (size_4x4, len_min / 4, len_max / 4)
    :: (if negb square then [(size_4x4, len_max / 4, len_min / 4)] else [])
  else if negb (tiles size_2x4 =? 0) then
    (size_2x4, len_min / 2, len_max / 4)
    :: (if negb square then [(size_4x2, len_max / 4, len_min / 2)] else [])
  else if negb (tiles size_2x2 =? 0) then
    (size_2x2, len_min / 2, len_max / 2)
    :: (if negb square then [(size_2x2, len_max / 2, len_min / 2)] else [])
  else if negb (tiles size_1x2 =? 0) then
    (size_1x2, len_min, len_max / 2)
    :: (if negb square then [(size_2x1, len_max / 2, len_min)] else [])
  else
    (size_1x1, len_min, len_max)
    :: (if negb square then [(size_1x1, len_max, len_min)] else []).
End TilePlan.

(** The width and the height of the tiles of a size, in pieces. *)
Definition tile_w (sz : tile_size) : Z :=
  match sz with
  | size_1x1 | size_1x2 => 1
  | size_2x1 | size_2x2 | size_2x4 => 2
  | size_4x2 | size_4x4 | size_4x8 => 4
  | size_8x4 => 8
  end.

Definition tile_h (sz : tile_size) : Z :=
  match sz with
  | size_1x1 | size_2x1 => 1
  | size_1x2 | size_2x2 | size_4x2 => 2
  | size_2x4 | size_4x4 | size_8x4 => 4
  | size_4x8 => 8
  end.

(** ** What the backtracker must find *)

Section Tilings.
Variable L : layout.
Variable lookups : tileArrayLookup.
Variables (w h : nat).
Variable value : type.

(** Every tile of the store can be found under each of its lookup values. *)
Definition store_complete : Prop :=
  forall q u k, tiles_ lookups !! q = Some u -> under_key L u k -> q ∈ lookups_at lookups k.

(** The tiles [a] tile the first [length a] placements of a board of the
    type [value]: neighbours have the same pattern on the side they share,
    and a side of a tile has pattern zero exactly when it lies on a border
    the board type has. *)
Definition fits_exactly (a : list nat) : Prop :=
  forall x y, (x < w)%nat -> (y < h)%nat -> (at_index h x y < length a)%nat ->
    let t := tile_of lookups (nth (at_index h x y) a 0%nat) in
    is_Some (tiles_ lookups !! nth (at_index h x y) a 0%nat) /\
    ((0 < x)%nat ->
       val_left t = val_right (tile_of lookups (nth (at_index h (x - 1) y) a 0%nat))) /\
    ((0 < y)%nat ->
       val_top t = val_bottom (tile_of lookups (nth (at_index h x (y - 1)) a 0%nat))) /\
    (x = 0%nat -> (val_left t = 0 <-> has_border _LEFT_BORDER value = true)) /\
    (y = 0%nat -> (val_top t = 0 <-> has_border _TOP_BORDER value = true)) /\
    (val_right t = 0 <-> x = (w - 1)%nat /\ has_border _RIGHT_BORDER value = true) /\
    (val_bottom t = 0 <-> y = (h - 1)%nat /\ has_border _BOTTOM_BORDER value = true).
End Tilings.

(** ** boardv.h: what a vertical board puts in its output store *)

Section ComposedStore.
Variables Lin Lout : layout.
Variable lookups : tileArrayLookup.

(** The tile [u] is made of a tile of the store above another one: the two
    agree on the side they share and have no piece in common. *)
Definition vertical_pair (u : tile) : Prop :=
  exists q0 q1 t0 t1,
    tiles_ lookups !! q0 = Some t0 /\ tiles_ lookups !! q1 = Some t1 /\
    u = vertical_tile Lin Lout t0 t1 /\
    val_bottom t0 = val_top t1 /\ Z.land (mask t0) (mask t1) = 0.

(** What [verticalBoard::complete()] does to the output store, as a function
    of the tiles the board holds. *)
Definition emit (held : list (option nat)) (out : tileArrayLookup) : tileArrayLookup :=
  match held !! 0%nat, held !! 1%nat with
  | Some (Some q0), Some (Some q1) =>
      match tiles_ lookups !! q0, tiles_ lookups !! q1 with
      | Some t0, Some t1 => insert Lout (vertical_tile Lin Lout t0 t1) out
      | _, _ => out
      end
  | _, _ => out
  end.

(** The output store after the events [new] (newest first). *)
Definition outputs (new : list event) (out : tileArrayLookup) : tileArrayLookup :=
  foldr (fun e o => match e with Completed held => emit held o | _ => o end) out new.

(** From [wd] to [wd'] events were logged and the output store took a tile
    for each call of [complete()] among them. *)
Definition emitted (wd wd' : world) : Prop :=
  exists new, w_events wd' = new ++ w_events wd /\
              w_output wd' = outputs new (w_output wd).
End ComposedStore.

(** ** boardv.h: the 4x8 tiles of the 32 edge class

    What is stored of the pattern [b] shifted by 20 in [int] above the
    pattern [a]: the low 12 bits of [b], and its bit 11 again in the 8 bits
    above bit 31. *)
Definition stacked_in_int (a b : Z) : Z :=
  a + 2 ^ 20 * (b mod 2 ^ 12) + (if 2 ^ 11 <=? b mod 2 ^ 12 then 2 ^ 40 - 2 ^ 32 else 0).

(** * Properties *)

(** ** Backend selection (solver.h) *)

(** C9, as stated, fails: the 8-edge class keeps its 1x2 tiles in the dense
    array, not in the preallocated vector. *)
Lemma backend_table_e8_counterexample :
  ~ (forall E, tileArrayLookups E size_1x1 = tileArrayLookupArray /\
               tileArrayLookups E size_1x2 = tileArrayLookupVector /\
               tileArrayLookups E size_2x1 = tileArrayLookupVector /\
               tileArrayLookups E size_2x2 = tileArrayLookupVector /\
               tileArrayLookups E size_2x4 = tileArrayLookupMap).
Proof.
  intros H. destruct (H edges_8) as (_ & H12 & _). discriminate H12.
Qed.

(** C9 (amended): for the 16 and 32 edge classes the 1x1 size uses the dense
    array, the 1x2, 2x1 and 2x2 sizes the preallocated vector, and the 2x4 and
    larger sizes the map; for the 8 edge class the 1x1, 1x2 and 2x1 sizes use
    the dense array, the 2x2, 2x4 and 4x2 sizes the vector, and the 4x4 and
    larger sizes the map. *)
Theorem backend_table :
  (forall E, E = edges_16 \/ E = edges_32 ->
     tileArrayLookups E size_1x1 = tileArrayLookupArray /\
     (forall sz, sz = size_1x2 \/ sz = size_2x1 \/ sz = size_2x2 ->
        tileArrayLookups E sz = tileArrayLookupVector) /\
     (forall sz, sz = size_2x4 \/ sz = size_4x2 \/ sz = size_4x4 \/
                 sz = size_4x8 \/ sz = size_8x4 ->
        tileArrayLookups E sz = tileArrayLookupMap)) /\
  (forall sz, sz = size_1x1 \/ sz = size_1x2 \/ sz = size_2x1 ->
     tileArrayLookups edges_8 sz = tileArrayLookupArray) /\
  (forall sz, sz = size_2x2 \/ sz = size_2x4 \/ sz = size_4x2 ->
     tileArrayLookups edges_8 sz = tileArrayLookupVector) /\
  (forall sz, sz = size_4x4 \/ sz = size_4x8 \/ sz = size_8x4 ->
     tileArrayLookups edges_8 sz = tileArrayLookupMap).
Proof.
  repeat split; intros; intuition subst; reflexivity.
Qed.

Lemma backend_table_witness :
  tileArrayLookups edges_16 size_1x1 = tileArrayLookupArray /\
  tileArrayLookups edges_8 size_2x1 = tileArrayLookupArray.
Proof.
  destruct backend_table as (H16 & H8 & _).
  split.
  - exact (proj1 (H16 edges_16 (or_introl eq_refl))).
  - exact (H8 size_2x1 (or_intror (or_intror eq_refl))).
Defined.

(** ** The highest edge and the edge class (piecevector.cpp, main.cpp) *)

Lemma fold_max_ge (l : list Z) (a : Z) : a <= fold_left Z.max l a.
Proof.
  revert a. induction l as [|c l IH]; intros a; simpl; [lia|].
  specialize (IH (Z.max a c)). lia.
Qed.

Lemma fold_max_upper (l : list Z) (a : Z) :
  Forall (fun c => c <= fold_left Z.max l a) l.
Proof.
  revert a. induction l as [|c l IH]; intros a; simpl; constructor.
  - pose proof (fold_max_ge l (Z.max a c)). lia.
  - apply IH.
Qed.

Lemma fold_max_attained (l : list Z) (a : Z) :
  fold_left Z.max l a = a \/ fold_left Z.max l a ∈ l.
Proof.
  revert a. induction l as [|c l IH]; intros a; simpl; [now left|].
  destruct (IH (Z.max a c)) as [H|H].
  - rewrite H. destruct (Z.max_spec a c) as [[_ ->]|[_ ->]]; [right; left|now left].
  - right. now right.
Qed.

Lemma ltb_max (a c : Z) : (if a <? c then c else a) = Z.max a c.
Proof. destruct (Z.ltb_spec a c); lia. Qed.

Lemma highest_edge_fold (pieces : pieceVector) :
  highest_edge pieces = fold_left Z.max (all_edges pieces) 0.
Proof.
  unfold highest_edge, all_edges. generalize 0.
  induction pieces as [|p ps IH]; intros a; [reflexivity|].
  cbn [fold_left flat_map piece_edges app]. rewrite IH. f_equal.
  cbv zeta. now rewrite !ltb_max.
Qed.

(** The loop of [edges_count()] finds the highest edge value. *)
Lemma highest_edge_max (pieces : pieceVector) (e : Z) :
  pieces_wf pieces -> is_max_edge pieces e -> highest_edge pieces = e.
Proof.
  intros Hwf [Hin Hle]. rewrite highest_edge_fold.
  pose proof (fold_max_upper (all_edges pieces) 0) as Hup.
  pose proof (fold_max_ge (all_edges pieces) 0) as Hge.
  rewrite Forall_forall in Hle, Hup.
  unfold pieces_wf in Hwf. rewrite Forall_forall in Hwf.
  specialize (Hup _ Hin).
  destruct (fold_max_attained (all_edges pieces) 0) as [H0|Hatt].
  - rewrite H0 in *. specialize (Hwf _ Hin). unfold is_word in Hwf. lia.
  - specialize (Hle _ Hatt). lia.
Qed.





(** ** Capacity checks (main.cpp) *)





(** ** Lookup words: bit-level facts (lookup.h) *)

Lemma tb_shiftl (a n i : Z) :
  Z.testbit (Z.shiftl a n) i = (0 <=? i) && Z.testbit a (i - n).
Proof.
  destruct (Z.leb_spec 0 i); simpl.
  - now apply Z.shiftl_spec.
  - now apply Z.testbit_neg_r.
Qed.

Lemma tb_shiftr (a n i : Z) :
  Z.testbit (Z.shiftr a n) i = (0 <=? i) && Z.testbit a (i + n).
Proof.
  destruct (Z.leb_spec 0 i); simpl.
  - now apply Z.shiftr_spec.
  - now apply Z.testbit_neg_r.
Qed.

Lemma tb_ones (n i : Z) :
  0 <= n -> Z.testbit (Z.ones n) i = (0 <=? i) && (i <? n).
Proof. intros. now apply Z.testbit_ones. Qed.

Lemma tb_lnot (a i : Z) :
  Z.testbit (Z.lnot a) i = (0 <=? i) && negb (Z.testbit a i).
Proof.
  destruct (Z.leb_spec 0 i); simpl.
  - now apply Z.lnot_spec.
  - now apply Z.testbit_neg_r.
Qed.

Lemma tb_wrap (a i : Z) :
  Z.testbit (wrap a) i = (i <? 64) && Z.testbit a i.
Proof.
  unfold wrap, ENV_BITS. rewrite Z.testbit_mod_pow2 by lia. reflexivity.
Qed.

Lemma tb_one (i : Z) : Z.testbit 1 i = (0 <=? i) && (i <? 1).
Proof. change (Z.testbit 1 i) with (Z.testbit (Z.ones 1) i). apply tb_ones. lia. Qed.

Lemma small_land_ones (v n : Z) : 0 <= n -> 0 <= v < 2 ^ n -> v = Z.land v (Z.ones n).
Proof. intros Hn Hv. rewrite Z.land_ones by lia. symmetry. now apply Z.mod_small. Qed.

Lemma land_ones_range (v n : Z) : 0 <= n -> 0 <= Z.land v (Z.ones n) < 2 ^ n.
Proof. intros Hn. rewrite Z.land_ones by lia. apply Z.mod_pos_bound. lia. Qed.

(** Equality of words, bit by bit. *)
Ltac tb_rewrite :=
  repeat first
    [ rewrite Z.lor_spec | rewrite Z.land_spec | rewrite Z.ldiff_spec
    | rewrite tb_shiftl | rewrite tb_shiftr | rewrite tb_lnot | rewrite tb_wrap
    | rewrite tb_one | rewrite tb_ones by lia | rewrite Z.testbit_0_l ].

Ltac tb_cases :=
  repeat match goal with
  | |- context [?a <? ?b] => destruct (Z.ltb_spec a b)
  | |- context [?a <=? ?b] => destruct (Z.leb_spec a b)
  end.

Ltac tb_indices :=
  repeat match goal with
  | |- context [Z.testbit _ ?j] =>
      match goal with
      | |- context [Z.testbit _ ?k] =>
          lazymatch j with
          | k => fail
          | _ => replace j with k by lia
          end
      end
  end.

Ltac bitwise :=
  apply Z.bits_inj'; intros ?i ?Hi; tb_rewrite; tb_cases;
  cbn [andb orb negb]; try lia;
  rewrite ?andb_true_r, ?andb_false_r, ?orb_false_r, ?orb_true_r;
  try reflexivity; try (tb_indices; btauto).

Lemma generateMask_ones (n : nat) : _generateMask n = Z.ones (Z.of_nat n).
Proof.
  induction n as [|n IH]; [reflexivity|].
  cbn [_generateMask]. rewrite IH. rewrite Nat2Z.inj_succ.
  apply Z.bits_inj'; intros i Hi.
  rewrite Z.lor_spec, tb_shiftl, !tb_ones, tb_one by lia.
  tb_cases; cbn [andb orb negb]; try lia; try reflexivity.
Qed.

Lemma numBits_aux_ones (fuel : nat) (n : Z) :
  0 <= n <= Z.of_nat fuel -> _numBits_aux fuel (Z.ones n) = n.
Proof.
  revert n. induction fuel as [|fuel IH]; intros n Hn.
  - cbn. lia.
  - cbn [_numBits_aux]. rewrite tb_ones by lia.
    destruct (Z.ltb_spec 0 n); cbn [Z.leb Z.compare andb]; [|lia].
    replace (Z.shiftr (Z.ones n) 1) with (Z.ones (n - 1)).
    + rewrite IH by lia. lia.
    + apply Z.bits_inj'; intros i Hi.
      rewrite tb_shiftr, !tb_ones by lia.
      tb_cases; cbn [andb]; try lia; reflexivity.
Qed.

Section KeyAlgebra.
Variable L : layout.
Hypothesis HL : layout_ok L.

Local Abbreviation lr := (Z.of_nat (_LR L)).
Local Abbreviation tb := (Z.of_nat (_TB L)).

Lemma lr_tb_bounds : 0 < lr /\ 0 < tb /\ lr + tb + 2 <= 64.
Proof. destruct HL as (H1 & H2 & H3). lia. Qed.

Lemma LEFT_EDGE_ones : LEFT_EDGE L = Z.ones lr.
Proof. apply generateMask_ones. Qed.

Lemma TOP_EDGE_ones : TOP_EDGE L = Z.ones tb.
Proof. apply generateMask_ones. Qed.

Lemma LEFT_EDGE_BITS_eq : LEFT_EDGE_BITS L = lr.
Proof.
  unfold LEFT_EDGE_BITS, _numBits. rewrite LEFT_EDGE_ones.
  apply numBits_aux_ones. pose proof lr_tb_bounds. lia.
Qed.

Lemma TOP_EDGE_BITS_eq : TOP_EDGE_BITS L = tb.
Proof.
  unfold TOP_EDGE_BITS, _numBits. rewrite TOP_EDGE_ones.
  apply numBits_aux_ones. pose proof lr_tb_bounds. lia.
Qed.

Lemma LEFT_EDGE_val : LEFT_EDGE L = 2 ^ lr - 1.
Proof. rewrite LEFT_EDGE_ones, Z.ones_equiv. lia. Qed.

Lemma TOP_EDGE_val : TOP_EDGE L = 2 ^ tb - 1.
Proof. rewrite TOP_EDGE_ones, Z.ones_equiv. lia. Qed.

Ltac unfold_layout :=
  unfold tile_index;
  unfold pack, lk_left, lk_top, lk_right, lk_bottom,
    lk_set_left, lk_set_top, lk_set_right, lk_set_bottom, set_field,
    tile_word1, tile_lookup, trunc_lr, trunc_tb,
    MASK_LEFT_EDGE_INV, MASK_TOP_EDGE_INV, MASK_TOP_EDGE, MASK_LEFT_EDGE,
    BOTTOM_POS, RIGHT_POS;
  rewrite ?LEFT_EDGE_BITS_eq, ?TOP_EDGE_BITS_eq, ?LEFT_EDGE_ones, ?TOP_EDGE_ones.

Ltac encode_fields :=
  pose proof lr_tb_bounds;
  repeat match goal with
  | H : fields_ok _ _ _ _ _ |- _ => destruct H as (? & ? & ? & ?)
  | H : tile_wf _ _ |- _ => destruct H as (? & ? & ? & ?)
  end;
  repeat match goal with
  | H : 0 <= ?v < 2 ^ ?n |- _ =>
      let E := fresh "E" in
      pose proof (small_land_ones v n ltac:(lia) H) as E;
      clear H; rewrite E; clear E
  end.

Ltac layout_bits := unfold_layout; encode_fields; bitwise.

Lemma pack_left l t r b : fields_ok L l t r b -> lk_left L (pack L l t r b) = l.
Proof. intros. layout_bits. Qed.

Lemma pack_top l t r b : fields_ok L l t r b -> lk_top L (pack L l t r b) = t.
Proof. intros. layout_bits. Qed.

Lemma pack_right l t r b : fields_ok L l t r b -> lk_right L (pack L l t r b) = r.
Proof. intros. layout_bits. Qed.

Lemma pack_bottom l t r b : fields_ok L l t r b -> lk_bottom L (pack L l t r b) = b.
Proof. intros. layout_bits. Qed.

Lemma pack_inj l t r b l' t' r' b' :
  fields_ok L l t r b -> fields_ok L l' t' r' b' ->
  pack L l t r b = pack L l' t' r' b' -> l = l' /\ t = t' /\ r = r' /\ b = b'.
Proof.
  intros H H' E.
  pose proof (f_equal (lk_left L) E) as El.
  pose proof (f_equal (lk_top L) E) as Et.
  pose proof (f_equal (lk_right L) E) as Er.
  pose proof (f_equal (lk_bottom L) E) as Eb.
  rewrite !pack_left in El by assumption.
  rewrite !pack_top in Et by assumption.
  rewrite !pack_right in Er by assumption.
  rewrite !pack_bottom in Eb by assumption.
  auto.
Qed.

Lemma pack_zero : pack L 0 0 0 0 = 0.
Proof. unfold pack. now rewrite !Z.shiftl_0_l. Qed.

Lemma LEFT_EDGE_range : 0 < LEFT_EDGE L < 2 ^ lr.
Proof.
  rewrite LEFT_EDGE_val. pose proof lr_tb_bounds.
  assert (2 ^ 1 <= 2 ^ lr) by (apply Z.pow_le_mono_r; lia). lia.
Qed.

Lemma TOP_EDGE_range : 0 < TOP_EDGE L < 2 ^ tb.
Proof.
  rewrite TOP_EDGE_val. pose proof lr_tb_bounds.
  assert (2 ^ 1 <= 2 ^ tb) by (apply Z.pow_le_mono_r; lia). lia.
Qed.

(** The lookup value [insert] computes is the packing of the tile's left
    and top patterns with the two flags. *)
Lemma tile_index_pack t :
  tile_wf L t ->
  tile_index L t =
    pack L (val_left t) (val_top t)
      (if val_right t =? 0 then 0 else 1) (if val_bottom t =? 0 then 0 else 1).
Proof.
  intros. unfold tile_index.
  set (rf := if val_right t =? 0 then 0 else 1).
  assert (0 <= rf < 2 ^ 1) by (subst rf; destruct (val_right t =? 0); lia).
  clearbody rf.
  set (bf := if val_bottom t =? 0 then 0 else 1).
  assert (0 <= bf < 2 ^ 1) by (subst bf; destruct (val_bottom t =? 0); lia).
  clearbody bf. layout_bits.
Qed.

(** The three special indices replace a pattern by all its bits. *)
Lemma lor_mask_left l t r b :
  fields_ok L l t r b ->
  Z.lor (MASK_LEFT_EDGE L) (pack L l t r b) = pack L (LEFT_EDGE L) t r b.
Proof. intros. layout_bits. Qed.

Lemma lor_mask_top l t r b :
  fields_ok L l t r b ->
  Z.lor (MASK_TOP_EDGE L) (pack L l t r b) = pack L l (TOP_EDGE L) r b.
Proof. intros. layout_bits. Qed.

Lemma lor_mask_corner l t r b :
  fields_ok L l t r b ->
  Z.lor (Z.lor (MASK_LEFT_EDGE L) (MASK_TOP_EDGE L)) (pack L l t r b) =
  pack L (LEFT_EDGE L) (TOP_EDGE L) r b.
Proof. intros. layout_bits. Qed.

Lemma land_mask_left l t r b :
  fields_ok L l t r b -> Z.land (MASK_LEFT_EDGE L) (pack L l t r b) = l.
Proof. intros. layout_bits. Qed.

Lemma land_mask_top l t r b :
  fields_ok L l t r b -> Z.land (MASK_TOP_EDGE L) (pack L l t r b) = Z.shiftl t lr.
Proof. intros. layout_bits. Qed.

Lemma shiftl_eq_0 t n : 0 <= n -> Z.shiftl t n = 0 <-> t = 0.
Proof.
  intros Hn. rewrite Z.shiftl_mul_pow2 by lia.
  assert (0 < 2 ^ n) by (apply Z.pow_pos_nonneg; lia). nia.
Qed.

(** [place]: the left (top) pattern of the neighbour's lookup becomes the
    right (bottom) pattern of the tile. *)
Lemma place_right_lookup l t r b tl :
  fields_ok L l t r b -> tile_wf L tl ->
  Z.lor (Z.land (pack L l t r b) (MASK_LEFT_EDGE_INV L))
        (Z.land (MASK_LEFT_EDGE L) (tile_lookup L tl)) =
  pack L (val_right tl) t r b.
Proof. intros. layout_bits. Qed.

Lemma place_bottom_lookup l t r b tl :
  fields_ok L l t r b -> tile_wf L tl ->
  Z.lor (Z.land (pack L l t r b) (MASK_TOP_EDGE_INV L))
        (Z.land (MASK_TOP_EDGE L) (tile_lookup L tl)) =
  pack L l (val_bottom tl) r b.
Proof. intros. layout_bits. Qed.

(** [setType]: the four bit-field assignments. *)
Lemma set_type_lookup l t r b l' t' r' b' :
  fields_ok L l t r b -> fields_ok L l' t' r' b' ->
  lk_set_bottom L (lk_set_right L (lk_set_top L (lk_set_left L (pack L l t r b) l') t') r') b' =
  pack L l' t' r' b'.
Proof. intros. layout_bits. Qed.
End KeyAlgebra.

(** ** Tile stores (tilearraylookup.h) *)

Lemma insert_or_assign_tiles (k : Z) (p : nat) (s : tileArrayLookup) :
  tiles_ (insert_or_assign k p s) = tiles_ s.
Proof. unfold insert_or_assign. now destruct (arrays s !! k). Qed.

Lemma insert_or_assign_at (k k' : Z) (p : nat) (s : tileArrayLookup) :
  lookups_at (insert_or_assign k p s) k' =
  lookups_at s k' ++ (if bool_decide (k' = k) then [p] else []).
Proof.
  unfold insert_or_assign, lookups_at.
  destruct (arrays s !! k) as [a|] eqn:Ha; cbn [arrays];
    (case_bool_decide as Hk; [subst k'; rewrite lookup_insert_eq, Ha; reflexivity
                             |rewrite lookup_insert_ne by congruence; now rewrite app_nil_r]).
Qed.

Section StoreFacts.
Variable L : layout.
Hypothesis HL : layout_ok L.

Lemma flag_range (v : Z) : 0 <= flag v < 2 ^ 1.
Proof. unfold flag. destruct (v =? 0); lia. Qed.

Lemma flag_eq_0 (v : Z) : flag v = 0 <-> v = 0.
Proof. unfold flag. destruct (Z.eqb_spec v 0); intuition lia. Qed.

Lemma tile_fields_ok (t : tile) :
  tile_wf L t -> fields_ok L (val_left t) (val_top t) (flag (val_right t)) (flag (val_bottom t)).
Proof.
  intros (Hr & Hb & Hl & Ht). repeat split; try lia; apply flag_range.
Qed.

Lemma wild_fields_ok (l t r b : Z) :
  fields_ok L l t r b ->
  fields_ok L (LEFT_EDGE L) t r b /\ fields_ok L l (TOP_EDGE L) r b /\
  fields_ok L (LEFT_EDGE L) (TOP_EDGE L) r b.
Proof.
  intros (Hl & Ht & Hr & Hb).
  pose proof (LEFT_EDGE_range L HL). pose proof (TOP_EDGE_range L HL).
  unfold fields_ok. repeat split; lia.
Qed.

Lemma tile_index_literal (t : tile) : tile_wf L t -> tile_index L t = literal_key L t.
Proof. intros. now apply tile_index_pack. Qed.

(** One [insert]: the tile is stored at the end of [tiles_], and the array at
    each lookup value grows by the new entries for that value. *)
Lemma insert_spec (t : tile) (s : tileArrayLookup) :
  tile_wf L t ->
  tiles_ (insert L t s) = tiles_ s ++ [t] /\
  forall k, lookups_at (insert L t s) k =
            lookups_at s k ++ new_entries L t (length (tiles_ s)) k.
Proof.
  intros Hwf. pose proof (tile_fields_ok t Hwf) as Hf.
  destruct (wild_fields_ok _ _ _ _ Hf) as (Hfl & Hft & Hfb).
  unfold insert. cbn [tiles_ arrays]. rewrite length_app, Nat.add_1_r, Nat.pred_succ.
  rewrite (tile_index_literal t Hwf).
  unfold new_entries, left_wildcard_key, top_wildcard_key, both_wildcard_key, literal_key.
  rewrite land_mask_left, land_mask_top, lor_mask_left, lor_mask_top, lor_mask_corner
    by assumption.
  set (p := length (tiles_ s)).
  assert (Hleft : negb (val_left t =? 0) = bool_decide (val_left t <> 0)).
  { destruct (Z.eqb_spec (val_left t) 0), (bool_decide_reflect (val_left t <> 0)); simpl;
      try reflexivity; exfalso; tauto. }
  assert (Htop : negb (Z.shiftl (val_top t) (Z.of_nat (_LR L)) =? 0) = bool_decide (val_top t <> 0)).
  { pose proof (shiftl_eq_0 (val_top t) (Z.of_nat (_LR L)) ltac:(lia)).
    destruct (Z.eqb_spec (Z.shiftl (val_top t) (Z.of_nat (_LR L))) 0),
             (bool_decide_reflect (val_top t <> 0)); simpl;
      try reflexivity; exfalso; tauto. }
  rewrite Hleft, Htop. clear Hleft Htop.
  split.
  - repeat case_bool_decide; cbn [andb]; rewrite ?insert_or_assign_tiles; reflexivity.
  - intros k.
    repeat match goal with
    | |- context [bool_decide (val_left t <> 0)] => destruct (bool_decide_reflect (val_left t <> 0))
    | |- context [bool_decide (val_top t <> 0)] => destruct (bool_decide_reflect (val_top t <> 0))
    end; cbn [andb]; rewrite ?insert_or_assign_at; cbn [tiles_ arrays lookups_at];
    unfold lookups_at; cbn [arrays];
    repeat case_bool_decide; try tauto; rewrite <- ?app_assoc, ?app_nil_r; try reflexivity.
Qed.

Lemma elem_of_new_entries (t : tile) (p q : nat) (k : Z) :
  q ∈ new_entries L t p k <-> q = p /\ under_key L t k.
Proof.
  unfold new_entries, under_key.
  rewrite !elem_of_app.
  repeat case_bool_decide; rewrite ?list_elem_of_singleton, ?elem_of_nil; tauto.
Qed.

Lemma store_inv_empty : store_inv L lookups_empty.
Proof. intros k q Hq. unfold lookups_at in Hq. cbn in Hq. now apply elem_of_nil in Hq. Qed.

Lemma store_inv_insert (t : tile) (s : tileArrayLookup) :
  tile_wf L t -> store_inv L s -> store_inv L (insert L t s).
Proof.
  intros Hwf Hs k q Hq.
  destruct (insert_spec t s Hwf) as [Ht Hat]. rewrite Hat in Hq. rewrite Ht.
  apply elem_of_app in Hq. destruct Hq as [Hq|Hq].
  - destruct (Hs k q Hq) as (u & Hu & Hwu & Huk).
    exists u. split; [|auto]. now apply lookup_app_l_Some.
  - apply elem_of_new_entries in Hq. destruct Hq as [-> Hk].
    exists t. split; [|auto]. apply list_lookup_middle. reflexivity.
Qed.

Lemma store_inv_insert_range (ts : list tile) (s : tileArrayLookup) :
  Forall (tile_wf L) ts -> store_inv L s -> store_inv L (insert_range L ts s).
Proof.
  unfold insert_range. revert s.
  induction ts as [|t ts IH]; intros s Hts Hs; [assumption|].
  cbn [fold_left]. inversion Hts; subst.
  apply IH; [assumption|]. now apply store_inv_insert.
Qed.

Lemma store_inv_fresh (s : tileArrayLookup) (k : Z) :
  store_inv L s -> length (tiles_ s) ∉ lookups_at s k.
Proof.
  intros Hs Hin. destruct (Hs _ _ Hin) as (u & Hu & _).
  apply lookup_lt_Some in Hu. lia.
Qed.

Lemma under_left_wildcard (t : tile) :
  tile_wf L t -> under_key L t (left_wildcard_key L t) <-> val_left t <> 0.
Proof.
  intros Hwf. pose proof (tile_fields_ok t Hwf) as Hf.
  destruct (wild_fields_ok _ _ _ _ Hf) as (Hfl & Hft & Hfb).
  pose proof (LEFT_EDGE_range L HL). pose proof (TOP_EDGE_range L HL).
  unfold under_key, left_wildcard_key, literal_key, top_wildcard_key, both_wildcard_key.
  split; [|tauto].
  intros [E|[[? _]|[[_ E]|[? _]]]]; try assumption;
    apply pack_inj in E; try assumption; lia.
Qed.

Lemma under_top_wildcard (t : tile) :
  tile_wf L t -> under_key L t (top_wildcard_key L t) <-> val_top t <> 0.
Proof.
  intros Hwf. pose proof (tile_fields_ok t Hwf) as Hf.
  destruct (wild_fields_ok _ _ _ _ Hf) as (Hfl & Hft & Hfb).
  pose proof (LEFT_EDGE_range L HL). pose proof (TOP_EDGE_range L HL).
  unfold under_key, left_wildcard_key, literal_key, top_wildcard_key, both_wildcard_key.
  split; [|tauto].
  intros [E|[[_ E]|[[? _]|[_ [? _]]]]]; try assumption;
    apply pack_inj in E; try assumption; lia.
Qed.

Lemma under_both_wildcard (t : tile) :
  tile_wf L t ->
  under_key L t (both_wildcard_key L t) <-> val_left t <> 0 /\ val_top t <> 0.
Proof.
  intros Hwf. pose proof (tile_fields_ok t Hwf) as Hf.
  destruct (wild_fields_ok _ _ _ _ Hf) as (Hfl & Hft & Hfb).
  pose proof (LEFT_EDGE_range L HL). pose proof (TOP_EDGE_range L HL).
  unfold under_key, left_wildcard_key, literal_key, top_wildcard_key, both_wildcard_key.
  split; [|tauto].
  intros [E|[[? E]|[[? E]|[? [? _]]]]]; try tauto;
    apply pack_inj in E; try assumption; lia.
Qed.

(** C7: in a store built by [insert] from the empty store, every pointer of
    the array at a lookup value [k] points to a tile whose own lookup value
    is [k] or that has [k] as one of its (at most three) wildcard variants;
    and one more [insert] puts the new tile under its own value, under the
    left-wildcard value iff its left pattern is not zero, under the
    top-wildcard value iff its top pattern is not zero, and under the
    doubly wildcarded value iff both are not zero. *)
Theorem insert_keys (ts : list tile) (t : tile) :
  Forall (tile_wf L) ts -> tile_wf L t ->
  let s := insert_range L ts lookups_empty in
  let p := length (tiles_ s) in
  let s' := insert L t s in
  (forall k q, q ∈ lookups_at s k ->
     exists u, tiles_ s !! q = Some u /\ under_key L u k) /\
  tiles_ s' !! p = Some t /\
  p ∈ lookups_at s' (literal_key L t) /\
  (p ∈ lookups_at s' (left_wildcard_key L t) <-> val_left t <> 0) /\
  (p ∈ lookups_at s' (top_wildcard_key L t) <-> val_top t <> 0) /\
  (p ∈ lookups_at s' (both_wildcard_key L t) <-> val_left t <> 0 /\ val_top t <> 0).
Proof.
  intros Hts Hwf s p s'.
  assert (Hs : store_inv L s) by (apply store_inv_insert_range; [assumption|apply store_inv_empty]).
  destruct (insert_spec t s Hwf) as [Ht Hat]. fold s' p in Ht, Hat.
  assert (Hin : forall k, p ∈ lookups_at s' k <-> under_key L t k).
  { intros k. rewrite Hat, elem_of_app, elem_of_new_entries.
    pose proof (store_inv_fresh s k Hs). fold p in H. tauto. }
  split; [|split; [|split; [|split; [|split]]]].
  - intros k q Hq. destruct (Hs k q Hq) as (u & Hu & _ & Hk). eauto.
  - rewrite Ht. apply list_lookup_middle. reflexivity.
  - apply Hin. now left.
  - rewrite Hin. now apply under_left_wildcard.
  - rewrite Hin. now apply under_top_wildcard.
  - rewrite Hin. now apply under_both_wildcard.
Qed.
End StoreFacts.

Lemma insert_keys_witness :
  let L := e8.lookup_1x1 in
  let ts := [Tile 1 2 0 0 1 0] in
  let t := Tile 0 3 1 2 2 0 in
  1%nat ∈ lookups_at (insert L t (insert_range L ts lookups_empty)) (literal_key L t).
Proof.
  intros L ts t.
  assert (HL : layout_ok L) by (unfold layout_ok; simpl; lia).
  assert (Hts : Forall (tile_wf L) ts).
  { repeat apply List.Forall_cons; try apply List.Forall_nil; unfold tile_wf; simpl; lia. }
  assert (Hwf : tile_wf L t) by (unfold tile_wf; simpl; lia).
  exact (proj1 (proj2 (proj2 (insert_keys L HL ts t Hts Hwf)))).
Defined.

(** ** Sorting *)

Section SortFacts.
Context {A : Type} (comp : A -> A -> bool).
(** [comp] is a strict weak ordering, as [std::sort] requires. *)
Hypothesis comp_irrefl : forall x, comp x x = false.
Hypothesis comp_asym : forall x y, comp x y = true -> comp y x = false.
Hypothesis comp_negtrans :
  forall x y z, comp x y = false -> comp y z = false -> comp x z = false.

Lemma sort_insert_perm (x : A) (l : list A) : sort_insert comp x l ≡ₚ x :: l.
Proof.
  induction l as [|y l IH]; cbn [sort_insert]; [reflexivity|].
  destruct (comp y x); [|reflexivity].
  rewrite IH. apply Permutation_swap.
Qed.

Lemma std_sort_perm (l : list A) : std_sort comp l ≡ₚ l.
Proof.
  induction l as [|x l IH]; [reflexivity|].
  cbn [std_sort foldr]. fold (std_sort comp l).
  rewrite sort_insert_perm. now rewrite IH.
Qed.

Lemma sort_insert_sorted (x : A) (l : list A) :
  StronglySorted (fun a b => comp b a = false) l ->
  StronglySorted (fun a b => comp b a = false) (sort_insert comp x l).
Proof.
  induction l as [|y l IH]; intros Hl; cbn [sort_insert].
  - repeat constructor.
  - inversion Hl as [|? ? Hl' Hy]; subst.
    destruct (comp y x) eqn:Hyx.
    + constructor; [now apply IH|].
      rewrite (sort_insert_perm x l). constructor; [now apply comp_asym|assumption].
    + constructor; [assumption|].
      constructor; [assumption|].
      rewrite List.Forall_forall in *. intros z Hz.
      apply comp_negtrans with y; [now apply Hy|assumption].
Qed.

Lemma std_sort_sorted (l : list A) :
  StronglySorted (fun a b => comp b a = false) (std_sort comp l).
Proof.
  induction l as [|x l IH]; [constructor|].
  cbn [std_sort foldr]. now apply sort_insert_sorted.
Qed.

(** The first element of the sorted list is a least element of the input. *)
Lemma std_sort_head (l : list A) (h : A) (rest : list A) :
  std_sort comp l = h :: rest -> h ∈ l /\ forall x, x ∈ l -> comp x h = false.
Proof.
  intros E. pose proof (std_sort_perm l) as Hp. pose proof (std_sort_sorted l) as Hs.
  rewrite E in Hp, Hs. split.
  - rewrite <- Hp. left.
  - intros x Hx. rewrite <- Hp in Hx.
    inversion Hs as [|? ? _ Hh]; subst.
    apply elem_of_cons in Hx. destruct Hx as [->|Hx]; [apply comp_irrefl|].
    rewrite List.Forall_forall in Hh. apply Hh. now apply list_elem_of_In.
Qed.
End SortFacts.

(** ** Piece rotations (piecevector.h) *)

Section Rotations.
Variable L : layout.
Hypothesis HL : layout_ok L.

Lemma sortTilesByEdge_irrefl (x : tile) : sortTilesByEdge L x x = false.
Proof. unfold sortTilesByEdge. rewrite Z.eqb_refl. apply Z.ltb_irrefl. Qed.

Lemma sortTilesByEdge_asym (x y : tile) :
  sortTilesByEdge L x y = true -> sortTilesByEdge L y x = false.
Proof.
  unfold sortTilesByEdge.
  destruct (Z.eqb_spec (tile_word1 L x) (tile_word1 L y)) as [E|E];
    destruct (Z.eqb_spec (tile_word1 L y) (tile_word1 L x)); try congruence;
    rewrite !Z.ltb_lt, !Z.ltb_ge; lia.
Qed.

Lemma sortTilesByEdge_negtrans (x y z : tile) :
  sortTilesByEdge L x y = false -> sortTilesByEdge L y z = false ->
  sortTilesByEdge L x z = false.
Proof.
  unfold sortTilesByEdge.
  destruct (Z.eqb_spec (tile_word1 L x) (tile_word1 L y));
    destruct (Z.eqb_spec (tile_word1 L y) (tile_word1 L z));
    destruct (Z.eqb_spec (tile_word1 L x) (tile_word1 L z));
    rewrite !Z.ltb_ge; lia.
Qed.

Lemma trunc_lr_small (v : Z) : 0 <= v < 2 ^ Z.of_nat (_LR L) -> trunc_lr L v = v.
Proof.
  intros Hv. unfold trunc_lr. rewrite LEFT_EDGE_ones. symmetry.
  apply small_land_ones; [lia|assumption].
Qed.

Lemma trunc_tb_small (v : Z) : 0 <= v < 2 ^ Z.of_nat (_TB L) -> trunc_tb L v = v.
Proof.
  intros Hv. unfold trunc_tb. rewrite TOP_EDGE_ones. symmetry.
  apply small_land_ones; [lia|assumption].
Qed.

Lemma chain_fits (v : Z) :
  0 <= v < 2 ^ Z.of_nat (_LR L) /\ 0 <= v < 2 ^ Z.of_nat (_TB L) ->
  chain L v = (v, v, v, v).
Proof.
  intros [Hl Ht]. unfold chain.
  now rewrite (trunc_tb_small v Ht), (trunc_lr_small v Hl), (trunc_tb_small v Ht),
    (trunc_lr_small v Hl).
Qed.

(** Without truncation the four tiles are the piece turned four ways. *)
Lemma rotations_fits (n : Z) (p : piece) :
  piece_fits L p ->
  rotations L n p =
    [ Tile (piece_right p) (piece_top p) (piece_left p) (piece_bottom p) (setBit 0 n) 0;
      Tile (piece_bottom p) (piece_right p) (piece_top p) (piece_left p) (setBit 0 n) 0;
      Tile (piece_left p) (piece_bottom p) (piece_right p) (piece_top p) (setBit 0 n) 0;
      Tile (piece_top p) (piece_left p) (piece_bottom p) (piece_right p) (setBit 0 n) 0 ].
Proof.
  intros Hp. unfold piece_fits, piece_edges in Hp.
  inversion Hp as [|? ? H1 Hp1]; subst. inversion Hp1 as [|? ? H2 Hp2]; subst.
  inversion Hp2 as [|? ? H3 Hp3]; subst. inversion Hp3 as [|? ? H4 _]; subst.
  unfold rotations.
  now rewrite (chain_fits _ H1), (chain_fits _ H2), (chain_fits _ H3), (chain_fits _ H4).
Qed.

Lemma rotations_wf (n : Z) (p : piece) :
  piece_fits L p -> Forall (tile_wf L) (rotations L n p).
Proof.
  intros Hp. rewrite (rotations_fits n p Hp).
  unfold piece_fits, piece_edges in Hp.
  inversion Hp as [|? ? H1 Hp1]; subst. inversion Hp1 as [|? ? H2 Hp2]; subst.
  inversion Hp2 as [|? ? H3 Hp3]; subst. inversion Hp3 as [|? ? H4 _]; subst.
  repeat apply List.Forall_cons; try apply List.Forall_nil; unfold tile_wf; cbn; tauto.
Qed.

Lemma sorted_rotations_perm (n : Z) (p : piece) :
  sorted_rotations L n p ≡ₚ rotations L n p.
Proof. apply std_sort_perm. Qed.

Lemma sorted_rotations_length (n : Z) (p : piece) :
  length (sorted_rotations L n p) = 4%nat.
Proof. now rewrite (sorted_rotations_perm n p). Qed.

Lemma word1_zero (t : tile) :
  tile_wf L t -> tile_word1 L t = 0 <-> val_left t = 0 /\ val_top t = 0.
Proof.
  intros (_ & _ & Hl & Ht). unfold tile_word1.
  rewrite Z.lor_eq_0_iff, shiftl_eq_0 by lia. tauto.
Qed.

Lemma word1_nonneg (t : tile) : tile_wf L t -> 0 <= tile_word1 L t.
Proof.
  intros (_ & _ & Hl & Ht). unfold tile_word1.
  apply Z.lor_nonneg. split; [lia|]. apply Z.shiftl_nonneg. lia.
Qed.

(** The head of the sorted rotations: one of the four, and a least one. *)
Lemma sorted_rotations_head (n : Z) (p : piece) :
  exists h rest,
    sorted_rotations L n p = h :: rest /\ h ∈ rotations L n p /\
    forall x, x ∈ rotations L n p -> sortTilesByEdge L x h = false.
Proof.
  pose proof (sorted_rotations_length n p) as Hlen.
  destruct (sorted_rotations L n p) as [|h rest] eqn:E; [discriminate|].
  exists h, rest. split; [reflexivity|].
  exact (std_sort_head (sortTilesByEdge L) sortTilesByEdge_irrefl sortTilesByEdge_asym
           sortTilesByEdge_negtrans _ _ rest E).
Qed.

Lemma head_corner (n : Z) (p : piece) (h : tile) :
  piece_fits L p -> h ∈ rotations L n p ->
  (forall x, x ∈ rotations L n p -> sortTilesByEdge L x h = false) ->
  (val_left h = 0 /\ val_top h = 0) <-> is_corner p.
Proof.
  intros Hp Hh Hmin. pose proof (rotations_wf n p Hp) as Hwf.
  rewrite List.Forall_forall in Hwf.
  assert (Hwfh : tile_wf L h) by (apply Hwf; now apply list_elem_of_In).
  rewrite (rotations_fits n p Hp) in *.
  split.
  - intros [Hl Ht]. unfold is_corner.
    repeat (apply elem_of_cons in Hh; destruct Hh as [->|Hh]); cbn in Hl, Ht; try tauto.
    now apply elem_of_nil in Hh.
  - intros Hc.
    assert (exists r, r ∈ rotations L n p /\ val_left r = 0 /\ val_top r = 0) as (r & Hr & Hrl & Hrt).
    { rewrite (rotations_fits n p Hp).
      destruct Hc as [[? ?]|[[? ?]|[[? ?]|[? ?]]]].
      - exists (Tile (piece_right p) (piece_top p) (piece_left p) (piece_bottom p) (setBit 0 n) 0).
        rewrite !elem_of_cons. cbn. auto.
      - exists (Tile (piece_bottom p) (piece_right p) (piece_top p) (piece_left p) (setBit 0 n) 0).
        rewrite !elem_of_cons. cbn. auto.
      - exists (Tile (piece_left p) (piece_bottom p) (piece_right p) (piece_top p) (setBit 0 n) 0).
        rewrite !elem_of_cons. cbn. auto.
      - exists (Tile (piece_top p) (piece_left p) (piece_bottom p) (piece_right p) (setBit 0 n) 0).
        rewrite !elem_of_cons. cbn. auto 6. }
    rewrite (rotations_fits n p Hp) in Hr.
    pose proof (Hmin r Hr) as Hcmp.
    assert (Hwfr : tile_wf L r) by (apply Hwf; now apply list_elem_of_In).
    assert (Hr0 : tile_word1 L r = 0) by (apply word1_zero; auto).
    pose proof (word1_nonneg h Hwfh) as Hh0.
    apply word1_zero; [assumption|].
    unfold sortTilesByEdge in Hcmp. rewrite Hr0 in Hcmp.
    destruct (Z.eqb_spec 0 (tile_word1 L h)); [congruence|].
    apply Z.ltb_ge in Hcmp. lia.
Qed.

Lemma head_opposite (n : Z) (p : piece) (h : tile) :
  piece_fits L p -> h ∈ rotations L n p ->
  ((val_left h = val_right h /\ val_top h = val_bottom h) <-> opposite_equal p) /\
  (opposite_equal p -> val_left h = val_top h <-> all_equal p).
Proof.
  intros Hp Hh. rewrite (rotations_fits n p Hp) in Hh.
  unfold opposite_equal, all_equal.
  repeat (apply elem_of_cons in Hh; destruct Hh as [->|Hh]); cbn;
    try (now apply elem_of_nil in Hh); intuition congruence.
Qed.

(** The slice [piece_tiles] takes is the one the policy names. *)
Lemma piece_tiles_policy (c n : Z) (p : piece) :
  piece_fits L p ->
  piece_tiles L c n p = (policy_tiles L (0 =? c) n p, bool_decide (is_corner p)).
Proof.
  intros Hp. unfold piece_tiles, policy_tiles. fold (sorted_rotations L n p).
  destruct (sorted_rotations_head n p) as (h & rest & E & Hh & Hmin).
  rewrite E. cbn [nth]. cbv zeta.
  pose proof (head_corner n p h Hp Hh Hmin) as Hc.
  destruct (head_opposite n p h Hp Hh) as [Ho Ha].
  destruct (bool_decide_reflect (is_corner p)) as [Hcor|Hcor].
  - destruct Hc as [_ Hc]. destruct (Hc Hcor) as [-> ->].
    change (0 =? 0) with true. cbn [andb].
    destruct (0 =? c); reflexivity.
  - replace ((0 =? val_left h) && (0 =? val_top h)) with false.
    2:{ symmetry. apply andb_false_iff.
        destruct (Z.eqb_spec 0 (val_left h)), (Z.eqb_spec 0 (val_top h)); auto.
        exfalso. apply Hcor, Hc. auto. }
    destruct (bool_decide_reflect (opposite_equal p)) as [Hopp|Hopp].
    + destruct Ho as [_ Ho]. destruct (Ho Hopp) as [El Et].
      rewrite <- El, <- Et, !Z.eqb_refl. cbn [andb].
      specialize (Ha Hopp).
      destruct (bool_decide_reflect (all_equal p)) as [Hall|Hall].
      * destruct Ha as [_ Ha]. rewrite (Ha Hall), Z.eqb_refl. reflexivity.
      * destruct (Z.eqb_spec (val_left h) (val_top h)); [tauto|reflexivity].
    + replace ((val_left h =? val_right h) && (val_top h =? val_bottom h)) with false.
      2:{ symmetry. apply andb_false_iff.
          destruct (Z.eqb_spec (val_left h) (val_right h)),
                   (Z.eqb_spec (val_top h) (val_bottom h)); auto.
          exfalso. apply Hopp, Ho. auto. }
      destruct (bool_decide_reflect (all_equal p)) as [Hall|Hall]; [|reflexivity].
      exfalso. apply Hopp. unfold all_equal, opposite_equal in *. intuition congruence.
Qed.
End Rotations.

Section GenerateLookupsFacts.
Variable L : layout.
Hypothesis HL : layout_ok L.

Lemma insert_range_tiles (ts : list tile) (s : tileArrayLookup) :
  Forall (tile_wf L) ts -> tiles_ (insert_range L ts s) = tiles_ s ++ ts.
Proof.
  unfold insert_range. revert s.
  induction ts as [|t ts IH]; intros s Hts; cbn [fold_left].
  - now rewrite app_nil_r.
  - inversion Hts; subst. rewrite IH by assumption.
    destruct (insert_spec L HL t s) as [-> _]; [assumption|].
    now rewrite <- app_assoc.
Qed.

Lemma policy_tiles_sub (fc : bool) (n : Z) (p : piece) (t : tile) :
  t ∈ policy_tiles L fc n p -> t ∈ rotations L n p.
Proof.
  intros Ht. rewrite <- (sorted_rotations_perm L n p).
  unfold policy_tiles in Ht. cbv zeta in Ht.
  repeat match type of Ht with
  | context [if ?b then _ else _] => destruct b
  end; first [assumption | now apply (subseteq_take 1) | now apply (subseteq_take 2)
             | now apply (subseteq_drop 1)].
Qed.

Lemma policy_tiles_wf (fc : bool) (n : Z) (p : piece) :
  piece_fits L p -> Forall (tile_wf L) (policy_tiles L fc n p).
Proof.
  intros Hp. pose proof (rotations_wf L n p Hp) as Hwf.
  rewrite List.Forall_forall in *. intros t Ht.
  apply Hwf. apply list_elem_of_In. apply policy_tiles_sub with fc.
  now apply list_elem_of_In.
Qed.

Lemma generateLookups_fold (pieces : pieceVector) (c n : Z) (s : tileArrayLookup) (seen : bool) :
  Forall (piece_fits L) pieces ->
  0 <= c -> 0 <= n ->
  c + Z.of_nat (length pieces) < 2 ^ 64 -> n + Z.of_nat (length pieces) < 2 ^ 64 ->
  (0 =? c) = negb seen ->
  tiles_ (snd (fold_left (generateLookups_step L) pieces (c, n, s))) =
  tiles_ s ++ policy_store L seen n pieces.
Proof.
  revert c n s seen.
  induction pieces as [|p ps IH]; intros c n s seen Hfit Hc Hn Hcl Hnl Hseen.
  - cbn. now rewrite app_nil_r.
  - inversion Hfit as [|? ? Hp Hps]; subst.
    cbn [fold_left policy_store length] in *.
    unfold generateLookups_step at 2.
    rewrite (piece_tiles_policy L c n p Hp).
    assert (Hwn : wrap (n + 1) = n + 1) by (unfold wrap, ENV_BITS; apply Z.mod_small; lia).
    assert (Hwc : wrap (c + 1) = c + 1) by (unfold wrap, ENV_BITS; apply Z.mod_small; lia).
    rewrite Hwn, Hwc, Hseen.
    rewrite (IH _ _ _ (seen || bool_decide (is_corner p))); try assumption; try lia.
    + rewrite insert_range_tiles by now apply policy_tiles_wf.
      now rewrite <- app_assoc.
    + destruct (bool_decide (is_corner p)); lia.
    + destruct (bool_decide (is_corner p)); lia.
    + destruct (bool_decide (is_corner p)).
      * rewrite orb_true_r. destruct (Z.eqb_spec 0 (c + 1)); [lia|reflexivity].
      * now rewrite orb_false_r.
Qed.

(** The tiles [generateLookups] stores, piece by piece, are slices of the
    sorted rotations: the first corner piece contributes one entry, the
    first of its sorted rotations, whose left and top are zero; every later
    corner piece the other three; a piece that is no corner one entry when
    its four edges are equal, the first two entries when its left equals its
    right and its top its bottom but not all four are equal, and all four
    rotations otherwise. *)
Theorem generateLookups_policy (pieces : pieceVector) :
  Forall (piece_fits L) pieces -> Z.of_nat (length pieces) < 2 ^ 64 ->
  tiles_ (generateLookups L pieces lookups_empty) = policy_store L false 0 pieces /\
  forall (first_corner : bool) (n : Z) (p : piece), piece_fits L p ->
    let ts := policy_tiles L first_corner n p in
    (forall t, t ∈ ts -> t ∈ rotations L n p) /\
    (is_corner p -> first_corner = true ->
       ts = firstn 1 (sorted_rotations L n p) /\ length ts = 1%nat /\
       forall t, t ∈ ts -> val_left t = 0 /\ val_top t = 0) /\
    (is_corner p -> first_corner = false ->
       ts = skipn 1 (sorted_rotations L n p) /\ length ts = 3%nat) /\
    (~ is_corner p -> all_equal p ->
       ts = firstn 1 (sorted_rotations L n p) /\ length ts = 1%nat) /\
    (~ is_corner p -> opposite_equal p -> ~ all_equal p ->
       ts = firstn 2 (sorted_rotations L n p) /\ length ts = 2%nat) /\
    (~ is_corner p -> ~ opposite_equal p ->
       length ts = 4%nat /\ ts ≡ₚ rotations L n p).
Proof.
  intros Hfit Hlen. split.
  - unfold generateLookups.
    rewrite (generateLookups_fold pieces 0 0 lookups_empty false); auto; lia.
  - intros fc n p Hp ts.
    pose proof (sorted_rotations_length L n p) as Hl4.
    destruct (sorted_rotations_head L n p) as (h & rest & E & Hh & Hmin).
    pose proof (head_corner L n p h Hp Hh Hmin) as Hc.
    split; [intros t; apply policy_tiles_sub|].
    subst ts. unfold policy_tiles. cbv zeta.
    split; [|split; [|split; [|split]]].
    + intros Hcor ->. rewrite (bool_decide_eq_true_2 _ Hcor).
      split; [reflexivity|]. split; [now rewrite length_take, Hl4|].
      intros t Ht. rewrite E in Ht. cbn in Ht.
      apply list_elem_of_singleton in Ht. subst t. now apply Hc.
    + intros Hcor ->. rewrite (bool_decide_eq_true_2 _ Hcor).
      split; [reflexivity|]. now rewrite length_drop, Hl4.
    + intros Hcor Hall. rewrite (bool_decide_eq_false_2 _ Hcor), (bool_decide_eq_true_2 _ Hall).
      split; [reflexivity|]. now rewrite length_take, Hl4.
    + intros Hcor Hopp Hall.
      rewrite (bool_decide_eq_false_2 _ Hcor), (bool_decide_eq_false_2 _ Hall),
        (bool_decide_eq_true_2 _ Hopp).
      split; [reflexivity|]. now rewrite length_take, Hl4.
    + intros Hcor Hopp.
      assert (Hall : ~ all_equal p).
      { intros Hall. apply Hopp. unfold all_equal, opposite_equal in *. intuition congruence. }
      rewrite (bool_decide_eq_false_2 _ Hcor), (bool_decide_eq_false_2 _ Hall),
        (bool_decide_eq_false_2 _ Hopp).
      split; [assumption|apply sorted_rotations_perm].
Qed.
End GenerateLookupsFacts.

Lemma generateLookups_policy_witness :
  tiles_ (generateLookups e8.lookup_1x1 test_pieces lookups_empty) =
  policy_store e8.lookup_1x1 false 0 test_pieces.
Proof.
  assert (HL : layout_ok e8.lookup_1x1) by (unfold layout_ok; simpl; lia).
  assert (Hfit : Forall (piece_fits e8.lookup_1x1) test_pieces).
  { repeat apply List.Forall_cons; try apply List.Forall_nil;
      unfold piece_fits; repeat apply List.Forall_cons; try apply List.Forall_nil;
      cbn; lia. }
  assert (Hlen : Z.of_nat (length test_pieces) < 2 ^ 64) by (cbn; lia).
  exact (proj1 (generateLookups_policy e8.lookup_1x1 HL test_pieces Hfit Hlen)).
Defined.

(** Sorting two tiles that each occur twice puts the two copies of the
    lesser one first. *)
Lemma sort_two_pairs (L : layout) (A B : tile) :
  tile_word1 L A < tile_word1 L B ->
  std_sort (sortTilesByEdge L) [A; B; A; B] = [A; A; B; B] /\
  std_sort (sortTilesByEdge L) [B; A; B; A] = [A; A; B; B].
Proof.
  intros Hlt.
  assert (HAA : sortTilesByEdge L A A = false) by apply sortTilesByEdge_irrefl.
  assert (HBB : sortTilesByEdge L B B = false) by apply sortTilesByEdge_irrefl.
  assert (HAB : sortTilesByEdge L A B = true).
  { unfold sortTilesByEdge. destruct (Z.eqb_spec (tile_word1 L A) (tile_word1 L B)); [lia|].
    now apply Z.ltb_lt. }
  assert (HBA : sortTilesByEdge L B A = false).
  { unfold sortTilesByEdge. destruct (Z.eqb_spec (tile_word1 L B) (tile_word1 L A)); [lia|].
    apply Z.ltb_ge. lia. }
  unfold std_sort.
  split; cbn [foldr sort_insert]; rewrite ?HAA, ?HBB, ?HAB, ?HBA;
    cbn [sort_insert]; rewrite ?HAA, ?HBB, ?HAB, ?HBA; cbn [sort_insert];
    rewrite ?HAA, ?HBB, ?HAB, ?HBA; reflexivity.
Qed.

Lemma word1_swap (L : layout) (a b m : Z) :
  0 <= a < 2 ^ Z.of_nat (_LR L) -> 0 <= b < 2 ^ Z.of_nat (_LR L) -> a <> b ->
  tile_word1 L (Tile a b a b m 0) <> tile_word1 L (Tile b a b a m 0).
Proof.
  intros Ha Hb Hne. unfold tile_word1. cbn [val_left val_top].
  intros E. apply Hne.
  assert (Ea : Z.land (Z.lor a (Z.shiftl b (Z.of_nat (_LR L)))) (Z.ones (Z.of_nat (_LR L))) = a).
  { rewrite Z.land_lor_distr_l, <- (small_land_ones a) by lia.
    rewrite Z.land_ones, Z.shiftl_mul_pow2, Z.mod_mul by lia. apply Z.lor_0_r. }
  assert (Eb : Z.land (Z.lor b (Z.shiftl a (Z.of_nat (_LR L)))) (Z.ones (Z.of_nat (_LR L))) = b).
  { rewrite Z.land_lor_distr_l, <- (small_land_ones b) by lia.
    rewrite Z.land_ones, Z.shiftl_mul_pow2, Z.mod_mul by lia. apply Z.lor_0_r. }
  rewrite E in Ea. congruence.
Qed.

(** C8, on the code: for a piece that is no corner and whose left edge equals
    its right edge and its top edge its bottom edge, the four not being
    equal, [generateLookups] stores two tiles, and they are the same rotation
    twice: of the two different rotations of the piece, the one that comes
    first in the sorted array is stored two times and the other one, a
    quarter turn away, is not stored.  The claim, and the description of the
    step in main.cpp (such a piece "only has two unique rotations"), have two
    rotations stored. *)
Theorem opposite_equal_same_rotation (L : layout) (p : piece) :
  layout_ok L -> piece_fits L p ->
  ~ is_corner p -> opposite_equal p -> ~ all_equal p ->
  exists a b, a <> b /\
    ((a = piece_left p /\ b = piece_top p) \/ (a = piece_top p /\ b = piece_left p)) /\
    (forall corners n,
       piece_tiles L corners n p =
         ([Tile a b a b (setBit 0 n) 0; Tile a b a b (setBit 0 n) 0], false) /\
       Tile b a b a (setBit 0 n) 0 ∈ rotations L n p) /\
    tiles_ (generateLookups L [p] lookups_empty) = [Tile a b a b 1 0; Tile a b a b 1 0].
Proof.
  intros HL Hp Hcor Hopp Hall.
  destruct p as [l t r b]. destruct Hopp as [Er Eb]. cbn in Er, Eb. subst r b.
  assert (Hlt : l <> t).
  { intros ->. apply Hall. unfold all_equal. cbn. auto. }
  assert (Hfit := Hp). unfold piece_fits, piece_edges in Hfit. cbn in Hfit.
  inversion Hfit as [|? ? [Hl Hl'] Hfit1]; subst. inversion Hfit1 as [|? ? [Ht Ht'] _]; subst.
  assert (Hrot : forall n, rotations L n (Piece l t l t) =
            [Tile l t l t (setBit 0 n) 0; Tile t l t l (setBit 0 n) 0;
             Tile l t l t (setBit 0 n) 0; Tile t l t l (setBit 0 n) 0]).
  { intros n. now rewrite (rotations_fits L n _ Hp). }
  assert (Hpol : forall c n, piece_tiles L c n (Piece l t l t) =
            (firstn 2 (std_sort (sortTilesByEdge L) (rotations L n (Piece l t l t))), false)).
  { intros c n. rewrite (piece_tiles_policy L c n _ Hp). unfold policy_tiles. cbv zeta.
    rewrite (bool_decide_eq_false_2 _ Hcor), (bool_decide_eq_false_2 _ Hall).
    rewrite bool_decide_eq_true_2 by (split; reflexivity). reflexivity. }
  assert (Hsort : exists a b, a <> b /\ ((a = l /\ b = t) \/ (a = t /\ b = l)) /\
            0 <= a < 2 ^ Z.of_nat (_LR L) /\ 0 <= b < 2 ^ Z.of_nat (_TB L) /\
            0 <= b < 2 ^ Z.of_nat (_LR L) /\ 0 <= a < 2 ^ Z.of_nat (_TB L) /\
            forall n, std_sort (sortTilesByEdge L) (rotations L n (Piece l t l t)) =
              [Tile a b a b (setBit 0 n) 0; Tile a b a b (setBit 0 n) 0;
               Tile b a b a (setBit 0 n) 0; Tile b a b a (setBit 0 n) 0]).
  { assert (Hw : forall m, tile_word1 L (Tile l t l t m 0) < tile_word1 L (Tile t l t l m 0) \/
                           tile_word1 L (Tile t l t l m 0) < tile_word1 L (Tile l t l t m 0)).
    { intros m. pose proof (word1_swap L l t m Hl Ht Hlt). lia. }
    destruct (Hw 0) as [H0|H0].
    - exists l, t. repeat (split; [solve [auto]|]). intros n. rewrite Hrot.
      apply (sort_two_pairs L (Tile l t l t (setBit 0 n) 0) (Tile t l t l (setBit 0 n) 0)).
      exact H0.
    - exists t, l. repeat (split; [solve [auto]|]). intros n. rewrite Hrot.
      apply (sort_two_pairs L (Tile t l t l (setBit 0 n) 0) (Tile l t l t (setBit 0 n) 0)).
      exact H0. }
  destruct Hsort as (a & b & Hab & Hor & Ha & Hb & Hb' & Ha' & Hs).
  exists a, b. split; [exact Hab|]. split; [exact Hor|]. split.
  - intros c n. split.
    + rewrite Hpol, Hs. reflexivity.
    + rewrite Hrot. destruct Hor as [[-> ->]|[-> ->]]; rewrite !elem_of_cons; auto.
  - unfold generateLookups. cbn [fold_left]. unfold generateLookups_step.
    rewrite Hpol, Hs. cbn [firstn snd].
    rewrite (insert_range_tiles L HL) by
      (repeat apply List.Forall_cons; try apply List.Forall_nil; unfold tile_wf; cbn; auto).
    reflexivity.
Qed.

Lemma opposite_equal_same_rotation_witness :
  tiles_ (generateLookups e8.lookup_1x1 [Piece 1 2 1 2] lookups_empty) =
    [Tile 2 1 2 1 1 0; Tile 2 1 2 1 1 0] /\
  Tile 1 2 1 2 1 0 ∈ rotations e8.lookup_1x1 0 (Piece 1 2 1 2).
Proof.
  assert (HL : layout_ok e8.lookup_1x1) by (unfold layout_ok; simpl; lia).
  assert (Hfit : piece_fits e8.lookup_1x1 (Piece 1 2 1 2)).
  { unfold piece_fits; repeat apply List.Forall_cons; try apply List.Forall_nil; cbn; lia. }
  destruct (opposite_equal_same_rotation e8.lookup_1x1 (Piece 1 2 1 2) HL Hfit)
    as (a & b & Hab & Hor & Hp & Hs).
  - unfold is_corner. cbn. lia.
  - split; reflexivity.
  - unfold all_equal. cbn. lia.
  - assert (Ea : a = 2) by (vm_compute in Hs; congruence).
    assert (Eb : b = 1) by (vm_compute in Hs; congruence).
    subst a b. split; [exact Hs|]. exact (proj2 (Hp 0 0)).
Defined.

(** What the missing rotation costs: the nine pieces below fit together as
    a 3 by 3 puzzle, each lying as the first of the four rotations
    [generateLookups] makes of it, the fifth piece in the middle.  The solve
    of the store [generateLookups] builds counts no solution; with the
    rotation of the fifth piece that was left out added to the store, it
    counts one. *)
Remark opposite_equal_missed_solution :
  let pieces := [ Piece 0 3 3 0; Piece 3 2 4 0; Piece 4 5 0 0;
                  Piece 0 4 1 3; Piece 1 2 1 2; Piece 1 6 0 5;
                  Piece 0 0 5 4; Piece 5 0 6 2; Piece 6 0 0 6 ] in
  let L := e8.lookup_1x1 in
  let lookups := generateLookups L pieces lookups_empty in
  main_dispatch pieces = Solves mask_32 edges_8 /\
  List.filter (fun u => mask u =? 16) (tiles_ lookups) =
    [Tile 2 1 2 1 16 0; Tile 2 1 2 1 16 0] /\
  count_solutions L lookups false typeNormal 3 3 = Some 0 /\
  count_solutions L (insert L (Tile 1 2 1 2 16 0) lookups) false typeNormal 3 3 = Some 1.
Proof. repeat split; vm_compute; reflexivity. Qed.

(** ** Boards: the loops over the placements (board.h) *)

Lemma fold_alter_length {A : Type} (g : nat -> A -> A) (ks : list nat) (l : list A) :
  length (fold_left (fun l k => alter (g k) k l) ks l) = length l.
Proof.
  revert l. induction ks as [|k ks IH]; intros l; cbn [fold_left]; [reflexivity|].
  now rewrite IH, length_alter.
Qed.

Lemma fold_alter_lookup {A : Type} (g : nat -> A -> A) (ks : list nat) (l : list A) (i : nat) :
  NoDup ks ->
  fold_left (fun l k => alter (g k) k l) ks l !! i =
  if decide (i ∈ ks) then g i <$> l !! i else l !! i.
Proof.
  revert l. induction ks as [|k ks IH]; intros l Hnd; cbn [fold_left].
  - now rewrite decide_False by apply not_elem_of_nil.
  - apply NoDup_cons in Hnd. destruct Hnd as [Hk Hnd].
    rewrite IH by assumption.
    destruct (decide (i = k)) as [->|Hik].
    + rewrite (decide_False (P := k ∈ ks)) by assumption.
      rewrite (decide_True (P := k ∈ k :: ks)) by left.
      apply list_lookup_alter_eq.
    + rewrite list_lookup_alter_ne by congruence.
      destruct (decide (i ∈ ks)) as [Hin|Hin].
      * rewrite decide_True by now right. reflexivity.
      * rewrite decide_False; [reflexivity|].
        intros Hin'. apply elem_of_cons in Hin'. tauto.
Qed.

Lemma for_xy_flat {T : Type} (w h : nat) (f : nat -> T -> T) (s : T) :
  for_xy w h (fun x y => f (x * h + y)%nat) s =
  fold_left (fun s k => f k s) (seq 0 (w * h)) s.
Proof.
  unfold for_xy. revert s. induction w as [|w IH]; intros s; [reflexivity|].
  rewrite seq_S, fold_left_app. cbn [fold_left]. rewrite IH.
  replace (S w * h)%nat with (w * h + h)%nat by lia.
  rewrite seq_app, fold_left_app. cbn [Nat.add].
  generalize (fold_left (fun s k => f k s) (seq 0 (w * h)) s). intros s'.
  replace (seq (w * h) h) with (Nat.add (w * h) <$> seq 0 h)
    by (rewrite fmap_add_seq; f_equal; lia).
  generalize (seq 0 h). intros ys. revert s'.
  induction ys as [|y ys IHy]; intros s'; [reflexivity|].
  cbn [fold_left fmap list_fmap]. apply IHy.
Qed.

Lemma for_xy_ext {T : Type} (w h : nat) (f g : nat -> nat -> T -> T) (s : T) :
  (forall x y s, (x < w)%nat -> (y < h)%nat -> f x y s = g x y s) ->
  for_xy w h f s = for_xy w h g s.
Proof.
  intros Hfg. unfold for_xy.
  assert (Hin : forall xs ys s,
             (forall x, x ∈ xs -> (x < w)%nat) -> (forall y, y ∈ ys -> (y < h)%nat) ->
             fold_left (fun s x => fold_left (fun s y => f x y s) ys s) xs s =
             fold_left (fun s x => fold_left (fun s y => g x y s) ys s) xs s).
  { intros xs ys. induction xs as [|x xs IH]; intros s0 Hxs Hys; [reflexivity|].
    cbn [fold_left]. rewrite IH; [|intros; apply Hxs; now right|assumption].
    f_equal. clear IH. revert s0.
    induction ys as [|y ys IHy]; intros s0; [reflexivity|].
    cbn [fold_left]. rewrite Hfg; [|apply Hxs; left|apply Hys; left].
    apply IHy. intros; apply Hys; now right. }
  apply Hin; intros k Hk; apply elem_of_seq in Hk; lia.
Qed.

Lemma at_index_div (h x y : nat) : (y < h)%nat -> ((x * h + y) / h = x)%nat.
Proof. intros Hy. rewrite Nat.div_add_l by lia. rewrite Nat.div_small by lia. lia. Qed.

Lemma at_index_mod (h x y : nat) : (y < h)%nat -> ((x * h + y) mod h = y)%nat.
Proof.
  intros Hy. rewrite Nat.add_comm, Nat.Div0.mod_add. now apply Nat.mod_small.
Qed.

Lemma at_index_lt (w h x y : nat) : (x < w)%nat -> (y < h)%nat -> (x * h + y < w * h)%nat.
Proof. intros Hx Hy. nia. Qed.

Lemma at_index_inj (h x y x' y' : nat) :
  (y < h)%nat -> (y' < h)%nat -> (x * h + y = x' * h + y')%nat -> x = x' /\ y = y'.
Proof.
  intros Hy Hy' E.
  pose proof (at_index_div h x y Hy) as Hd. pose proof (at_index_div h x' y' Hy') as Hd'.
  pose proof (at_index_mod h x y Hy) as Hm. pose proof (at_index_mod h x' y' Hy') as Hm'.
  rewrite E in Hd, Hm. split; congruence.
Qed.

(** The nested loops change the placement at each [(x, y)] once. *)
Lemma for_xy_alter_lookup {A : Type} (w h : nat) (f : nat -> nat -> A -> A) (l : list A)
    (x y : nat) :
  (x < w)%nat -> (y < h)%nat ->
  for_xy w h (fun x y l => alter (f x y) (at_index h x y) l) l !! at_index h x y =
  f x y <$> l !! at_index h x y.
Proof.
  intros Hx Hy. unfold at_index.
  rewrite (for_xy_ext w h _
             (fun x y => (fun k l => alter (f (k / h) (k mod h))%nat k l) (x * h + y)%nat)).
  2:{ intros x0 y0 s _ Hy0. cbv beta. now rewrite at_index_div, at_index_mod. }
  rewrite (for_xy_flat w h (fun k l => alter (f (k / h) (k mod h))%nat k l)).
  rewrite (fold_alter_lookup (fun k => f (k / h) (k mod h))%nat) by apply NoDup_seq.
  rewrite decide_True.
  - now rewrite at_index_div, at_index_mod.
  - apply elem_of_seq. pose proof (at_index_lt w h x y Hx Hy). lia.
Qed.

Lemma for_xy_alter_length {A : Type} (w h : nat) (f : nat -> nat -> A -> A) (l : list A) :
  length (for_xy w h (fun x y l => alter (f x y) (at_index h x y) l) l) = length l.
Proof.
  unfold at_index.
  rewrite (for_xy_ext w h _
             (fun x y => (fun k l => alter (f (k / h) (k mod h))%nat k l) (x * h + y)%nat)).
  2:{ intros x0 y0 s _ Hy0. cbv beta. now rewrite at_index_div, at_index_mod. }
  rewrite (for_xy_flat w h (fun k l => alter (f (k / h) (k mod h))%nat k l)).
  apply (fold_alter_length (fun k => f (k / h) (k mod h))%nat).
Qed.

Section BoardConstruction.
Variable L : layout.
Hypothesis HL : layout_ok L.

Lemma setType_fields (value : type) (b : board) :
  self (setType L value b) = self b /\ width_ (setType L value b) = width_ b /\
  height_ (setType L value b) = height_ b /\ solutions_ (setType L value b) = solutions_ b /\
  print_ (setType L value b) = print_ b /\ quit_ (setType L value b) = quit_ b /\
  threaded_ (setType L value b) = threaded_ b /\ junk_ (setType L value b) = junk_ b /\
  length (placements_ (setType L value b)) = length (placements_ b).
Proof.
  unfold setType. cbn. repeat split; try reflexivity. apply for_xy_alter_length.
Qed.

Lemma setType_cell (value : type) (b : board) (x y : nat) :
  (x < width_ b)%nat -> (y < height_ b)%nat ->
  placements_ (setType L value b) !! at_index (height_ b) x y =
  (fun p => with_lookup (set_type_fields L (width_ b) (height_ b) value x y (pl_lookup p)) p)
    <$> placements_ b !! at_index (height_ b) x y.
Proof.
  intros Hx Hy. unfold setType. cbn [placements_ with_placements].
  now rewrite for_xy_alter_lookup.
Qed.

Lemma type_fields_ok (w h : nat) (value : type) (x y : nat) :
  fields_ok L
    (if Nat.eqb 0 x && has_border _LEFT_BORDER value then 0 else LEFT_EDGE L)
    (if Nat.eqb 0 y && has_border _TOP_BORDER value then 0 else TOP_EDGE L)
    (if Nat.eqb x (w - 1) && has_border _RIGHT_BORDER value then 0 else 1)
    (if Nat.eqb y (h - 1) && has_border _BOTTOM_BORDER value then 0 else 1).
Proof.
  pose proof (LEFT_EDGE_range L HL). pose proof (TOP_EDGE_range L HL).
  assert (0 < 2 ^ Z.of_nat (_LR L)) by (apply Z.pow_pos_nonneg; lia).
  assert (0 < 2 ^ Z.of_nat (_TB L)) by (apply Z.pow_pos_nonneg; lia).
  unfold fields_ok.
  repeat match goal with |- context [if ?c then _ else _] => destruct c end;
    repeat split; lia.
Qed.

(** [setType] on a lookup that holds four fields yields the lookup of the
    board type. *)
Lemma set_type_fields_pack (w h : nat) (value : type) (x y : nat) (l t r b : Z) :
  fields_ok L l t r b ->
  set_type_fields L w h value x y (pack L l t r b) = type_lookup L w h value x y.
Proof.
  intros Hf. unfold set_type_fields, type_lookup. cbv zeta.
  apply (set_type_lookup L HL); [assumption|apply type_fields_ok].
Qed.

Lemma zero_fields_ok : fields_ok L 0 0 0 0.
Proof.
  assert (0 < 2 ^ Z.of_nat (_LR L)) by (apply Z.pow_pos_nonneg; lia).
  assert (0 < 2 ^ Z.of_nat (_TB L)) by (apply Z.pow_pos_nonneg; lia).
  unfold fields_ok. lia.
Qed.

Lemma generateTilePattern_length (b : board) :
  length (placements_ (generateTilePattern b)) = length (placements_ b).
Proof.
  unfold generateTilePattern. cbn [placements_ with_placements].
  apply (fold_alter_length
           (fun i p => Placement (pl_lookup p) (pl_tile p) (pl_left p) (pl_top p)
                         (pl_right p) (pl_bottom p)
                         (if (0 <? i)%nat then PCell (self b) (i - 1) else PNull)
                         (if (i <? width_ b * height_ b - 1)%nat
                          then PCell (self b) (i + 1) else PNull))).
Qed.

Lemma initialize_length (b : board) :
  length (placements_ (initialize L b)) = (width_ b * height_ b)%nat.
Proof.
  unfold initialize. cbv zeta.
  match goal with
  | |- context [setType L typeNormal ?b'] =>
      destruct (setType_fields typeNormal b') as (_ & _ & _ & _ & _ & _ & _ & _ & ->)
  end.
  cbn [placements_ with_placements].
  now rewrite for_xy_alter_length, length_replicate.
Qed.

Lemma fresh_board_fields (addr w h : nat) (s : Z) (pr qt th : bool) (ps : list placement)
    (j : placement) :
  let b := generateTilePattern (initialize L (Board addr w h s pr qt th ps j)) in
  self b = addr /\ width_ b = w /\ height_ b = h /\ solutions_ b = s /\
  print_ b = pr /\ quit_ b = qt /\ threaded_ b = th /\ junk_ b = j /\
  length (placements_ b) = (w * h)%nat.
Proof.
  cbv zeta. rewrite generateTilePattern_length, initialize_length.
  repeat split; reflexivity.
Qed.

Lemma initialize_cell (b : board) (x y : nat) :
  (x < width_ b)%nat -> (y < height_ b)%nat ->
  placements_ (initialize L b) !! at_index (height_ b) x y =
  Some (Placement (type_lookup L (width_ b) (height_ b) typeNormal x y) None
          (if (0 <? x)%nat then PCell (self b) (at_index (height_ b) (x - 1) y)
           else PJunk (self b))
          (if (0 <? y)%nat then PCell (self b) (at_index (height_ b) x (y - 1))
           else PJunk (self b))
          (if (x <? width_ b - 1)%nat then PCell (self b) (at_index (height_ b) (x + 1) y)
           else PJunk (self b))
          (if (y <? height_ b - 1)%nat then PCell (self b) (at_index (height_ b) x (y + 1))
           else PJunk (self b))
          PNull PNull).
Proof.
  intros Hx Hy. pose proof (at_index_lt _ _ x y Hx Hy) as Hlt.
  unfold initialize. cbv zeta.
  set (b1 := with_placements (replicate (width_ b * height_ b) placement_zero) b).
  match goal with
  | |- placements_ (setType L typeNormal ?b') !! _ = _ => set (b2 := b')
  end.
  change (height_ b) with (height_ b2) at 1.
  rewrite (setType_cell typeNormal b2 x y Hx Hy).
  subst b2. cbn [placements_ with_placements width_ height_].
  rewrite for_xy_alter_lookup by assumption.
  subst b1. cbn [placements_ with_placements].
  rewrite lookup_replicate_2 by assumption.
  cbn [fmap option_fmap option_map pl_lookup pl_tile pl_left pl_top pl_right pl_bottom
       pl_prev pl_next placement_zero with_lookup at_ptr self height_ width_ with_placements].
  rewrite <- (pack_zero L), (set_type_fields_pack (width_ b) (height_ b) typeNormal x y)
    by apply zero_fields_ok.
  reflexivity.
Qed.

Lemma generateTilePattern_cell (b : board) (i : nat) :
  (i < width_ b * height_ b)%nat ->
  placements_ (generateTilePattern b) !! i =
  (fun p => Placement (pl_lookup p) (pl_tile p) (pl_left p) (pl_top p) (pl_right p) (pl_bottom p)
              (if (0 <? i)%nat then PCell (self b) (i - 1) else PNull)
              (if (i <? width_ b * height_ b - 1)%nat then PCell (self b) (i + 1) else PNull))
    <$> placements_ b !! i.
Proof.
  intros Hi. unfold generateTilePattern. cbn [placements_ with_placements].
  rewrite (fold_alter_lookup
             (fun i p => Placement (pl_lookup p) (pl_tile p) (pl_left p) (pl_top p)
                           (pl_right p) (pl_bottom p)
                           (if (0 <? i)%nat then PCell (self b) (i - 1) else PNull)
                           (if (i <? width_ b * height_ b - 1)%nat
                            then PCell (self b) (i + 1) else PNull)))
    by (apply NoDup_ListNoDup, List.NoDup_rev, NoDup_ListNoDup, NoDup_seq).
  rewrite decide_True; [reflexivity|].
  apply list_elem_of_In, in_rev. rewrite rev_involutive. apply in_seq. lia.
Qed.

Lemma fresh_board_cell (addr w h : nat) (s : Z) (pr qt th : bool) (ps : list placement)
    (j : placement) (x y : nat) :
  (x < w)%nat -> (y < h)%nat ->
  placements_ (generateTilePattern (initialize L (Board addr w h s pr qt th ps j)))
    !! at_index h x y = Some (fresh_cell L addr w h x y).
Proof.
  intros Hx Hy. pose proof (at_index_lt w h x y Hx Hy) as Hlt.
  pose proof (initialize_cell (Board addr w h s pr qt th ps j) x y Hx Hy) as E.
  cbn [height_ width_ self] in E.
  rewrite generateTilePattern_cell by exact Hlt.
  rewrite E. reflexivity.
Qed.

Lemma board_new_cell (addr w h x y : nat) :
  (x < w)%nat -> (y < h)%nat ->
  placements_ (board_new L addr w h) !! at_index h x y = Some (fresh_cell L addr w h x y).
Proof. apply fresh_board_cell. Qed.

Lemma board_copy_fields (addr : nat) (other : board) :
  let b := board_copy L addr other in
  self b = addr /\ width_ b = width_ other /\ height_ b = height_ other /\
  solutions_ b = 0 /\ print_ b = print_ other /\ quit_ b = quit_ other /\
  threaded_ b = false /\ junk_ b = placement_zero /\
  length (placements_ b) = (width_ other * height_ other)%nat.
Proof.
  cbv zeta. unfold board_copy. cbv zeta.
  set (b0 := Board addr (width_ other) (height_ other) 0 (print_ other) (quit_ other) false
               [] placement_zero).
  destruct (fresh_board_fields addr (width_ other) (height_ other) 0 (print_ other)
              (quit_ other) false [] placement_zero)
    as (Hs & Hw & Hh & Hsol & Hp & Hq & Ht & Hj & Hlen).
  fold b0 in Hs, Hw, Hh, Hsol, Hp, Hq, Ht, Hj, Hlen.
  cbn [self width_ height_ solutions_ print_ quit_ threaded_ junk_ placements_ with_placements].
  repeat split; try assumption.
  rewrite Hw, Hh.
  rewrite (for_xy_ext _ _ _
             (fun x y ps =>
                alter (fun p => match placements_ other !! at_index (height_ other) x y with
                                | Some p0 => with_tile (pl_tile p0) (with_lookup (pl_lookup p0) p)
                                | None => p
                                end) (at_index (height_ other) x y) ps)).
  - now rewrite for_xy_alter_length.
  - intros x y ps _ _. destruct (placements_ other !! at_index (height_ other) x y); [reflexivity|].
    symmetry. apply list_alter_id. reflexivity.
Qed.

(** The placement of a copy at [(x, y)]: a fresh placement of the copy with
    the lookup and the tile of the placement of the source at [(x, y)]. *)
Lemma board_copy_cell (addr : nat) (other : board) (x y : nat) :
  length (placements_ other) = (width_ other * height_ other)%nat ->
  (x < width_ other)%nat -> (y < height_ other)%nat ->
  exists p0,
    placements_ other !! at_index (height_ other) x y = Some p0 /\
    placements_ (board_copy L addr other) !! at_index (height_ other) x y =
    Some (with_tile (pl_tile p0)
            (with_lookup (pl_lookup p0)
               (fresh_cell L addr (width_ other) (height_ other) x y))).
Proof.
  intros Hlen Hx Hy. pose proof (at_index_lt _ _ x y Hx Hy) as Hlt.
  destruct (lookup_lt_is_Some_2 (placements_ other) (at_index (height_ other) x y))
    as [p0 Hp0]; [unfold at_index; lia|].
  exists p0. split; [assumption|].
  unfold board_copy. cbv zeta.
  set (b0 := Board addr (width_ other) (height_ other) 0 (print_ other) (quit_ other) false
               [] placement_zero).
  destruct (fresh_board_fields addr (width_ other) (height_ other) 0 (print_ other)
              (quit_ other) false [] placement_zero)
    as (Hs & Hw & Hh & _).
  fold b0 in Hs, Hw, Hh.
  cbn [placements_ with_placements]. rewrite Hw, Hh.
  rewrite (for_xy_ext _ _ _
             (fun x y ps =>
                alter (fun p => match placements_ other !! at_index (height_ other) x y with
                                | Some p0 => with_tile (pl_tile p0) (with_lookup (pl_lookup p0) p)
                                | None => p
                                end) (at_index (height_ other) x y) ps)).
  - rewrite for_xy_alter_lookup by assumption.
    subst b0. rewrite fresh_board_cell by assumption.
    cbn [fmap option_fmap option_map]. now rewrite Hp0.
  - intros x0 y0 ps _ _.
    destruct (placements_ other !! at_index (height_ other) x0 y0); [reflexivity|].
    symmetry. apply list_alter_id. reflexivity.
Qed.

Lemma fresh_cell_links (addr w h x y : nat) (c : placement) :
  cell_links addr w h x y
    (with_tile (pl_tile c) (with_lookup (pl_lookup c) (fresh_cell L addr w h x y))).
Proof. unfold cell_links. cbn. repeat split; reflexivity. Qed.

End BoardConstruction.

(** ** Placing a tile (placement.h) *)

Lemma deref_cell (b : board) (i : nat) : deref b (PCell (self b) i) = placements_ b !! i.
Proof. unfold deref. now rewrite Nat.eqb_refl. Qed.

Lemma deref_junk (b : board) : deref b (PJunk (self b)) = Some (junk_ b).
Proof. unfold deref. now rewrite Nat.eqb_refl. Qed.

Lemma assign_cell (b : board) (i : nat) (v : placement) :
  (i < length (placements_ b))%nat ->
  assign b (PCell (self b) i) v = Some (with_placements (<[i := v]> (placements_ b)) b).
Proof.
  intros Hi. unfold assign. rewrite Nat.eqb_refl. cbn [andb].
  now rewrite (proj2 (Nat.ltb_lt _ _) Hi).
Qed.

Lemma assign_junk (b : board) (v : placement) :
  assign b (PJunk (self b)) v = Some (with_junk v b).
Proof. unfold assign. now rewrite Nat.eqb_refl. Qed.

(** Reading a placement through a pointer and writing it back changed. *)
Lemma update_cell (b : board) (i : nat) (c : placement) (f : placement -> placement) :
  placements_ b !! i = Some c ->
  (r ← deref b (PCell (self b) i); assign b (PCell (self b) i) (f r)) =
  Some (with_placements (alter f i (placements_ b)) b).
Proof.
  intros Hc. rewrite deref_cell, Hc. cbn [mbind option_bind].
  rewrite assign_cell by (now apply lookup_lt_Some in Hc).
  do 2 f_equal. apply list_eq. intros k.
  destruct (decide (k = i)) as [->|Hk].
  - rewrite list_lookup_insert_eq by (now apply lookup_lt_Some in Hc).
    now rewrite list_lookup_alter_eq, Hc.
  - rewrite list_lookup_insert_ne by congruence.
    now rewrite list_lookup_alter_ne by congruence.
Qed.

Lemma update_junk (b : board) (f : placement -> placement) :
  (r ← deref b (PJunk (self b)); assign b (PJunk (self b)) (f r)) =
  Some (with_junk (f (junk_ b)) b).
Proof. rewrite deref_junk. cbn [mbind option_bind]. apply assign_junk. Qed.


Lemma insert_as_alter {A : Type} (f : A -> A) (l : list A) (i : nat) (x : A) :
  l !! i = Some x -> <[i := f x]> l = alter f i l.
Proof.
  intros Hx. apply list_eq. intros k. destruct (decide (k = i)) as [->|Hk].
  - rewrite list_lookup_insert_eq by (now apply lookup_lt_Some in Hx).
    now rewrite list_lookup_alter_eq, Hx.
  - rewrite list_lookup_insert_ne by congruence.
    now rewrite list_lookup_alter_ne by congruence.
Qed.

Lemma update_cell_bind {B : Type} (b : board) (addr i : nat) (c : placement)
    (f : placement -> placement) (k : board -> option B) :
  self b = addr -> placements_ b !! i = Some c ->
  (r ← deref b (PCell addr i); b' ← assign b (PCell addr i) (f r); k b') =
  k (with_placements (alter f i (placements_ b)) b).
Proof.
  intros <- Hc. rewrite deref_cell, Hc. cbn [mbind option_bind].
  rewrite assign_cell by (now apply lookup_lt_Some in Hc). cbn [mbind option_bind].
  now rewrite (insert_as_alter f _ _ _ Hc).
Qed.

Lemma update_junk_bind {B : Type} (b : board) (addr : nat)
    (f : placement -> placement) (k : board -> option B) :
  self b = addr ->
  (r ← deref b (PJunk addr); b' ← assign b (PJunk addr) (f r); k b') =
  k (with_junk (f (junk_ b)) b).
Proof.
  intros <-. rewrite deref_junk. cbn [mbind option_bind].
  now rewrite assign_junk.
Qed.

Lemma index_coords (w h i : nat) :
  (i < w * h)%nat -> exists x y, (x < w)%nat /\ (y < h)%nat /\ i = at_index h x y.
Proof.
  intros Hi. assert (Hh : h <> 0%nat) by (intros ->; lia).
  exists (i / h)%nat, (i mod h)%nat. split; [|split].
  - apply Nat.Div0.div_lt_upper_bound. lia.
  - now apply Nat.mod_upper_bound.
  - unfold at_index. pose proof (Nat.div_mod_eq i h). lia.
Qed.

Section PlaceFacts.
Variable L : layout.
Hypothesis HL : layout_ok L.
Variable lookups : tileArrayLookup.
Variables (addr w h : nat).
Variable value : type.
Variables (pr qt : bool).

Local Abbreviation bstate := (board_state L lookups addr w h value pr qt).
Local Abbreviation tile_of' := (tile_of lookups).

(** The state depends on the tiles placed only through the positions it
    speaks of. *)
Lemma board_state_mono (a a' : list nat) (kt kl ku kt' kl' ku' : nat) (b : board) :
  (kt' <= kt)%nat -> (kl' <= kl)%nat -> (ku' <= ku)%nat ->
  (forall k, (k < kt')%nat -> a' !! k = a !! k) ->
  (forall k, (k < kl' \/ k < ku')%nat -> nth k a' 0%nat = nth k a 0%nat) ->
  bstate a kt kl ku b -> bstate a' kt' kl' ku' b.
Proof.
  intros Hkt Hkl Hku Hlook Hnth (Hs & Hw & Hh & Hp & Hq & Hlen & Hcells).
  repeat (split; [assumption|]).
  intros x y Hx Hy. destruct (Hcells x y Hx Hy) as (c & Hc & Hlinks & Hlk & Htile).
  exists c. split; [assumption|]. split; [assumption|]. split.
  - destruct Hlk as (l & t & Hpack & Hl & Ht & Hl0 & Hl1 & Ht0 & Ht1).
    exists l, t. repeat (split; [assumption|]). split; [|split; [assumption|]].
    + intros H0 H1. rewrite Hnth by lia. apply Hl1; lia.
    + intros H0 H1. rewrite Hnth by lia. apply Ht1; lia.
  - intros Hlt. rewrite Hlook by lia. apply Htile. lia.
Qed.

Lemma board_inv_app (a : list nat) (q : nat) (b : board) :
  board_inv L lookups addr w h value pr qt a b ->
  bstate (a ++ [q]) (length a) (length a) (length a) b.
Proof.
  apply board_state_mono; try lia.
  - intros k Hk. now apply lookup_app_l.
  - intros k Hk. apply app_nth1. lia.
Qed.

Lemma board_inv_weaken (a : list nat) (q : nat) (b : board) :
  board_inv L lookups addr w h value pr qt (a ++ [q]) b ->
  board_inv L lookups addr w h value pr qt a b.
Proof.
  unfold board_inv. rewrite length_app. cbn [length].
  apply board_state_mono; try lia.
  - intros k Hk. symmetry. now apply lookup_app_l.
  - intros k Hk. symmetry. apply app_nth1. lia.
Qed.

(** The first step of [place]: the placement takes the tile. *)
Lemma board_state_tile (a : list nat) (i kl ku q : nat) (b : board) :
  bstate a i kl ku b -> a !! i = Some q ->
  bstate a (S i) kl ku (with_placements (alter (with_tile (Some q)) i (placements_ b)) b).
Proof.
  intros (Hs & Hw & Hh & Hp & Hq & Hlen & Hcells) Hai.
  repeat (split; [assumption|]). split; [cbn; now rewrite length_alter|].
  intros x y Hx Hy. destruct (Hcells x y Hx Hy) as (c & Hc & Hlinks & Hlk & Htile).
  cbn [placements_ with_placements].
  destruct (decide (at_index h x y = i)) as [E|E].
  - exists (with_tile (Some q) c). split; [|split; [|split]].
    + rewrite E in *. now rewrite list_lookup_alter_eq, Hc.
    + exact Hlinks.
    + exact Hlk.
    + intros _. cbn. now rewrite E.
  - exists c. split; [|split; [|split]]; try assumption.
    + now rewrite list_lookup_alter_ne by congruence.
    + intros Hlt. apply Htile. lia.
Qed.

(** The second step: the right neighbour's lookup takes the tile's right
    pattern as its left pattern. *)
Lemma board_state_right (a : list nat) (kt ku x y : nat) (tl : tile) (b : board) :
  bstate a kt (at_index h x y) ku b ->
  (x < w)%nat -> (y < h)%nat -> (x + 1 < w)%nat ->
  tile_wf L tl -> tile_of' (nth (at_index h x y) a 0%nat) = tl ->
  bstate a kt (S (at_index h x y)) ku
    (with_placements
       (alter (fun r => with_lookup
                          (Z.lor (Z.land (pl_lookup r) (MASK_LEFT_EDGE_INV L))
                                 (Z.land (MASK_LEFT_EDGE L) (tile_lookup L tl))) r)
              (at_index h (x + 1) y) (placements_ b)) b).
Proof.
  intros (Hs & Hw & Hh & Hp & Hq & Hlen & Hcells) Hx Hy Hx1 Hwf Htl.
  repeat (split; [assumption|]). split; [cbn; now rewrite length_alter|].
  intros x' y' Hx' Hy'. destruct (Hcells x' y' Hx' Hy') as (c & Hc & Hlinks & Hlk & Htile).
  cbn [placements_ with_placements].
  destruct Hlk as (l & t & Hpack & Hl & Ht & Hl0 & Hl1 & Ht0 & Ht1).
  destruct (decide (at_index h x' y' = at_index h (x + 1) y)) as [E|E].
  - apply at_index_inj in E; [|assumption..]. destruct E as [-> ->].
    eexists. split; [now rewrite list_lookup_alter_eq, Hc|].
    split; [exact Hlinks|]. split; [|exact Htile].
    exists (val_right tl), t. cbn [pl_lookup with_lookup].
    split; [|split; [exact (proj1 Hwf)|split; [assumption|]]].
    + rewrite Hpack. apply (place_right_lookup L HL); [|assumption].
      destruct (type_fields_ok L HL w h value (x + 1) y) as (_ & _ & ? & ?).
      unfold fields_ok. auto.
    + split; [lia|]. split; [|split; assumption].
      intros _ _. replace (x + 1 - 1)%nat with x by lia. now rewrite Htl.
  - exists c. split; [now rewrite list_lookup_alter_ne by congruence|].
    split; [assumption|]. split; [|assumption].
    exists l, t. repeat (split; [assumption|]). split; [|split; assumption].
    intros H0 H1. apply Hl1; [assumption|].
    assert (at_index h (x' - 1) y' <> at_index h x y); [|lia].
    intros E'. apply at_index_inj in E'; [|assumption..]. destruct E' as [E1 E2].
    apply E. subst y'. f_equal. lia.
Qed.

(** The right neighbour is the junk placement: no placement has the tile as
    its left neighbour. *)
Lemma board_state_right_junk (a : list nat) (kt ku x y : nat) (j : placement) (b : board) :
  bstate a kt (at_index h x y) ku b ->
  (x < w)%nat -> (y < h)%nat -> ~ (x + 1 < w)%nat ->
  bstate a kt (S (at_index h x y)) ku (with_junk j b).
Proof.
  intros (Hs & Hw & Hh & Hp & Hq & Hlen & Hcells) Hx Hy Hx1.
  repeat (split; [assumption|]).
  intros x' y' Hx' Hy'. destruct (Hcells x' y' Hx' Hy') as (c & Hc & Hlinks & Hlk & Htile).
  exists c. split; [assumption|]. split; [assumption|]. split; [|assumption].
  destruct Hlk as (l & t & Hpack & Hl & Ht & Hl0 & Hl1 & Ht0 & Ht1).
  exists l, t. repeat (split; [assumption|]). split; [|split; assumption].
  intros H0 H1. apply Hl1; [assumption|].
  assert (at_index h (x' - 1) y' <> at_index h x y); [|lia].
  intros E'. apply at_index_inj in E'; [|assumption..]. lia.
Qed.

(** The third step: the bottom neighbour's lookup takes the tile's bottom
    pattern as its top pattern. *)
Lemma board_state_bottom (a : list nat) (kt kl x y : nat) (tl : tile) (b : board) :
  bstate a kt kl (at_index h x y) b ->
  (x < w)%nat -> (y < h)%nat -> (y + 1 < h)%nat ->
  tile_wf L tl -> tile_of' (nth (at_index h x y) a 0%nat) = tl ->
  bstate a kt kl (S (at_index h x y))
    (with_placements
       (alter (fun r => with_lookup
                          (Z.lor (Z.land (pl_lookup r) (MASK_TOP_EDGE_INV L))
                                 (Z.land (MASK_TOP_EDGE L) (tile_lookup L tl))) r)
              (at_index h x (y + 1)) (placements_ b)) b).
Proof.
  intros (Hs & Hw & Hh & Hp & Hq & Hlen & Hcells) Hx Hy Hy1 Hwf Htl.
  repeat (split; [assumption|]). split; [cbn; now rewrite length_alter|].
  intros x' y' Hx' Hy'. destruct (Hcells x' y' Hx' Hy') as (c & Hc & Hlinks & Hlk & Htile).
  cbn [placements_ with_placements].
  destruct Hlk as (l & t & Hpack & Hl & Ht & Hl0 & Hl1 & Ht0 & Ht1).
  destruct (decide (at_index h x' y' = at_index h x (y + 1))) as [E|E].
  - apply at_index_inj in E; [|assumption..]. destruct E as [-> ->].
    eexists. split; [now rewrite list_lookup_alter_eq, Hc|].
    split; [exact Hlinks|]. split; [|exact Htile].
    exists l, (val_bottom tl). cbn [pl_lookup with_lookup].
    split; [|split; [assumption|split; [exact (proj1 (proj2 Hwf))|]]].
    + rewrite Hpack. apply (place_bottom_lookup L HL); [|assumption].
      destruct (type_fields_ok L HL w h value x (y + 1)) as (_ & _ & ? & ?).
      unfold fields_ok. auto.
    + split; [assumption|]. split; [assumption|]. split; [lia|].
      intros _ _. replace (y + 1 - 1)%nat with y by lia. now rewrite Htl.
  - exists c. split; [now rewrite list_lookup_alter_ne by congruence|].
    split; [assumption|]. split; [|assumption].
    exists l, t. repeat (split; [assumption|]).
    intros H0 H1. apply Ht1; [assumption|].
    assert (at_index h x' (y' - 1) <> at_index h x y); [|lia].
    intros E'. apply at_index_inj in E'; [|try assumption; lia..]. destruct E' as [E1 E2].
    apply E. subst x'. f_equal. lia.
Qed.

Lemma board_state_bottom_junk (a : list nat) (kt kl x y : nat) (j : placement) (b : board) :
  bstate a kt kl (at_index h x y) b ->
  (x < w)%nat -> (y < h)%nat -> ~ (y + 1 < h)%nat ->
  bstate a kt kl (S (at_index h x y)) (with_junk j b).
Proof.
  intros (Hs & Hw & Hh & Hp & Hq & Hlen & Hcells) Hx Hy Hy1.
  repeat (split; [assumption|]).
  intros x' y' Hx' Hy'. destruct (Hcells x' y' Hx' Hy') as (c & Hc & Hlinks & Hlk & Htile).
  exists c. split; [assumption|]. split; [assumption|]. split; [|assumption].
  destruct Hlk as (l & t & Hpack & Hl & Ht & Hl0 & Hl1 & Ht0 & Ht1).
  exists l, t. repeat (split; [assumption|]).
  intros H0 H1. apply Ht1; [assumption|].
  assert (at_index h x' (y' - 1) <> at_index h x y); [|lia].
  intros E'. apply at_index_inj in E'; [|try assumption; lia..]. lia.
Qed.

Lemma board_state_deref (a : list nat) (kt kl ku x y : nat) (b : board) :
  bstate a kt kl ku b -> (x < w)%nat -> (y < h)%nat ->
  exists c, deref b (PCell addr (at_index h x y)) = Some c /\
            placements_ b !! at_index h x y = Some c /\
            cell_links addr w h x y c.
Proof.
  intros H Hx Hy.
  destruct (proj2 (proj2 (proj2 (proj2 (proj2 (proj2 H))))) x y Hx Hy) as (c & Hc & Hl & _).
  exists c. split; [|split]; try assumption.
  rewrite <- (proj1 H). now rewrite deref_cell.
Qed.

(** [place] on the placement that follows those holding [a]: it returns the
    next placement and leaves the board in the state of [a] with the tile
    added. *)
Lemma place_spec (a : list nat) (q : nat) (tl : tile) (b : board) :
  board_inv L lookups addr w h value pr qt a b ->
  (length a < w * h)%nat ->
  tiles_ lookups !! q = Some tl -> tile_wf L tl ->
  exists b',
    place L q tl (PCell addr (length a)) b =
      Some (if (S (length a) <? w * h)%nat then PCell addr (S (length a)) else PNull, b') /\
    board_inv L lookups addr w h value pr qt (a ++ [q]) b' /\
    solutions_ b' = solutions_ b /\ threaded_ b' = threaded_ b.
Proof.
  intros Hinv Hlt Hq Hwf.
  pose proof (board_inv_app a q b Hinv) as H0.
  destruct (index_coords w h (length a) Hlt) as (x & y & Hx & Hy & Ei).
  assert (Hnth : tile_of' (nth (at_index h x y) (a ++ [q]) 0%nat) = tl).
  { rewrite <- Ei, app_nth2, Nat.sub_diag by lia. cbn [nth].
    unfold tile_of, tile_at. now rewrite Hq. }
  assert (Haq : (a ++ [q]) !! length a = Some q) by (now apply list_lookup_middle).
  unfold board_inv. rewrite length_app. cbn [length]. rewrite Nat.add_1_r.
  revert H0 Haq Hlt. rewrite Ei. intros H0 Haq Hlt.
  pose proof (board_state_tile _ _ _ _ q b H0 Haq) as H1.
  destruct (board_state_deref _ _ _ _ x y b H0 Hx Hy) as (c & _ & Hc & _).
  unfold place.
  (* set placement *)
  rewrite (update_cell_bind b addr _ c (with_tile (Some q)) _ (proj1 H0) Hc).
  set (b1 := with_placements _ b) in *.
  destruct (board_state_deref _ _ _ _ x y b1 H1 Hx Hy) as (c1 & -> & _ & Hl1).
  cbn [mbind option_bind].
  (* update lookup of the right placement *)
  set (fr := fun r => with_lookup
                        (Z.lor (Z.land (pl_lookup r) (MASK_LEFT_EDGE_INV L))
                               (Z.land (MASK_LEFT_EDGE L) (tile_lookup L tl))) r).
  assert (exists b2,
            (forall k : board -> option (pptr * board),
               (r ← deref b1 (pl_right c1); b' ← assign b1 (pl_right c1) (fr r); k b') = k b2) /\
            bstate (a ++ [q]) (S (at_index h x y)) (S (at_index h x y)) (at_index h x y) b2 /\
            solutions_ b2 = solutions_ b /\ threaded_ b2 = threaded_ b)
    as (b2 & Eb2 & H2 & Hs2 & Ht2).
  { destruct Hl1 as (_ & _ & -> & _).
    destruct (Nat.ltb_spec x (w - 1)) as [Hx1|Hx1].
    - destruct (board_state_deref _ _ _ _ (x + 1)%nat y b1 H1 ltac:(lia) Hy) as (cr & _ & Hcr & _).
      eexists. split; [intros k; apply (update_cell_bind b1 addr _ cr fr k (proj1 H1) Hcr)|].
      split; [|split; reflexivity].
      apply board_state_right; try assumption. lia.
    - eexists. split; [intros k; apply (update_junk_bind b1 addr fr k (proj1 H1))|].
      split; [|split; reflexivity].
      apply board_state_right_junk; try assumption. lia. }
  change (fun r => with_lookup
                     (Z.lor (Z.land (pl_lookup r) (MASK_LEFT_EDGE_INV L))
                            (Z.land (MASK_LEFT_EDGE L) (tile_lookup L tl))) r) with fr.
  rewrite Eb2. clear Eb2 fr.
  destruct (board_state_deref _ _ _ _ x y b2 H2 Hx Hy) as (c2 & -> & _ & Hl2).
  cbn [mbind option_bind].
  (* update lookup of the bottom placement *)
  set (fb := fun r => with_lookup
                        (Z.lor (Z.land (pl_lookup r) (MASK_TOP_EDGE_INV L))
                               (Z.land (MASK_TOP_EDGE L) (tile_lookup L tl))) r).
  assert (exists b3,
            (forall k : board -> option (pptr * board),
               (r ← deref b2 (pl_bottom c2); b' ← assign b2 (pl_bottom c2) (fb r); k b') = k b3) /\
            bstate (a ++ [q]) (S (at_index h x y)) (S (at_index h x y)) (S (at_index h x y)) b3 /\
            solutions_ b3 = solutions_ b /\ threaded_ b3 = threaded_ b)
    as (b3 & Eb3 & H3 & Hs3 & Ht3).
  { destruct Hl2 as (_ & _ & _ & -> & _).
    destruct (Nat.ltb_spec y (h - 1)) as [Hy1|Hy1].
    - destruct (board_state_deref _ _ _ _ x (y + 1)%nat b2 H2 Hx ltac:(lia)) as (cb & _ & Hcb & _).
      eexists. split; [intros k; apply (update_cell_bind b2 addr _ cb fb k (proj1 H2) Hcb)|].
      split; [|split; assumption].
      apply board_state_bottom; try assumption. lia.
    - eexists. split; [intros k; apply (update_junk_bind b2 addr fb k (proj1 H2))|].
      split; [|split; assumption].
      apply board_state_bottom_junk; try assumption. lia. }
  change (fun r => with_lookup
                     (Z.lor (Z.land (pl_lookup r) (MASK_TOP_EDGE_INV L))
                            (Z.land (MASK_TOP_EDGE L) (tile_lookup L tl))) r) with fb.
  rewrite Eb3. clear Eb3 fb.
  destruct (board_state_deref _ _ _ _ x y b3 H3 Hx Hy) as (c3 & -> & _ & Hl3).
  cbn [mbind option_bind].
  exists b3. split; [|split; [assumption|split; assumption]].
  destruct Hl3 as (_ & _ & _ & _ & _ & ->).
  do 2 f_equal.
  destruct (Nat.ltb_spec (at_index h x y) (w * h - 1)), (Nat.ltb_spec (S (at_index h x y)) (w * h));
    try lia; try reflexivity.
  now rewrite Nat.add_1_r.
Qed.
End PlaceFacts.

(** ** [solve_for] runs as [search] *)

Section Refinement.
Variable L : layout.
Hypothesis HL : layout_ok L.
Variable lookups : tileArrayLookup.
Hypothesis Hstore : store_inv L lookups.
Variables (addr w h : nat).
Variable value : type.
Variables (pr qt : bool).
Variable on_complete : world -> outcome.
Hypothesis Hcomplete : complete_ok L lookups addr w h value pr qt on_complete.

Local Abbreviation binv := (board_inv L lookups addr w h value pr qt).
Local Abbreviation runs := (run_as L lookups addr w h value pr qt).
Local Abbreviation srch := (search L lookups addr w h value pr qt).
Local Abbreviation valid := (valid_ptrs lookups).

Lemma board_inv_solutions (a : list nat) (s : Z) (b : board) :
  binv a b -> binv a (with_solutions s b).
Proof. intros H. exact H. Qed.

Lemma cell_key_spec (a : list nat) (b : board) :
  binv a b -> (length a < w * h)%nat ->
  exists c, placements_ b !! length a = Some c /\
            pl_lookup c = cell_key L lookups w h value a.
Proof.
  intros H Hlt.
  destruct (index_coords w h (length a) Hlt) as (x & y & Hx & Hy & Ei).
  destruct (proj2 (proj2 (proj2 (proj2 (proj2 (proj2 H))))) x y Hx Hy)
    as (c & Hc & _ & (l & t & Hk & _ & _ & Hl0 & Hl1 & Ht0 & Ht1) & _).
  exists c. rewrite Ei. split; [exact Hc|].
  rewrite Hk. unfold cell_key. cbv zeta. rewrite Ei.
  unfold at_index in *.
  rewrite (at_index_div h x y Hy), (at_index_mod h x y Hy).
  f_equal.
  - destruct x as [|x'].
    + now rewrite Hl0.
    + cbn [Nat.eqb]. rewrite Hl1 by lia.
      do 3 f_equal. nia.
  - destruct y as [|y'].
    + now rewrite Ht0.
    + cbn [Nat.eqb]. rewrite Ht1 by lia.
      do 3 f_equal. nia.
Qed.

Lemma held_tiles_full (a : list nat) (b : board) :
  binv a b -> length a = (w * h)%nat -> held_tiles b = Some <$> a.
Proof.
  intros H Hlen. apply list_eq. intros k. unfold held_tiles.
  rewrite !list_lookup_fmap.
  destruct (Nat.lt_ge_cases k (w * h)) as [Hk|Hk].
  - destruct (index_coords w h k Hk) as (x & y & Hx & Hy & ->).
    destruct (proj2 (proj2 (proj2 (proj2 (proj2 (proj2 H))))) x y Hx Hy)
      as (c & Hc & _ & _ & Ht).
    rewrite Hc. cbn [fmap option_fmap option_map]. rewrite Ht by lia.
    destruct (lookup_lt_is_Some_2 a (at_index h x y) ltac:(lia)) as [q ->].
    reflexivity.
  - rewrite (lookup_ge_None_2 (placements_ b)) by (rewrite (proj1 (proj2 (proj2 (proj2 (proj2 (proj2 H)))))); lia).
    rewrite (lookup_ge_None_2 a) by lia. reflexivity.
Qed.

Lemma print_tiles_ok (a : list nat) (b : board) :
  binv a b -> length a = (w * h)%nat -> valid a ->
  is_Some (mapM (fun p => t ← pl_tile p; tl ← tiles_ lookups !! t; Some (mask tl))
                (placements_ b)).
Proof.
  intros H Hlen Hv. apply mapM_is_Some. apply Forall_lookup. intros k c Hc.
  assert (Hk : (k < w * h)%nat).
  { rewrite <- (proj1 (proj2 (proj2 (proj2 (proj2 (proj2 H)))))). now apply lookup_lt_Some in Hc. }
  destruct (index_coords w h k Hk) as (x & y & Hx & Hy & ->).
  destruct (proj2 (proj2 (proj2 (proj2 (proj2 (proj2 H))))) x y Hx Hy)
    as (c' & Hc' & _ & _ & Ht).
  rewrite Hc in Hc'. injection Hc' as <-.
  destruct (lookup_lt_is_Some_2 a (at_index h x y) ltac:(lia)) as [q Hq].
  unfold compose. rewrite Ht, Hq by lia. cbn [mbind option_bind].
  unfold valid_ptrs in Hv. rewrite List.Forall_forall in Hv.
  destruct (Hv q) as [tl ->].
  - apply list_elem_of_In. eapply list_elem_of_lookup_2. exact Hq.
  - cbn [mbind option_bind]. eauto.
Qed.

Lemma valid_ptrs_app (a : list nat) (q : nat) (tl : tile) :
  valid a -> tiles_ lookups !! q = Some tl -> valid (a ++ [q]).
Proof.
  intros Hv Hq. unfold valid_ptrs in *. apply List.Forall_app. split; [exact Hv|].
  apply List.Forall_cons; [rewrite Hq; eauto | apply List.Forall_nil].
Qed.

(** One turn of the loop of [solve_for], given that the recursive call runs
    as [search]. *)
Lemma try_tile_search (rem fuel : nat) (a : list nat) (m : mask_type) (q : nat)
    (tl : tile) (wd : world) :
  (forall a' m' wd', (0 < rem)%nat -> (length a' + rem = w * h)%nat -> valid a' ->
     binv a' (w_board wd') ->
     runs (solve_for L lookups on_complete fuel (PCell addr (length a')) m' wd')
          (srch rem a' m') wd' a') ->
  (length a + S rem = w * h)%nat -> valid a -> binv a (w_board wd) ->
  tiles_ lookups !! q = Some tl -> tile_wf L tl ->
  runs (try_tile L lookups on_complete (solve_for L lookups on_complete fuel)
          (PCell addr (length a)) m q wd)
       (search_tile lookups addr w h pr qt (srch rem) a m q) wd a.
Proof.
  intros IH Hlen Hv Hinv Hq Hwf.
  assert (Htl : tile_of lookups q = tl) by (unfold tile_of, tile_at; now rewrite Hq).
  unfold try_tile, search_tile. rewrite Hq, Htl. cbv zeta.
  destruct (mask_and m (mask tl)).
  { exists (log (Visit (PCell addr (length a)) q) wd).
    split; [reflexivity|]. split; [reflexivity|]. exact Hinv. }
  destruct (place_spec L HL lookups addr w h value pr qt a q tl (w_board wd) Hinv
              ltac:(lia) Hq Hwf) as (b' & Hplace & Hinv' & _).
  cbn [w_board log]. rewrite Hplace.
  pose proof (valid_ptrs_app a q tl Hv Hq) as Hv'.
  destruct (Nat.ltb_spec (S (length a)) (w * h)) as [Hlt|Hge].
  - (* update our mask and solve next placement *)
    rewrite (proj2 (Nat.eqb_neq _ _)) by lia.
    assert (Hl' : length (a ++ [q]) = S (length a))
      by (rewrite length_app; cbn [length]; lia).
    destruct (IH (a ++ [q]) (copyCombine m (mask tl))
                 (with_board b' (log (Visit (PCell addr (length a)) q) wd))
                 ltac:(lia) ltac:(lia) Hv' Hinv') as (wd' & Ho & He & Hb).
    rewrite Hl' in Ho. rewrite Ho.
    destruct (srch rem (a ++ [q]) (copyCombine m (mask tl))) as [evs ex].
    exists wd'. cbn [fst snd] in *. split; [reflexivity|]. split.
    + rewrite He. cbn [w_events with_board log rev]. now rewrite <- !app_assoc.
    + now apply (board_inv_weaken L lookups addr w h value pr qt a q).
  - (* otherwise we are complete! *)
    rewrite (proj2 (Nat.eqb_eq _ _)) by lia.
    assert (Hfull : length (a ++ [q]) = (w * h)%nat)
      by (rewrite length_app; cbn [length]; lia).
    rewrite (held_tiles_full _ _ Hinv' Hfull).
    rewrite (proj1 (proj2 (proj2 (proj2 Hinv')))).
    pose proof (print_tiles_ok _ _ Hinv' Hfull Hv') as [printed Hprinted].
    pose proof (Hcomplete (a ++ [q])
                  (log (Completed (Some <$> a ++ [q]))
                     (with_board b' (log (Visit (PCell addr (length a)) q) wd)))
                  Hfull Hv' Hinv') as (wd' & Hdone & Hb & He).
    pose proof (board_inv_weaken L lookups addr w h value pr qt a q _ Hinv') as Hweak.
    pose proof (board_inv_weaken L lookups addr w h value pr qt a q _ Hb) as Hweak'.
    pose proof (proj1 (proj2 (proj2 (proj2 (proj2 Hinv'))))) as Hquit.
    clear Hcomplete IH Hinv Hinv' Hb.
    destruct pr.
    + unfold print_solution. cbn [w_board with_board log w_output w_stdout w_events].
      rewrite Hprinted, Hquit.
      destruct qt; eexists; (split; [reflexivity|]);
        cbn [fst snd rev app w_events w_board with_board];
        (split; [reflexivity|]); exact Hweak.
    + rewrite Hdone. exists wd'. split; [reflexivity|]. split; [|exact Hweak'].
      rewrite He. reflexivity.
Qed.

Lemma iterate_search (rem fuel : nat) (a : list nat) (m : mask_type) (tiles : list nat) :
  (forall a' m' wd', (0 < rem)%nat -> (length a' + rem = w * h)%nat -> valid a' ->
     binv a' (w_board wd') ->
     runs (solve_for L lookups on_complete fuel (PCell addr (length a')) m' wd')
          (srch rem a' m') wd' a') ->
  (length a + S rem = w * h)%nat -> valid a ->
  (forall q, q ∈ tiles -> exists tl, tiles_ lookups !! q = Some tl /\ tile_wf L tl) ->
  forall (i : nat) (wd : world), (i <= length tiles)%nat -> binv a (w_board wd) ->
  runs (iterate L lookups on_complete (solve_for L lookups on_complete fuel)
          (PCell addr (length a)) m tiles i wd)
       (search_iterate lookups addr w h pr qt (srch rem) a m tiles i) wd a.
Proof.
  intros IH Hlen Hv Htiles. induction i as [|i IHi]; intros wd Hi Hinv.
  - exists wd. split; [reflexivity|]. split; [reflexivity|]. exact Hinv.
  - cbn [iterate search_iterate].
    destruct (lookup_lt_is_Some_2 tiles i ltac:(lia)) as [q Hq]. rewrite Hq.
    destruct (Htiles q (list_elem_of_lookup_2 _ _ _ Hq)) as (tl & Htl & Hwf).
    destruct (try_tile_search rem fuel a m q tl wd IH Hlen Hv Hinv Htl Hwf)
      as (wd1 & Ho & He & Hb).
    rewrite Ho.
    destruct (search_tile lookups addr w h pr qt (srch rem) a m q) as [evs ex].
    cbn [fst snd] in *. destruct ex.
    + exists wd1. split; [reflexivity|]. split; assumption.
    + cbn [and_then].
      destruct (IHi wd1 ltac:(lia) Hb) as (wd2 & Ho2 & He2 & Hb2).
      rewrite Ho2.
      destruct (search_iterate lookups addr w h pr qt (srch rem) a m tiles i) as [evs' ex'].
      exists wd2. cbn [fst snd] in *. split; [reflexivity|]. split; [|assumption].
      rewrite He2, He, rev_app_distr. now rewrite <- app_assoc.
Qed.

(** [solve_for] from the placement that follows those holding [a], with one
    unit of fuel for each placement still empty, runs as [search]. *)
Lemma solve_for_search (rem : nat) :
  forall (fuel : nat) (a : list nat) (m : mask_type) (wd : world),
    (rem <= fuel)%nat -> (0 < rem)%nat -> (length a + rem = w * h)%nat -> valid a ->
    binv a (w_board wd) ->
    runs (solve_for L lookups on_complete fuel (PCell addr (length a)) m wd)
         (srch rem a m) wd a.
Proof.
  induction rem as [|rem IH]; intros fuel a m wd Hf Hrem Hlen Hv Hinv; [lia|].
  destruct fuel as [|fuel]; [lia|].
  cbn [solve_for search].
  rewrite <- (proj1 Hinv), deref_cell.
  destruct (cell_key_spec a (w_board wd) Hinv ltac:(lia)) as (c & -> & ->).
  cbv zeta. rewrite (proj1 Hinv).
  apply iterate_search; try assumption; try lia.
  - intros a' m' wd' Hr Hl' Hv' Hi'. apply IH; try assumption; lia.
  - intros q Hq. destruct (Hstore _ _ Hq) as (u & Hu & Hwf & _). eauto.
Qed.
End Refinement.

(** ** What [search] finds *)

Lemma land_lor_eq_0 (a b x : Z) :
  Z.land (Z.lor a b) x = 0 <-> Z.land a x = 0 /\ Z.land b x = 0.
Proof. rewrite Z.land_lor_distr_l. apply Z.lor_eq_0_iff. Qed.

Lemma mask_and_false (m1 m2 : mask_type) : mask_and m1 m2 = false <-> Z.land m1 m2 = 0.
Proof.
  unfold mask_and. destruct (Z.eqb_spec (Z.land m1 m2) 0); cbn [negb]; split; congruence.
Qed.

Lemma omap_cons_eq {A B : Type} (f : A -> option B) (x : A) (l : list A) :
  omap f (x :: l) = match f x with Some y => y :: omap f l | None => omap f l end.
Proof. reflexivity. Qed.

Section MaskFacts.
Variable lookups : tileArrayLookup.

Local Abbreviation pmask := (path_mask lookups).
Local Abbreviation tmask q := (mask (tile_of lookups q)).

Lemma path_mask_app (m0 : mask_type) (a : list nat) (q : nat) :
  pmask m0 (a ++ [q]) = copyCombine (pmask m0 a) (tmask q).
Proof. unfold path_mask. now rewrite fold_left_app. Qed.

Lemma land_path_mask (a : list nat) (m0 x : mask_type) :
  Z.land (pmask m0 a) x = 0 <->
  Z.land m0 x = 0 /\ forall q, q ∈ a -> Z.land (tmask q) x = 0.
Proof.
  revert m0. induction a as [|q a IH]; intros m0.
  - cbn. split; [intros H; split; [exact H|] | intros [H _]; exact H].
    intros q Hq. inversion Hq.
  - change (pmask m0 (q :: a)) with (pmask (copyCombine m0 (tmask q)) a).
    rewrite IH. unfold copyCombine. rewrite land_lor_eq_0. split.
    + intros [[H0 Hq] Ha]. split; [exact H0|].
      intros q' Hq'. apply elem_of_cons in Hq'. destruct Hq' as [->|Hq']; auto.
    + intros [H0 Ha]. split; [split; [exact H0|]|].
      * apply Ha. apply list_elem_of_here.
      * intros q' Hq'. apply Ha. now apply list_elem_of_further.
Qed.

Lemma masks_ok_nil (m0 : mask_type) : masks_ok lookups m0 [].
Proof. intros k q Hk. rewrite lookup_nil in Hk. discriminate. Qed.

Lemma masks_ok_app (m0 : mask_type) (a : list nat) (q : nat) :
  masks_ok lookups m0 a -> Z.land (pmask m0 a) (tmask q) = 0 ->
  masks_ok lookups m0 (a ++ [q]).
Proof.
  intros Ha Hq k q' Hk.
  destruct (Nat.lt_ge_cases k (length a)) as [Hlt|Hge].
  - rewrite lookup_app_l in Hk by exact Hlt.
    rewrite take_app_le by lia. now apply Ha.
  - assert (k = length a) as ->.
    { apply lookup_lt_Some in Hk. rewrite length_app in Hk. cbn [length] in Hk. lia. }
    rewrite list_lookup_middle in Hk by reflexivity. injection Hk as <-.
    rewrite take_app_length. exact Hq.
Qed.

Lemma masks_ok_distinct (m0 : mask_type) (a : list nat) :
  masks_ok lookups m0 a -> pieces_distinct lookups m0 a.
Proof.
  intros H. split.
  - intros k q Hk. exact (proj1 (proj1 (land_path_mask _ _ _) (H k q Hk))).
  - intros j k q q' Hjk Hj Hk.
    apply (proj2 (proj1 (land_path_mask _ _ _) (H k q' Hk))).
    apply list_elem_of_lookup. exists j.
    rewrite lookup_take_lt by exact Hjk. exact Hj.
Qed.
End MaskFacts.

Section SearchFacts.
Variable L : layout.
Hypothesis HL : layout_ok L.
Variable lookups : tileArrayLookup.
Hypothesis Hstore : store_inv L lookups.
Variables (addr w h : nat).
Variable value : type.
Variables (pr qt : bool).

Local Abbreviation srch := (search L lookups addr w h value pr qt).
Local Abbreviation tile_of' := (tile_of lookups).
Local Abbreviation key := (cell_key L lookups w h value).
Local Abbreviation fit := (fits lookups w h value).
Local Abbreviation wf_ptrs :=
  (Forall (fun q => exists u, tiles_ lookups !! q = Some u /\ tile_wf L u /\ no_wildcard L u)).

Lemma wf_ptrs_nth (a : list nat) (k : nat) :
  wf_ptrs a -> (k < length a)%nat ->
  is_Some (tiles_ lookups !! nth k a 0%nat) /\
  tile_wf L (tile_of' (nth k a 0%nat)) /\ no_wildcard L (tile_of' (nth k a 0%nat)).
Proof.
  intros Ha Hk. rewrite List.Forall_forall in Ha.
  destruct (Ha (nth k a 0%nat) (nth_In a 0%nat Hk)) as (u & Hu & Hwf & Hnw).
  unfold tile_of, tile_at. rewrite Hu. eauto.
Qed.

(** The fields of the lookup value of the next placement are field values. *)
Lemma cell_key_fields (a : list nat) :
  wf_ptrs a -> (length a < w * h)%nat ->
  let i := length a in
  fields_ok L
    (if Nat.eqb 0 (i / h) then (if has_border _LEFT_BORDER value then 0 else LEFT_EDGE L)
     else val_right (tile_of' (nth (i - h) a 0%nat)))
    (if Nat.eqb 0 (i mod h) then (if has_border _TOP_BORDER value then 0 else TOP_EDGE L)
     else val_bottom (tile_of' (nth (i - 1) a 0%nat)))
    (if Nat.eqb (i / h) (w - 1) && has_border _RIGHT_BORDER value then 0 else 1)
    (if Nat.eqb (i mod h) (h - 1) && has_border _BOTTOM_BORDER value then 0 else 1).
Proof.
  intros Ha Hlt i.
  pose proof (LEFT_EDGE_range L HL) as Hle. pose proof (TOP_EDGE_range L HL) as Hte.
  destruct (index_coords w h i Hlt) as (x & y & Hx & Hy & Ei).
  unfold at_index in Ei.
  rewrite Ei, (at_index_div h x y Hy), (at_index_mod h x y Hy).
  split; [|split; [|split]].
  - destruct x as [|x']; cbn [Nat.eqb].
    + destruct (has_border _ _); lia.
    + apply (wf_ptrs_nth a (S x' * h + y - h)%nat Ha). subst i. nia.
  - destruct y as [|y']; cbn [Nat.eqb].
    + destruct (has_border _ _); lia.
    + apply (wf_ptrs_nth a (x * h + S y' - 1)%nat Ha). subst i. lia.
  - destruct (_ && _); lia.
  - destruct (_ && _); lia.
Qed.

(** A tile found under the lookup value of the next placement fits there. *)
Lemma fits_app (a : list nat) (q : nat) :
  fit a -> wf_ptrs a -> (length a < w * h)%nat ->
  q ∈ lookups_at lookups (key a) ->
  fit (a ++ [q]).
Proof.
  intros Hfit Ha Hlt Hq x y Hx Hy Hi.
  rewrite length_app in Hi. cbn [length] in Hi.
  destruct (Nat.lt_ge_cases (at_index h x y) (length a)) as [Hold|Hnew].
  - (* a placement of [a] *)
    cbv zeta. rewrite !(app_nth1 a [q] 0%nat) by (unfold at_index in *; nia).
    exact (Hfit x y Hx Hy Hold).
  - (* the new one *)
    assert (Ei : length a = at_index h x y) by lia. clear Hi Hnew.
    destruct (Hstore _ _ Hq) as (u & Hu & Hwf & Hkey).
    assert (Htl : tile_of' q = u) by (unfold tile_of, tile_at; now rewrite Hu).
    cbv zeta. rewrite <- Ei, app_nth2, Nat.sub_diag by lia. cbn [nth].
    rewrite Htl. split; [rewrite Hu; eauto|].
    pose proof (cell_key_fields a Ha Hlt) as Hf. cbv zeta in Hf.
    pose proof (tile_fields_ok L u Hwf) as Hfu.
    destruct (wild_fields_ok L HL _ _ _ _ Hfu) as (Hfl & Hft & Hfb).
    pose proof (LEFT_EDGE_range L HL) as Hle. pose proof (TOP_EDGE_range L HL) as Hte.
    unfold cell_key in Hkey. cbv zeta in Hkey.
    unfold at_index in Ei.
    rewrite Ei, (at_index_div h x y Hy), (at_index_mod h x y Hy) in Hkey, Hf.
    assert (Hleft : (0 < x)%nat -> no_wildcard L (tile_of' (nth (x * h + y - h) a 0%nat))).
    { intros H0. apply (wf_ptrs_nth a _ Ha). nia. }
    assert (Htop : (0 < y)%nat -> no_wildcard L (tile_of' (nth (x * h + y - 1) a 0%nat))).
    { intros H0. apply (wf_ptrs_nth a _ Ha). lia. }
    assert (Exl : (at_index h (x - 1) y = x * h + y - h)%nat \/ x = 0%nat)
      by (unfold at_index; destruct x; [right; reflexivity | left; nia]).
    assert (Eyl : (at_index h x (y - 1) = x * h + y - 1)%nat \/ y = 0%nat)
      by (unfold at_index; destruct y; [right; reflexivity | left; nia]).
    assert (Hcases :
      exists l t,
        (l = val_left u \/ (val_left u <> 0 /\ l = LEFT_EDGE L)) /\
        (t = val_top u \/ (val_top u <> 0 /\ t = TOP_EDGE L)) /\
        (if Nat.eqb 0 x then (if has_border _LEFT_BORDER value then 0 else LEFT_EDGE L)
         else val_right (tile_of' (nth (x * h + y - h) a 0%nat))) = l /\
        (if Nat.eqb 0 y then (if has_border _TOP_BORDER value then 0 else TOP_EDGE L)
         else val_bottom (tile_of' (nth (x * h + y - 1) a 0%nat))) = t /\
        (if Nat.eqb x (w - 1) && has_border _RIGHT_BORDER value then 0 else 1) =
          flag (val_right u) /\
        (if Nat.eqb y (h - 1) && has_border _BOTTOM_BORDER value then 0 else 1) =
          flag (val_bottom u)).
    { destruct Hkey as [Hk|[[Hn Hk]|[[Hn Hk]|(Hn & Hn' & Hk)]]];
        unfold literal_key, left_wildcard_key, top_wildcard_key, both_wildcard_key in Hk;
        [ apply (pack_inj L HL _ _ _ _ _ _ _ _ Hf Hfu) in Hk
        | apply (pack_inj L HL _ _ _ _ _ _ _ _ Hf Hfl) in Hk
        | apply (pack_inj L HL _ _ _ _ _ _ _ _ Hf Hft) in Hk
        | apply (pack_inj L HL _ _ _ _ _ _ _ _ Hf Hfb) in Hk ];
        destruct Hk as (Hl & Ht & Hr & Hb); eexists _, _;
        (split; [|split; [|split; [exact Hl|split; [exact Ht|split; [exact Hr|exact Hb]]]]]);
        auto. }
    destruct Hcases as (l & t & Hl & Ht & El & Et & Er & Eb).
    split; [|split; [|split; [|split; [|split]]]].
    + intros H0. destruct Exl as [-> | ->]; [|lia].
      destruct x as [|x']; [lia|]. cbn [Nat.eqb] in El.
      rewrite (app_nth1 a [q] 0%nat) by nia.
      destruct Hl as [-> | [_ ->]]; [now rewrite El|].
      exfalso. apply (proj1 (Hleft H0)). exact El.
    + intros H0. destruct Eyl as [-> | ->]; [|lia].
      destruct y as [|y']; [lia|]. cbn [Nat.eqb] in Et.
      rewrite (app_nth1 a [q] 0%nat) by lia.
      destruct Ht as [-> | [_ ->]]; [now rewrite Et|].
      exfalso. apply (proj2 (Htop H0)). exact Et.
    + intros -> Hb. cbn [Nat.eqb] in El. rewrite Hb in El.
      destruct Hl as [-> | [_ ->]]; [now rewrite El|]. lia.
    + intros -> Hb. cbn [Nat.eqb] in Et. rewrite Hb in Et.
      destruct Ht as [-> | [_ ->]]; [now rewrite Et|]. lia.
    + intros -> Hb. rewrite Nat.eqb_refl, Hb in Er. cbn [andb] in Er.
      now apply (flag_eq_0 (val_right u)).
    + intros -> Hb. rewrite Nat.eqb_refl, Hb in Eb. cbn [andb] in Eb.
      now apply (flag_eq_0 (val_bottom u)).
Qed.

Hypothesis Hnw : forall q u, tiles_ lookups !! q = Some u -> no_wildcard L u.

Local Abbreviation ev_ok := (event_ok lookups w h value).

Lemma wf_ptrs_app (a : list nat) (q : nat) (k : Z) :
  wf_ptrs a -> q ∈ lookups_at lookups k -> wf_ptrs (a ++ [q]).
Proof.
  intros Ha Hq. apply List.Forall_app. split; [exact Ha|].
  destruct (Hstore _ _ Hq) as (u & Hu & Hwf & _).
  apply List.Forall_cons; [|apply List.Forall_nil].
  exists u. split; [exact Hu|]. split; [exact Hwf|]. exact (Hnw q u Hu).
Qed.

(** The solutions [search] reaches are solutions. *)
Lemma search_tile_ok (m0 : mask_type) (rec : list nat -> mask_type -> list event * bool)
    (rem : nat) (a : list nat) (m : mask_type) (q : nat) :
  (forall a' m', (length a' + rem = w * h)%nat -> fit a' -> wf_ptrs a' ->
     masks_ok lookups m0 a' -> m' = path_mask lookups m0 a' ->
     Forall (ev_ok m0) (fst (rec a' m'))) ->
  (length a + S rem = w * h)%nat -> fit a -> wf_ptrs a ->
  masks_ok lookups m0 a -> m = path_mask lookups m0 a ->
  q ∈ lookups_at lookups (key a) ->
  Forall (ev_ok m0) (fst (search_tile lookups addr w h pr qt rec a m q)).
Proof.
  intros IH Hlen Hfit Ha Hm -> Hq. unfold search_tile.
  destruct (mask_and _ _) eqn:Em.
  { cbn [fst]. repeat constructor. }
  apply mask_and_false in Em.
  pose proof (fits_app a q Hfit Ha ltac:(lia) Hq) as Hfit'.
  pose proof (wf_ptrs_app a q _ Ha Hq) as Ha'.
  pose proof (masks_ok_app lookups m0 a q Hm Em) as Hm'.
  assert (Hl' : length (a ++ [q]) = S (length a))
    by (rewrite length_app; cbn [length]; lia).
  destruct (Nat.eqb_spec (S (length a)) (w * h)) as [Hfull|Hmore].
  - assert (Hsol : solution_ok lookups w h value m0 (Some <$> a ++ [q])).
    { exists (a ++ [q]). split; [reflexivity|]. split; [lia|]. split; [exact Hfit'|].
      now apply masks_ok_distinct. }
    destruct pr; cbn [fst]; repeat constructor; exact Hsol.
  - specialize (IH (a ++ [q]) (copyCombine (path_mask lookups m0 a) (mask (tile_of' q)))
                   ltac:(lia) Hfit' Ha' Hm' (eq_sym (path_mask_app lookups m0 a q))).
    destruct (rec _ _) as [evs ex]. cbn [fst] in *. constructor; [exact I|exact IH].
Qed.

Lemma search_iterate_ok (m0 : mask_type) (rec : list nat -> mask_type -> list event * bool)
    (rem : nat) (a : list nat) (m : mask_type) (tiles : list nat) :
  (forall a' m', (length a' + rem = w * h)%nat -> fit a' -> wf_ptrs a' ->
     masks_ok lookups m0 a' -> m' = path_mask lookups m0 a' ->
     Forall (ev_ok m0) (fst (rec a' m'))) ->
  (length a + S rem = w * h)%nat -> fit a -> wf_ptrs a ->
  masks_ok lookups m0 a -> m = path_mask lookups m0 a ->
  (forall q, q ∈ tiles -> q ∈ lookups_at lookups (key a)) ->
  forall i, Forall (ev_ok m0) (fst (search_iterate lookups addr w h pr qt rec a m tiles i)).
Proof.
  intros IH Hlen Hfit Ha Hm Em Htiles. induction i as [|i IHi]; [constructor|].
  cbn [search_iterate]. destruct (tiles !! i) as [q|] eqn:Hq; [|constructor].
  pose proof (search_tile_ok m0 rec rem a m q IH Hlen Hfit Ha Hm Em
                (Htiles q (list_elem_of_lookup_2 _ _ _ Hq))) as Hone.
  destruct (search_tile _ _ _ _ _ _ _ _ _ _) as [evs ex]. cbn [fst] in Hone.
  destruct ex; [exact Hone|].
  destruct (search_iterate _ _ _ _ _ _ _ _ _ _ _) as [evs' ex']. cbn [fst] in *.
  apply Forall_app. split; assumption.
Qed.

Lemma search_ok (m0 : mask_type) (rem : nat) :
  forall (a : list nat) (m : mask_type),
    (length a + rem = w * h)%nat -> fit a -> wf_ptrs a ->
    masks_ok lookups m0 a -> m = path_mask lookups m0 a ->
    Forall (ev_ok m0) (fst (srch rem a m)).
Proof.
  induction rem as [|rem IH]; intros a m Hlen Hfit Ha Hm Em; [constructor|].
  cbn [search]. cbv zeta.
  apply (search_iterate_ok m0 (srch rem) rem a m); auto.
Qed.

Lemma fits_nil : fit [].
Proof. intros x y _ _ Hi. cbn [length] in Hi. lia. Qed.




End SearchFacts.

(** ** The boards the solver starts from *)

Section StartingBoards.
Variable L : layout.
Hypothesis HL : layout_ok L.
Variable lookups : tileArrayLookup.
Variables (w h : nat).

Local Abbreviation bstate := (board_state L lookups).

Lemma board_new_inv (addr : nat) :
  board_inv L lookups addr w h typeNormal false false [] (board_new L addr w h).
Proof.
  destruct (fresh_board_fields L addr w h 0 false false false [] placement_zero)
    as (H1 & H2 & H3 & _ & H5 & H6 & _ & _ & H9).
  unfold board_inv, board_state. fold (board_new L addr w h) in *.
  repeat (split; [assumption|]).
  intros x y Hx Hy. exists (fresh_cell L addr w h x y).
  split; [now apply board_new_cell|]. split; [repeat split|]. split; [|cbn [length]; lia].
  eexists _, _. split; [reflexivity|].
  destruct (type_fields_ok L HL w h typeNormal x y) as (Hl & Ht & _).
  split; [exact Hl|]. split; [exact Ht|].
  split; [intros ->; reflexivity|]. split; [cbn [length]; lia|].
  split; [intros ->; reflexivity|]. cbn [length]; lia.
Qed.

Lemma setType_inv (addr : nat) (v0 v : type) (pr qt : bool) (b : board) :
  board_inv L lookups addr w h v0 pr qt [] b ->
  board_inv L lookups addr w h v pr qt [] (setType L v b).
Proof.
  intros (H1 & H2 & H3 & H4 & H5 & H6 & Hcells).
  destruct (setType_fields L v b) as (F1 & F2 & F3 & _ & F5 & F6 & _ & _ & F9).
  unfold board_inv, board_state.
  rewrite F1, F2, F3, F5, F6, F9.
  repeat (split; [assumption|]).
  intros x y Hx Hy.
  destruct (Hcells x y Hx Hy) as (c & Hc & Hlinks & (l & t & Hk & Hl & Ht & _) & _).
  pose proof (setType_cell L v b x y) as Hs. rewrite H2, H3 in Hs.
  specialize (Hs Hx Hy). rewrite Hc in Hs. cbn [fmap option_fmap option_map] in Hs.
  eexists. split; [exact Hs|]. split; [exact Hlinks|]. split; [|cbn [length]; lia].
  cbn [pl_lookup with_lookup]. rewrite Hk.
  rewrite (set_type_fields_pack L HL).
  2:{ split; [exact Hl|]. split; [exact Ht|]. split; [destruct ((x =? w - 1)%nat && _) | destruct ((y =? h - 1)%nat && _)]; lia. }
  eexists _, _. split; [reflexivity|].
  destruct (type_fields_ok L HL w h v x y) as (Hl' & Ht' & _).
  split; [exact Hl'|]. split; [exact Ht'|].
  split; [intros ->; reflexivity|]. split; [cbn [length]; lia|].
  split; [intros ->; reflexivity|]. cbn [length]; lia.
Qed.

Lemma setPrint_state (addr : nat) (v : type) (pr pr' qt : bool) (a : list nat)
    (kt kl ku : nat) (b : board) :
  bstate addr w h v pr qt a kt kl ku b -> bstate addr w h v pr' qt a kt kl ku (setPrint pr' b).
Proof.
  intros (H1 & H2 & H3 & H4 & H5 & H6 & Hcells).
  repeat (split; [first [assumption|reflexivity]|]). exact Hcells.
Qed.

Lemma setQuit_state (addr : nat) (v : type) (pr qt qt' : bool) (a : list nat)
    (kt kl ku : nat) (b : board) :
  bstate addr w h v pr qt a kt kl ku b -> bstate addr w h v pr qt' a kt kl ku (setQuit qt' b).
Proof.
  intros (H1 & H2 & H3 & H4 & H5 & H6 & Hcells).
  repeat (split; [first [assumption|reflexivity]|]). exact Hcells.
Qed.

Lemma setThreaded_state (addr : nat) (v : type) (pr qt th : bool) (a : list nat)
    (kt kl ku : nat) (b : board) :
  bstate addr w h v pr qt a kt kl ku b -> bstate addr w h v pr qt a kt kl ku (setThreaded th b).
Proof. intros H. exact H. Qed.

(** A copy of a board is in the state of the board, at its own address. *)
Lemma board_copy_state (addr addr' : nat) (v : type) (pr qt : bool) (a : list nat)
    (kt kl ku : nat) (other : board) :
  bstate addr w h v pr qt a kt kl ku other ->
  bstate addr' w h v pr qt a kt kl ku (board_copy L addr' other).
Proof.
  intros (H1 & H2 & H3 & H4 & H5 & H6 & Hcells).
  destruct (board_copy_fields L addr' other) as (F1 & F2 & F3 & _ & F5 & F6 & _ & _ & F9).
  unfold board_state. rewrite F1, F2, F3, F5, F6, F9, H2, H3.
  repeat (split; [first [assumption|reflexivity]|]).
  intros x y Hx Hy.
  destruct (Hcells x y Hx Hy) as (c & Hc & _ & Hk & Ht).
  destruct (board_copy_cell L HL addr' other x y) as (p0 & Hp0 & Hcopy); rewrite ?H2, ?H3; try lia.
  rewrite H2, H3 in Hcopy. rewrite H3, Hc in Hp0. injection Hp0 as <-.
  eexists. split; [exact Hcopy|]. split; [apply fresh_cell_links|].
  split; [exact Hk|exact Ht].
Qed.
End StartingBoards.

(** ** Counting solutions *)

Lemma count_up_add (n1 n2 : nat) (s : Z) :
  count_up (n2 + n1) s = count_up n2 (count_up n1 s).
Proof. unfold count_up. apply Nat.iter_add. Qed.

Lemma count_up_wrap (n : nat) (s : Z) :
  is_word s -> count_up n s = wrap (s + Z.of_nat n).
Proof.
  intros Hs. unfold count_up. induction n as [|n IH].
  - cbn [Nat.iter nat_rect]. rewrite Z.add_0_r. symmetry. now apply Z.mod_small.
  - rewrite Nat.iter_succ, IH. unfold wrap.
    rewrite Z.add_mod_idemp_l by (unfold ENV_BITS; lia).
    f_equal. lia.
Qed.

Lemma wrap_is_word (z : Z) : is_word (wrap z).
Proof. unfold is_word, wrap. apply Z.mod_pos_bound. unfold ENV_BITS. lia. Qed.

Lemma wrap_add_wrap (s n : Z) : wrap (s + wrap n) = wrap (s + n).
Proof. unfold wrap. apply Z.add_mod_idemp_r. unfold ENV_BITS. lia. Qed.

Lemma solutions_reached_app (l1 l2 : list event) :
  length (solutions_reached (l1 ++ l2)) =
  (length (solutions_reached l1) + length (solutions_reached l2))%nat.
Proof.
  unfold solutions_reached. rewrite !length_rev, omap_app, length_app. reflexivity.
Qed.

Lemma counted_refl (wd : world) : counted wd wd.
Proof. exists []. split; reflexivity. Qed.

Lemma counted_trans (wd1 wd2 wd3 : world) :
  counted wd1 wd2 -> counted wd2 wd3 -> counted wd1 wd3.
Proof.
  intros (n1 & E1 & C1) (n2 & E2 & C2). exists (n2 ++ n1). split.
  - rewrite E2, E1. now rewrite app_assoc.
  - rewrite C2, C1, solutions_reached_app. symmetry. apply count_up_add.
Qed.

Lemma assign_frame (b b' : board) (p : pptr) (v : placement) :
  assign b p v = Some b' ->
  self b' = self b /\ solutions_ b' = solutions_ b /\ threaded_ b' = threaded_ b.
Proof.
  unfold assign. destruct p as [|o|o i].
  - discriminate.
  - destruct (Nat.eqb o (self b)); [|discriminate]. intros [= <-]. repeat split.
  - destruct (_ && _); [|discriminate]. intros [= <-]. repeat split.
Qed.

Section Counting.
Variable L : layout.
Variable lookups : tileArrayLookup.

(** [place] leaves the solution counter as it is. *)
Lemma place_frame (t : nat) (tl : tile) (p next : pptr) (b b' : board) :
  place L t tl p b = Some (next, b') -> solutions_ b' = solutions_ b.
Proof.
  unfold place. intros H.
  destruct (deref b p) as [c0|]; [|discriminate]. cbn [mbind option_bind] in H.
  destruct (assign b p _) as [b1|] eqn:E1; [|discriminate]. cbn [mbind option_bind] in H.
  destruct (deref b1 p) as [c1|]; [|discriminate]. cbn [mbind option_bind] in H.
  destruct (deref b1 (pl_right c1)) as [r|]; [|discriminate]. cbn [mbind option_bind] in H.
  destruct (assign b1 (pl_right c1) _) as [b2|] eqn:E2; [|discriminate].
  cbn [mbind option_bind] in H.
  destruct (deref b2 p) as [c2|]; [|discriminate]. cbn [mbind option_bind] in H.
  destruct (deref b2 (pl_bottom c2)) as [bt|]; [|discriminate]. cbn [mbind option_bind] in H.
  destruct (assign b2 (pl_bottom c2) _) as [b3|] eqn:E3; [|discriminate].
  cbn [mbind option_bind] in H.
  destruct (deref b3 p) as [c3|]; [|discriminate]. cbn [mbind option_bind] in H.
  injection H as _ <-.
  apply assign_frame in E1, E2, E3.
  destruct E1 as (_ & E1 & _), E2 as (_ & E2 & _), E3 as (_ & E3 & _). congruence.
Qed.

Lemma try_tile_counts (rec : pptr -> mask_type -> world -> outcome)
    (p : pptr) (m : mask_type) (t : nat) (wd wd' : world) :
  (forall p' m' wd1 wd2, rec p' m' wd1 = Done wd2 -> counted wd1 wd2) ->
  try_tile L lookups complete rec p m t wd = Done wd' -> counted wd wd'.
Proof.
  intros IH. unfold try_tile.
  destruct (tiles_ lookups !! t) as [tl|]; [|discriminate]. cbv zeta.
  destruct (mask_and m (mask tl)).
  { intros [= <-]. exists [Visit p t]. split; reflexivity. }
  cbn [w_board log].
  destruct (place L t tl p (w_board wd)) as [[next b]|] eqn:Hplace; [|discriminate].
  apply place_frame in Hplace.
  assert (Hrec : forall next', rec next' (copyCombine m (mask tl))
                        (with_board b (log (Visit p t) wd)) = Done wd' -> counted wd wd').
  { intros next' H. apply IH in H. eapply counted_trans; [|exact H].
    exists [Visit p t]. split; [reflexivity|]. cbn. exact Hplace. }
  destruct next as [|o|o i]; [|apply Hrec..].
  destruct (print_ b).
  - unfold print_solution. cbn [w_board with_board log w_output w_stdout w_events].
    destruct (mapM _ _) as [printed|]; [|discriminate].
    destruct (quit_ b); [discriminate|]. intros [= <-].
    exists [Printed (held_tiles b); Visit p t]. split; [reflexivity|].
    cbn. now rewrite Hplace.
  - unfold complete. intros [= <-].
    exists [Completed (held_tiles b); Visit p t]. split; [reflexivity|].
    cbn. now rewrite Hplace.
Qed.

Lemma iterate_counts (rec : pptr -> mask_type -> world -> outcome)
    (p : pptr) (m : mask_type) (tiles : list nat) :
  (forall p' m' wd1 wd2, rec p' m' wd1 = Done wd2 -> counted wd1 wd2) ->
  forall i wd wd', iterate L lookups complete rec p m tiles i wd = Done wd' -> counted wd wd'.
Proof.
  intros IH. induction i as [|i IHi]; intros wd wd'.
  - intros [= <-]. apply counted_refl.
  - cbn [iterate]. destruct (tiles !! i) as [t|]; [|discriminate].
    destruct (try_tile _ _ _ _ _ _ _ _) as [wd1| | |] eqn:Ht; try discriminate.
    cbn [and_then]. intros H.
    eapply counted_trans; [exact (try_tile_counts rec p m t wd wd1 IH Ht)|].
    now apply IHi.
Qed.

(** A call of [solve_for] that returns has counted the solutions it reached. *)
Lemma solve_for_counts (fuel : nat) :
  forall p m wd wd', solve_for L lookups complete fuel p m wd = Done wd' -> counted wd wd'.
Proof.
  induction fuel as [|fuel IH]; intros p m wd wd'; [discriminate|].
  cbn [solve_for]. destruct (deref (w_board wd) p) as [this|]; [|discriminate].
  cbv zeta. now apply iterate_counts.
Qed.
End Counting.

Section CompleteOk.
Variable L : layout.
Variable lookups : tileArrayLookup.
Variables (addr w h : nat).
Variable value : type.
Variables (pr qt : bool).

(** [abstractBoard::complete()] is a [complete()] the backtracker can call. *)
Lemma complete_complete_ok : complete_ok L lookups addr w h value pr qt complete.
Proof.
  intros a wd Hlen Hv Hinv. eexists. split; [reflexivity|]. split; [exact Hinv|reflexivity].
Qed.
End CompleteOk.

(** [verticalBoard::complete()] is one too: on a full 1 by 2 board it finds
    its two tiles and returns, the board and the events being as they were. *)
Lemma vertical_complete_ok (Lin Lout : layout) (lookups : tileArrayLookup) (addr : nat)
    (value : type) (pr qt : bool) :
  complete_ok Lin lookups addr 1 2 value pr qt (vertical_complete Lin Lout lookups).
Proof.
  intros a wd Hlen Hv Hinv.
  pose proof Hinv as (Hself & _ & Hh & _ & _ & _ & Hcells).
  destruct (Hcells 0%nat 0%nat ltac:(lia) ltac:(lia)) as (c0 & Hc0 & _ & _ & Ht0).
  destruct (Hcells 0%nat 1%nat ltac:(lia) ltac:(lia)) as (c1 & Hc1 & _ & _ & Ht1).
  destruct (lookup_lt_is_Some_2 a 0 ltac:(cbn in Hlen; lia)) as [q0 Hq0].
  destruct (lookup_lt_is_Some_2 a 1 ltac:(cbn in Hlen; lia)) as [q1 Hq1].
  unfold valid_ptrs in Hv. rewrite List.Forall_forall in Hv.
  destruct (Hv q0 (proj1 (list_elem_of_In _ _) (list_elem_of_lookup_2 _ _ _ Hq0))) as [t0 Hu0].
  destruct (Hv q1 (proj1 (list_elem_of_In _ _) (list_elem_of_lookup_2 _ _ _ Hq1))) as [t1 Hu1].
  unfold vertical_complete, held_pair, at_ptr. rewrite Hself, Hh, <- Hself, !deref_cell.
  change (at_index 2 0 0) with 0%nat in *. change (at_index 2 0 1) with 1%nat in *.
  rewrite Hc0, Hc1. cbn [mbind option_bind].
  rewrite Ht0, Ht1, Hq0, Hq1 by (cbn in Hlen; lia). cbn [mbind option_bind].
  rewrite Hu0, Hu1. cbn [mbind option_bind]. rewrite Hself.
  eexists. split; [reflexivity|]. split; [exact Hinv|reflexivity].
Qed.

(** ** Sorted arrays: [randomize] *)




Lemma sorted_impl {A : Type} (R R' : A -> A -> Prop) (l : list A) :
  (forall x y, R x y -> R' x y) -> StronglySorted R l -> StronglySorted R' l.
Proof.
  intros HR. induction 1 as [|a l Hl IH Ha]; constructor; [exact IH|].
  eapply List.Forall_impl; [|exact Ha]. intros y. apply HR.
Qed.

Lemma omap_rev {A B : Type} (f : A -> option B) (l : list A) :
  omap f (rev l) = rev (omap f l).
Proof.
  induction l as [|x l IH]; [reflexivity|].
  cbn [rev]. rewrite omap_app, IH, !omap_cons_eq.
  destruct (f x); cbn [omap list_omap rev]; [reflexivity|now rewrite app_nil_r].
Qed.


Lemma assign_random_lookup (draws : list Z) (ts : list tile) (q : nat) (u : tile) :
  ts !! q = Some u ->
  exists r, assign_random draws ts !! q =
            Some (Tile (val_right u) (val_bottom u) (val_left u) (val_top u) (mask u) r).
Proof.
  revert draws q. induction ts as [|t ts IH]; intros draws q Hq.
  - rewrite lookup_nil in Hq. discriminate.
  - destruct draws as [|r draws].
    + exists (random u). cbn [assign_random]. rewrite Hq. now destruct u.
    + destruct q as [|q]; cbn [assign_random].
      * injection Hq as <-. now exists r.
      * now apply IH.
Qed.

Lemma lookups_at_randomize (draws : list Z) (s : tileArrayLookup) (k : Z) :
  lookups_at (randomize draws s) k =
  std_sort (fun p q => sortTilesByRandom (tile_of (randomize draws s) p)
                                         (tile_of (randomize draws s) q))
           (lookups_at s k).
Proof.
  unfold lookups_at, randomize, randomize_arrays. cbn [arrays tiles_].
  rewrite lookup_fmap. destruct (arrays s !! k); reflexivity.
Qed.

(** After [randomize()] every array is in non-decreasing order of the
    random values of its tiles, and holds the pointers it held. *)
Lemma randomize_sorted (draws : list Z) (s : tileArrayLookup) (k : Z) :
  StronglySorted
    (fun t t' => random (tile_of (randomize draws s) t) <=
                 random (tile_of (randomize draws s) t'))
    (lookups_at (randomize draws s) k).
Proof.
  rewrite lookups_at_randomize.
  eapply sorted_impl.
  2:{ apply std_sort_sorted.
      - intros x y. unfold sortTilesByRandom. rewrite Z.ltb_lt, Z.ltb_ge. lia.
      - intros x y z. unfold sortTilesByRandom. rewrite !Z.ltb_ge. lia. }
  intros x y. cbv beta. unfold sortTilesByRandom. rewrite Z.ltb_ge. lia.
Qed.

Lemma randomize_perm (draws : list Z) (s : tileArrayLookup) (k : Z) :
  lookups_at (randomize draws s) k ≡ₚ lookups_at s k.
Proof. rewrite lookups_at_randomize. apply std_sort_perm. Qed.

Lemma store_inv_randomize (L : layout) (draws : list Z) (s : tileArrayLookup) :
  store_inv L s -> store_inv L (randomize draws s).
Proof.
  intros Hs k q Hq. rewrite randomize_perm in Hq.
  destruct (Hs k q Hq) as (u & Hu & Hwf & Hkey).
  destruct (assign_random_lookup draws _ _ _ Hu) as (r & Hr).
  eexists. split; [exact Hr|]. split; [exact Hwf|exact Hkey].
Qed.

(** ** Boards that cover all the pieces *)






Section UnionFacts.
Variable lookups : tileArrayLookup.

Local Abbreviation tmask q := (mask (tile_of lookups q)).


Lemma testbit_path_mask (a : list nat) (m : mask_type) (i : Z) :
  Z.testbit (path_mask lookups m a) i =
  Z.testbit m i || existsb (fun q => Z.testbit (tmask q) i) a.
Proof.
  revert m. induction a as [|q a IH]; intros m.
  - cbn. now rewrite orb_false_r.
  - change (path_mask lookups m (q :: a)) with (path_mask lookups (copyCombine m (tmask q)) a).
    rewrite IH. unfold copyCombine. rewrite Z.lor_spec. cbn [existsb].
    now rewrite orb_assoc.
Qed.






End UnionFacts.

(** ** The solutions the backtracker records *)



(** ** The quit option *)

Section QuitOption.
Variable L : layout.
Variable lookups : tileArrayLookup.
Variables (addr w h : nat).
Variable value : type.
Variable qt : bool.

Lemma search_iterate_without_print (rec : list nat -> mask_type -> list event * bool)
    (a : list nat) (m : mask_type) (tiles : list nat) :
  (forall a' m', snd (rec a' m') = false) ->
  forall i, snd (search_iterate lookups addr w h false qt rec a m tiles i) = false.
Proof.
  intros IH. induction i as [|i IHi]; [reflexivity|].
  cbn [search_iterate]. destruct (tiles !! i) as [q|]; [|reflexivity].
  assert (Hq : snd (search_tile lookups addr w h false qt rec a m q) = false).
  { unfold search_tile. destruct (mask_and _ _); [reflexivity|].
    destruct (_ =? _)%nat; [reflexivity|].
    specialize (IH (a ++ [q]) (copyCombine m (mask (tile_of lookups q)))).
    destruct (rec _ _) as [evs ex]. exact IH. }
  destruct (search_tile _ _ _ _ _ _ _ _ _ _) as [evs ex]. cbn [snd] in Hq. subst ex.
  destruct (search_iterate _ _ _ _ _ _ _ _ _ _ _) as [evs' ex']. exact IHi.
Qed.

(** Without the print option the search never exits, whatever the quit
    option is. *)
Lemma search_without_print (rem : nat) :
  forall a m, snd (search L lookups addr w h value false qt rem a m) = false.
Proof.
  induction rem as [|rem IH]; intros a m; [reflexivity|].
  cbn [search]. cbv zeta. now apply search_iterate_without_print.
Qed.
End QuitOption.

(** Without the print option [solve_for] returns: the quit option alone never
    ends the process. *)
Lemma solve_for_without_print (L : layout) (lookups : tileArrayLookup) (addr w h : nat)
    (value : type) (qt : bool) (on_complete : world -> outcome) (m : mask_type) (wd : world) :
  layout_ok L -> store_inv L lookups ->
  complete_ok L lookups addr w h value false qt on_complete ->
  (0 < w * h)%nat ->
  board_inv L lookups addr w h value false qt [] (w_board wd) ->
  exists wd', solve_for L lookups on_complete (w * h) (PCell addr 0) m wd = Done wd'.
Proof.
  intros HL Hstore Hcomplete Hwh Hinv.
  destruct (solve_for_search L HL lookups Hstore addr w h value false qt on_complete Hcomplete
              (w * h) (w * h) [] m wd (Nat.le_refl _) Hwh eq_refl
              (List.Forall_nil _) Hinv) as (wd' & Ho & _).
  rewrite search_without_print in Ho. now exists wd'.
Qed.

(** ** The threaded [solve()] *)

Section Threaded.
Variable L : layout.
Hypothesis HL : layout_ok L.
Variable lookups : tileArrayLookup.
Hypothesis Hstore : store_inv L lookups.
Variables (addr w h : nat).
Variable value : type.
Variables (pr qt : bool).
Variable this : board.
Hypothesis Hthis : board_inv L lookups addr w h value pr qt [] this.
Hypothesis Hcells : (1 < w * h)%nat.

Local Abbreviation sum_solutions := (fold_left (fun s b => wrap (s + solutions_ b))).



End Threaded.


(** ** The test puzzle *)

Lemma generateLookups_store_inv (L : layout) (pieces : pieceVector) :
  layout_ok L -> Forall (piece_fits L) pieces ->
  forall st, store_inv L (snd st) ->
    store_inv L (snd (fold_left (generateLookups_step L) pieces st)).
Proof.
  intros HL. induction 1 as [|p pieces Hp Hps IH]; intros [[c n] s] Hs; [exact Hs|].
  cbn [fold_left]. apply IH. unfold generateLookups_step.
  rewrite (piece_tiles_policy L c n p Hp). cbn [snd].
  apply store_inv_insert_range; [exact HL| |exact Hs].
  now apply policy_tiles_wf.
Qed.

Lemma no_wildcard_check (L : layout) (s : tileArrayLookup) :
  forallb (fun u => negb (val_right u =? LEFT_EDGE L) && negb (val_bottom u =? TOP_EDGE L))
          (tiles_ s) = true ->
  forall q u, tiles_ s !! q = Some u -> no_wildcard L u.
Proof.
  intros H q u Hu. rewrite forallb_forall in H.
  specialize (H u (proj1 (list_elem_of_In _ _) (list_elem_of_lookup_2 _ _ _ Hu))).
  apply andb_true_iff in H. destruct H as [H1 H2].
  apply negb_true_iff in H1, H2. split; [now apply Z.eqb_neq|now apply Z.eqb_neq].
Qed.

Lemma e8_layout_ok : layout_ok e8.lookup_1x1.
Proof. unfold layout_ok. simpl. lia. Qed.

Lemma test_pieces_fit : Forall (piece_fits e8.lookup_1x1) test_pieces.
Proof.
  repeat apply List.Forall_cons; try apply List.Forall_nil;
    unfold piece_fits; repeat apply List.Forall_cons; try apply List.Forall_nil;
    cbn; lia.
Qed.

Lemma test_store_inv :
  store_inv e8.lookup_1x1 (generateLookups e8.lookup_1x1 test_pieces lookups_empty).
Proof.
  apply (generateLookups_store_inv e8.lookup_1x1 test_pieces e8_layout_ok test_pieces_fit
           (0, 0, lookups_empty)).
  apply store_inv_empty.
Qed.

Lemma test_store_no_wildcard (q : nat) (u : tile) :
  tiles_ (generateLookups e8.lookup_1x1 test_pieces lookups_empty) !! q = Some u ->
  no_wildcard e8.lookup_1x1 u.
Proof. apply no_wildcard_check. vm_compute. reflexivity. Qed.





(** Why the tiles must not carry the reserved pattern: with an edge value of
    [2^64 - 1] the edge count wraps to 0 and the driver solves with the 8
    edge class, where the value is stored as the pattern 7, the one reserved
    for "any pattern but zero".  On the 2 by 2 board the solve then records a
    solution whose first tile has the right pattern 7 beside a tile whose
    left pattern is 3. *)
Remark reserved_pattern_mismatch :
  let pieces := [Piece 0 1 (2 ^ 64 - 1) 0; Piece 3 2 0 0; Piece 0 0 4 1; Piece 4 0 0 2] in
  let L := e8.lookup_1x1 in
  let lookups := generateLookups L pieces lookups_empty in
  let held := [Some 0; Some 5; Some 1; Some 8]%nat in
  main_dispatch pieces = Solves mask_32 edges_8 /\
  In (Completed held) (outcome_events (solve L lookups (world_of (board_new L 0 2 2)))) /\
  val_right (tile_of lookups 0) = 7 /\ val_left (tile_of lookups 1) = 3.
Proof.
  intros pieces L lookups held. split; [reflexivity|]. split.
  - assert (H : find (fun e => match e with Completed _ => true | _ => false end)
                     (outcome_events (solve L lookups (world_of (board_new L 0 2 2)))) =
                Some (Completed held))
      by (vm_compute; reflexivity).
    exact (proj1 (find_some _ _ H)).
  - split; vm_compute; reflexivity.
Qed.




(** C3, on the code: with the quit option and without the print option the
    solve of the test puzzle does not exit at the first solution, it returns
    after counting all 640 solutions; with both options it exits at the first
    solution, which it has printed and not counted. *)
Theorem quit_needs_print :
  let L := e8.lookup_1x1 in
  let lookups := generateLookups L test_pieces lookups_empty in
  outcome_summary (solve L lookups (world_of (setQuit true (board_new L 0 4 4)))) =
    Some (false, 640, 0%nat) /\
  outcome_summary
    (solve L lookups (world_of (setPrint true (setQuit true (board_new L 0 4 4))))) =
    Some (true, 0, 1%nat).
Proof. split; vm_compute; reflexivity. Qed.

(** ** The 16 piece puzzle (board.cpp) *)

(** C2: for the 16 piece puzzle of the self-test the 1x1 store holds 58
    rotations, the 1x2 store 316, the 2x1 store 316, the 2x2 store 3472, and
    the normal 4x4 board has 640 solutions whether it is solved with 1x1,
    1x2, 2x1 or 2x2 tiles, threaded or not. *)
Theorem test_board_counts :
  test_board_impl e8.lookup_1x1 e8.lookup_1x2 e8.lookup_2x1 e8.lookup_2x2 4 4 test_pieces =
  Some [ 58; 640; 640; 316; 640; 316; 640; 316; 640; 316; 640; 3472; 640; 3472; 640 ].
Proof. vm_compute. reflexivity. Qed.

(** * More of the sources *)

(** ** lookup.h, lookup.cpp, tile.h, tile.cpp: the layouts *)

(** X1: [_generateMask( size )] is the word with the [size] low bits set,
    [2^size - 1], and [_numBits] counts them back, for every size up to the
    width of a word; so [LEFT_EDGE_BITS] and [TOP_EDGE_BITS] are the template
    parameters [_LR] and [_TB]. *)
Theorem numBits_generateMask (n : nat) :
  (n <= 64)%nat ->
  _generateMask n = 2 ^ Z.of_nat n - 1 /\ is_word (_generateMask n) /\
  _numBits (_generateMask n) = Z.of_nat n.
Proof.
  intros Hn. rewrite generateMask_ones, Z.ones_equiv. split; [lia|]. split.
  - unfold is_word, ENV_BITS.
    assert (0 < 2 ^ Z.of_nat n <= 2 ^ 64)
      by (split; [apply Z.pow_pos_nonneg; lia | apply Z.pow_le_mono_r; lia]).
    lia.
  - rewrite <- Z.ones_equiv. apply numBits_aux_ones. lia.
Qed.

Lemma numBits_generateMask_witness :
  _generateMask 5 = 2 ^ Z.of_nat 5 - 1 /\ is_word (_generateMask 5) /\
  _numBits (_generateMask 5) = Z.of_nat 5.
Proof. apply numBits_generateMask. lia. Defined.

Section LayoutFacts.
Variable L : layout.
Hypothesis HL : layout_ok L.

Local Abbreviation lr := (Z.of_nat (_LR L)).
Local Abbreviation tb := (Z.of_nat (_TB L)).

Ltac lay_unfold :=
  unfold pack, lk_left, lk_top, lk_right, lk_bottom,
    lk_set_left, lk_set_top, lk_set_right, lk_set_bottom, set_field,
    tile_word1, tile_lookup, trunc_lr, trunc_tb,
    MASK_LEFT_EDGE_INV, MASK_TOP_EDGE_INV, MASK_TOP_EDGE, MASK_LEFT_EDGE,
    BOTTOM_POS, RIGHT_POS;
  rewrite ?(LEFT_EDGE_BITS_eq L HL), ?(TOP_EDGE_BITS_eq L HL),
    ?(LEFT_EDGE_ones L), ?(TOP_EDGE_ones L).

Ltac lay_bits :=
  lay_unfold; pose proof (lr_tb_bounds L HL);
  apply Z.bits_inj'; intros ?i ?Hi;
  repeat first
    [ rewrite Z.lor_spec | rewrite Z.land_spec | rewrite Z.ldiff_spec | rewrite Z.lxor_spec
    | rewrite tb_shiftl | rewrite tb_shiftr | rewrite tb_lnot | rewrite tb_wrap
    | rewrite tb_one | rewrite tb_ones by lia | rewrite Z.testbit_0_l ];
  tb_cases; cbn [andb orb negb xorb]; try lia;
  rewrite ?andb_true_r, ?andb_false_r, ?orb_false_r, ?orb_true_r, ?xorb_false_r, ?xorb_true_r;
  try reflexivity; try (tb_indices; btauto).

Lemma masks_disjoint : Z.land (MASK_LEFT_EDGE L) (MASK_TOP_EDGE L) = 0.
Proof. lay_bits. Qed.

Lemma masks_ones : Z.lor (MASK_LEFT_EDGE L) (MASK_TOP_EDGE L) = Z.ones (lr + tb).
Proof. lay_bits. Qed.

Lemma MAX_INDICES_val : MAX_INDICES L = 2 ^ (lr + tb + 2).
Proof.
  unfold MAX_INDICES. rewrite masks_ones, Z.ones_equiv.
  pose proof (lr_tb_bounds L HL).
  rewrite Z.shiftl_mul_pow2 by lia.
  rewrite (Z.pow_add_r 2 (lr + tb) 2) by lia. lia.
Qed.

Lemma set_left_top_all :
  lk_set_top L (lk_set_left L 0 (LEFT_EDGE L)) (TOP_EDGE L) =
  Z.lor (MASK_LEFT_EDGE L) (MASK_TOP_EDGE L).
Proof. lay_bits. Qed.

Lemma set_right_val : lk_set_right L 0 1 = 2 ^ (lr + tb).
Proof.
  transitivity (Z.shiftl 1 (lr + tb)); [lay_bits|].
  pose proof (lr_tb_bounds L HL). rewrite Z.shiftl_mul_pow2 by lia. lia.
Qed.

Lemma set_bottom_val : lk_set_bottom L 0 1 = 2 ^ (lr + tb + 1).
Proof.
  transitivity (Z.shiftl 1 (lr + tb + 1)); [lay_bits|].
  pose proof (lr_tb_bounds L HL). rewrite Z.shiftl_mul_pow2 by lia. lia.
Qed.

Lemma set_all_val :
  lk_set_bottom L (lk_set_right L (lk_set_top L (lk_set_left L 0 (LEFT_EDGE L)) (TOP_EDGE L)) 1) 1 =
  Z.ones (lr + tb + 2).
Proof. lay_bits. Qed.

Lemma pow2_word (n : Z) : 0 <= n < 64 -> wrap (2 ^ n) = 2 ^ n.
Proof.
  intros Hn. unfold wrap, ENV_BITS. apply Z.mod_small.
  split; [apply Z.pow_nonneg; lia | apply Z.pow_lt_mono_r; lia].
Qed.

(** X2: the self-test of the lookup layouts, [test_lookup_impl], passes for
    every layout whose two patterns and two flags fit a word, as the declared
    layouts of the three edge classes do: the left and top masks share no bit,
    the word after both patterns is the right flag and the next bit the bottom
    flag, the lookup with every field set is [MAX_INDICES - 1], and the
    inverted masks are the complements of the patterns. *)
Theorem test_lookup_passes : test_lookup_impl L = true.
Proof.
  pose proof (lr_tb_bounds L HL) as Hb.
  unfold test_lookup_impl. cbv zeta.
  rewrite masks_disjoint, set_all_val, set_left_top_all, masks_ones, set_right_val,
    set_bottom_val, MAX_INDICES_val.
  assert (E1 : lk_set_left L 0 1 = 1) by lay_bits.
  assert (E2 : wrap (Z.ones (lr + tb) + 1) = 2 ^ (lr + tb))
    by (rewrite Z.ones_equiv; replace (Z.pred (2 ^ (lr + tb)) + 1) with (2 ^ (lr + tb)) by lia;
        apply pow2_word; lia).
  assert (E3 : wrap (Z.shiftl (2 ^ (lr + tb)) 1) = 2 ^ (lr + tb + 1)).
  { rewrite Z.shiftl_mul_pow2 by lia. rewrite <- Z.pow_add_r by lia. apply pow2_word. lia. }
  assert (E4 : Z.ones (lr + tb + 2) = 2 ^ (lr + tb + 2) - 1) by (rewrite Z.ones_equiv; lia).
  assert (E5 : MASK_LEFT_EDGE_INV L = Z.lxor (lk_set_left L 0 (LEFT_EDGE L)) (wrap (Z.lnot 0)))
    by lay_bits.
  assert (E6 : MASK_TOP_EDGE_INV L = Z.lxor (lk_set_top L 0 (TOP_EDGE L)) (wrap (Z.lnot 0)))
    by lay_bits.
  rewrite E1, E2, E3, E4, <- E5, <- E6, !Z.eqb_refl. reflexivity.
Qed.

(** X3: assigning one bit-field of a lookup stores the value truncated to the
    width of the field and leaves the three other fields as they were, for
    each of [left], [top], [right] and [bottom] and whatever the word held. *)
Theorem lookup_field_frame (k v : Z) :
  (lk_left L (lk_set_left L k v) = Z.land v (LEFT_EDGE L) /\
   lk_top L (lk_set_left L k v) = lk_top L k /\
   lk_right L (lk_set_left L k v) = lk_right L k /\
   lk_bottom L (lk_set_left L k v) = lk_bottom L k) /\
  (lk_left L (lk_set_top L k v) = lk_left L k /\
   lk_top L (lk_set_top L k v) = Z.land v (TOP_EDGE L) /\
   lk_right L (lk_set_top L k v) = lk_right L k /\
   lk_bottom L (lk_set_top L k v) = lk_bottom L k) /\
  (lk_left L (lk_set_right L k v) = lk_left L k /\
   lk_top L (lk_set_right L k v) = lk_top L k /\
   lk_right L (lk_set_right L k v) = Z.land v 1 /\
   lk_bottom L (lk_set_right L k v) = lk_bottom L k) /\
  (lk_left L (lk_set_bottom L k v) = lk_left L k /\
   lk_top L (lk_set_bottom L k v) = lk_top L k /\
   lk_right L (lk_set_bottom L k v) = lk_right L k /\
   lk_bottom L (lk_set_bottom L k v) = Z.land v 1).
Proof. repeat split; lay_bits. Qed.

Lemma tile_words_inj (t u : tile) :
  tile_wf L t -> tile_wf L u ->
  tile_lookup L t = tile_lookup L u -> tile_word1 L t = tile_word1 L u ->
  val_right t = val_right u /\ val_bottom t = val_bottom u /\
  val_left t = val_left u /\ val_top t = val_top u.
Proof.
  intros Ht Hu E0 E1.
  assert (D : forall x, tile_wf L x ->
                lk_left L (tile_lookup L x) = val_right x /\
                lk_top L (tile_lookup L x) = val_bottom x /\
                lk_left L (tile_word1 L x) = val_left x /\
                lk_top L (tile_word1 L x) = val_top x).
  { intros x (H1 & H2 & H3 & H4). unfold tile_lookup, tile_word1.
    rewrite (small_land_ones _ lr ltac:(lia) H1), (small_land_ones _ tb ltac:(lia) H2),
      (small_land_ones _ lr ltac:(lia) H3), (small_land_ones _ tb ltac:(lia) H4).
    repeat split; lay_bits. }
  destruct (D t Ht) as (A1 & A2 & A3 & A4), (D u Hu) as (B1 & B2 & B3 & B4).
  rewrite <- A1, <- A2, <- A3, <- A4, <- B1, <- B2, <- B3, <- B4, E0, E1. auto.
Qed.

(** X4: the first word of a tile, which [lookup()] returns, holds the right
    pattern where a lookup holds its left pattern and the bottom pattern
    where a lookup holds its top pattern, with both flag bits clear; the
    second word holds the left and top patterns in the same places.  So
    masking [lookup()] with the left (top) mask gives the right (bottom)
    pattern in place, which is what [place] copies into the neighbours. *)
Theorem tile_words_decode (t : tile) :
  tile_wf L t ->
  lk_left L (tile_lookup L t) = val_right t /\
  lk_top L (tile_lookup L t) = val_bottom t /\
  lk_right L (tile_lookup L t) = 0 /\ lk_bottom L (tile_lookup L t) = 0 /\
  lk_left L (tile_word1 L t) = val_left t /\
  lk_top L (tile_word1 L t) = val_top t /\
  Z.land (MASK_LEFT_EDGE L) (tile_lookup L t) = val_right t /\
  Z.land (MASK_TOP_EDGE L) (tile_lookup L t) = Z.shiftl (val_bottom t) lr.
Proof.
  intros (H1 & H2 & H3 & H4). unfold tile_lookup, tile_word1.
  rewrite (small_land_ones _ lr ltac:(lia) H1), (small_land_ones _ tb ltac:(lia) H2),
    (small_land_ones _ lr ltac:(lia) H3), (small_land_ones _ tb ltac:(lia) H4).
  repeat split; lay_bits.
Qed.

(** The two updates [place] makes to the lookups of the neighbours. *)
Lemma place_left_update (k : Z) (t : tile) :
  tile_wf L t ->
  let k' := Z.lor (Z.land k (MASK_LEFT_EDGE_INV L))
                  (Z.land (MASK_LEFT_EDGE L) (tile_lookup L t)) in
  lk_left L k' = val_right t /\ lk_top L k' = lk_top L k /\
  lk_right L k' = lk_right L k /\ lk_bottom L k' = lk_bottom L k.
Proof.
  intros (H1 & H2 & H3 & H4). cbv zeta. unfold tile_lookup.
  rewrite (small_land_ones _ lr ltac:(lia) H1), (small_land_ones _ tb ltac:(lia) H2).
  repeat split; lay_bits.
Qed.

Lemma place_top_update (k : Z) (t : tile) :
  tile_wf L t ->
  let k' := Z.lor (Z.land k (MASK_TOP_EDGE_INV L))
                  (Z.land (MASK_TOP_EDGE L) (tile_lookup L t)) in
  lk_left L k' = lk_left L k /\ lk_top L k' = val_bottom t /\
  lk_right L k' = lk_right L k /\ lk_bottom L k' = lk_bottom L k.
Proof.
  intros (H1 & H2 & H3 & H4). cbv zeta. unfold tile_lookup.
  rewrite (small_land_ones _ lr ltac:(lia) H1), (small_land_ones _ tb ltac:(lia) H2).
  repeat split; lay_bits.
Qed.

(** [setType] assigns all four fields: what it leaves of a lookup are the
    bits outside them. *)
Lemma set_type_fields_twice (w h : nat) (v v' : type) (x y : nat) (k : Z) :
  set_type_fields L w h v x y (set_type_fields L w h v' x y k) =
  set_type_fields L w h v x y k.
Proof.
  unfold set_type_fields. cbv zeta.
  generalize (if Nat.eqb 0 x && has_border _LEFT_BORDER v then 0 else LEFT_EDGE L).
  generalize (if Nat.eqb 0 y && has_border _TOP_BORDER v then 0 else TOP_EDGE L).
  generalize (if Nat.eqb x (w - 1) && has_border _RIGHT_BORDER v then 0 else 1).
  generalize (if Nat.eqb y (h - 1) && has_border _BOTTOM_BORDER v then 0 else 1).
  generalize (if Nat.eqb 0 x && has_border _LEFT_BORDER v' then 0 else LEFT_EDGE L).
  generalize (if Nat.eqb 0 y && has_border _TOP_BORDER v' then 0 else TOP_EDGE L).
  generalize (if Nat.eqb x (w - 1) && has_border _RIGHT_BORDER v' then 0 else 1).
  generalize (if Nat.eqb y (h - 1) && has_border _BOTTOM_BORDER v' then 0 else 1).
  intros b' r' t' l' b r t l. lay_bits.
Qed.

(** The fields of a lookup after the four assignments of [setType]. *)
Lemma set_chain_read (k l t r b : Z) :
  let k' := lk_set_bottom L (lk_set_right L (lk_set_top L (lk_set_left L k l) t) r) b in
  lk_left L k' = Z.land l (Z.ones lr) /\ lk_top L k' = Z.land t (Z.ones tb) /\
  lk_right L k' = Z.land r 1 /\ lk_bottom L k' = Z.land b 1.
Proof. cbv zeta. repeat split; lay_bits. Qed.

Lemma set_type_fields_read (w h : nat) (v : type) (x y : nat) (k : Z) :
  let k' := set_type_fields L w h v x y k in
  lk_left L k' = (if Nat.eqb 0 x && has_border _LEFT_BORDER v then 0 else LEFT_EDGE L) /\
  lk_top L k' = (if Nat.eqb 0 y && has_border _TOP_BORDER v then 0 else TOP_EDGE L) /\
  lk_right L k' = (if Nat.eqb x (w - 1) && has_border _RIGHT_BORDER v then 0 else 1) /\
  lk_bottom L k' = (if Nat.eqb y (h - 1) && has_border _BOTTOM_BORDER v then 0 else 1).
Proof.
  cbv zeta. unfold set_type_fields. cbv zeta.
  match goal with
  | |- context [lk_set_bottom L (lk_set_right L (lk_set_top L (lk_set_left L k ?l) ?t) ?r) ?b] =>
      destruct (set_chain_read k l t r b) as (E1 & E2 & E3 & E4)
  end.
  rewrite E1, E2, E3, E4. clear E1 E2 E3 E4.
  repeat split.
  - destruct (_ && _); [reflexivity|]. rewrite (LEFT_EDGE_ones L). apply Z.land_diag.
  - destruct (Nat.eqb 0 y && _); [reflexivity|]. rewrite (TOP_EDGE_ones L). apply Z.land_diag.
  - destruct (Nat.eqb x _ && _); reflexivity.
  - destruct (Nat.eqb y _ && _); reflexivity.
Qed.

Lemma trunc_lr_LEFT : trunc_lr L (LEFT_EDGE L) = LEFT_EDGE L.
Proof. unfold trunc_lr. apply Z.land_diag. Qed.

Lemma trunc_tb_TOP : trunc_tb L (TOP_EDGE L) = TOP_EDGE L.
Proof. unfold trunc_tb. apply Z.land_diag. Qed.

Lemma words_left_top (l t : Z) :
  (l = 0 \/ l = LEFT_EDGE L) -> (t = 0 \/ t = TOP_EDGE L) ->
  Z.lor l (Z.shiftl t lr) =
  Z.lor (if l =? 0 then 0 else MASK_LEFT_EDGE L) (if t =? 0 then 0 else MASK_TOP_EDGE L).
Proof.
  pose proof (LEFT_EDGE_range L HL). pose proof (TOP_EDGE_range L HL).
  intros [->| ->] [->| ->]; cbn [Z.eqb];
    try (destruct (Z.eqb_spec (LEFT_EDGE L) 0); [lia|]);
    try (destruct (Z.eqb_spec (TOP_EDGE L) 0); [lia|]);
    unfold MASK_TOP_EDGE, MASK_LEFT_EDGE; rewrite ?(LEFT_EDGE_BITS_eq L HL);
    rewrite ?Z.shiftl_0_l; reflexivity.
Qed.

(** X5: the self-test of the tile layouts, [test_tile_impl], passes for every
    layout that fits a word: after each assignment to the edge patterns of a
    tile its two words are the masks the test expects. *)
Theorem test_tile_passes : test_tile_impl L = true.
Proof.
  pose proof (LEFT_EDGE_range L HL) as Hl. pose proof (TOP_EDGE_range L HL) as Ht.
  assert (Z0 : trunc_lr L 0 = 0) by apply Z.land_0_l.
  assert (Z1 : trunc_tb L 0 = 0) by apply Z.land_0_l.
  cbv beta zeta iota delta [test_tile_impl tile_words_are tile_set_left tile_set_right
    tile_set_top tile_set_bottom tile_zero tile_lookup tile_word1
    val_left val_right val_top val_bottom mask random].
  repeat (rewrite ?trunc_lr_LEFT, ?trunc_tb_TOP, ?Z0, ?Z1).
  rewrite !words_left_top by auto.
  cbn [Z.eqb].
  destruct (Z.eqb_spec (LEFT_EDGE L) 0); [lia|].
  destruct (Z.eqb_spec (TOP_EDGE L) 0); [lia|].
  rewrite ?Z.lor_0_r, ?Z.lor_0_l, !Z.eqb_refl. reflexivity.
Qed.

Section Order.
Variables x y z : tile.
Hypothesis Hx : tile_wf L x.
Hypothesis Hy : tile_wf L y.

(** X6: [sortTilesByEdge] is a strict weak ordering, as [std::sort] requires
    of its comparison: no tile is before itself, the order is transitive,
    and two tiles neither of which is before the other have the same four
    edge patterns (so tiles that differ in a pattern are always ordered). *)
Theorem sortTilesByEdge_strict_weak :
  sortTilesByEdge L x x = false /\
  (sortTilesByEdge L x y = true -> sortTilesByEdge L y x = false) /\
  (sortTilesByEdge L x y = true -> sortTilesByEdge L y z = true ->
   sortTilesByEdge L x z = true) /\
  (sortTilesByEdge L x y = false /\ sortTilesByEdge L y x = false <->
   val_left x = val_left y /\ val_top x = val_top y /\
   val_right x = val_right y /\ val_bottom x = val_bottom y).
Proof.
  split; [|split; [|split]].
  - unfold sortTilesByEdge. rewrite Z.eqb_refl. apply Z.ltb_irrefl.
  - unfold sortTilesByEdge.
    destruct (Z.eqb_spec (tile_word1 L x) (tile_word1 L y)),
      (Z.eqb_spec (tile_word1 L y) (tile_word1 L x)); try congruence;
      rewrite !Z.ltb_lt, !Z.ltb_ge; lia.
  - unfold sortTilesByEdge.
    destruct (Z.eqb_spec (tile_word1 L x) (tile_word1 L y)),
      (Z.eqb_spec (tile_word1 L y) (tile_word1 L z)),
      (Z.eqb_spec (tile_word1 L x) (tile_word1 L z));
      rewrite !Z.ltb_lt; lia.
  - split.
    + intros [H1 H2].
      assert (E : tile_word1 L x = tile_word1 L y /\ tile_lookup L x = tile_lookup L y).
      { revert H1 H2. unfold sortTilesByEdge.
        destruct (Z.eqb_spec (tile_word1 L x) (tile_word1 L y)),
          (Z.eqb_spec (tile_word1 L y) (tile_word1 L x)); try congruence;
          rewrite !Z.ltb_ge; lia. }
      destruct (tile_words_inj x y Hx Hy (proj2 E) (proj1 E)) as (? & ? & ? & ?). auto.
    + intros (E1 & E2 & E3 & E4). unfold sortTilesByEdge, tile_word1, tile_lookup.
      rewrite E1, E2, E3, E4, !Z.eqb_refl, !Z.ltb_irrefl. auto.
Qed.
End Order.

End LayoutFacts.

Lemma test_lookup_passes_witness : test_lookup_impl e32.lookup_4x8 = true.
Proof. apply test_lookup_passes. unfold layout_ok. simpl. lia. Defined.

Lemma lookup_field_frame_witness :
  lk_left e8.lookup_1x1 (lk_set_left e8.lookup_1x1 255 9) = Z.land 9 (LEFT_EDGE e8.lookup_1x1) /\
  lk_top e8.lookup_1x1 (lk_set_left e8.lookup_1x1 255 9) = lk_top e8.lookup_1x1 255.
Proof.
  assert (HL : layout_ok e8.lookup_1x1) by (unfold layout_ok; simpl; lia).
  destruct (lookup_field_frame e8.lookup_1x1 HL 255 9) as ((H1 & H2 & _) & _).
  split; assumption.
Defined.

Lemma tile_words_decode_witness :
  lk_left e8.lookup_1x1 (tile_lookup e8.lookup_1x1 (Tile 3 4 1 2 1 0)) = 3 /\
  lk_top e8.lookup_1x1 (tile_lookup e8.lookup_1x1 (Tile 3 4 1 2 1 0)) = 4.
Proof.
  assert (HL : layout_ok e8.lookup_1x1) by (unfold layout_ok; simpl; lia).
  assert (Hwf : tile_wf e8.lookup_1x1 (Tile 3 4 1 2 1 0)) by (unfold tile_wf; simpl; lia).
  destruct (tile_words_decode e8.lookup_1x1 HL (Tile 3 4 1 2 1 0) Hwf) as (H1 & H2 & _).
  split; assumption.
Defined.

Lemma test_tile_passes_witness : test_tile_impl e16.lookup_2x4 = true.
Proof. apply test_tile_passes. unfold layout_ok. simpl. lia. Defined.

Lemma sortTilesByEdge_strict_weak_witness :
  sortTilesByEdge e8.lookup_1x1 (Tile 2 1 2 1 1 0) (Tile 2 1 2 1 1 0) = false.
Proof.
  assert (HL : layout_ok e8.lookup_1x1) by (unfold layout_ok; simpl; lia).
  assert (Hwf : tile_wf e8.lookup_1x1 (Tile 2 1 2 1 1 0)) by (unfold tile_wf; simpl; lia).
  exact (proj1 (sortTilesByEdge_strict_weak e8.lookup_1x1 HL (Tile 2 1 2 1 1 0)
                  (Tile 2 1 2 1 1 0) (Tile 1 2 1 2 1 0) Hwf Hwf)).
Defined.


(** ** bitwisemask.h: masks as arrays of words *)

Section MaskWords.

Lemma ENV_BITS_val : ENV_BITS = 64.
Proof. reflexivity. Qed.

Lemma setBit_loop_spec (fuel : nat) :
  forall bit n, 0 <= bit -> bit / 64 <= Z.of_nat fuel ->
    bitwiseMask.setBit_loop fuel bit n = (bit mod 64, Nat.iter (Z.to_nat (bit / 64)) (fun n => wrap (n + 1)) n).
Proof.
  induction fuel as [|fuel IH]; intros bit n Hbit Hfuel.
  - assert (bit / 64 = 0) as E by (pose proof (Z.div_pos bit 64); lia).
    rewrite E. cbn. f_equal. symmetry. apply Z.mod_small.
    apply Z.div_small_iff in E; lia.
  - cbn [bitwiseMask.setBit_loop]. rewrite ENV_BITS_val.
    destruct (Z.leb_spec 64 bit) as [Hge|Hlt].
    + assert (Ed : bit / 64 = (bit - 64) / 64 + 1).
      { replace bit with ((bit - 64) + 1 * 64) at 1 by lia. now rewrite Z.div_add by lia. }
      assert (Em : bit mod 64 = (bit - 64) mod 64).
      { replace bit with ((bit - 64) + 1 * 64) at 1 by lia. now rewrite Z.mod_add by lia. }
      rewrite IH by lia. rewrite Em, Ed. f_equal.
      pose proof (Z.div_pos (bit - 64) 64 ltac:(lia) ltac:(lia)).
      rewrite Z2Nat.inj_add, Nat.add_comm by lia.
      change (Z.to_nat 1) with 1%nat. cbn [Nat.add]. now rewrite Nat.iter_succ_r.
    + rewrite Z.div_small, Z.mod_small by lia. reflexivity.
Qed.

Lemma count_words (k : nat) : Z.of_nat k < 2 ^ 64 -> Nat.iter k (fun n => wrap (n + 1)) 0 = Z.of_nat k.
Proof.
  intros Hk. change (Nat.iter k (fun n => wrap (n + 1)) 0) with (count_up k 0).
  rewrite count_up_wrap by (unfold is_word, ENV_BITS; lia).
  unfold wrap, ENV_BITS. apply Z.mod_small. lia.
Qed.

(** The bit [i] of the value of a mask is the bit [i mod 64] of its word
    [i / 64]. *)
Lemma testbit_words (bits : bitwiseMask.t) (i : Z) :
  Forall is_word bits -> 0 <= i ->
  Z.testbit (bitwiseMask.bm_value bits) i =
  match bits !! Z.to_nat (i / 64) with
  | Some w => Z.testbit w (i mod 64)
  | None => false
  end.
Proof.
  intros Hw. revert i. induction Hw as [|w bits Hword Hbits IH]; intros i Hi.
  - cbn. now rewrite Z.testbit_0_l.
  - cbn [bitwiseMask.bm_value]. rewrite Z.lor_spec, tb_shiftl, ENV_BITS_val.
    destruct (Z.lt_ge_cases i 64) as [Hlt|Hge].
    + rewrite Z.div_small, Z.mod_small by lia. cbn [Z.to_nat lookup list_lookup].
      rewrite (Z.testbit_neg_r _ (i - 64)) by lia. now rewrite andb_false_r, orb_false_r.
    + assert (Ed : i / 64 = (i - 64) / 64 + 1).
      { replace i with ((i - 64) + 1 * 64) at 1 by lia. now rewrite Z.div_add by lia. }
      assert (Em : i mod 64 = (i - 64) mod 64).
      { replace i with ((i - 64) + 1 * 64) at 1 by lia. now rewrite Z.mod_add by lia. }
      pose proof (Z.div_pos (i - 64) 64 ltac:(lia) ltac:(lia)).
      rewrite (proj2 (Z.leb_le 0 i)) by lia. cbn [andb].
      rewrite (Z.bits_above_log2 w i).
      2:{ destruct Hword; lia. }
      2:{ destruct Hword as [H0 H1]. unfold ENV_BITS in H1.
          destruct (Z.eq_dec w 0) as [->|Hne]; [cbn; lia|].
          apply Z.log2_lt_pow2 in H1; lia. }
      cbn [orb]. rewrite IH by lia. rewrite Ed, Em.
      rewrite Z2Nat.inj_add, Nat.add_comm by lia. reflexivity.
Qed.

Lemma words_value_nonneg (bits : bitwiseMask.t) : Forall is_word bits -> 0 <= bitwiseMask.bm_value bits.
Proof.
  induction 1 as [|w bits Hw _ IH]; cbn [bitwiseMask.bm_value]; [lia|].
  apply Z.lor_nonneg. split; [apply Hw|]. now apply Z.shiftl_nonneg.
Qed.

Lemma index_split (i j : Z) :
  0 <= i -> 0 <= j -> (i = j <-> i / 64 = j / 64 /\ i mod 64 = j mod 64).
Proof.
  intros Hi Hj. split; [intros ->; auto|]. intros [Ed Em].
  rewrite (Z.div_mod i 64), (Z.div_mod j 64) by lia. lia.
Qed.

Lemma setBit_loop_words (bit : Z) :
  0 <= bit < 2 ^ 64 ->
  bitwiseMask.setBit_loop (Z.to_nat bit) bit 0 = (bit mod 64, bit / 64).
Proof.
  intros Hbit.
  pose proof (Z.div_pos bit 64 ltac:(lia) ltac:(lia)) as Hd0.
  assert (Hdb : bit / 64 < 2 ^ 64) by (apply Z.div_lt_upper_bound; lia).
  rewrite setBit_loop_spec.
  - rewrite count_words by lia. now rewrite Z2Nat.id by lia.
  - lia.
  - rewrite Z2Nat.id by lia. apply Z.div_le_upper_bound; lia.
Qed.

Lemma setBit_words (bits : list Z) (bit : Z) :
  Forall is_word bits -> 0 <= bit < 2 ^ 64 ->
  bit < 64 * Z.of_nat (length bits) ->
  exists bits', bitwiseMask.setBit bits bit = Some bits' /\
                length bits' = length bits /\ Forall is_word bits' /\
                bitwiseMask.bm_value bits' = setBit (bitwiseMask.bm_value bits) bit.
Proof.
  intros Hw Hbit Hlt.
  pose proof (Z.div_pos bit 64 ltac:(lia) ltac:(lia)) as Hd0.
  pose proof (Z.mod_pos_bound bit 64 ltac:(lia)) as Hm.
  unfold bitwiseMask.setBit. rewrite (setBit_loop_words bit Hbit). cbv beta iota zeta.
  assert (Hn : (Z.to_nat (bit / 64) < length bits)%nat).
  { apply Nat2Z.inj_lt. rewrite Z2Nat.id by lia. apply Z.div_lt_upper_bound; lia. }
  destruct (lookup_lt_is_Some_2 bits _ Hn) as [w Hwk]. rewrite Hwk. cbn.
  assert (Hv : wrap (Z.shiftl 1 (bit mod 64)) = Z.shiftl 1 (bit mod 64)).
  { unfold wrap, ENV_BITS. apply Z.mod_small. rewrite Z.shiftl_1_l.
    split; [apply Z.pow_nonneg; lia|]. apply Z.pow_lt_mono_r; lia. }
  assert (Hword : is_word (Z.lor w (wrap (Z.shiftl 1 (bit mod 64))))).
  { pose proof (Forall_lookup_1 _ _ _ _ Hw Hwk) as [Hw0 Hw1].
    rewrite Hv. split.
    - apply Z.lor_nonneg. split; [lia|]. apply Z.shiftl_nonneg. lia.
    - assert (Hs : 0 <= Z.shiftl 1 (bit mod 64) < 2 ^ ENV_BITS).
      { unfold ENV_BITS. rewrite Z.shiftl_1_l.
        split; [apply Z.pow_nonneg; lia|]. apply Z.pow_lt_mono_r; lia. }
      destruct (Z.eq_dec (Z.lor w (Z.shiftl 1 (bit mod 64))) 0) as [->|Hne].
      + unfold ENV_BITS; lia.
      + apply Z.log2_lt_pow2.
        * pose proof (Z.lor_nonneg w (Z.shiftl 1 (bit mod 64))). lia.
        * rewrite Z.log2_lor by lia.
          apply Z.max_lub_lt.
          { destruct (Z.eq_dec w 0) as [->|?]; [cbn; unfold ENV_BITS; lia|].
            apply Z.log2_lt_pow2; lia. }
          { rewrite Z.shiftl_1_l, Z.log2_pow2 by lia. unfold ENV_BITS; lia. } }
  eexists. split; [reflexivity|]. split; [apply length_insert|]. split.
  { apply Forall_insert; assumption. }
  apply Z.bits_inj'. intros i Hi.
  rewrite testbit_words by (try apply Forall_insert; assumption || lia).
  unfold setBit. rewrite Z.lor_spec, testbit_words by (assumption || lia).
  rewrite (Z.shiftl_1_l bit), (Z.pow2_bits_eqb bit) by lia.
  pose proof (Z.div_pos i 64 ltac:(lia) ltac:(lia)) as Hid.
  pose proof (Z.mod_pos_bound i 64 ltac:(lia)) as Him.
  destruct (decide (Z.to_nat (i / 64) = Z.to_nat (bit / 64))) as [E|NE].
  + rewrite E, list_lookup_insert_eq by assumption. rewrite Hwk.
    rewrite Z.lor_spec, Hv, (Z.shiftl_1_l (bit mod 64)), (Z.pow2_bits_eqb (bit mod 64)) by lia.
    f_equal. assert (i / 64 = bit / 64) as Ed by lia.
    destruct (Z.eqb_spec (bit mod 64) (i mod 64)) as [Em|Em];
      destruct (Z.eqb_spec bit i) as [Eb|Eb]; try reflexivity.
    * exfalso. apply Eb. symmetry. apply index_split; [lia|lia|]. split; congruence.
    * exfalso. apply Em. now rewrite Eb.
  + rewrite list_lookup_insert_ne by congruence.
    destruct (Z.eqb_spec bit i) as [Eb|Eb]; [exfalso; apply NE; now rewrite Eb|].
    now rewrite orb_false_r.
Qed.

(** X8: [setBit( bit )] sets the bit [bit] of the mask and no other: its loop
    finds the word [bit / 64] and the bit [bit mod 64] of it, and the value of
    the mask becomes that of the integer mask with the bit set.  A [bit] at or
    past the width of the mask indexes outside the array of words. *)
Theorem setBit_in_range (bits : bitwiseMask.t) (bit : Z) :
  Forall is_word bits -> 0 <= bit < 2 ^ 64 ->
  (bit < 64 * Z.of_nat (length bits) ->
   exists bits', bitwiseMask.setBit bits bit = Some bits' /\
                 length bits' = length bits /\ Forall is_word bits' /\
                 bitwiseMask.bm_value bits' = setBit (bitwiseMask.bm_value bits) bit) /\
  (64 * Z.of_nat (length bits) <= bit -> bitwiseMask.setBit bits bit = None).
Proof.
  intros Hw Hbit. split; [now apply setBit_words|].
  intros Hge.
  pose proof (Z.div_pos bit 64 ltac:(lia) ltac:(lia)) as Hd0.
  unfold bitwiseMask.setBit. rewrite (setBit_loop_words bit Hbit). cbv beta iota zeta.
  rewrite (lookup_ge_None_2 bits (Z.to_nat (bit / 64))); [reflexivity|].
  apply Nat2Z.inj_le. rewrite Z2Nat.id by lia. apply Z.div_le_lower_bound; lia.
Qed.

Lemma setBit_in_range_witness :
  exists bits', bitwiseMask.setBit (bitwiseMask.zero 2) 70 = Some bits' /\
                length bits' = 2%nat /\ Forall is_word bits' /\
                bitwiseMask.bm_value bits' = setBit 0 70.
Proof.
  refine (proj1 (setBit_in_range (bitwiseMask.zero 2) 70 _ _) _).
  - repeat constructor; unfold is_word, ENV_BITS; lia.
  - lia.
  - cbn. lia.
Defined.

Lemma word_land_ones (x : Z) : is_word x -> x = Z.land x (Z.ones 64).
Proof. intros Hx. apply small_land_ones; [lia|exact Hx]. Qed.

Lemma land_ones_word (x : Z) : is_word (Z.land x (Z.ones 64)).
Proof. apply (land_ones_range x 64). lia. Qed.

Lemma lor_word (x y : Z) : is_word x -> is_word y -> is_word (Z.lor x y).
Proof.
  intros Hx Hy. rewrite (word_land_ones x Hx), (word_land_ones y Hy), <- Z.land_lor_distr_l.
  apply land_ones_word.
Qed.

Lemma land_word (x y : Z) : is_word x -> is_word (Z.land x y).
Proof.
  intros Hx. rewrite (word_land_ones x Hx), <- Z.land_assoc, (Z.land_comm (Z.ones 64)), Z.land_assoc.
  apply land_ones_word.
Qed.

Ltac word_bits :=
  unfold ENV_BITS; apply Z.bits_inj'; intros ?i ?Hi; tb_rewrite; tb_cases;
  cbn [andb orb negb]; try lia;
  rewrite ?(Z.testbit_neg_r _ (_ - 64)) by lia;
  rewrite ?andb_true_r, ?andb_false_r, ?orb_false_r, ?orb_true_r;
  try reflexivity; try btauto.

Lemma value_lor (x y va vb : Z) :
  Z.lor (Z.lor x y) (Z.shiftl (Z.lor va vb) ENV_BITS) =
  Z.lor (Z.lor x (Z.shiftl va ENV_BITS)) (Z.lor y (Z.shiftl vb ENV_BITS)).
Proof. unfold ENV_BITS. bitwise. Qed.

Lemma value_ldiff (x y va vb : Z) :
  is_word x -> is_word y ->
  Z.lor (Z.land x (wrap (Z.lnot y))) (Z.shiftl (Z.ldiff va vb) ENV_BITS) =
  Z.ldiff (Z.lor x (Z.shiftl va ENV_BITS)) (Z.lor y (Z.shiftl vb ENV_BITS)).
Proof.
  intros Hx Hy. rewrite (word_land_ones x Hx), (word_land_ones y Hy).
  word_bits.
Qed.

Lemma value_land (x y va vb : Z) :
  is_word x -> is_word y ->
  Z.land (Z.lor x (Z.shiftl va ENV_BITS)) (Z.lor y (Z.shiftl vb ENV_BITS)) =
  Z.lor (Z.land x y) (Z.shiftl (Z.land va vb) ENV_BITS).
Proof.
  intros Hx Hy. rewrite (word_land_ones x Hx), (word_land_ones y Hy).
  word_bits.
Qed.

Lemma lor_shiftl_eq_0 (p q : Z) :
  (Z.lor p (Z.shiftl q ENV_BITS) =? 0) = (p =? 0) && (q =? 0).
Proof.
  apply eq_true_iff_eq. rewrite andb_true_iff, !Z.eqb_eq, Z.lor_eq_0_iff.
  rewrite Z.shiftl_eq_0_iff by (unfold ENV_BITS; lia). reflexivity.
Qed.

(** X9: on masks of the same number of words, [add] and [copyCombine] are
    the union, [subtract] the difference and [operator &] the test for a
    common bit of the integers the words spell: the word-by-word code and the
    integer masks of the solver agree, and the results are again words. *)
Theorem mask_words_refine (a b : list Z) :
  Forall is_word a -> Forall is_word b -> length a = length b ->
  bitwiseMask.bm_value (bitwiseMask.add a b) =
    copyCombine (bitwiseMask.bm_value a) (bitwiseMask.bm_value b) /\
  bitwiseMask.bm_value (bitwiseMask.copyCombine a b) =
    copyCombine (bitwiseMask.bm_value a) (bitwiseMask.bm_value b) /\
  bitwiseMask.bm_value (bitwiseMask.subtract a b) =
    subtract (bitwiseMask.bm_value a) (bitwiseMask.bm_value b) /\
  bitwiseMask.and a b = mask_and (bitwiseMask.bm_value a) (bitwiseMask.bm_value b) /\
  Forall is_word (bitwiseMask.add a b) /\ Forall is_word (bitwiseMask.subtract a b).
Proof.
  intros Ha. revert b. unfold copyCombine, subtract, mask_and,
    bitwiseMask.add, bitwiseMask.copyCombine, bitwiseMask.subtract, bitwiseMask.and.
  induction Ha as [|x a Hx Ha IH]; intros b Hb Hlen; destruct b as [|y b]; try discriminate.
  - cbn. repeat split; constructor.
  - inversion Hb as [|? ? Hy Hb']; subst. injection Hlen as Hlen.
    destruct (IH b Hb' Hlen) as (I1 & I2 & I3 & I4 & I5 & I6).
    cbn [zip_with zip existsb bitwiseMask.bm_value].
    rewrite I1, I3, I4. repeat split.
    + apply value_lor.
    + apply value_lor.
    + now apply value_ldiff.
    + rewrite value_land, lor_shiftl_eq_0 by assumption. now rewrite negb_andb.
    + constructor; [now apply lor_word | assumption].
    + constructor; [now apply land_word | assumption].
Qed.

Lemma mask_words_refine_witness :
  bitwiseMask.bm_value (bitwiseMask.subtract [3; 7] [1; 1]) =
    subtract (bitwiseMask.bm_value [3; 7]) (bitwiseMask.bm_value [1; 1]) /\
  bitwiseMask.and [3; 7] [1; 1] = mask_and (bitwiseMask.bm_value [3; 7]) (bitwiseMask.bm_value [1; 1]).
Proof.
  assert (A : Forall is_word [3; 7]) by (repeat constructor; unfold is_word, ENV_BITS; lia).
  assert (B : Forall is_word [1; 1]) by (repeat constructor; unfold is_word, ENV_BITS; lia).
  destruct (mask_words_refine [3; 7] [1; 1] A B eq_refl) as (_ & _ & H3 & H4 & _).
  exact (conj H3 H4).
Defined.

(** X10: a mask that shares no bit with another is given back by adding the
    other and subtracting it again, word for word; [subtract] undoes [add]. *)
Theorem add_subtract_round_trip (a b : list Z) :
  Forall is_word a -> Forall is_word b -> length a = length b ->
  bitwiseMask.and a b = false ->
  bitwiseMask.subtract (bitwiseMask.add a b) b = a.
Proof.
  intros Ha. revert b. unfold bitwiseMask.add, bitwiseMask.subtract, bitwiseMask.and.
  induction Ha as [|x a Hx Ha IH]; intros b Hb Hlen Hand; destruct b as [|y b]; try discriminate.
  - reflexivity.
  - inversion Hb as [|? ? Hy Hb']; subst. injection Hlen as Hlen.
    cbn [zip existsb] in Hand. apply orb_false_iff in Hand as [Hxy Hand].
    cbn [zip_with]. rewrite (IH b Hb' Hlen Hand). f_equal.
    apply negb_false_iff, Z.eqb_eq in Hxy.
    rewrite (word_land_ones x Hx) in Hxy |- *.
    apply Z.bits_inj'; intros i Hi.
    assert (Hb0 : Z.testbit (Z.land (Z.land x (Z.ones 64)) y) i = false)
      by (rewrite Hxy; apply Z.testbit_0_l).
    revert Hb0. tb_rewrite. tb_cases; cbn [andb orb negb]; try lia;
      rewrite ?andb_true_r, ?andb_false_r, ?orb_false_r, ?orb_true_r; try reflexivity.
    destruct (Z.testbit x i), (Z.testbit y i); cbn; congruence.
Qed.

Lemma add_subtract_round_trip_witness :
  bitwiseMask.subtract (bitwiseMask.add [5; 0] [2; 9]) [2; 9] = [5; 0].
Proof.
  apply add_subtract_round_trip; try reflexivity;
    repeat constructor; unfold is_word, ENV_BITS; lia.
Defined.

Lemma land_pow2_eqb (w j : Z) :
  0 <= j -> negb (Z.land w (2 ^ j) =? 0) = Z.testbit w j.
Proof.
  intros Hj. destruct (Z.testbit w j) eqn:Hb.
  - apply negb_true_iff, Z.eqb_neq. intros E.
    assert (F : Z.testbit (Z.land w (2 ^ j)) j = false) by (rewrite E; apply Z.testbit_0_l).
    rewrite Z.land_spec, Hb, Z.pow2_bits_true in F by lia. discriminate.
  - apply negb_false_iff, Z.eqb_eq. apply Z.bits_inj'. intros i Hi.
    rewrite Z.land_spec, Z.pow2_bits_eqb, Z.testbit_0_l by lia.
    destruct (Z.eqb_spec j i) as [->|]; [now rewrite Hb | apply andb_false_r].
Qed.

Lemma testbit_value_cons (w : Z) (rest : list Z) (i : Z) :
  is_word w -> 0 <= i ->
  Z.testbit (bitwiseMask.bm_value (w :: rest)) i =
  if i <? 64 then Z.testbit w i else Z.testbit (bitwiseMask.bm_value rest) (i - 64).
Proof.
  intros Hw Hi. cbn [bitwiseMask.bm_value]. rewrite (word_land_ones w Hw).
  unfold ENV_BITS. tb_rewrite. tb_cases; cbn [andb orb negb]; try lia;
    rewrite ?(Z.testbit_neg_r _ (_ - 64)) by lia;
    rewrite ?andb_true_r, ?andb_false_r, ?orb_false_r, ?orb_true_r; reflexivity.
Qed.

Lemma print_word_step (f : nat) (w value bit : Z) (out : list Z) :
  bitwiseMask.print_word (S f) w value bit out =
  if wrap (Z.shiftl value 1) =? 0
  then (if negb (Z.land w value =? 0) then out ++ [bit] else out, wrap (bit + 1))
  else bitwiseMask.print_word f w (wrap (Z.shiftl value 1)) (wrap (bit + 1))
         (if negb (Z.land w value =? 0) then out ++ [bit] else out).
Proof. reflexivity. Qed.

Lemma print_word_spec (w : Z) (s : nat) (f : nat) :
  forall (j : nat) (out : list Z),
    (j + S f = 64)%nat -> Z.of_nat (s + 64) + 1 < 2 ^ 64 ->
    bitwiseMask.print_word (S f) w (2 ^ Z.of_nat j) (Z.of_nat (s + j) + 1) out =
    (out ++ map (fun k => Z.of_nat k + 1)
              (List.filter (fun k => Z.testbit w (Z.of_nat k - Z.of_nat s)) (seq (s + j) (S f))),
     Z.of_nat (s + j + S f) + 1).
Proof.
  induction f as [|f IH]; intros j out Hj Hs.
  - cbn [bitwiseMask.print_word seq List.filter]. assert (j = 63%nat) as -> by lia.
    rewrite land_pow2_eqb by lia.
    replace (Z.of_nat (s + 63) - Z.of_nat s) with (Z.of_nat 63) by lia.
    replace (wrap (Z.shiftl (2 ^ Z.of_nat 63) 1)) with 0 by reflexivity.
    cbn [Z.eqb].
    replace (wrap (Z.of_nat (s + 63) + 1 + 1)) with (Z.of_nat (s + 63 + 1) + 1)
      by (unfold wrap, ENV_BITS; rewrite Z.mod_small; lia).
    destruct (Z.testbit w (Z.of_nat 63)); cbn [map]; [reflexivity|now rewrite app_nil_r].
  - rewrite print_word_step. rewrite land_pow2_eqb by lia.
    assert (Ev : wrap (Z.shiftl (2 ^ Z.of_nat j) 1) = 2 ^ Z.of_nat (S j)).
    { rewrite Z.shiftl_mul_pow2 by lia. rewrite <- Z.pow_add_r by lia.
      replace (Z.of_nat j + 1) with (Z.of_nat (S j)) by lia.
      unfold wrap, ENV_BITS. apply Z.mod_small.
      split; [apply Z.pow_nonneg; lia | apply Z.pow_lt_mono_r; lia]. }
    rewrite Ev.
    assert (Hnz : (2 ^ Z.of_nat (S j) =? 0) = false).
    { apply Z.eqb_neq. pose proof (Z.pow_pos_nonneg 2 (Z.of_nat (S j))). lia. }
    rewrite Hnz.
    replace (wrap (Z.of_nat (s + j) + 1 + 1)) with (Z.of_nat (s + S j) + 1)
      by (unfold wrap, ENV_BITS; rewrite Z.mod_small; lia).
    rewrite IH by lia.
    replace (s + S j + S f)%nat with (s + j + S (S f))%nat by lia.
    f_equal.
    change (seq (s + j) (S (S f))) with ((s + j)%nat :: seq (S (s + j)) (S f)).
    cbn [List.filter].
    replace (Z.of_nat (s + j) - Z.of_nat s) with (Z.of_nat j) by lia.
    replace (S (s + j)) with (s + S j)%nat by lia.
    destruct (Z.testbit w (Z.of_nat j)); cbn [map]; [|reflexivity].
    now rewrite <- app_assoc.
Qed.

Lemma print_step_spec (w : Z) (s : nat) (out : list Z) :
  Z.of_nat (s + 64) + 1 < 2 ^ 64 ->
  bitwiseMask.print_step (out, Z.of_nat s + 1) w =
  (out ++ map (fun k => Z.of_nat k + 1)
            (List.filter (fun k => Z.testbit w (Z.of_nat k - Z.of_nat s)) (seq s 64)),
   Z.of_nat (s + 64) + 1).
Proof.
  intros Hs. pose proof (print_word_spec w s 63 0 out eq_refl Hs) as Hp.
  rewrite !Nat.add_0_r in Hp. exact Hp.
Qed.

Lemma fold_left_step {A B : Type} (f : A -> B -> A) (x : B) (l : list B) (a : A) :
  fold_left f (x :: l) a = fold_left f l (f a x).
Proof. reflexivity. Qed.

Lemma seq_add (s m : nat) : seq s (64 + m) = seq s 64 ++ seq (s + 64) m.
Proof. apply seq_app. Qed.

Lemma print_fold_spec (bits : list Z) :
  Forall is_word bits ->
  forall (s : nat) (out : list Z),
    Z.of_nat (s + 64 * length bits) + 1 < 2 ^ 64 ->
    fold_left bitwiseMask.print_step bits (out, Z.of_nat s + 1) =
    (out ++ map (fun k => Z.of_nat k + 1)
              (List.filter (fun k => Z.testbit (bitwiseMask.bm_value bits) (Z.of_nat k - Z.of_nat s))
                 (seq s (64 * length bits))),
     Z.of_nat (s + 64 * length bits) + 1).
Proof.
  induction 1 as [|w rest Hw Hrest IH]; intros s out Hs.
  - cbn. rewrite app_nil_r. repeat f_equal. lia.
  - rewrite length_cons in Hs |- *.
    rewrite fold_left_step, print_step_spec by lia.
    rewrite IH by lia.
    replace (64 * S (length rest))%nat with (64 + 64 * length rest)%nat by lia.
    rewrite seq_add, List.filter_app, map_app, <- app_assoc.
    apply f_equal2; [|lia].
    apply (f_equal (app out)). apply (f_equal2 (@app Z)); apply (f_equal (map _)).
    + apply filter_ext_in. intros k Hk. apply in_seq in Hk.
      rewrite testbit_value_cons by (assumption || lia).
      destruct (Z.ltb_spec (Z.of_nat k - Z.of_nat s) 64); [reflexivity|lia].
    + symmetry. apply filter_ext_in. intros k Hk. apply in_seq in Hk.
      rewrite testbit_value_cons by (assumption || lia).
      destruct (Z.ltb_spec (Z.of_nat k - Z.of_nat s) 64); [lia|].
      f_equal. lia.
Qed.

(** X11: [print()] writes the numbers of the set bits of the mask in
    ascending order, counting the lowest bit of the first word as 1: the bit
    [k] of the mask is written as [k + 1]. *)
Theorem print_set_bits (bits : list Z) :
  Forall is_word bits -> (length bits <= 8)%nat ->
  bitwiseMask.print bits =
  map (fun k => Z.of_nat k + 1)
    (List.filter (fun k => Z.testbit (bitwiseMask.bm_value bits) (Z.of_nat k))
       (seq 0 (64 * length bits))).
Proof.
  intros Hw Hlen. unfold bitwiseMask.print.
  pose proof (print_fold_spec bits Hw 0 [] ltac:(lia)) as H.
  change (Z.of_nat 0 + 1) with 1 in H. rewrite H.
  cbn [fst app]. f_equal. apply filter_ext_in. intros k _. f_equal. lia.
Qed.

Lemma print_set_bits_witness :
  bitwiseMask.print [8; 64] =
  map (fun k => Z.of_nat k + 1)
    (List.filter (fun k => Z.testbit (bitwiseMask.bm_value [8; 64]) (Z.of_nat k))
       (seq 0 (64 * length [8; 64]))).
Proof.
  apply print_set_bits; [|cbn; lia].
  repeat constructor; unfold is_word, ENV_BITS; lia.
Defined.

End MaskWords.

(** ** tilearraylookup.h: the contents of a store *)

Section StoreContents.
Variable L : layout.
Hypothesis HL : layout_ok L.

Lemma insert_range_spec (ts : list tile) :
  forall s, Forall (tile_wf L) ts ->
    tiles_ (insert_range L ts s) = tiles_ s ++ ts /\
    forall k, lookups_at (insert_range L ts s) k =
              lookups_at s k ++ filed_entries L ts (length (tiles_ s)) k.
Proof.
  unfold insert_range. induction ts as [|t ts IH]; intros s Hts.
  - cbn. rewrite app_nil_r. split; [reflexivity|]. intros k. now rewrite app_nil_r.
  - inversion Hts as [|? ? Ht Hts']; subst. cbn [fold_left filed_entries].
    destruct (insert_spec L HL t s Ht) as [E1 E2].
    destruct (IH (insert L t s) Hts') as [I1 I2]. split.
    + rewrite I1, E1, <- app_assoc. reflexivity.
    + intros k. rewrite I2, E2, E1, length_app, <- app_assoc. cbn [length].
      now rewrite Nat.add_1_r.
Qed.

Lemma elem_of_filed_entries (ts : list tile) :
  forall p q k, q ∈ filed_entries L ts p k <->
    (p <= q)%nat /\ exists u, ts !! (q - p)%nat = Some u /\ under_key L u k.
Proof.
  induction ts as [|t ts IH]; intros p q k; cbn [filed_entries].
  - rewrite elem_of_nil. split; [tauto|]. intros (_ & u & Hu & _). discriminate.
  - rewrite elem_of_app, elem_of_new_entries, IH. split.
    + intros [[-> Hk]|(Hle & u & Hu & Hk)].
      * split; [lia|]. exists t. rewrite Nat.sub_diag. auto.
      * split; [lia|]. exists u. split; [|assumption].
        replace (q - p)%nat with (S (q - S p)) by lia. exact Hu.
    + intros (Hle & u & Hu & Hk).
      destruct (decide (q = p)) as [->|Hne].
      * left. rewrite Nat.sub_diag in Hu. injection Hu as ->. auto.
      * right. split; [lia|]. exists u. split; [|assumption].
        replace (q - p)%nat with (S (q - S p)) in Hu by lia. exact Hu.
Qed.

Lemma new_entries_sorted (t : tile) (p : nat) (k : Z) :
  Forall (fun q => q = p) (new_entries L t p k).
Proof.
  apply Forall_forall. intros q Hq. apply elem_of_new_entries in Hq. tauto.
Qed.

Lemma sorted_const_app (p : nat) (l1 l2 : list nat) :
  Forall (fun q => q = p) l1 -> Forall (fun r => (p <= r)%nat) l2 ->
  StronglySorted le l2 -> StronglySorted le (l1 ++ l2).
Proof.
  intros H1 H2 H3. induction H1 as [|q l -> Hl IH]; cbn [app]; [assumption|].
  constructor; [assumption|].
  apply Forall_app. split; [|assumption].
  apply Forall_forall. intros r Hr.
  rewrite Forall_forall in Hl. now rewrite (Hl r Hr).
Qed.

Lemma filed_entries_sorted (ts : list tile) :
  forall p k, StronglySorted le (filed_entries L ts p k).
Proof.
  induction ts as [|t ts IH]; intros p k; cbn [filed_entries]; [constructor|].
  apply (sorted_const_app p); [apply new_entries_sorted| |apply IH].
  apply Forall_forall. intros r Hr. apply elem_of_filed_entries in Hr. lia.
Qed.

(** X12: a store filled by inserting tiles into the empty store holds exactly
    those tiles, in the order of insertion, and the array at a lookup value
    holds exactly the pointers to the tiles that may be found under the
    value (its own or one of its wildcard variants): no tile is missed, and
    the pointers of each array are in the order of insertion. *)
Theorem store_contents (ts : list tile) (k : Z) :
  Forall (tile_wf L) ts ->
  let s := insert_range L ts lookups_empty in
  tiles_ s = ts /\ tiles s = Z.of_nat (length ts) /\
  (forall q, q ∈ lookups_at s k <-> exists u, ts !! q = Some u /\ under_key L u k) /\
  StronglySorted le (lookups_at s k).
Proof.
  intros Hts s. destruct (insert_range_spec ts lookups_empty Hts) as [E1 E2].
  fold s in E1, E2. cbn [lookups_empty tiles_ app length] in E1, E2.
  assert (E0 : lookups_at lookups_empty k = []) by reflexivity.
  unfold tiles. rewrite E1, E2, E0. cbn [app].
  split; [reflexivity|]. split; [reflexivity|]. split.
  - intros q. rewrite elem_of_filed_entries, Nat.sub_0_r.
    split; [tauto|]. intros H. split; [lia|assumption].
  - apply filed_entries_sorted.
Qed.

Lemma distinct_keys (t : tile) :
  tile_wf L t -> no_reserved_pattern L t ->
  literal_key L t <> left_wildcard_key L t /\
  literal_key L t <> top_wildcard_key L t /\
  literal_key L t <> both_wildcard_key L t /\
  left_wildcard_key L t <> top_wildcard_key L t /\
  left_wildcard_key L t <> both_wildcard_key L t /\
  top_wildcard_key L t <> both_wildcard_key L t.
Proof.
  intros Hwf [Hl Ht]. pose proof (tile_fields_ok L t Hwf) as Hf.
  destruct (wild_fields_ok L HL _ _ _ _ Hf) as (Hfl & Hft & Hfb).
  unfold literal_key, left_wildcard_key, top_wildcard_key, both_wildcard_key.
  repeat split; intros E; apply (pack_inj L HL) in E; try assumption; intuition congruence.
Qed.

Lemma new_entries_single (t : tile) (p : nat) (k : Z) :
  tile_wf L t -> no_reserved_pattern L t ->
  new_entries L t p k = [] \/ new_entries L t p k = [p].
Proof.
  intros Hwf Hno. destruct (distinct_keys t Hwf Hno) as (D1 & D2 & D3 & D4 & D5 & D6).
  unfold new_entries. repeat case_bool_decide; cbn [app]; auto;
    exfalso; intuition congruence.
Qed.

Lemma filed_entries_strict (ts : list tile) :
  Forall (tile_wf L) ts -> Forall (no_reserved_pattern L) ts ->
  forall p k, StronglySorted lt (filed_entries L ts p k).
Proof.
  induction ts as [|t ts IH]; intros Hwf Hno p k; cbn [filed_entries]; [constructor|].
  inversion Hwf as [|? ? Ht Hwf']; inversion Hno as [|? ? Hn Hno']; subst.
  destruct (new_entries_single t p k Ht Hn) as [-> | ->]; cbn [app]; [now apply IH|].
  constructor; [now apply IH|].
  apply Forall_forall. intros r Hr. apply elem_of_filed_entries in Hr. lia.
Qed.

(** X13: when no tile has a pattern with all bits set (the pattern the
    lookups reserve for "any pattern but zero"), no array of the store holds
    a pointer twice, so no tile is tried twice for a lookup value. *)
Theorem store_no_duplicates (ts : list tile) (k : Z) :
  Forall (tile_wf L) ts -> Forall (no_reserved_pattern L) ts ->
  NoDup (lookups_at (insert_range L ts lookups_empty) k) /\
  StronglySorted lt (lookups_at (insert_range L ts lookups_empty) k).
Proof.
  intros Hwf Hno. destruct (insert_range_spec ts lookups_empty Hwf) as [_ E2].
  rewrite E2. change (lookups_at lookups_empty k) with (@nil nat). cbn [app].
  pose proof (filed_entries_strict ts Hwf Hno (length (tiles_ lookups_empty)) k) as Hs.
  split; [|exact Hs].
  induction Hs as [|q l _ IH Hq]; constructor; [|assumption].
  intros Hin. rewrite Forall_forall in Hq. specialize (Hq q Hin). lia.
Qed.

(** X14: a tile whose left pattern has all bits set is filed twice under its
    own lookup value: the value [insert] computes for "any left pattern" is
    then the tile's own value again, and [insert_or_assign] appends the
    pointer a second time. *)
Theorem insert_reserved_pattern_twice (t : tile) (s : tileArrayLookup) :
  tile_wf L t -> val_left t = LEFT_EDGE L ->
  exists rest,
    lookups_at (insert L t s) (literal_key L t) =
    lookups_at s (literal_key L t) ++ length (tiles_ s) :: length (tiles_ s) :: rest.
Proof.
  intros Hwf Hl. destruct (insert_spec L HL t s Hwf) as [_ E]. rewrite E.
  pose proof (LEFT_EDGE_range L HL) as Hr.
  unfold new_entries.
  assert (K : literal_key L t = left_wildcard_key L t)
    by (unfold literal_key, left_wildcard_key; now rewrite Hl).
  rewrite (bool_decide_eq_true_2 (literal_key L t = literal_key L t)) by reflexivity.
  rewrite (bool_decide_eq_true_2 (val_left t <> 0 /\ literal_key L t = left_wildcard_key L t))
    by (split; [lia|exact K]).
  cbn [app]. eexists. reflexivity.
Qed.
End StoreContents.

Lemma store_contents_witness :
  let L := e8.lookup_1x1 in
  let ts := [Tile 1 2 0 0 1 0; Tile 0 3 1 2 2 0] in
  tiles_ (insert_range L ts lookups_empty) = ts.
Proof.
  intros L ts.
  assert (HL : layout_ok L) by (unfold layout_ok; simpl; lia).
  assert (Hts : Forall (tile_wf L) ts).
  { repeat apply List.Forall_cons; try apply List.Forall_nil; unfold tile_wf; simpl; lia. }
  exact (proj1 (store_contents L HL ts 0 Hts)).
Defined.

Lemma store_no_duplicates_witness :
  let L := e8.lookup_1x1 in
  let ts := [Tile 1 2 0 0 1 0; Tile 0 3 1 2 2 0] in
  NoDup (lookups_at (insert_range L ts lookups_empty) (literal_key L (Tile 0 3 1 2 2 0))).
Proof.
  intros L ts.
  assert (HL : layout_ok L) by (unfold layout_ok; simpl; lia).
  assert (Hts : Forall (tile_wf L) ts).
  { repeat apply List.Forall_cons; try apply List.Forall_nil; unfold tile_wf; simpl; lia. }
  assert (Hno : Forall (no_reserved_pattern L) ts).
  { repeat apply List.Forall_cons; try apply List.Forall_nil;
      unfold no_reserved_pattern; vm_compute; lia. }
  exact (proj1 (store_no_duplicates L HL ts _ Hts Hno)).
Defined.

Lemma insert_reserved_pattern_twice_witness :
  let L := e8.lookup_1x1 in
  let t := Tile 1 2 7 0 1 0 in
  exists rest,
    lookups_at (insert L t lookups_empty) (literal_key L t) =
    lookups_at lookups_empty (literal_key L t) ++ 0%nat :: 0%nat :: rest.
Proof.
  intros L t.
  assert (HL : layout_ok L) by (unfold layout_ok; simpl; lia).
  assert (Hwf : tile_wf L t) by (unfold tile_wf; simpl; lia).
  exact (insert_reserved_pattern_twice L HL t lookups_empty Hwf eq_refl).
Defined.

(** ** piecevector.h, piecevector.cpp, main.cpp: the store of the pieces *)

Section GeneratedStore.
Variable L : layout.
Hypothesis HL : layout_ok L.

Lemma policy_tiles_length (fc : bool) (n : Z) (p : piece) :
  (1 <= length (policy_tiles L fc n p) <= 4)%nat.
Proof.
  pose proof (sorted_rotations_length L n p) as H4.
  unfold policy_tiles. cbv zeta.
  repeat match goal with
  | |- context [if ?b then _ else _] => destruct b
  end; rewrite ?length_take, ?length_drop, H4; lia.
Qed.

Lemma policy_store_length (pieces : pieceVector) :
  forall seen n,
    (length pieces <= length (policy_store L seen n pieces) <= 4 * length pieces)%nat.
Proof.
  induction pieces as [|p ps IH]; intros seen n; cbn [policy_store length]; [lia|].
  rewrite length_app.
  pose proof (policy_tiles_length (negb seen) n p).
  pose proof (IH (seen || bool_decide (is_corner p)) (n + 1)). lia.
Qed.

Lemma policy_store_elem (pieces : pieceVector) :
  forall seen n u,
    u ∈ policy_store L seen n pieces <->
    exists i p fc, pieces !! i = Some p /\ u ∈ policy_tiles L fc (n + Z.of_nat i) p /\
      fc = negb (seen || existsb (fun q => bool_decide (is_corner q)) (firstn i pieces)).
Proof.
  induction pieces as [|p ps IH]; intros seen n u; cbn [policy_store].
  - rewrite elem_of_nil. split; [tauto|]. intros (i & q & fc & Hi & _). discriminate.
  - rewrite elem_of_app, IH. split.
    + intros [Hu|(i & q & fc & Hi & Hu & Hfc)].
      * exists 0%nat, p, (negb seen). cbn. rewrite Z.add_0_r, orb_false_r. auto.
      * exists (S i), q, fc. cbn [lookup list_lookup firstn existsb]. split; [exact Hi|].
        split; [|now rewrite Hfc, orb_assoc].
        replace (n + Z.of_nat (S i)) with (n + 1 + Z.of_nat i) by lia. exact Hu.
    + intros (i & q & fc & Hi & Hu & Hfc). destruct i as [|i].
      * injection Hi as ->. left. cbn in Hfc. rewrite orb_false_r in Hfc. subst fc.
        now rewrite Z.add_0_r in Hu.
      * right. exists i, q, fc. cbn [lookup list_lookup firstn existsb] in Hi, Hfc.
        split; [exact Hi|]. split; [|now rewrite Hfc, orb_assoc].
        replace (n + 1 + Z.of_nat i) with (n + Z.of_nat (S i)) by lia. exact Hu.
Qed.

Lemma rotations_mask (n : Z) (p : piece) (u : tile) :
  u ∈ rotations L n p -> mask u = setBit 0 n.
Proof.
  unfold rotations. cbv zeta.
  destruct (chain L (piece_left p)) as [[[? ?] ?] ?], (chain L (piece_top p)) as [[[? ?] ?] ?],
    (chain L (piece_right p)) as [[[? ?] ?] ?], (chain L (piece_bottom p)) as [[[? ?] ?] ?].
  intros Hu. repeat (apply elem_of_cons in Hu as [->|Hu]; [reflexivity|]).
  now apply elem_of_nil in Hu.
Qed.

Lemma generateLookups_tiles (pieces : pieceVector) :
  Forall (piece_fits L) pieces -> Z.of_nat (length pieces) < 2 ^ 64 ->
  tiles_ (generateLookups L pieces lookups_empty) = policy_store L false 0 pieces.
Proof.
  intros Hfit Hlen. unfold generateLookups.
  rewrite (generateLookups_fold L HL pieces 0 0 lookups_empty false); auto; lia.
Qed.

(** X15: the store [generateLookups] fills holds between one and four tiles
    for each piece: every tile of it is one of the four rotations of some
    piece [i] and carries the mask with the single bit [i], and every piece
    [i] has a tile with that mask in the store; so the number of tiles is
    between the number of pieces and four times that number. *)
Theorem generated_store_pieces (pieces : pieceVector) :
  Forall (piece_fits L) pieces -> Z.of_nat (length pieces) < 2 ^ 64 ->
  let s := generateLookups L pieces lookups_empty in
  (forall u, u ∈ tiles_ s ->
     exists i p, pieces !! i = Some p /\ u ∈ rotations L (Z.of_nat i) p /\
                 mask u = 2 ^ Z.of_nat i) /\
  (forall i p, pieces !! i = Some p ->
     exists u, u ∈ tiles_ s /\ u ∈ rotations L (Z.of_nat i) p /\ mask u = 2 ^ Z.of_nat i) /\
  Z.of_nat (length pieces) <= tiles s <= 4 * Z.of_nat (length pieces).
Proof.
  intros Hfit Hlen s. unfold tiles. subst s.
  rewrite (generateLookups_tiles pieces Hfit Hlen).
  assert (Hm : forall i, setBit 0 (Z.of_nat i) = 2 ^ Z.of_nat i).
  { intros i. unfold setBit. now rewrite Z.lor_0_l, Z.shiftl_1_l. }
  split; [|split].
  - intros u Hu. apply policy_store_elem in Hu as (i & p & fc & Hi & Hu & _).
    apply policy_tiles_sub in Hu. cbn [Z.add] in Hu.
    exists i, p. split; [assumption|]. split; [assumption|].
    rewrite <- Hm. now apply rotations_mask with p.
  - intros i p Hi.
    set (fc := negb (false || existsb (fun q => bool_decide (is_corner q)) (firstn i pieces))).
    pose proof (policy_tiles_length fc (0 + Z.of_nat i) p) as Hl.
    destruct (policy_tiles L fc (0 + Z.of_nat i) p) as [|u rest] eqn:E; [cbn in Hl; lia|].
    assert (Hu : u ∈ policy_tiles L fc (0 + Z.of_nat i) p) by (rewrite E; left).
    exists u. split.
    + apply policy_store_elem. exists i, p, fc. split; [exact Hi|]. split; [exact Hu|reflexivity].
    + apply policy_tiles_sub in Hu. cbn [Z.add] in Hu.
      split; [assumption|]. rewrite <- Hm. now apply rotations_mask with p.
  - pose proof (policy_store_length pieces false 0). lia.
Qed.

Lemma insert_range_app (ts1 ts2 : list tile) (s : tileArrayLookup) :
  insert_range L (ts1 ++ ts2) s = insert_range L ts2 (insert_range L ts1 s).
Proof. unfold insert_range. apply fold_left_app. Qed.

Lemma generateLookups_store_fold (pieces : pieceVector) :
  forall (c n : Z) (s : tileArrayLookup) (seen : bool),
    Forall (piece_fits L) pieces ->
    0 <= c -> 0 <= n ->
    c + Z.of_nat (length pieces) < 2 ^ 64 -> n + Z.of_nat (length pieces) < 2 ^ 64 ->
    (0 =? c) = negb seen ->
    snd (fold_left (generateLookups_step L) pieces (c, n, s)) =
    insert_range L (policy_store L seen n pieces) s.
Proof.
  induction pieces as [|p ps IH]; intros c n s seen Hfit Hc Hn Hcl Hnl Hseen.
  - reflexivity.
  - inversion Hfit as [|? ? Hp Hps]; subst.
    cbn [fold_left policy_store length] in *.
    unfold generateLookups_step at 2.
    rewrite (piece_tiles_policy L c n p Hp).
    assert (Hwn : wrap (n + 1) = n + 1) by (unfold wrap, ENV_BITS; apply Z.mod_small; lia).
    assert (Hwc : wrap (c + 1) = c + 1) by (unfold wrap, ENV_BITS; apply Z.mod_small; lia).
    rewrite Hwn, Hwc, Hseen, insert_range_app.
    apply IH; try assumption; try lia.
    + destruct (bool_decide (is_corner p)); lia.
    + destruct (bool_decide (is_corner p)); lia.
    + destruct (bool_decide (is_corner p)).
      * rewrite orb_true_r. destruct (Z.eqb_spec 0 (c + 1)); [lia|reflexivity].
      * now rewrite orb_false_r.
Qed.

(** Every edge value of the piece is below the patterns the layout
    reserves. *)
Lemma below_reserved_fits (p : piece) :
  Forall (fun c => 0 <= c < LEFT_EDGE L /\ 0 <= c < TOP_EDGE L) (piece_edges p) ->
  piece_fits L p /\ Forall (no_reserved_pattern L) (rotations L 0 p) /\
  forall n, Forall (no_reserved_pattern L) (rotations L n p).
Proof.
  intros Hp. pose proof (LEFT_EDGE_range L HL) as Hl. pose proof (TOP_EDGE_range L HL) as Ht.
  assert (Hfit : piece_fits L p).
  { unfold piece_fits. eapply List.Forall_impl; [|exact Hp]. cbv beta. intros c Hc. lia. }
  assert (Hn : forall n, Forall (no_reserved_pattern L) (rotations L n p)).
  { intros n. rewrite (rotations_fits L n p Hfit).
    unfold piece_edges in Hp.
    inversion Hp as [|? ? H1 Hp1]; subst. inversion Hp1 as [|? ? H2 Hp2]; subst.
    inversion Hp2 as [|? ? H3 Hp3]; subst. inversion Hp3 as [|? ? H4 _]; subst.
    repeat apply List.Forall_cons; try apply List.Forall_nil;
      unfold no_reserved_pattern; cbn [val_left val_top]; lia. }
  split; [assumption|]. split; [apply Hn|assumption].
Qed.

Lemma generated_no_duplicates (pieces : pieceVector) (k : Z) :
  Forall (fun p => Forall (fun c => 0 <= c < LEFT_EDGE L /\ 0 <= c < TOP_EDGE L)
                     (piece_edges p)) pieces ->
  Z.of_nat (length pieces) < 2 ^ 64 ->
  Forall (piece_fits L) pieces /\
  StronglySorted lt (lookups_at (generateLookups L pieces lookups_empty) k).
Proof.
  intros Hp Hlen.
  assert (Hfit : Forall (piece_fits L) pieces).
  { eapply List.Forall_impl; [|exact Hp]. intros p H. now apply below_reserved_fits. }
  split; [assumption|].
  unfold generateLookups.
  rewrite (generateLookups_store_fold pieces 0 0 lookups_empty false); auto; try lia.
  assert (Hall : forall u, u ∈ policy_store L false 0 pieces ->
                   tile_wf L u /\ no_reserved_pattern L u).
  { intros u Hu. apply policy_store_elem in Hu as (i & p & fc & Hi & Hu & _).
    apply policy_tiles_sub in Hu.
    rewrite List.Forall_forall in Hp, Hfit.
    assert (Hin : In p pieces) by (apply list_elem_of_In; eapply list_elem_of_lookup_2; eauto).
    destruct (below_reserved_fits p (Hp p Hin)) as (_ & _ & Hn).
    pose proof (rotations_wf L (0 + Z.of_nat i) p (Hfit p Hin)) as Hw.
    specialize (Hn (0 + Z.of_nat i)).
    rewrite List.Forall_forall in Hn, Hw. apply list_elem_of_In in Hu. auto. }
  destruct (insert_range_spec L HL (policy_store L false 0 pieces) lookups_empty) as [_ E].
  { apply Forall_forall. intros u Hu. now apply Hall. }
  rewrite E. change (lookups_at lookups_empty k) with (@nil nat). cbn [app].
  apply filed_entries_strict; [assumption| |]; apply Forall_forall; intros u Hu; now apply Hall.
Qed.
End GeneratedStore.

Lemma generated_store_pieces_witness :
  Z.of_nat (length test_pieces) <= tiles (generateLookups e8.lookup_1x1 test_pieces lookups_empty)
    <= 4 * Z.of_nat (length test_pieces).
Proof.
  refine (proj2 (proj2 (generated_store_pieces e8.lookup_1x1 _ test_pieces _ _))).
  - unfold layout_ok. simpl. lia.
  - repeat apply List.Forall_cons; try apply List.Forall_nil; unfold piece_fits;
      repeat apply List.Forall_cons; try apply List.Forall_nil; simpl; lia.
  - simpl. lia.
Defined.

(** ** main.cpp, solver.h: what the driver's choices guarantee *)

Lemma class_layout_ok (E : edge_class) : layout_ok (lookup_1x1_of E).
Proof. destruct E; unfold layout_ok; simpl; lia. Qed.

Lemma class_reserved (E : edge_class) :
  LEFT_EDGE (lookup_1x1_of E) = class_edges E - 1 /\
  TOP_EDGE (lookup_1x1_of E) = class_edges E - 1.
Proof. destruct E; split; reflexivity. Qed.

Lemma highest_edge_bounds (pieces : pieceVector) (b : Z) :
  0 < b -> Forall (fun c => 0 <= c < b) (all_edges pieces) ->
  0 <= highest_edge pieces < b /\ Forall (fun c => c <= highest_edge pieces) (all_edges pieces).
Proof.
  intros Hb Hall. rewrite highest_edge_fold.
  pose proof (fold_max_ge (all_edges pieces) 0) as Hge.
  split; [|apply fold_max_upper].
  destruct (fold_max_attained (all_edges pieces) 0) as [-> | Hin]; [lia|].
  rewrite Forall_forall in Hall. specialize (Hall _ Hin). lia.
Qed.

Lemma main_dispatch_class (pieces : pieceVector) (M : mask_class) (E : edge_class) :
  main_dispatch pieces = Solves M E ->
  solve_for_mask M pieces = Solves M E /\
  Z.of_nat (length pieces) <= 64 * Z.of_nat (mask_words M).
Proof.
  unfold main_dispatch. cbv zeta.
  repeat match goal with
  | |- context [if ?x <=? ?y then _ else _] => destruct (Z.leb_spec x y)
  end; try discriminate; intros Hd;
  assert (HM : exists E', Solves M E = Solves M E') by eauto;
  rewrite <- Hd in HM; destruct HM as [E' HM]; unfold solve_for_mask in HM; cbv zeta in HM;
  repeat match type of HM with
  | context [if ?b then _ else _] => destruct b
  end; try discriminate; injection HM as <- _; (split; [exact Hd|cbn; lia]).
Qed.

Lemma solve_for_mask_class (pieces : pieceVector) (M : mask_class) (E : edge_class) :
  solve_for_mask M pieces = Solves M E -> edges_count pieces < class_edges E.
Proof.
  unfold solve_for_mask. cbv zeta.
  repeat match goal with
  | |- context [if ?x <? ?y then _ else _] => destruct (Z.ltb_spec x y)
  end; intros [= <-]; cbn; lia.
Qed.

(** X16: when the driver solves with an edge class, every edge value of the
    pieces is below the pattern the class reserves for "any pattern but
    zero" (no edge value being [2^64 - 1]): the pieces fit the 1x1 layout of
    the class untruncated, and no array of the store generated from them
    holds the same tile pointer twice (two tiles of the store may still be
    equal in every field). *)
Theorem driver_store_no_duplicates (pieces : pieceVector) (M : mask_class) (E : edge_class) (k : Z) :
  Forall (fun c => 0 <= c < 2 ^ 64 - 1) (all_edges pieces) ->
  main_dispatch pieces = Solves M E ->
  Forall (piece_fits (lookup_1x1_of E)) pieces /\
  Forall (fun c => c < LEFT_EDGE (lookup_1x1_of E)) (all_edges pieces) /\
  NoDup (lookups_at (generateLookups (lookup_1x1_of E) pieces lookups_empty) k).
Proof.
  intros Hall Hd. apply main_dispatch_class in Hd as [Hs Hlen].
  apply solve_for_mask_class in Hs.
  destruct (highest_edge_bounds pieces (2 ^ 64 - 1) ltac:(lia) Hall) as [Hh Hup].
  assert (Hc : edges_count pieces = highest_edge pieces + 1).
  { unfold edges_count, wrap, ENV_BITS. apply Z.mod_small. lia. }
  destruct (class_reserved E) as [HLE HTE].
  assert (Hlow : Forall (fun c => 0 <= c < class_edges E - 1) (all_edges pieces)).
  { rewrite Forall_forall in Hall, Hup |- *. intros c Hin.
    specialize (Hall c Hin). specialize (Hup c Hin). cbv beta in Hup. lia. }
  assert (Hp : Forall (fun p => Forall (fun c => 0 <= c < LEFT_EDGE (lookup_1x1_of E) /\
                                                 0 <= c < TOP_EDGE (lookup_1x1_of E))
                                  (piece_edges p)) pieces).
  { rewrite HLE, HTE. apply List.Forall_forall. intros p Hin. apply List.Forall_forall.
    intros c Hc'. rewrite Forall_forall in Hlow.
    assert (c ∈ all_edges pieces).
    { apply list_elem_of_In. unfold all_edges. apply in_flat_map. eauto. }
    specialize (Hlow c H). lia. }
  assert (Hn : Z.of_nat (length pieces) < 2 ^ 64) by (destruct M; cbn in Hlen; lia).
  destruct (generated_no_duplicates (lookup_1x1_of E) (class_layout_ok E) pieces k Hp Hn)
    as [Hfit Hsorted].
  split; [assumption|]. split.
  - rewrite HLE. eapply Forall_impl; [exact Hlow|]. cbv beta. intros; lia.
  - induction Hsorted as [|q l _ IH Hq]; constructor; [|assumption].
    intros Hin. rewrite List.Forall_forall in Hq. apply list_elem_of_In in Hin.
    specialize (Hq q Hin). lia.
Qed.

Lemma driver_store_no_duplicates_witness :
  NoDup (lookups_at (generateLookups (lookup_1x1_of edges_8) test_pieces lookups_empty) 0).
Proof.
  refine (proj2 (proj2 (driver_store_no_duplicates test_pieces mask_32 edges_8 0 _ _))).
  - simpl. repeat apply List.Forall_cons; try apply List.Forall_nil; cbv beta; lia.
  - reflexivity.
Defined.

(** X17: [edges_count()] adds one to the highest edge value in the word type,
    so with an edge value of [2^64 - 1] it returns 0; the driver then solves
    with the 8 edge class, whose layout the piece does not fit. *)
Theorem edges_count_wraps (pieces : pieceVector) (M : mask_class) :
  pieces_wf pieces -> 2 ^ 64 - 1 ∈ all_edges pieces ->
  edges_count pieces = 0 /\ solve_for_mask M pieces = Solves M edges_8 /\
  ~ Forall (piece_fits (lookup_1x1_of edges_8)) pieces.
Proof.
  intros Hwf Hin.
  assert (Hmax : is_max_edge pieces (2 ^ 64 - 1)).
  { split; [assumption|]. unfold pieces_wf in Hwf.
    eapply Forall_impl; [exact Hwf|]. unfold is_word, ENV_BITS. cbv beta. intros; lia. }
  assert (Hc : edges_count pieces = 0).
  { unfold edges_count. rewrite (highest_edge_max _ _ Hwf Hmax). reflexivity. }
  split; [assumption|]. split.
  - unfold solve_for_mask. rewrite Hc. reflexivity.
  - intros Hfit. apply list_elem_of_In in Hin. unfold all_edges in Hin.
    apply in_flat_map in Hin as (p & Hp & Hc').
    rewrite List.Forall_forall in Hfit. specialize (Hfit p Hp).
    unfold piece_fits in Hfit. rewrite List.Forall_forall in Hfit.
    specialize (Hfit _ Hc'). cbn in Hfit. lia.
Qed.

Lemma edges_count_wraps_witness :
  edges_count [Piece (2 ^ 64 - 1) 0 0 0] = 0 /\
  solve_for_mask mask_32 [Piece (2 ^ 64 - 1) 0 0 0] = Solves mask_32 edges_8.
Proof.
  assert (Hwf : pieces_wf [Piece (2 ^ 64 - 1) 0 0 0]).
  { unfold pieces_wf; simpl; repeat apply List.Forall_cons; try apply List.Forall_nil;
    unfold is_word, ENV_BITS; lia. }
  assert (Hin : 2 ^ 64 - 1 ∈ all_edges [Piece (2 ^ 64 - 1) 0 0 0]) by (simpl; left).
  destruct (edges_count_wraps [Piece (2 ^ 64 - 1) 0 0 0] mask_32 Hwf Hin) as (H1 & H2 & _).
  exact (conj H1 H2).
Defined.

(** X18: the mask the driver picks has room for every piece: with [N]
    pieces and the mask class [M], [N <= 64 * words of M], so for every piece
    number [i < N] the [setBit( i )] of [generateLookups] stays inside the
    words of the mask and yields the mask with the single bit [i]. *)
Theorem mask_fits_pieces (pieces : pieceVector) (M : mask_class) (E : edge_class) (i : nat) :
  main_dispatch pieces = Solves M E -> (i < length pieces)%nat ->
  Z.of_nat (length pieces) <= 64 * Z.of_nat (mask_words M) /\
  exists bits,
    bitwiseMask.setBit (bitwiseMask.zero (mask_words M)) (Z.of_nat i) = Some bits /\
    length bits = mask_words M /\
    bitwiseMask.bm_value bits = 2 ^ Z.of_nat i.
Proof.
  intros Hd Hi. apply main_dispatch_class in Hd as [_ Hlen]. split; [exact Hlen|].
  assert (Hz : Forall is_word (bitwiseMask.zero (mask_words M))).
  { unfold bitwiseMask.zero. apply Forall_replicate. unfold is_word, ENV_BITS. lia. }
  assert (Hl : length (bitwiseMask.zero (mask_words M)) = mask_words M)
    by apply length_replicate.
  assert (Hv : bitwiseMask.bm_value (bitwiseMask.zero (mask_words M)) = 0).
  { destruct M; reflexivity. }
  assert (Hb : 0 <= Z.of_nat i < 2 ^ 64) by (destruct M; cbn in Hlen; lia).
  assert (Hlt : Z.of_nat i < 64 * Z.of_nat (length (bitwiseMask.zero (mask_words M))))
    by (rewrite Hl; lia).
  destruct (setBit_words _ _ Hz Hb Hlt) as (bits & E1 & E2 & _ & E4).
  exists bits. split; [exact E1|]. split; [now rewrite E2|].
  rewrite E4, Hv. unfold setBit. now rewrite Z.lor_0_l, Z.shiftl_1_l.
Qed.

Lemma mask_fits_pieces_witness :
  exists bits,
    bitwiseMask.setBit (bitwiseMask.zero (mask_words mask_32)) (Z.of_nat 15) = Some bits /\
    length bits = mask_words mask_32 /\
    bitwiseMask.bm_value bits = 2 ^ Z.of_nat 15.
Proof.
  refine (proj2 (mask_fits_pieces test_pieces mask_32 edges_8 15 _ _)).
  - reflexivity.
  - simpl. lia.
Defined.

(** ** tilearraylookup.h: [randomize()] *)

Lemma assign_random_length (draws : list Z) (ts : list tile) :
  length (assign_random draws ts) = length ts.
Proof.
  revert draws. induction ts as [|t ts IH]; intros [|r draws]; cbn [assign_random length];
    try reflexivity. now rewrite IH.
Qed.

Lemma assign_random_drawn (draws : list Z) (ts : list tile) (q : nat) (u : tile) (r : Z) :
  ts !! q = Some u -> draws !! q = Some r ->
  assign_random draws ts !! q =
  Some (Tile (val_right u) (val_bottom u) (val_left u) (val_top u) (mask u) r).
Proof.
  revert draws q. induction ts as [|t ts IH]; intros [|d draws] [|q] Hu Hr; try discriminate.
  - injection Hu as ->. injection Hr as ->. reflexivity.
  - cbn [assign_random]. apply IH; assumption.
Qed.

(** X19: [randomize()] gives the tiles the numbers drawn, in the order of
    [tiles_], and changes nothing else of them; every array keeps the
    pointers it held and ends up in non-decreasing order of the tiles'
    numbers; every pointer still points to a tile that may be found under
    the array's lookup value, and a store in which every tile can be found
    under each of its lookup values stays so. *)
Theorem randomize_keeps_store (L : layout) (draws : list Z) (s : tileArrayLookup) (k : Z) :
  store_inv L s ->
  let s' := randomize draws s in
  tiles s' = tiles s /\
  (forall q u r, tiles_ s !! q = Some u -> draws !! q = Some r ->
     tiles_ s' !! q =
     Some (Tile (val_right u) (val_bottom u) (val_left u) (val_top u) (mask u) r)) /\
  lookups_at s' k ≡ₚ lookups_at s k /\
  StronglySorted (fun t t' => random (tile_of s' t) <= random (tile_of s' t'))
    (lookups_at s' k) /\
  store_inv L s' /\
  (store_complete L s -> store_complete L s').
Proof.
  intros Hs s'. split; [|split; [|split; [|split; [|split]]]].
  - unfold tiles, s', randomize, randomize_arrays. cbn [tiles_].
    now rewrite assign_random_length.
  - intros q u r Hu Hr. unfold s', randomize, randomize_arrays. cbn [tiles_].
    now apply assign_random_drawn.
  - apply randomize_perm.
  - apply randomize_sorted.
  - now apply store_inv_randomize.
  - subst s'. intros Hall q u' k' Hu' Hk'.
    assert (Hq : (q < length (tiles_ s))%nat).
    { apply lookup_lt_Some in Hu'. unfold randomize, randomize_arrays in Hu'.
      cbn [tiles_] in Hu'. now rewrite assign_random_length in Hu'. }
    destruct (lookup_lt_is_Some_2 _ _ Hq) as [u Hu].
    destruct (assign_random_lookup draws _ _ _ Hu) as (r & Hr).
    unfold randomize, randomize_arrays in Hu'. cbn [tiles_] in Hu'.
    rewrite Hr in Hu'. injection Hu' as <-.
    rewrite randomize_perm. apply (Hall q u k' Hu). exact Hk'.
Qed.

Lemma randomize_keeps_store_witness :
  let L := e8.lookup_1x1 in
  let s := insert_range L [Tile 1 2 0 0 1 0; Tile 1 3 0 0 2 0] lookups_empty in
  lookups_at (randomize [9; 4] s) (literal_key L (Tile 1 2 0 0 1 0)) ≡ₚ
  lookups_at s (literal_key L (Tile 1 2 0 0 1 0)).
Proof.
  intros L s.
  assert (HL : layout_ok L) by (unfold layout_ok; simpl; lia).
  assert (Hs : store_inv L s).
  { apply store_inv_insert_range; [exact HL| |apply store_inv_empty].
    repeat apply List.Forall_cons; try apply List.Forall_nil; unfold tile_wf; simpl; lia. }
  exact (proj1 (proj2 (proj2 (randomize_keeps_store L [9; 4] s _ Hs)))).
Defined.

(** ** placement.h: [place] *)

Lemma deref_wp (ps : list placement) (b : board) (i : nat) :
  deref (with_placements ps b) (PCell (self b) i) = ps !! i.
Proof. unfold deref. cbn [self with_placements placements_]. now rewrite Nat.eqb_refl. Qed.

Lemma assign_wp (ps : list placement) (b : board) (i : nat) (v : placement) :
  (i < length ps)%nat ->
  assign (with_placements ps b) (PCell (self b) i) v =
  Some (with_placements (<[i := v]> ps) b).
Proof.
  intros Hi. unfold assign. cbn [self with_placements placements_].
  rewrite Nat.eqb_refl, (proj2 (Nat.ltb_lt _ _) Hi). reflexivity.
Qed.

Section PlaceFrame.
Variable L : layout.
Hypothesis HL : layout_ok L.

(** X20: [place( t )] on a placement whose right and bottom neighbours are
    two other placements of the board: the placement takes the tile pointer
    and returns its [next]; the lookup of the right neighbour gets the
    right pattern of the tile as its left pattern, the lookup of the bottom
    neighbour the bottom pattern of the tile as its top pattern, and their
    other fields stay; no other placement changes. *)
Theorem place_neighbours (t : nat) (tl : tile) (b : board) (i r bt : nat)
    (c cr cb : placement) :
  tile_wf L tl ->
  placements_ b !! i = Some c -> placements_ b !! r = Some cr ->
  placements_ b !! bt = Some cb ->
  pl_right c = PCell (self b) r -> pl_bottom c = PCell (self b) bt ->
  i <> r -> i <> bt -> r <> bt ->
  exists b' kr kb,
    place L t tl (PCell (self b) i) b = Some (pl_next c, b') /\
    placements_ b' !! i = Some (with_tile (Some t) c) /\
    placements_ b' !! r = Some (with_lookup kr cr) /\
    placements_ b' !! bt = Some (with_lookup kb cb) /\
    (forall j, j <> i -> j <> r -> j <> bt -> placements_ b' !! j = placements_ b !! j) /\
    junk_ b' = junk_ b /\ solutions_ b' = solutions_ b /\
    lk_left L kr = val_right tl /\ lk_top L kr = lk_top L (pl_lookup cr) /\
    lk_right L kr = lk_right L (pl_lookup cr) /\ lk_bottom L kr = lk_bottom L (pl_lookup cr) /\
    lk_top L kb = val_bottom tl /\ lk_left L kb = lk_left L (pl_lookup cb) /\
    lk_right L kb = lk_right L (pl_lookup cb) /\ lk_bottom L kb = lk_bottom L (pl_lookup cb).
Proof.
  intros Hwf Hc Hcr Hcb Hr Hb Hir Hib Hrb.
  pose proof (lookup_lt_Some _ _ _ Hc) as Hi.
  pose proof (lookup_lt_Some _ _ _ Hcr) as Hri.
  pose proof (lookup_lt_Some _ _ _ Hcb) as Hbi.
  set (kr := Z.lor (Z.land (pl_lookup cr) (MASK_LEFT_EDGE_INV L))
                   (Z.land (MASK_LEFT_EDGE L) (tile_lookup L tl))).
  set (kb := Z.lor (Z.land (pl_lookup cb) (MASK_TOP_EDGE_INV L))
                   (Z.land (MASK_TOP_EDGE L) (tile_lookup L tl))).
  set (ps1 := <[i := with_tile (Some t) c]> (placements_ b)).
  set (ps2 := <[r := with_lookup kr cr]> ps1).
  set (ps3 := <[bt := with_lookup kb cb]> ps2).
  exists (with_placements ps3 b), kr, kb.
  destruct (place_left_update L HL (pl_lookup cr) tl Hwf) as (A1 & A2 & A3 & A4).
  destruct (place_top_update L HL (pl_lookup cb) tl Hwf) as (B1 & B2 & B3 & B4).
  fold kr in A1, A2, A3, A4. fold kb in B1, B2, B3, B4.
  assert (E1 : ps1 !! i = Some (with_tile (Some t) c))
    by (apply list_lookup_insert_eq; exact Hi).
  assert (L1 : length ps1 = length (placements_ b)) by apply length_insert.
  assert (L2 : length ps2 = length (placements_ b))
    by (unfold ps2; now rewrite length_insert).
  assert (E1r : ps1 !! r = Some cr)
    by (unfold ps1; now rewrite list_lookup_insert_ne by congruence).
  assert (E2i : ps2 !! i = Some (with_tile (Some t) c))
    by (unfold ps2; now rewrite list_lookup_insert_ne by congruence).
  assert (E2b : ps2 !! bt = Some cb)
    by (unfold ps2, ps1; now rewrite !list_lookup_insert_ne by congruence).
  assert (E3i : ps3 !! i = Some (with_tile (Some t) c))
    by (unfold ps3; now rewrite list_lookup_insert_ne by congruence).
  split.
  - unfold place.
    rewrite deref_cell, Hc. cbn [mbind option_bind].
    rewrite assign_cell by exact Hi. cbn [mbind option_bind]. fold ps1.
    rewrite deref_wp, E1. cbn [mbind option_bind pl_right pl_bottom pl_next with_tile].
    rewrite Hr, deref_wp, E1r. cbn [mbind option_bind]. fold kr.
    rewrite assign_wp by lia. cbn [mbind option_bind]. fold ps2.
    rewrite deref_wp, E2i. cbn [mbind option_bind pl_right pl_bottom pl_next with_tile].
    rewrite Hb, deref_wp, E2b. cbn [mbind option_bind]. fold kb.
    rewrite assign_wp by lia. cbn [mbind option_bind]. fold ps3.
    rewrite deref_wp, E3i. cbn [mbind option_bind pl_next with_tile]. reflexivity.
  - cbn [placements_ with_placements junk_ solutions_].
    split; [exact E3i|].
    split; [unfold ps3, ps2; rewrite list_lookup_insert_ne by congruence;
            apply list_lookup_insert_eq; lia|].
    split; [unfold ps3; apply list_lookup_insert_eq; lia|].
    split; [intros j H1 H2 H3; unfold ps3, ps2, ps1;
            now rewrite !list_lookup_insert_ne by congruence|].
    repeat split; assumption.
Qed.
End PlaceFrame.

Lemma place_neighbours_witness :
  let L := e8.lookup_1x1 in
  let c0 := Placement 0 None PNull PNull (PCell 0 1) (PCell 0 2) PNull PNull in
  let b := Board 0 3 1 0 false false false [c0; placement_zero; placement_zero]
             placement_zero in
  exists b' kr kb,
    place L 0 (Tile 3 4 1 2 1 0) (PCell 0 0) b = Some (PNull, b') /\
    placements_ b' !! 1%nat = Some (with_lookup kr placement_zero) /\
    placements_ b' !! 2%nat = Some (with_lookup kb placement_zero) /\
    lk_left L kr = 3 /\ lk_top L kb = 4.
Proof.
  intros L c0 b.
  assert (HL : layout_ok L) by (unfold layout_ok; simpl; lia).
  assert (Hwf : tile_wf L (Tile 3 4 1 2 1 0)) by (unfold tile_wf; simpl; lia).
  destruct (place_neighbours L HL 0 (Tile 3 4 1 2 1 0) b 0 1 2 c0 placement_zero placement_zero
              Hwf eq_refl eq_refl eq_refl eq_refl eq_refl
              ltac:(lia) ltac:(lia) ltac:(lia))
    as (b' & kr & kb & H1 & _ & H3 & H4 & _ & _ & _ & H8 & _ & _ & _ & H12 & _).
  exists b', kr, kb. auto.
Defined.

(** ** board.h: the cells of a board *)

Section BoardFacts.
Variable L : layout.
Hypothesis HL : layout_ok L.

(** X21: in a new [w] by [h] board every placement holds no tile; the
    placement at [(x, y)] is the element [x * h + y]; its right and left,
    and its bottom and top, neighbours point back at each other, the
    pointers over the rim go to the junk placement of the board; and [next]
    leads from each element to the one after it and is null at the last,
    with [prev] its inverse, so following [next] from the first placement
    passes every placement once, column by column. *)
Theorem board_new_links (addr w h x y : nat) :
  (x < w)%nat -> (y < h)%nat ->
  let b := board_new L addr w h in
  let i := at_index h x y in
  length (placements_ b) = (w * h)%nat /\
  exists c, deref b (at_ptr b x y) = Some c /\ placements_ b !! i = Some c /\
    pl_tile c = None /\
    (if (x + 1 <? w)%nat
     then exists cr, deref b (pl_right c) = Some cr /\ pl_right c = at_ptr b (x + 1) y /\
                     pl_left cr = at_ptr b x y
     else pl_right c = PJunk addr) /\
    (if (y + 1 <? h)%nat
     then exists cb, deref b (pl_bottom c) = Some cb /\ pl_bottom c = at_ptr b x (y + 1) /\
                     pl_top cb = at_ptr b x y
     else pl_bottom c = PJunk addr) /\
    (x = 0%nat -> pl_left c = PJunk addr) /\ (y = 0%nat -> pl_top c = PJunk addr) /\
    (if (i + 1 <? w * h)%nat
     then exists cn, deref b (pl_next c) = Some cn /\ pl_next c = PCell addr (i + 1) /\
                     pl_prev cn = PCell addr i
     else pl_next c = PNull) /\
    (i = 0%nat -> pl_prev c = PNull).
Proof.
  intros Hx Hy b i.
  destruct (fresh_board_fields L addr w h 0 false false false [] placement_zero)
    as (Hself & _ & Hh & _ & _ & _ & _ & _ & Hlen).
  fold (board_new L addr w h) in Hself, Hh, Hlen. fold b in Hself, Hh, Hlen.
  assert (Hcell : forall x' y', (x' < w)%nat -> (y' < h)%nat ->
            deref b (at_ptr b x' y') = Some (fresh_cell L addr w h x' y') /\
            placements_ b !! at_index h x' y' = Some (fresh_cell L addr w h x' y') /\
            at_ptr b x' y' = PCell addr (at_index h x' y')).
  { intros x' y' Hx' Hy'. unfold at_ptr. rewrite Hh, deref_cell, Hself.
    pose proof (board_new_cell L HL addr w h x' y' Hx' Hy') as E. fold b in E. auto. }
  split; [exact Hlen|].
  destruct (Hcell x y Hx Hy) as (Hd & Hp & Hat).
  exists (fresh_cell L addr w h x y). split; [exact Hd|]. split; [exact Hp|].
  split; [reflexivity|].
  pose proof (at_index_lt w h x y Hx Hy) as Hi. fold i in Hi.
  cbn [fresh_cell pl_right pl_bottom pl_left pl_top pl_next pl_prev].
  split; [|split; [|split; [|split; [|split]]]].
  - destruct (Nat.ltb_spec (x + 1) w) as [H1|H1].
    + rewrite (proj2 (Nat.ltb_lt x (w - 1)) ltac:(lia)).
      destruct (Hcell (x + 1)%nat y H1 Hy) as (Hd' & _ & Hat').
      exists (fresh_cell L addr w h (x + 1) y).
      rewrite <- Hat'. split; [exact Hd'|]. split; [reflexivity|].
      cbn [fresh_cell pl_left]. rewrite (proj2 (Nat.ltb_lt 0 (x + 1)) ltac:(lia)).
      rewrite Hat. now replace (x + 1 - 1)%nat with x by lia.
    + now rewrite (proj2 (Nat.ltb_ge x (w - 1)) ltac:(lia)).
  - destruct (Nat.ltb_spec (y + 1) h) as [H1|H1].
    + rewrite (proj2 (Nat.ltb_lt y (h - 1)) ltac:(lia)).
      destruct (Hcell x (y + 1)%nat Hx H1) as (Hd' & _ & Hat').
      exists (fresh_cell L addr w h x (y + 1)).
      rewrite <- Hat'. split; [exact Hd'|]. split; [reflexivity|].
      cbn [fresh_cell pl_top]. rewrite (proj2 (Nat.ltb_lt 0 (y + 1)) ltac:(lia)).
      rewrite Hat. now replace (y + 1 - 1)%nat with y by lia.
    + now rewrite (proj2 (Nat.ltb_ge y (h - 1)) ltac:(lia)).
  - now intros ->.
  - now intros ->.
  - fold i. destruct (Nat.ltb_spec (i + 1) (w * h)) as [H1|H1].
    + rewrite (proj2 (Nat.ltb_lt i (w * h - 1)) ltac:(lia)).
      destruct (index_coords w h (i + 1) H1) as (x' & y' & Hx' & Hy' & Ei).
      destruct (Hcell x' y' Hx' Hy') as (Hd' & _ & Hat').
      exists (fresh_cell L addr w h x' y'). rewrite Ei, <- Hat'.
      split; [exact Hd'|]. split; [reflexivity|].
      cbn [fresh_cell pl_prev]. rewrite <- Ei.
      rewrite (proj2 (Nat.ltb_lt 0 (i + 1)) ltac:(lia)).
      now replace (i + 1 - 1)%nat with i by lia.
    + now rewrite (proj2 (Nat.ltb_ge i (w * h - 1)) ltac:(lia)).
  - fold i. now intros ->.
Qed.

(** X22: [setType] assigns all four fields of every lookup, so of several
    calls only the last one counts; afterwards the left (top) pattern of a
    placement in the first column (row) is zero when the type has the left
    (top) border and the pattern with all bits set otherwise, and every other
    placement has the pattern with all bits set; the right (bottom) flag is
    clear in the last column (row) when the type has the right (bottom)
    border, and set everywhere else. *)
Theorem setType_last_wins (v v' : type) (b : board) :
  length (placements_ b) = (width_ b * height_ b)%nat ->
  setType L v (setType L v' b) = setType L v b /\
  forall x y, (x < width_ b)%nat -> (y < height_ b)%nat ->
    exists c,
      placements_ (setType L v b) !! at_index (height_ b) x y = Some c /\
      lk_left L (pl_lookup c) =
        (if Nat.eqb 0 x && has_border _LEFT_BORDER v then 0 else LEFT_EDGE L) /\
      lk_top L (pl_lookup c) =
        (if Nat.eqb 0 y && has_border _TOP_BORDER v then 0 else TOP_EDGE L) /\
      lk_right L (pl_lookup c) =
        (if Nat.eqb x (width_ b - 1) && has_border _RIGHT_BORDER v then 0 else 1) /\
      lk_bottom L (pl_lookup c) =
        (if Nat.eqb y (height_ b - 1) && has_border _BOTTOM_BORDER v then 0 else 1).
Proof.
  intros Hlen. split.
  - assert (E : placements_ (setType L v (setType L v' b)) = placements_ (setType L v b)).
    { apply list_eq. intros i.
      destruct (Nat.lt_ge_cases i (width_ b * height_ b)) as [Hi|Hi].
      - destruct (index_coords _ _ i Hi) as (x & y & Hx & Hy & ->).
        pose proof (setType_cell L v (setType L v' b) x y) as E2.
        destruct (setType_fields L v' b) as (_ & Hw & Hh & _).
        rewrite Hw, Hh in E2. rewrite (E2 Hx Hy).
        rewrite !(setType_cell L _ b x y Hx Hy).
        destruct (placements_ b !! at_index (height_ b) x y) as [c|]; [|reflexivity].
        cbn [fmap option_fmap option_map with_lookup pl_lookup].
        now rewrite (set_type_fields_twice L HL).
      - rewrite !lookup_ge_None_2; [reflexivity| |].
        + destruct (setType_fields L v b) as (_ & _ & _ & _ & _ & _ & _ & _ & ->). lia.
        + destruct (setType_fields L v (setType L v' b)) as (_ & _ & _ & _ & _ & _ & _ & _ & ->).
          destruct (setType_fields L v' b) as (_ & _ & _ & _ & _ & _ & _ & _ & ->). lia. }
    unfold setType in *. cbn [placements_ with_placements] in E.
    cbn [width_ height_ with_placements] in *. unfold with_placements.
    cbn [self width_ height_ solutions_ print_ quit_ threaded_ junk_ placements_].
    f_equal. exact E.
  - intros x y Hx Hy. rewrite (setType_cell L v b x y Hx Hy).
    destruct (lookup_lt_is_Some_2 (placements_ b) (at_index (height_ b) x y)) as [c Hc].
    { rewrite Hlen. now apply at_index_lt. }
    rewrite Hc. eexists. split; [reflexivity|].
    cbn [pl_lookup with_lookup]. apply (set_type_fields_read L HL).
Qed.
End BoardFacts.

Lemma board_new_links_witness :
  let b := board_new e8.lookup_1x1 0 2 2 in
  length (placements_ b) = 4%nat /\
  exists c, deref b (at_ptr b 0 1) = Some c /\ pl_right c = PCell 0 3 /\
            pl_bottom c = PJunk 0 /\ pl_next c = PCell 0 2.
Proof.
  intros b.
  assert (HL : layout_ok e8.lookup_1x1) by (unfold layout_ok; simpl; lia).
  destruct (board_new_links e8.lookup_1x1 HL 0 2 2 0 1 ltac:(lia) ltac:(lia))
    as (Hlen & c & Hd & _ & _ & Hr & Hb & _ & _ & Hn & _).
  cbn in Hr, Hb, Hn.
  destruct Hr as (cr & _ & Hr & _). destruct Hn as (cn & _ & Hn & _).
  split; [exact Hlen|]. exists c. auto.
Defined.

Lemma setType_last_wins_witness :
  let L := e8.lookup_1x1 in
  setType L typeMiddle (setType L typeTopEdge (board_new L 0 1 2)) =
  setType L typeMiddle (board_new L 0 1 2).
Proof.
  intros L.
  assert (HL : layout_ok L) by (unfold layout_ok; simpl; lia).
  refine (proj1 (setType_last_wins L HL typeMiddle typeTopEdge (board_new L 0 1 2) _)).
  reflexivity.
Defined.

(** ** main.cpp: the stores filled and the boards solved *)

Section TilePlanFacts.
Variables (w h u : Z).
Hypothesis Hw : 2 <= w.
Hypothesis Hh : 2 <= h.

Ltac plan_flags :=
  unfold store_filled, need_64, need_32, need_16, need_8, need_4, need_2, square in *;
  repeat match goal with
  | H : _ && _ = true |- _ => apply andb_true_iff in H; destruct H
  | H : negb _ = true |- _ => apply negb_true_iff in H
  | H : (_ <=? _) = true |- _ => apply Z.leb_le in H
  | H : (_ =? _) = true |- _ => apply Z.eqb_eq in H
  | H : (_ =? _) = false |- _ => apply Z.eqb_neq in H
  end.

Lemma exact_div (n k : Z) : 0 < k -> 0 = n mod k -> n / k * k = n.
Proof. intros Hk Hm. pose proof (Z.div_mod n k ltac:(lia)). lia. Qed.

Lemma mod_weaken (n k : Z) : 0 < k -> 0 = n mod (2 * k) -> 0 = n mod k.
Proof.
  intros Hk Hm. symmetry. apply Z.mod_divide; [lia|].
  exists (2 * (n / (2 * k))). pose proof (Z.div_mod n (2 * k) ltac:(lia)). lia.
Qed.

Lemma mod_weaken_eq (n : Z) : n mod 8 = 0 -> n mod 4 = 0.
Proof.
  intros H. symmetry. apply (mod_weaken n 4); [lia|]. change (2 * 4) with 8. lia.
Qed.

Lemma store_filled_dims (sz : tile_size) :
  store_filled w h u sz = true -> sz <> size_1x1 ->
  (if tile_h sz <? tile_w sz
   then len_max w h mod tile_w sz = 0 /\ len_min w h mod tile_h sz = 0 /\
        2 * tile_w sz <= len_max w h /\ 2 * tile_h sz <= len_min w h /\
        len_max w h <> len_min w h
   else len_min w h mod tile_w sz = 0 /\ len_max w h mod tile_h sz = 0 /\
        2 * tile_w sz <= len_min w h /\ 2 * tile_h sz <= len_max w h).
Proof.
  intros Hf Hne.
  assert (Hmin : 2 <= len_min w h) by (unfold len_min; lia).
  assert (Hle : len_min w h <= len_max w h) by (unfold len_min, len_max; lia).
  destruct sz; try congruence; cbn [tile_w tile_h Z.ltb Z.compare Z.mul Pos.mul Pos.compare
    Pos.compare_cont] in *; plan_flags;
  repeat match goal with
  | H : 0 = _ mod 8 |- _ => pose proof (mod_weaken _ 4 ltac:(lia) H); revert H
  end; intros;
  repeat split; try lia; try (symmetry; assumption);
  try apply Z.mod_1_r.
Qed.

(** X24: a store of composite tiles is filled only when the tiles fit the
    option and the board: the number of pieces of a tile is at most
    [useTileSize], the width of the tile divides the shorter side of the
    board and its height the longer side (for the sizes 2x1, 4x2 and 8x4 the
    other way round, and these three are filled only for a board that is not
    square), and each side is at least twice the tile's. *)
Theorem store_filled_fits (sz : tile_size) :
  store_filled w h u sz = true -> sz <> size_1x1 ->
  tile_w sz * tile_h sz <= u /\
  (if tile_h sz <? tile_w sz
   then len_max w h mod tile_w sz = 0 /\ len_min w h mod tile_h sz = 0 /\
        2 * tile_w sz <= len_max w h /\ 2 * tile_h sz <= len_min w h /\
        len_max w h <> len_min w h
   else len_min w h mod tile_w sz = 0 /\ len_max w h mod tile_h sz = 0 /\
        2 * tile_w sz <= len_min w h /\ 2 * tile_h sz <= len_max w h).
Proof.
  intros Hf Hne. split; [|now apply store_filled_dims].
  destruct sz; try congruence; cbn [tile_w tile_h Z.mul Pos.mul]; plan_flags; lia.
Qed.

(** X25: the boards the driver solves cover the puzzle: the first board,
    counted in tiles of its store, is as wide as the shorter side and as
    high as the longer side of the puzzle, a second board, pushed exactly
    when the puzzle is not square, is as wide as the longer and as high as
    the shorter side; every board has at least two columns and two rows.
    (A store that was not filled holds no tile.) *)
Theorem prep_boards_cover (tiles : tile_size -> Z) :
  (forall sz, tiles sz <> 0 -> store_filled w h u sz = true) ->
  let bs := prep_boards w h tiles in
  length bs = (if square w h then 1 else 2)%nat /\
  forall k sz bw bh, bs !! k = Some (sz, bw, bh) ->
    2 <= bw /\ 2 <= bh /\
    (if Nat.eqb k 0
     then bw * tile_w sz = len_min w h /\ bh * tile_h sz = len_max w h
     else bw * tile_w sz = len_max w h /\ bh * tile_h sz = len_min w h).
Proof.
  intros Hfilled.
  assert (Hmin : 2 <= len_min w h) by (unfold len_min; lia).
  assert (Hle : len_min w h <= len_max w h) by (unfold len_min, len_max; lia).
  assert (Hfit : forall sz, tiles sz <> 0 -> sz <> size_1x1 ->
            (tile_h sz <? tile_w sz) = false ->
            len_min w h / tile_w sz * tile_w sz = len_min w h /\
            len_max w h / tile_h sz * tile_h sz = len_max w h /\
            2 * tile_w sz <= len_min w h /\ 2 * tile_h sz <= len_max w h /\
            len_max w h mod tile_h sz = 0 /\ len_min w h mod tile_w sz = 0).
  { intros sz Hsz Hne Hlt.
    pose proof (store_filled_dims sz (Hfilled sz Hsz) Hne) as Hd. rewrite Hlt in Hd.
    destruct Hd as (D1 & D2 & D3 & D4).
    assert (0 < tile_w sz /\ 0 < tile_h sz) as [? ?] by (destruct sz; cbn; lia).
    split; [apply exact_div; [lia|now symmetry]|].
    split; [apply exact_div; [lia|now symmetry]|]. auto. }
  cbv zeta. unfold prep_boards.
  repeat match goal with
  | |- context [negb (tiles ?sz =? 0)] =>
      destruct (Z.eqb_spec (tiles sz) 0) as [?|?Hsz]; cbn [negb];
      [|destruct (Hfit sz Hsz ltac:(discriminate) eq_refl) as (F1 & F2 & F3 & F4 & F5 & F6);
        cbn [tile_w tile_h] in F1, F2, F3, F4, F5, F6]
  end.
  all: destruct (square w h); cbn [negb length]; (split; [reflexivity|]).
  all: intros [|[|k]] sz bw bh Hk; try discriminate; injection Hk as <- <- <-;
    cbn [Nat.eqb tile_w tile_h].
  all: try (assert (len_max w h / 8 * 8 = len_max w h)
              by (apply exact_div; [lia|symmetry; assumption])).
  all: try (assert (len_max w h / 4 * 4 = len_max w h)
              by (apply exact_div; [lia|symmetry; first [assumption|apply mod_weaken_eq; assumption]])).
  all: try lia.
Qed.
End TilePlanFacts.

Lemma store_filled_fits_witness :
  tile_w size_4x2 * tile_h size_4x2 <= 8 /\
  len_max 4 8 mod tile_w size_4x2 = 0 /\ len_min 4 8 mod tile_h size_4x2 = 0.
Proof.
  destruct (store_filled_fits 4 8 8 ltac:(lia) ltac:(lia) size_4x2 eq_refl ltac:(discriminate))
    as (H1 & H2 & H3 & _).
  exact (conj H1 (conj H2 H3)).
Defined.

Lemma prep_boards_cover_witness :
  let tiles := fun sz => if store_filled 4 6 2 sz then 5 else 0 in
  length (prep_boards 4 6 tiles) = (if square 4 6 then 1 else 2)%nat.
Proof.
  intros tiles.
  assert (Hf : forall sz, tiles sz <> 0 -> store_filled 4 6 2 sz = true).
  { intros sz'. unfold tiles. destruct (store_filled 4 6 2 sz'); [reflexivity|congruence]. }
  exact (proj1 (prep_boards_cover 4 6 2 ltac:(lia) ltac:(lia) tiles Hf)).
Defined.

(** ** boardv.h: the tile a vertical board makes *)

(** An [int] agrees with the number it was made of on its low 32 bits. *)
Lemma to_int_low (z n : Z) :
  0 <= n <= 32 -> Z.land (to_int z) (Z.ones n) = Z.land z (Z.ones n).
Proof.
  intros Hn. rewrite !Z.land_ones by lia. unfold to_int.
  rewrite (Z.mod_eq (z + 2 ^ 31) (2 ^ 32)) by lia.
  replace (z + 2 ^ 31 - 2 ^ 32 * ((z + 2 ^ 31) / 2 ^ 32) - 2 ^ 31)
    with (z + (- ((z + 2 ^ 31) / 2 ^ 32) * 2 ^ (32 - n)) * 2 ^ n).
  - apply Z.mod_add. apply Z.pow_nonzero; lia.
  - replace (2 ^ 32) with (2 ^ (32 - n) * 2 ^ n)
      by (rewrite <- Z.pow_add_r by lia; f_equal; lia).
    ring.
Qed.

Section VerticalTile.
Variables Lin Lout : layout.
Hypothesis HLin : layout_ok Lin.
(** The tile made is twice as high: its left and right patterns hold two
    patterns of the tiles placed. *)
Hypothesis Hlr : _LR Lout = (2 * _LR Lin)%nat.
Hypothesis Htb : _TB Lout = _TB Lin.
(** The patterns made have at most 32 bits. *)
Hypothesis Hint : (_LR Lout <= 32)%nat.

Local Abbreviation lr := (Z.of_nat (_LR Lin)).

Ltac stack_bits :=
  apply Z.bits_inj'; intros ?i ?Hi; tb_rewrite; tb_cases;
  cbn [andb orb negb]; try lia;
  rewrite ?(Z.testbit_neg_r _ (_ - _)) by lia;
  rewrite ?andb_true_r, ?andb_false_r, ?orb_false_r, ?orb_true_r;
  try reflexivity; try (tb_indices; btauto).

Lemma stack_eq (a b : Z) :
  0 <= a < 2 ^ lr -> 0 <= b < 2 ^ lr ->
  Z.lor (Z.shiftl b lr) a = a + 2 ^ lr * b /\
  0 <= Z.lor (Z.shiftl b lr) a < 2 ^ Z.of_nat (_LR Lout) /\
  Z.land (Z.lor (Z.shiftl b lr) a) (LEFT_EDGE Lin) = a /\
  Z.shiftr (Z.lor (Z.shiftl b lr) a) lr = b.
Proof.
  intros Ha Hb.
  assert (Hd : Z.land (Z.shiftl b lr) a = 0).
  { rewrite (small_land_ones a lr ltac:(lia) Ha). stack_bits. }
  assert (E : Z.lor (Z.shiftl b lr) a = a + 2 ^ lr * b).
  { rewrite <- Z.lxor_lor by exact Hd. rewrite <- Z.add_nocarry_lxor by exact Hd.
    rewrite Z.shiftl_mul_pow2 by lia. lia. }
  split; [exact E|]. split.
  - rewrite E, Hlr. replace (Z.of_nat (2 * _LR Lin)) with (lr + lr) by lia.
    rewrite Z.pow_add_r by lia. nia.
  - split.
    + rewrite (LEFT_EDGE_ones Lin). rewrite (small_land_ones a lr ltac:(lia) Ha) at 2. stack_bits.
    + rewrite (small_land_ones a lr ltac:(lia) Ha). stack_bits.
Qed.

(** The shift is made in [int]; stored in a pattern of at most 32 bits, its
    result is that of the shift of the numbers. *)
Lemma stack_stored (a b : Z) :
  trunc_lr Lout (Z.lor (bitfield_shl (_LR Lin) b (LEFT_EDGE_BITS Lin)) a) =
  trunc_lr Lout (Z.lor (Z.shiftl b lr) a).
Proof.
  unfold bitfield_shl. rewrite (LEFT_EDGE_BITS_eq Lin HLin).
  replace (_LR Lin <=? 31)%nat with true by (symmetry; apply Nat.leb_le; lia).
  unfold trunc_lr. rewrite (LEFT_EDGE_ones Lout).
  rewrite !Z.land_lor_distr_l. f_equal. apply to_int_low. lia.
Qed.

(** X23: when the patterns made have at most 32 bits (every vertical
    composition of the 8 and 16 edge classes, and those of the 32 edge class
    but the one of the 4x8 tile), the tile [verticalBoard::complete()] makes of the
    tile [t0] above the tile [t1] is a tile of the output layout, nothing
    being truncated: its left pattern is the left pattern of [t0] in the low
    bits and that of [t1] above them, likewise its right pattern; its top
    pattern is the top of [t0], its bottom pattern the bottom of [t1], its
    mask the union of the two masks.  Both halves can be read back, and a
    side of the tile is zero (a border) exactly when it is zero in both
    halves. *)
Theorem vertical_tile_fields (t0 t1 : tile) :
  tile_wf Lin t0 -> tile_wf Lin t1 ->
  let v := vertical_tile Lin Lout t0 t1 in
  tile_wf Lout v /\
  val_left v = val_left t0 + 2 ^ lr * val_left t1 /\
  val_right v = val_right t0 + 2 ^ lr * val_right t1 /\
  val_top v = val_top t0 /\ val_bottom v = val_bottom t1 /\
  mask v = copyCombine (mask t0) (mask t1) /\
  Z.land (val_left v) (LEFT_EDGE Lin) = val_left t0 /\ Z.shiftr (val_left v) lr = val_left t1 /\
  Z.land (val_right v) (LEFT_EDGE Lin) = val_right t0 /\
  Z.shiftr (val_right v) lr = val_right t1 /\
  (val_left v = 0 <-> val_left t0 = 0 /\ val_left t1 = 0) /\
  (val_right v = 0 <-> val_right t0 = 0 /\ val_right t1 = 0).
Proof.
  intros (R0 & B0 & L0 & T0) (R1 & B1 & L1 & T1). cbv zeta.
  destruct (stack_eq (val_left t0) (val_left t1) L0 L1) as (EL & RL & LL & HL').
  destruct (stack_eq (val_right t0) (val_right t1) R0 R1) as (ER & RR & LR' & HR).
  assert (Hp : 0 < 2 ^ lr) by (apply Z.pow_pos_nonneg; lia).
  unfold vertical_tile. cbn [val_left val_right val_top val_bottom mask].
  rewrite !stack_stored.
  rewrite (trunc_lr_small Lout _ RL), (trunc_lr_small Lout _ RR).
  rewrite (trunc_tb_small Lout (val_bottom t1)) by (rewrite Htb; exact B1).
  rewrite (trunc_tb_small Lout (val_top t0)) by (rewrite Htb; exact T0).
  split.
  { unfold tile_wf. cbn [val_left val_right val_top val_bottom]. rewrite Htb. auto. }
  rewrite LL, HL', LR', HR, EL, ER.
  repeat split; try reflexivity; try nia.
Qed.
End VerticalTile.

Lemma vertical_tile_fields_witness :
  let v := vertical_tile e8.lookup_1x1 e8.lookup_1x2 (Tile 3 4 1 2 1 0) (Tile 5 6 7 4 2 0) in
  val_left v = 1 + 2 ^ 3 * 7 /\ val_right v = 3 + 2 ^ 3 * 5.
Proof.
  assert (H1 : layout_ok e8.lookup_1x1) by (unfold layout_ok; simpl; lia).
  assert (H32 : (_LR e8.lookup_1x2 <= 32)%nat) by (simpl; lia).
  assert (W0 : tile_wf e8.lookup_1x1 (Tile 3 4 1 2 1 0)) by (unfold tile_wf; simpl; lia).
  assert (W1 : tile_wf e8.lookup_1x1 (Tile 5 6 7 4 2 0)) by (unfold tile_wf; simpl; lia).
  destruct (vertical_tile_fields e8.lookup_1x1 e8.lookup_1x2 H1 eq_refl eq_refl H32 _ _ W0 W1)
    as (_ & E1 & E2 & _).
  exact (conj E1 E2).
Defined.

(** ** boardv.h: the 4x8 tiles of the 32 edge class *)

Lemma to_int_shifted (b : Z) :
  0 <= b < 2 ^ 20 ->
  to_int (Z.shiftl b 20) =
    2 ^ 20 * (b mod 2 ^ 12) - (if 2 ^ 11 <=? b mod 2 ^ 12 then 2 ^ 32 else 0).
Proof.
  intros Hb. rewrite Z.shiftl_mul_pow2 by lia. unfold to_int.
  pose proof (Z.mod_pos_bound b (2 ^ 12) ltac:(lia)) as Hc.
  pose proof (Z.div_mod b (2 ^ 12) ltac:(lia)) as Eb.
  set (c := b mod 2 ^ 12) in *. set (d := b / 2 ^ 12) in *.
  destruct (Z.leb_spec (2 ^ 11) c) as [Hge|Hlt].
  - assert (E : (b * 2 ^ 20 + 2 ^ 31) mod 2 ^ 32 = 2 ^ 20 * c + 2 ^ 31 - 2 ^ 32).
    { symmetry. apply (Z.mod_unique _ _ (d + 1)); [left; lia|]. lia. }
    rewrite E. lia.
  - assert (E : (b * 2 ^ 20 + 2 ^ 31) mod 2 ^ 32 = 2 ^ 20 * c + 2 ^ 31).
    { symmetry. apply (Z.mod_unique _ _ d); [left; lia|]. lia. }
    rewrite E. lia.
Qed.

Lemma lor_above (k a : Z) :
  0 <= a < 2 ^ 20 -> Z.lor (2 ^ 20 * k) a = 2 ^ 20 * k + a.
Proof.
  intros Ha.
  assert (Hd : Z.land (2 ^ 20 * k) a = 0).
  { apply Z.bits_inj'. intros i Hi. rewrite Z.land_spec, Z.bits_0.
    destruct (Z.lt_ge_cases i 20) as [Hlt|Hge].
    - rewrite Z.mul_comm, Z.mul_pow2_bits_low by lia. reflexivity.
    - destruct (Z.eq_dec a 0) as [->|Hne]; [now rewrite Z.bits_0, andb_false_r|].
      rewrite (Z.bits_above_log2 a i), andb_false_r; [reflexivity|lia|].
      assert (Z.log2 a < 20) by (apply Z.log2_lt_pow2; lia). lia. }
  rewrite <- Z.lxor_lor by exact Hd. now rewrite <- Z.add_nocarry_lxor by exact Hd.
Qed.

(** The [int] of the shift is a multiple of [2^20], negative when bit 11 of
    the pattern is set; converted to the word type and stored in 40 bits it
    leaves the sign in the bits 32 to 39. *)
Lemma stacked_in_int_stored (a b : Z) :
  0 <= a < 2 ^ 20 -> 0 <= b < 2 ^ 20 ->
  trunc_lr e32.lookup_4x8
    (Z.lor (bitfield_shl (_LR e32.lookup_4x4) b (LEFT_EDGE_BITS e32.lookup_4x4)) a) =
  stacked_in_int a b.
Proof.
  intros Ha Hb.
  change (LEFT_EDGE_BITS e32.lookup_4x4) with 20.
  change (bitfield_shl (_LR e32.lookup_4x4) b 20) with (to_int (Z.shiftl b 20)).
  rewrite (to_int_shifted b Hb). unfold stacked_in_int, trunc_lr.
  change (LEFT_EDGE e32.lookup_4x8) with (Z.ones 40). rewrite Z.land_ones by lia.
  pose proof (Z.mod_pos_bound b (2 ^ 12) ltac:(lia)) as Hc.
  set (c := b mod 2 ^ 12) in *.
  destruct (Z.leb_spec (2 ^ 11) c) as [Hge|Hlt].
  - replace (2 ^ 20 * c - 2 ^ 32) with (2 ^ 20 * (c - 2 ^ 12)) by lia.
    rewrite (lor_above _ a Ha).
    symmetry. apply (Z.mod_unique _ _ (-1)); [left; lia|lia].
  - rewrite Z.sub_0_r, (lor_above _ a Ha).
    rewrite Z.mod_small by lia. lia.
Qed.

(** X30: the 4x8 tile of the 32 edge class, made of two 4x4 tiles whose left
    and right patterns have 20 bits.  The pattern of the lower tile [t1] is
    shifted by 20 in [int], which has 32 bits: the left (right) pattern of
    the tile made holds the pattern of [t0], above it the low 12 bits of the
    pattern of [t1], and in the bits 32 to 39 the bit 11 of that pattern
    eight times.  It is the pattern of [t0] with that of [t1] above it when
    the pattern of [t1] is below [2^11], and it is another one when that
    pattern is at least [2^11] and below [2^20 - 2^11]. *)
Theorem vertical_tile_4x8_e32 (t0 t1 : tile) :
  tile_wf e32.lookup_4x4 t0 -> tile_wf e32.lookup_4x4 t1 ->
  let v := vertical_tile e32.lookup_4x4 e32.lookup_4x8 t0 t1 in
  val_left v = stacked_in_int (val_left t0) (val_left t1) /\
  val_right v = stacked_in_int (val_right t0) (val_right t1) /\
  (val_left t1 < 2 ^ 11 -> val_left v = val_left t0 + 2 ^ 20 * val_left t1) /\
  (val_right t1 < 2 ^ 11 -> val_right v = val_right t0 + 2 ^ 20 * val_right t1) /\
  (2 ^ 11 <= val_left t1 < 2 ^ 20 - 2 ^ 11 ->
     val_left v <> val_left t0 + 2 ^ 20 * val_left t1) /\
  (2 ^ 11 <= val_right t1 < 2 ^ 20 - 2 ^ 11 ->
     val_right v <> val_right t0 + 2 ^ 20 * val_right t1).
Proof.
  intros (R0 & B0 & L0 & T0) (R1 & B1 & L1 & T1). cbv zeta.
  change (Z.of_nat (_LR e32.lookup_4x4)) with 20 in *.
  unfold vertical_tile. cbn [val_left val_right].
  rewrite (stacked_in_int_stored _ _ L0 L1), (stacked_in_int_stored _ _ R0 R1).
  assert (Hcase : forall a b, 0 <= a < 2 ^ 20 -> 0 <= b < 2 ^ 20 ->
            (b < 2 ^ 11 -> stacked_in_int a b = a + 2 ^ 20 * b) /\
            (2 ^ 11 <= b < 2 ^ 20 - 2 ^ 11 -> stacked_in_int a b <> a + 2 ^ 20 * b)).
  { intros a b Ha Hb. unfold stacked_in_int.
    pose proof (Z.mod_pos_bound b (2 ^ 12) ltac:(lia)) as Hc.
    pose proof (Z.div_mod b (2 ^ 12) ltac:(lia)) as Eb.
    assert (Hd : 0 <= b / 2 ^ 12 < 2 ^ 8).
    { split; [apply Z.div_pos; lia|apply Z.div_lt_upper_bound; lia]. }
    set (c := b mod 2 ^ 12) in *. set (d := b / 2 ^ 12) in *.
    destruct (Z.leb_spec (2 ^ 11) c); split; intros; lia. }
  destruct (Hcase _ _ L0 L1) as [HL1 HL2]. destruct (Hcase _ _ R0 R1) as [HR1 HR2].
  repeat split; assumption.
Qed.

Lemma vertical_tile_4x8_e32_witness :
  let v := vertical_tile e32.lookup_4x4 e32.lookup_4x8
             (Tile 5 0 7 0 1 0) (Tile (2 ^ 11) 0 3 0 2 0) in
  val_left v = 7 + 2 ^ 20 * 3 /\ val_right v <> 5 + 2 ^ 20 * 2 ^ 11 /\
  val_right v = 5 + 2 ^ 31 + (2 ^ 40 - 2 ^ 32).
Proof.
  assert (W0 : tile_wf e32.lookup_4x4 (Tile 5 0 7 0 1 0)) by (unfold tile_wf; simpl; lia).
  assert (W1 : tile_wf e32.lookup_4x4 (Tile (2 ^ 11) 0 3 0 2 0)) by (unfold tile_wf; simpl; lia).
  destruct (vertical_tile_4x8_e32 _ _ W0 W1) as (_ & E2 & E3 & _ & _ & E6).
  split; [apply E3; simpl; lia|]. split; [apply E6; simpl; lia|]. exact E2.
Defined.

(** ** board.h: [solve()], sequential and threaded *)

Lemma nsol_rev (l : list event) :
  length (solutions_reached (rev l)) = length (solutions_reached l).
Proof. unfold solutions_reached. now rewrite omap_rev, !length_rev. Qed.

Lemma nsol_visit (p : pptr) (t : nat) (l : list event) :
  length (solutions_reached (Visit p t :: l)) = length (solutions_reached l).
Proof. reflexivity. Qed.

Section SearchAddr.
Variable L : layout.
Variable lookups : tileArrayLookup.
Variables (addr addr' w h : nat).
Variable value : type.
Variables (pr qt : bool).

Local Abbreviation same r r' :=
  (length (solutions_reached (fst r)) = length (solutions_reached (fst r')) /\ snd r = snd r').

Lemma search_tile_addr (rec rec' : list nat -> mask_type -> list event * bool)
    (a : list nat) (m : mask_type) (q : nat) :
  (forall a' m', same (rec a' m') (rec' a' m')) ->
  same (search_tile lookups addr w h pr qt rec a m q)
       (search_tile lookups addr' w h pr qt rec' a m q).
Proof.
  intros H. unfold search_tile.
  destruct (mask_and _ _); [split; reflexivity|].
  destruct (_ =? _)%nat; [destruct pr; split; reflexivity|].
  specialize (H (a ++ [q]) (copyCombine m (mask (tile_of lookups q)))).
  destruct (rec _ _) as [e x], (rec' _ _) as [e' x']. cbn [fst snd] in *.
  rewrite !nsol_visit. exact H.
Qed.

Lemma search_iterate_addr (rec rec' : list nat -> mask_type -> list event * bool)
    (a : list nat) (m : mask_type) (tiles : list nat) :
  (forall a' m', same (rec a' m') (rec' a' m')) ->
  forall i, same (search_iterate lookups addr w h pr qt rec a m tiles i)
                 (search_iterate lookups addr' w h pr qt rec' a m tiles i).
Proof.
  intros H. induction i as [|i IH]; [split; reflexivity|].
  cbn [search_iterate]. destruct (tiles !! i) as [q|]; [|split; reflexivity].
  pose proof (search_tile_addr rec rec' a m q H) as Hq.
  destruct (search_tile lookups addr _ _ _ _ _ _ _ _) as [e x],
    (search_tile lookups addr' _ _ _ _ _ _ _ _) as [e' x']. cbn [fst snd] in Hq.
  destruct Hq as [Hq <-]. destruct x; [split; [exact Hq|reflexivity]|].
  destruct (search_iterate lookups addr _ _ _ _ _ _ _ _ _) as [f y],
    (search_iterate lookups addr' _ _ _ _ _ _ _ _ _) as [f' y']. cbn [fst snd] in *.
  destruct IH as [IH <-]. split; [|reflexivity].
  rewrite !solutions_reached_app. lia.
Qed.

(** The solutions the search reaches do not depend on where the board is. *)
Lemma search_addr (rem : nat) :
  forall a m, same (search L lookups addr w h value pr qt rem a m)
                   (search L lookups addr' w h value pr qt rem a m).
Proof.
  induction rem as [|rem IH]; intros a m; [split; reflexivity|].
  cbn [search]. cbv zeta. now apply search_iterate_addr.
Qed.
End SearchAddr.

Section SolveCount.
Variable L : layout.
Hypothesis HL : layout_ok L.
Variable lookups : tileArrayLookup.
Hypothesis Hstore : store_inv L lookups.
Variables (addr w h : nat).
Variable value : type.
Variable qt : bool.
Variable this : board.
Hypothesis Hthis : board_inv L lookups addr w h value false qt [] this.
Hypothesis Hcells : (1 < w * h)%nat.

Local Abbreviation srch := (search L lookups addr w h value false qt).
Local Abbreviation nsol r := (length (solutions_reached (fst r))).
Local Abbreviation sum_solutions := (fold_left (fun s b => wrap (s + solutions_ b))).
Local Abbreviation bucket := (lookups_at lookups (cell_key L lookups w h value [])).

Lemma solve_sequential_count (wd : world) :
  w_board wd = this -> threaded_ this = false -> is_word (solutions_ this) ->
  exists wd', solve L lookups wd = Done wd' /\
    solutions_ (w_board wd') = wrap (solutions_ this + Z.of_nat (nsol (srch (w * h) [] 0))).
Proof.
  intros Hw Hth Hword.
  destruct (cell_key_spec L lookups addr w h value false qt [] this Hthis ltac:(cbn; lia))
    as (c & Hc & _).
  cbn [length] in Hc.
  unfold solve. cbv zeta. rewrite Hw, Hc, Hth. cbn [negb].
  assert (Hd : depth this = (w * h)%nat)
    by (unfold depth; exact (proj1 (proj2 (proj2 (proj2 (proj2 (proj2 Hthis))))))).
  rewrite Hd, (proj1 Hthis).
  destruct (solve_for_search L HL lookups Hstore addr w h value false qt complete
              (complete_complete_ok L lookups addr w h value false qt)
              (w * h) (w * h) [] 0 wd (Nat.le_refl _) ltac:(lia) eq_refl
              (List.Forall_nil _) ltac:(rewrite Hw; exact Hthis)) as (wd' & Ho & He & _).
  cbn [length] in Ho. rewrite search_without_print in Ho.
  exists wd'. split; [exact Ho|].
  destruct (solve_for_counts L lookups _ _ _ _ _ Ho) as (new & Hnew & Hcount).
  rewrite He in Hnew. apply app_inv_tail in Hnew. subst new.
  rewrite Hcount, Hw, nsol_rev. now apply count_up_wrap.
Qed.

Lemma worker_count (n t : nat) (wd : world) :
  t ∈ bucket ->
  let b := board_copy L (node_addr (self this) n) this in
  exists tl next b',
    tiles_ lookups !! t = Some tl /\
    place L t tl (at_ptr b 0 0) b = Some (next, b') /\
    exists wd',
      solve_for L lookups complete (depth b') next (mask tl) (with_board b' wd) = Done wd' /\
      solutions_ (w_board wd') = wrap (Z.of_nat (nsol (srch (w * h - 1) [t] (mask tl)))).
Proof.
  intros Ht b. set (addr' := node_addr (self this) n) in *.
  destruct (Hstore _ _ Ht) as (tl & Htl & Hwf & _).
  assert (Hb : board_inv L lookups addr' w h value false qt [] b)
    by (apply (board_copy_state L HL lookups w h addr addr'); exact Hthis).
  assert (Hs : solutions_ b = 0) by apply (board_copy_fields L addr' this).
  destruct (place_spec L HL lookups addr' w h value false qt [] t tl b Hb ltac:(cbn; lia) Htl Hwf)
    as (b' & Hplace & Hb' & Hs' & _).
  cbn [length] in Hplace. rewrite (proj2 (Nat.ltb_lt _ _) Hcells) in Hplace.
  exists tl, (PCell addr' 1), b'. split; [exact Htl|]. split.
  { unfold at_ptr. rewrite (proj1 Hb), (proj1 (proj2 (proj2 Hb))). exact Hplace. }
  assert (Hv : valid_ptrs lookups ([] ++ [t])).
  { apply List.Forall_cons; [rewrite Htl; eauto|apply List.Forall_nil]. }
  destruct (solve_for_search L HL lookups Hstore addr' w h value false qt complete
              (complete_complete_ok L lookups addr' w h value false qt)
              (w * h - 1) (depth b') ([] ++ [t]) (mask tl) (with_board b' wd))
    as (wd' & Ho & He & _); try assumption; try (cbn [length app]; lia).
  { unfold depth. rewrite (proj1 (proj2 (proj2 (proj2 (proj2 (proj2 Hb')))))). lia. }
  cbn [app length] in Ho, He. rewrite search_without_print in Ho.
  exists wd'. split; [exact Ho|].
  destruct (solve_for_counts L lookups _ _ _ _ _ Ho) as (new & Hnew & Hcount).
  rewrite He in Hnew. apply app_inv_tail in Hnew. subst new.
  rewrite Hcount. cbn [w_board with_board]. rewrite Hs', Hs, nsol_rev.
  rewrite (proj1 (search_addr L lookups addr' addr w h value false qt (w * h - 1) [t] (mask tl))).
  apply count_up_wrap. unfold is_word, ENV_BITS. lia.
Qed.

Lemma search_iterate_step (tiles : list nat) (i t : nat) (tl : tile) :
  tiles !! i = Some t -> tiles_ lookups !! t = Some tl ->
  nsol (search_iterate lookups addr w h false qt (srch (w * h - 1)) [] 0 tiles (S i)) =
  Nat.add (nsol (srch (w * h - 1) [t] (mask tl)))
    (nsol (search_iterate lookups addr w h false qt (srch (w * h - 1)) [] 0 tiles i)).
Proof.
  intros Ht Htl. cbn [search_iterate]. rewrite Ht. unfold search_tile.
  assert (Et : tile_of lookups t = tl) by (unfold tile_of, tile_at; now rewrite Htl).
  rewrite Et.
  change (mask_and 0 (mask tl)) with false. cbv iota.
  cbn [length]. rewrite (proj2 (Nat.eqb_neq 1 (w * h)) ltac:(lia)).
  change (copyCombine 0 (mask tl)) with (mask tl). cbn [app].
  pose proof (search_without_print L lookups addr w h value qt (w * h - 1) [t] (mask tl)) as Hx.
  destruct (srch (w * h - 1) [t] (mask tl)) as [e x]. cbn [snd] in Hx. subst x.
  destruct (search_iterate _ _ _ _ _ _ _ _ _ _ _) as [f y]. cbn [fst].
  rewrite solutions_reached_app, nsol_visit. reflexivity.
Qed.

Lemma solve_workers_count (tiles : list nat) :
  (forall t, t ∈ tiles -> t ∈ bucket) ->
  forall (i : nat) (boards : list board) (wd : world), (i <= length tiles)%nat ->
  exists boards' wd',
    solve_workers L lookups this tiles i boards wd = (Some (boards ++ boards'), Done wd') /\
    forall s0, is_word s0 ->
      sum_solutions boards' s0 =
      wrap (s0 + Z.of_nat
                   (nsol (search_iterate lookups addr w h false qt (srch (w * h - 1))
                            [] 0 tiles i))).
Proof.
  intros Htiles. induction i as [|i IH]; intros boards wd Hi.
  { exists [], wd. split; [now rewrite app_nil_r|].
    intros s0 Hs0. cbn. rewrite Z.add_0_r. symmetry. now apply Z.mod_small. }
  destruct (lookup_lt_is_Some_2 tiles i ltac:(lia)) as [t Ht].
  destruct (worker_count (length boards) t wd (Htiles t (list_elem_of_lookup_2 _ _ _ Ht)))
    as (tl & next & b' & Htl & Hplace & wd1 & Ho & Hc).
  cbn [solve_workers]. rewrite Ht, Htl. cbv zeta. rewrite Hplace, Ho.
  destruct (IH (boards ++ [w_board wd1]) (with_board this wd1) ltac:(lia))
    as (boards' & wd2 & Ho2 & Hsum).
  exists (w_board wd1 :: boards'), wd2. split.
  { rewrite Ho2. now rewrite <- app_assoc. }
  intros s0 Hs0. cbn [fold_left]. rewrite Hc, wrap_add_wrap.
  rewrite Hsum by apply wrap_is_word.
  rewrite (search_iterate_step tiles i t tl Ht Htl).
  unfold wrap. rewrite Z.add_mod_idemp_l by (unfold ENV_BITS; lia). f_equal. lia.
Qed.

Lemma solve_threaded_count (wd : world) :
  w_board wd = this -> threaded_ this = true -> is_word (solutions_ this) ->
  exists wd', solve L lookups wd = Done wd' /\
    solutions_ (w_board wd') = wrap (solutions_ this + Z.of_nat (nsol (srch (w * h) [] 0))).
Proof.
  intros Hw Hth Hword.
  destruct (cell_key_spec L lookups addr w h value false qt [] this Hthis ltac:(cbn; lia))
    as (c & Hc & Hkey).
  cbn [length] in Hc.
  unfold solve. cbv zeta. rewrite Hw, Hc, Hth. cbn [negb]. rewrite Hkey.
  destruct (solve_workers_count bucket (fun t Ht => Ht) _ [] wd (Nat.le_refl _))
    as (boards & wd' & Ho & Hsum).
  rewrite Ho. cbn [app]. eexists. split; [reflexivity|].
  cbn [w_board with_board solutions_ with_solutions]. rewrite (Hsum _ Hword).
  replace (w * h)%nat with (S (w * h - 1)) at 2 by lia. reflexivity.
Qed.
End SolveCount.

(** X26: [solve()] returns when the print option is off, and the solution
    counter it leaves is the counter it found plus the number of solutions
    the backtracking search reaches from the empty board, whether the board
    is solved in the calling thread or by one worker per tile of the first
    placement: the threaded solve counts as many solutions as the sequential
    one. *)
Theorem solve_counts_agree (L : layout) (lookups : tileArrayLookup) (addr w h : nat)
    (value : type) (qt th : bool) (wd : world) :
  layout_ok L -> store_inv L lookups ->
  board_inv L lookups addr w h value false qt [] (w_board wd) ->
  (1 < w * h)%nat -> is_word (solutions_ (w_board wd)) ->
  exists wd',
    solve L lookups (with_board (setThreaded th (w_board wd)) wd) = Done wd' /\
    solutions_ (w_board wd') =
    wrap (solutions_ (w_board wd) +
          Z.of_nat (length (solutions_reached
                              (fst (search L lookups addr w h value false qt (w * h) [] 0))))).
Proof.
  intros HL Hstore Hinv Hcells Hword.
  set (this := setThreaded th (w_board wd)).
  assert (Hthis : board_inv L lookups addr w h value false qt [] this) by exact Hinv.
  destruct th.
  - exact (solve_threaded_count L HL lookups Hstore addr w h value qt this Hthis Hcells
             (with_board this wd) eq_refl eq_refl Hword).
  - exact (solve_sequential_count L HL lookups Hstore addr w h value qt this Hthis Hcells
             (with_board this wd) eq_refl eq_refl Hword).
Qed.

Lemma solve_counts_agree_witness :
  let L := e8.lookup_1x1 in
  let lookups := generateLookups L test_pieces lookups_empty in
  let wd := world_of (board_new L 0 4 4) in
  exists wd',
    solve L lookups (with_board (setThreaded true (w_board wd)) wd) = Done wd' /\
    solutions_ (w_board wd') =
    wrap (solutions_ (w_board wd) +
          Z.of_nat (length (solutions_reached
                              (fst (search L lookups 0 4 4 typeNormal false false (4 * 4) [] 0))))).
Proof.
  intros L lookups wd.
  apply (solve_counts_agree L lookups 0 4 4 typeNormal false true wd).
  - exact e8_layout_ok.
  - exact test_store_inv.
  - apply board_new_inv, e8_layout_ok.
  - lia.
  - change (solutions_ (w_board wd)) with 0. unfold is_word, ENV_BITS. lia.
Defined.

(** ** The backtracker finds every tiling *)

Lemma store_complete_insert_range (L : layout) (ts : list tile) :
  layout_ok L -> Forall (tile_wf L) ts ->
  store_inv L (insert_range L ts lookups_empty) /\
  store_complete L (insert_range L ts lookups_empty).
Proof.
  intros HL Hts. split.
  - apply store_inv_insert_range; [exact HL|exact Hts|apply store_inv_empty].
  - intros q u k Hu Hk.
    destruct (insert_range_spec L HL ts lookups_empty Hts) as [E1 E2].
    rewrite E2. change (lookups_at lookups_empty k) with (@nil nat). cbn [app].
    apply elem_of_filed_entries. cbn [lookups_empty tiles_ length].
    split; [lia|]. exists u. rewrite Nat.sub_0_r. split; [|exact Hk].
    rewrite E1 in Hu. exact Hu.
Qed.

Section SearchComplete.
Variable L : layout.
Variable lookups : tileArrayLookup.
Hypothesis Hall : store_complete L lookups.
Variables (addr w h : nat).
Variable value : type.
Variable qt : bool.

Local Abbreviation srch := (search L lookups addr w h value false qt).
Local Abbreviation key := (cell_key L lookups w h value).
Local Abbreviation exact := (fits_exactly lookups w h value).

Lemma fits_exactly_take (a : list nat) (n : nat) : exact a -> exact (take n a).
Proof.
  intros Ha x y Hx Hy Hi. rewrite length_take in Hi.
  assert (Hn : forall k, (k <= at_index h x y)%nat -> nth k (take n a) 0%nat = nth k a 0%nat).
  { intros k Hk. rewrite <- (take_drop n a) at 2. rewrite app_nth1; [reflexivity|].
    rewrite length_take. lia. }
  cbv zeta. rewrite !Hn by (unfold at_index; nia).
  apply (Ha x y Hx Hy). lia.
Qed.

(** A tile that continues a tiling is filed under the lookup value of the
    placement it continues the tiling at. *)
Lemma key_of_fit (a : list nat) (q : nat) (u : tile) :
  (length a < w * h)%nat -> exact (a ++ [q]) -> tiles_ lookups !! q = Some u ->
  under_key L u (key a).
Proof.
  intros Hlt Hfit Hu.
  destruct (index_coords w h (length a) Hlt) as (x & y & Hx & Hy & Ei).
  assert (Htl : tile_of lookups q = u) by (unfold tile_of, tile_at; now rewrite Hu).
  destruct (Hfit x y Hx Hy ltac:(rewrite length_app; cbn [length]; lia))
    as (_ & Fl & Ft & Fl0 & Ft0 & Fr & Fb).
  rewrite <- Ei, app_nth2, Nat.sub_diag in Fl, Ft, Fl0, Ft0, Fr, Fb by lia.
  cbn [nth] in Fl, Ft, Fl0, Ft0, Fr, Fb. rewrite Htl in Fl, Ft, Fl0, Ft0, Fr, Fb.
  assert (Er : (if Nat.eqb x (w - 1) && has_border _RIGHT_BORDER value then 0 else 1) =
               flag (val_right u)).
  { unfold flag. destruct (Z.eqb_spec (val_right u) 0) as [E|E].
    - destruct (proj1 Fr E) as [-> ->]. now rewrite Nat.eqb_refl.
    - destruct (Nat.eqb_spec x (w - 1)) as [Ex|Ex]; [|reflexivity].
      destruct (has_border _RIGHT_BORDER value); [|reflexivity].
      exfalso. apply E, Fr. auto. }
  assert (Eb : (if Nat.eqb y (h - 1) && has_border _BOTTOM_BORDER value then 0 else 1) =
               flag (val_bottom u)).
  { unfold flag. destruct (Z.eqb_spec (val_bottom u) 0) as [E|E].
    - destruct (proj1 Fb E) as [-> ->]. now rewrite Nat.eqb_refl.
    - destruct (Nat.eqb_spec y (h - 1)) as [Ey|Ey]; [|reflexivity].
      destruct (has_border _BOTTOM_BORDER value); [|reflexivity].
      exfalso. apply E, Fb. auto. }
  assert (El : exists l,
             (l = val_left u \/ (val_left u <> 0 /\ l = LEFT_EDGE L)) /\
             (if Nat.eqb 0 x then (if has_border _LEFT_BORDER value then 0 else LEFT_EDGE L)
              else val_right (tile_of lookups (nth (length a - h) a 0%nat))) = l).
  { destruct x as [|x']; cbn [Nat.eqb].
    - specialize (Fl0 eq_refl). destruct (has_border _LEFT_BORDER value).
      + exists 0. split; [left; symmetry; now apply Fl0|reflexivity].
      + exists (LEFT_EDGE L). split; [right|reflexivity]. split; [|reflexivity].
        intros E. apply Fl0 in E. discriminate.
    - exists (val_left u). split; [now left|].
      rewrite (Fl ltac:(lia)), app_nth1 by (unfold at_index in *; nia).
      do 3 f_equal. unfold at_index in *. nia. }
  assert (Et : exists t,
             (t = val_top u \/ (val_top u <> 0 /\ t = TOP_EDGE L)) /\
             (if Nat.eqb 0 y then (if has_border _TOP_BORDER value then 0 else TOP_EDGE L)
              else val_bottom (tile_of lookups (nth (length a - 1) a 0%nat))) = t).
  { destruct y as [|y']; cbn [Nat.eqb].
    - specialize (Ft0 eq_refl). destruct (has_border _TOP_BORDER value).
      + exists 0. split; [left; symmetry; now apply Ft0|reflexivity].
      + exists (TOP_EDGE L). split; [right|reflexivity]. split; [|reflexivity].
        intros E. apply Ft0 in E. discriminate.
    - exists (val_top u). split; [now left|].
      rewrite (Ft ltac:(lia)), app_nth1 by (unfold at_index in *; nia).
      do 3 f_equal. unfold at_index in *. nia. }
  destruct El as (l & Hl & El), Et as (t & Ht & Et).
  unfold cell_key. cbv zeta.
  assert (Dx : (length a / h = x)%nat) by (rewrite Ei; now apply at_index_div).
  assert (Dy : (length a mod h = y)%nat) by (rewrite Ei; now apply at_index_mod).
  rewrite Dx, Dy, El, Et, Er, Eb.
  unfold under_key, literal_key, left_wildcard_key, top_wildcard_key, both_wildcard_key.
  destruct Hl as [-> | [Nl ->]], Ht as [-> | [Nt ->]]; auto 6.
Qed.

Lemma search_iterate_incl (rec : list nat -> mask_type -> list event * bool)
    (a : list nat) (m : mask_type) (tiles : list nat) (j q : nat) (e : event) :
  (forall a' m', snd (rec a' m') = false) ->
  tiles !! j = Some q ->
  In e (fst (search_tile lookups addr w h false qt rec a m q)) ->
  forall i, (j < i)%nat -> (i <= length tiles)%nat ->
    In e (fst (search_iterate lookups addr w h false qt rec a m tiles i)).
Proof.
  intros Hrec Hj He. induction i as [|i IH]; intros Hji Hi; [lia|].
  cbn [search_iterate].
  destruct (lookup_lt_is_Some_2 tiles i ltac:(lia)) as [q' Hq']. rewrite Hq'.
  assert (Hx : snd (search_tile lookups addr w h false qt rec a m q') = false).
  { unfold search_tile. destruct (mask_and _ _); [reflexivity|].
    destruct (_ =? _)%nat; [reflexivity|].
    specialize (Hrec (a ++ [q']) (copyCombine m (mask (tile_of lookups q')))).
    destruct (rec _ _) as [evs ex]. exact Hrec. }
  destruct (decide (j = i)) as [->|Hne].
  - rewrite Hj in Hq'. injection Hq' as <-.
    destruct (search_tile _ _ _ _ _ _ _ _ _ _) as [evs ex]. cbn [fst snd] in *. subst ex.
    destruct (search_iterate _ _ _ _ _ _ _ _ _ _ _) as [evs' ex']. cbn [fst].
    apply in_or_app. now left.
  - specialize (IH ltac:(lia) ltac:(lia)).
    destruct (search_tile _ _ _ _ _ _ _ _ _ q') as [evs ex]. cbn [snd] in Hx. subst ex.
    destruct (search_iterate _ _ _ _ _ _ _ _ _ _ _) as [evs' ex']. cbn [fst] in *.
    apply in_or_app. now right.
Qed.

Lemma search_finds (A : list nat) (m0 : mask_type) :
  length A = (w * h)%nat -> exact A -> pieces_distinct lookups m0 A ->
  forall (rem : nat) (a : list nat) (m : mask_type),
    (length a + rem = w * h)%nat -> (0 < rem)%nat -> a = take (length a) A ->
    m = path_mask lookups m0 a ->
    In (Completed (Some <$> A)) (fst (srch rem a m)).
Proof.
  intros HA Hfit [Hd0 Hd]. induction rem as [|rem IH]; intros a m Hlen Hrem Ha Hm; [lia|].
  cbn [search]. cbv zeta.
  destruct (lookup_lt_is_Some_2 A (length a) ltac:(lia)) as [q Hq].
  assert (Eaq : a ++ [q] = take (S (length a)) A).
  { rewrite (take_S_r _ _ _ Hq). now rewrite <- Ha. }
  assert (Hfq : exact (a ++ [q])) by (rewrite Eaq; now apply fits_exactly_take).
  assert (Hsome : is_Some (tiles_ lookups !! q)).
  { destruct (index_coords w h (length a) ltac:(lia)) as (x & y & Hx & Hy & Ei).
    destruct (Hfq x y Hx Hy ltac:(rewrite length_app; cbn [length]; lia)) as (Hs & _).
    rewrite <- Ei, app_nth2, Nat.sub_diag in Hs by lia. exact Hs. }
  destruct Hsome as [u Hu].
  pose proof (key_of_fit a q u ltac:(lia) Hfq Hu) as Hkey.
  pose proof (Hall q u _ Hu Hkey) as Hin.
  apply list_elem_of_lookup in Hin. destruct Hin as [j Hj].
  apply (search_iterate_incl (srch rem) a m _ j q).
  - intros a' m'. apply search_without_print.
  - exact Hj.
  - unfold search_tile.
    assert (Hmask : mask_and m (mask (tile_of lookups q)) = false).
    { apply mask_and_false. rewrite Hm. apply land_path_mask. split.
      - exact (Hd0 _ _ Hq).
      - intros q' Hq'. apply list_elem_of_lookup in Hq'. destruct Hq' as [k Hk].
        pose proof (lookup_lt_Some _ _ _ Hk) as Hkl.
        rewrite Ha in Hk. rewrite lookup_take_lt in Hk by exact Hkl.
        exact (Hd k (length a) q' q Hkl Hk Hq). }
    rewrite Hmask.
    destruct (Nat.eqb_spec (S (length a)) (w * h)) as [Efull|Emore].
    + cbn [fst]. right. left.
      rewrite Eaq, Efull, <- HA, firstn_all. reflexivity.
    + specialize (IH (a ++ [q]) (copyCombine m (mask (tile_of lookups q)))).
      destruct (srch rem (a ++ [q]) _) as [evs ex]. cbn [fst] in *. right.
      apply IH.
      * rewrite length_app. cbn [length]. lia.
      * lia.
      * rewrite length_app. cbn [length]. rewrite Nat.add_1_r. exact Eaq.
      * rewrite Hm. symmetry. apply path_mask_app.
  - apply lookup_lt_Some in Hj. exact Hj.
  - lia.
Qed.
End SearchComplete.

Lemma pieces_distinct_nil (lookups : tileArrayLookup) (m : mask_type) :
  pieces_distinct lookups m [].
Proof. split; intros; discriminate. Qed.

Lemma pieces_distinct_cons (lookups : tileArrayLookup) (m : mask_type) (q : nat) (a : list nat) :
  Z.land m (mask (tile_of lookups q)) = 0 ->
  pieces_distinct lookups (copyCombine m (mask (tile_of lookups q))) a ->
  pieces_distinct lookups m (q :: a).
Proof.
  intros Hq [H0 Hd].
  assert (Hsplit : forall k q', a !! k = Some q' ->
            Z.land m (mask (tile_of lookups q')) = 0 /\
            Z.land (mask (tile_of lookups q)) (mask (tile_of lookups q')) = 0).
  { intros k q' Hk. specialize (H0 k q' Hk). unfold copyCombine in H0.
    rewrite Z.land_lor_distr_l in H0. now apply Z.lor_eq_0_iff in H0. }
  split.
  - intros [|k] q' Hk; [injection Hk as <-; exact Hq|]. exact (proj1 (Hsplit k q' Hk)).
  - intros [|j] [|k] q1 q2 Hjk Hj Hk; try lia.
    + injection Hj as <-. exact (proj2 (Hsplit k q2 Hk)).
    + apply (Hd j k q1 q2); [lia|exact Hj|exact Hk].
Qed.

Lemma policy_store_wf (L : layout) (pieces : pieceVector) :
  Forall (piece_fits L) pieces ->
  forall seen n, Forall (tile_wf L) (policy_store L seen n pieces).
Proof.
  induction 1 as [|p ps Hp Hps IH]; intros seen n; cbn [policy_store]; [constructor|].
  apply Forall_app. split; [now apply policy_tiles_wf|apply IH].
Qed.

(** A store filled by [generateLookups] holds every tile under each of its
    lookup values. *)
Lemma generateLookups_store_complete (L : layout) (pieces : pieceVector) :
  layout_ok L -> Forall (piece_fits L) pieces -> Z.of_nat (length pieces) < 2 ^ 64 ->
  store_complete L (generateLookups L pieces lookups_empty).
Proof.
  intros HL Hfit Hlen. unfold generateLookups.
  rewrite (generateLookups_store_fold L pieces 0 0 lookups_empty false Hfit);
    try reflexivity; try lia.
  apply store_complete_insert_range; [exact HL|]. now apply policy_store_wf.
Qed.

(** X27: the backtracker misses no solution.  Let every tile of the store be
    found under each of its lookup values (as in a store filled by
    [insert]), and let the tiles [a] tile the whole board: neighbours agree
    on the side they share, a side has pattern zero exactly on a border of
    the board type, and no piece is used twice nor is in the starting mask.
    Then [solve_for], started at the first placement without the print
    option, returns after calling [complete()] on a board that holds exactly
    the tiles [a]. *)
Theorem solve_for_finds_every_tiling (L : layout) (lookups : tileArrayLookup)
    (addr w h : nat) (value : type) (qt : bool) (m0 : mask_type) (a : list nat) (wd : world) :
  layout_ok L -> store_inv L lookups -> store_complete L lookups ->
  board_inv L lookups addr w h value false qt [] (w_board wd) ->
  (0 < w * h)%nat -> length a = (w * h)%nat ->
  fits_exactly lookups w h value a -> pieces_distinct lookups m0 a ->
  exists wd',
    solve_for L lookups complete (w * h) (PCell addr 0) m0 wd = Done wd' /\
    In (Completed (Some <$> a)) (w_events wd').
Proof.
  intros HL Hstore Hall Hinv Hwh Hlen Hfit Hdist.
  destruct (solve_for_search L HL lookups Hstore addr w h value false qt complete
              (complete_complete_ok L lookups addr w h value false qt)
              (w * h) (w * h) [] m0 wd (Nat.le_refl _) Hwh eq_refl
              (List.Forall_nil _) Hinv) as (wd' & Ho & He & _).
  rewrite search_without_print in Ho. cbn [length] in Ho.
  exists wd'. split; [exact Ho|].
  rewrite He. apply in_or_app. left. apply in_rev. rewrite rev_involutive.
  apply (search_finds L lookups Hall addr w h value qt a m0 Hlen Hfit Hdist
           (w * h) [] m0); [reflexivity|exact Hwh|reflexivity|reflexivity].
Qed.

Lemma solve_for_finds_every_tiling_witness :
  let L := e8.lookup_1x1 in
  let lookups := generateLookups L test_pieces lookups_empty in
  let a := [0; 48; 41; 56; 28; 39; 32; 54; 12; 21; 19; 27; 44; 6; 3; 11]%nat in
  exists wd',
    solve_for L lookups complete (4 * 4) (PCell 0 0) 0 (world_of (board_new L 0 4 4)) = Done wd' /\
    In (Completed (Some <$> a)) (w_events wd').
Proof.
  intros L lookups a.
  apply (solve_for_finds_every_tiling L lookups 0 4 4 typeNormal false 0 a
           (world_of (board_new L 0 4 4)) e8_layout_ok test_store_inv
           (generateLookups_store_complete L test_pieces e8_layout_ok test_pieces_fit
              ltac:(cbn; lia))).
  - apply board_new_inv, e8_layout_ok.
  - lia.
  - reflexivity.
  - intros x y Hx Hy _.
    do 4 (destruct x as [|x]; [do 4 (destruct y as [|y];
      [vm_compute; repeat split; intros; try (eexists; reflexivity); try lia; try discriminate;
       try match goal with H : _ /\ _ |- _ => destruct H; try lia; try discriminate end|]); lia|]).
    lia.
  - unfold a. repeat (apply pieces_distinct_cons; [vm_compute; reflexivity|]).
    apply pieces_distinct_nil.
Defined.

(** ** boardv.h: the store a vertical board fills *)

Lemma insert_tiles (L : layout) (t : tile) (s : tileArrayLookup) :
  tiles_ (insert L t s) = tiles_ s ++ [t].
Proof.
  unfold insert. cbv zeta.
  repeat match goal with
  | |- context [if ?b then _ else _] => destruct b
  end; rewrite ?insert_or_assign_tiles; reflexivity.
Qed.

Section VerticalStore.
Variables Lin Lout : layout.
Hypothesis HL : layout_ok Lin.
Variable lookups : tileArrayLookup.
Hypothesis Hstore : store_inv Lin lookups.
Hypothesis Hnw : forall q u, tiles_ lookups !! q = Some u -> no_wildcard Lin u.

Local Abbreviation vc := (vertical_complete Lin Lout lookups).
Local Abbreviation tracked := (emitted Lin Lout lookups).
Local Abbreviation outs := (outputs Lin Lout lookups).
Local Abbreviation good := (fun out => Forall (vertical_pair Lin Lout lookups) (tiles_ out)).

Lemma vertical_complete_emits (wd wd' : world) :
  vc wd = Done wd' ->
  w_events wd' = w_events wd /\
  w_output wd' = emit Lin Lout lookups (held_tiles (w_board wd)) (w_output wd).
Proof.
  unfold vertical_complete, held_pair, at_ptr, emit, held_tiles.
  rewrite !deref_cell, !list_lookup_fmap.
  change (at_index (height_ (w_board wd)) 0 0) with 0%nat.
  change (at_index (height_ (w_board wd)) 0 1) with 1%nat.
  destruct (placements_ (w_board wd) !! 0%nat) as [p0|]; [|discriminate].
  destruct (placements_ (w_board wd) !! 1%nat) as [p1|]; [|discriminate].
  cbn [mbind option_bind fmap option_fmap option_map].
  destruct (pl_tile p0) as [q0|]; [|discriminate].
  destruct (pl_tile p1) as [q1|]; [|discriminate].
  cbn [mbind option_bind].
  destruct (tiles_ lookups !! q0) as [t0|]; [|discriminate].
  destruct (tiles_ lookups !! q1) as [t1|]; [|discriminate].
  cbn [mbind option_bind]. intros [= <-]. split; reflexivity.
Qed.

Lemma emitted_refl (wd : world) : tracked wd wd.
Proof. exists []. split; reflexivity. Qed.

Lemma emitted_trans (wd1 wd2 wd3 : world) :
  tracked wd1 wd2 -> tracked wd2 wd3 -> tracked wd1 wd3.
Proof.
  intros (n1 & E1 & O1) (n2 & E2 & O2). exists (n2 ++ n1). split.
  - rewrite E2, E1. now rewrite app_assoc.
  - rewrite O2, O1. unfold outputs. now rewrite foldr_app.
Qed.

Lemma try_tile_emits (rec : pptr -> mask_type -> world -> outcome)
    (p : pptr) (m : mask_type) (t : nat) (wd wd' : world) :
  (forall p' m' wd1 wd2, rec p' m' wd1 = Done wd2 -> tracked wd1 wd2) ->
  try_tile Lin lookups vc rec p m t wd = Done wd' -> tracked wd wd'.
Proof.
  intros IH. unfold try_tile.
  destruct (tiles_ lookups !! t) as [tl|]; [|discriminate]. cbv zeta.
  destruct (mask_and m (mask tl)).
  { intros [= <-]. exists [Visit p t]. split; reflexivity. }
  cbn [w_board log].
  destruct (place Lin t tl p (w_board wd)) as [[next b]|]; [|discriminate].
  assert (Hrec : forall next', rec next' (copyCombine m (mask tl))
                        (with_board b (log (Visit p t) wd)) = Done wd' -> tracked wd wd').
  { intros next' H. apply IH in H. eapply emitted_trans; [|exact H].
    exists [Visit p t]. split; reflexivity. }
  destruct next as [|o|o i]; [|apply Hrec..].
  destruct (print_ b).
  - unfold print_solution. cbn [w_board with_board log w_output w_stdout w_events].
    destruct (mapM _ _) as [printed|]; [|discriminate].
    destruct (quit_ b); [discriminate|]. intros [= <-].
    exists [Printed (held_tiles b); Visit p t]. split; reflexivity.
  - intros H. apply vertical_complete_emits in H. destruct H as [He Ho].
    exists [Completed (held_tiles b); Visit p t]. split; [exact He|exact Ho].
Qed.

Lemma iterate_emits (rec : pptr -> mask_type -> world -> outcome)
    (p : pptr) (m : mask_type) (tiles : list nat) :
  (forall p' m' wd1 wd2, rec p' m' wd1 = Done wd2 -> tracked wd1 wd2) ->
  forall i wd wd', iterate Lin lookups vc rec p m tiles i wd = Done wd' -> tracked wd wd'.
Proof.
  intros IH. induction i as [|i IHi]; intros wd wd'.
  - intros [= <-]. apply emitted_refl.
  - cbn [iterate]. destruct (tiles !! i) as [t|]; [|discriminate].
    destruct (try_tile _ _ _ _ _ _ _ _) as [wd1| | |] eqn:Ht; try discriminate.
    cbn [and_then]. intros H.
    eapply emitted_trans; [exact (try_tile_emits rec p m t wd wd1 IH Ht)|].
    now apply IHi.
Qed.

Lemma solve_for_emits (fuel : nat) :
  forall p m wd wd', solve_for Lin lookups vc fuel p m wd = Done wd' -> tracked wd wd'.
Proof.
  induction fuel as [|fuel IH]; intros p m wd wd'; [discriminate|].
  cbn [solve_for]. destruct (deref (w_board wd) p) as [this|]; [|discriminate].
  cbv zeta. now apply iterate_emits.
Qed.

(** A solution of a 1 by 2 board gives the output store a tile made of two
    tiles of the store. *)
Lemma outputs_good (value : type) (new : list event) (out : tileArrayLookup) :
  Forall (event_ok lookups 1 2 value 0) new -> good out -> good (outs new out).
Proof.
  intros Hnew Hout. induction Hnew as [|e new He _ IH]; [exact Hout|].
  cbn [outputs foldr]. fold (outs new out).
  destruct e as [p t|held|held]; try exact IH.
  destruct He as (a & -> & Hlen & Hfit & _ & Hd).
  destruct a as [|q0 [|q1 [|? ?]]]; try discriminate.
  unfold emit. cbn [fmap list_fmap lookup list_lookup].
  destruct (Hfit 0%nat 0%nat ltac:(lia) ltac:(lia) ltac:(cbn; lia)) as ([t0 Ht0] & _).
  destruct (Hfit 0%nat 1%nat ltac:(lia) ltac:(lia) ltac:(cbn; lia))
    as ([t1 Ht1] & _ & Htop & _).
  cbn [at_index nth Nat.mul Nat.add Nat.sub] in Ht0, Ht1, Htop.
  specialize (Htop ltac:(lia)).
  specialize (Hd 0%nat 1%nat q0 q1 ltac:(lia) eq_refl eq_refl).
  unfold tile_of, tile_at in Htop, Hd. rewrite Ht0, Ht1 in Htop, Hd.
  rewrite Ht0, Ht1, insert_tiles. apply Forall_app. split; [exact IH|].
  constructor; [|constructor].
  exists q0, q1, t0, t1. repeat split; auto.
Qed.

(** One board of the nine: its solve returns, and the output store stays
    good. *)
Lemma composition_board_run (addr : nat) (value : type) (b : board) (wd : world) :
  board_inv Lin lookups addr 1 2 value false false [] b ->
  good (w_output wd) ->
  exists wd', solve_for Lin lookups vc (depth b) (at_ptr b 0 0) 0 (with_board b wd) = Done wd' /\
              good (w_output wd').
Proof.
  intros Hinv Hgood.
  assert (Hd : depth b = (1 * 2)%nat)
    by (unfold depth; exact (proj1 (proj2 (proj2 (proj2 (proj2 (proj2 Hinv))))))).
  unfold at_ptr. rewrite Hd, (proj1 Hinv). change (at_index (height_ b) 0 0) with 0%nat.
  destruct (solve_for_search Lin HL lookups Hstore addr 1 2 value false false vc
              (vertical_complete_ok Lin Lout lookups addr value false false)
              (1 * 2) (1 * 2) [] 0 (with_board b wd) (Nat.le_refl _) ltac:(lia) eq_refl
              (List.Forall_nil _) Hinv) as (wd' & Ho & He & _).
  cbn [length] in Ho. rewrite search_without_print in Ho.
  exists wd'. split; [exact Ho|].
  destruct (solve_for_emits _ _ _ _ _ Ho) as (new & Hnew & Hout).
  rewrite He in Hnew. apply app_inv_tail in Hnew. subst new.
  rewrite Hout. apply (outputs_good value); [|exact Hgood].
  apply List.Forall_rev.
  apply (search_ok Lin HL lookups Hstore addr 1 2 value false false Hnw 0 (1 * 2) [] 0
           eq_refl (fits_nil lookups 1 2 value) (List.Forall_nil _)
           (masks_ok_nil lookups 0) eq_refl).
Qed.

Local Abbreviation ready b :=
  (exists addr value, board_inv Lin lookups addr 1 2 value false false [] b).

Lemma composition_boards (tys : list type) :
  forall (this : board) (boards : list board) (addr : nat) (v0 : type),
    board_inv Lin lookups addr 1 2 v0 false false [] this -> Forall (fun b => ready b) boards ->
    Forall (fun b => ready b)
      (snd (fold_left
              (fun '(this, boards) ty =>
                 let this := setType Lin ty this in
                 (this, boards ++ [board_copy Lin (node_addr (self this) (length boards)) this]))
              tys (this, boards))).
Proof.
  induction tys as [|ty tys IH]; intros this boards addr v0 Hthis Hboards; [exact Hboards|].
  cbn [fold_left]. cbv zeta.
  pose proof (setType_inv Lin HL lookups 1 2 addr v0 ty false false this Hthis) as Hset.
  apply (IH _ _ addr ty Hset). apply Forall_app. split; [exact Hboards|].
  constructor; [|constructor].
  eexists _, ty. apply (board_copy_state Lin HL lookups 1 2 addr). exact Hset.
Qed.

Lemma composition_runs (boards : list board) :
  Forall (fun b => ready b) boards ->
  forall wd, good (w_output wd) ->
  exists wd',
    fold_left
      (fun o b =>
         and_then o (fun w =>
           solve_for Lin lookups vc (depth b) (at_ptr b 0 0) 0 (with_board b w)))
      boards (Done wd) = Done wd' /\ good (w_output wd').
Proof.
  induction 1 as [|b boards (addr & value & Hb) _ IH]; intros wd Hgood.
  - exists wd. split; [reflexivity|exact Hgood].
  - cbn [fold_left and_then].
    destruct (composition_board_run addr value b wd Hb Hgood) as (wd1 & -> & Hg1).
    exact (IH wd1 Hg1).
Qed.
End VerticalStore.

(** X28: for an input store built by insert none of whose tiles has the
    reserved pattern (all bits set) on its right or bottom side, the solve of
    a vertical board returns, threaded or not, and every tile of the store it
    fills is made by [complete()] of two tiles of the input store, the first
    above the second, that agree on the side they share (the bottom pattern
    of the upper tile is the top pattern of the lower one) and have no piece
    in common. *)
Theorem vertical_store_sound (Lin Lout : layout) (lookups : tileArrayLookup) (th : bool) :
  layout_ok Lin -> store_inv Lin lookups ->
  (forall q u, tiles_ lookups !! q = Some u -> no_wildcard Lin u) ->
  exists out,
    verticalBoard_output Lin Lout lookups th = Some out /\
    forall u, In u (tiles_ out) -> vertical_pair Lin Lout lookups u.
Proof.
  intros HL Hstore Hnw. unfold verticalBoard_output, composition_solve.
  set (b0 := setThreaded th (board_new Lin 0 1 2)).
  assert (Hb0 : board_inv Lin lookups 0 1 2 typeNormal false false [] b0)
    by (apply (setThreaded_state Lin lookups 1 2 0 typeNormal false false th),
          board_new_inv, HL).
  pose proof (composition_boards Lin HL lookups composition_types b0 [] 0 typeNormal Hb0
                (List.Forall_nil _)) as Hboards.
  cbn [w_board world_of].
  destruct (fold_left _ composition_types (b0, [])) as [this boards].
  cbn [snd] in Hboards.
  destruct (composition_runs Lin Lout HL lookups Hstore Hnw boards Hboards
              (with_board this (world_of b0)) (List.Forall_nil _)) as (wd' & Ho & Hgood).
  rewrite Ho. cbn [and_then w_output with_board].
  exists (w_output wd'). split; [reflexivity|].
  intros u Hu. rewrite List.Forall_forall in Hgood. exact (Hgood u Hu).
Qed.

Lemma vertical_store_sound_witness :
  exists out,
    verticalBoard_output e8.lookup_1x1 e8.lookup_1x2
      (generateLookups e8.lookup_1x1 test_pieces lookups_empty) false = Some out /\
    forall u, In u (tiles_ out) ->
      vertical_pair e8.lookup_1x1 e8.lookup_1x2
        (generateLookups e8.lookup_1x1 test_pieces lookups_empty) u.
Proof.
  apply vertical_store_sound.
  - exact e8_layout_ok.
  - exact test_store_inv.
  - exact test_store_no_wildcard.
Defined.

(** ** board.h: [solve()] on boards too small for it *)

(** X29: [solve()] starts with [placements_.at( 0 )], which a board without
    placements does not have; and the threaded branch hands each worker the
    placement [place] returns, which is null when the board has a single
    placement: with a tile to try at that placement the worker's
    [solve_for] reads through the null pointer, where the sequential solve
    of the same board returns. *)
Theorem solve_needs_placements (L : layout) (lookups : tileArrayLookup) (addr : nat)
    (value : type) (qt : bool) (wd : world) :
  layout_ok L -> store_inv L lookups ->
  (placements_ (w_board wd) = [] -> solve L lookups wd = Fault) /\
  (board_inv L lookups addr 1 1 value false qt [] (w_board wd) ->
   lookups_at lookups (cell_key L lookups 1 1 value []) <> [] ->
   (threaded_ (w_board wd) = true -> solve L lookups wd = Fault) /\
   (threaded_ (w_board wd) = false -> exists wd', solve L lookups wd = Done wd')).
Proof.
  intros HL Hstore. split.
  - intros Hnil. unfold solve. cbv zeta. now rewrite Hnil.
  - intros Hinv Hne.
    destruct (cell_key_spec L lookups addr 1 1 value false qt [] (w_board wd) Hinv
                ltac:(cbn; lia)) as (c & Hc & Hkey).
    cbn [length] in Hc. split; intros Hth.
    + unfold solve. cbv zeta. rewrite Hc, Hth. cbn [negb]. rewrite Hkey.
      set (tiles := lookups_at lookups (cell_key L lookups 1 1 value [])) in *.
      destruct (length tiles) as [|i] eqn:El.
      { destruct tiles; [congruence|discriminate]. }
      destruct (lookup_lt_is_Some_2 tiles i ltac:(lia)) as [t Ht].
      destruct (Hstore _ t (list_elem_of_lookup_2 _ _ _ Ht)) as (tl & Htl & Hwf & _).
      cbn [solve_workers]. rewrite Ht, Htl. cbv zeta. cbn [length].
      set (addr' := node_addr (self (w_board wd)) 0).
      set (b := board_copy L addr' (w_board wd)).
      assert (Hb : board_inv L lookups addr' 1 1 value false qt [] b)
        by (apply (board_copy_state L HL lookups 1 1 addr addr'); exact Hinv).
      destruct (place_spec L HL lookups addr' 1 1 value false qt [] t tl b Hb
                  ltac:(cbn; lia) Htl Hwf) as (b' & Hplace & Hb' & _).
      cbn [length Nat.ltb Nat.leb Nat.mul Nat.add] in Hplace.
      assert (Eat : at_ptr b 0 0 = PCell addr' 0).
      { unfold at_ptr. now rewrite (proj1 Hb). }
      rewrite Eat, Hplace.
      assert (Hd : depth b' = 1%nat)
        by (unfold depth; exact (proj1 (proj2 (proj2 (proj2 (proj2 (proj2 Hb'))))))).
      rewrite Hd. reflexivity.
    + unfold solve. cbv zeta. rewrite Hc, Hth. cbn [negb].
      assert (Hd : depth (w_board wd) = (1 * 1)%nat)
        by (unfold depth; exact (proj1 (proj2 (proj2 (proj2 (proj2 (proj2 Hinv))))))).
      rewrite Hd, (proj1 Hinv).
      exact (solve_for_without_print L lookups addr 1 1 value qt complete 0 wd HL Hstore
               (complete_complete_ok L lookups addr 1 1 value false qt) ltac:(lia) Hinv).
Qed.

Lemma solve_needs_placements_witness :
  let L := e8.lookup_1x1 in
  let lookups := insert_range L [Tile 0 0 0 0 1 0] lookups_empty in
  solve L lookups (world_of (setThreaded true (board_new L 0 1 1))) = Fault.
Proof.
  intros L lookups.
  assert (HL : layout_ok L) by (unfold layout_ok; simpl; lia).
  assert (Hts : Forall (tile_wf L) [Tile 0 0 0 0 1 0]).
  { repeat apply List.Forall_cons; try apply List.Forall_nil; unfold tile_wf; simpl; lia. }
  destruct (store_complete_insert_range L [Tile 0 0 0 0 1 0] HL Hts) as [Hinv _].
  refine (proj1 (proj2 (solve_needs_placements L lookups 0 typeNormal false
                          (world_of (setThreaded true (board_new L 0 1 1))) HL Hinv)
                   _ _) eq_refl).
  - apply (setThreaded_state L lookups 1 1 0 typeNormal false false true), board_new_inv, HL.
  - vm_compute. discriminate.
Defined.
